(** * SHG-FROG phase retrieval: a shallow embedding of
      [shg_frog/model/phase_retrieval.py]

    The Python module works on NumPy arrays of IEEE doubles.  The embedding
    keeps the structure of the code (the same functions, the same sequence of
    array operations, the same control flow) and makes two idealisations,
    used consistently below:

    - a finite floating-point number is a real number ([R]); rounding,
      overflow and underflow are not modelled;
    - the IEEE special values that the code can produce by dividing by zero
      are kept: see [npfloat] and [npfield].

    Python exceptions are values of [res]. *)

From Stdlib Require Import Reals Lra Lia ZArith List Bool Permutation.
From Stdlib Require String Ascii Decimal DecimalString DecimalNat.
Import String.StringSyntax.
Import ListNotations.
Delimit Scope string_scope with string.

Open Scope R_scope.

(** ** Complex numbers *)

Definition C : Type := (R * R)%type.

Definition RtoC (x : R) : C := (x, 0).
Definition Ci : C := (0, 1).
Definition Cre (z : C) : R := fst z.
Definition Cim (z : C) : R := snd z.
Definition Cplus (a b : C) : C := (fst a + fst b, snd a + snd b).
Definition Copp (a : C) : C := (- fst a, - snd a).
Definition Cminus (a b : C) : C := Cplus a (Copp b).
Definition Cmult (a b : C) : C :=
  (fst a * fst b - snd a * snd b, fst a * snd b + snd a * fst b).
Definition Cconj (a : C) : C := (fst a, - snd a).
(** [z * x] and [z / x] for a complex [z] and a real [x]. *)
Definition Cscal (x : R) (z : C) : C := (x * fst z, x * snd z).
Definition Cdivr (z : C) (x : R) : C := (fst z / x, snd z / x).
(** Squared modulus and modulus ([np.absolute]). *)
Definition Cnorm2 (z : C) : R := fst z * fst z + snd z * snd z.
Definition Cmod (z : C) : R := sqrt (Cnorm2 z).
(** [e^{i t}]. *)
Definition cis (t : R) : C := (cos t, sin t).

Declare Scope C_scope.
Delimit Scope C_scope with C.
Bind Scope C_scope with C.
Notation "0" := (RtoC 0) : C_scope.
Notation "1" := (RtoC 1) : C_scope.
Infix "+" := Cplus : C_scope.
Infix "-" := Cminus : C_scope.
Infix "*" := Cmult : C_scope.
Notation "- x" := (Copp x) : C_scope.

Ltac Cunf :=
  unfold Cminus, Cplus, Copp, Cmult, Cconj, Cscal, Cdivr, Cnorm2, RtoC, Ci,
    Cre, Cim in *; simpl fst in *; simpl snd in *.

(** Equality of complex numbers by components, closed by [ring] or [field]. *)
Ltac Ceq := Cunf; f_equal; try ring.

(** ** Python values and exceptions *)

Inductive exn : Type :=
| ValueError | TypeError | IndexError | ZeroDivisionError | OverflowError
| LinAlgError.

(** The outcome of a call: a returned value or a raised exception. *)
Inductive res (A : Type) : Type :=
| Ret (a : A)
| Raise (e : exn).
Arguments Ret {A} a.
Arguments Raise {A} e.

Definition bind {A B : Type} (m : res A) (k : A -> res B) : res B :=
  match m with
  | Ret a => k a
  | Raise e => Raise e
  end.

Notation "x <- m ;; k" := (bind m (fun x => k))
  (at level 61, m at next level, right associativity).
Notation "' p <- m ;; k" := (bind m (fun x => match x with p => k end))
  (at level 61, p pattern, m at next level, right associativity).

(** A Python number is an [int] or a float; [np.floor] and [np.ceil] return
    floats, [int(...)] converts, and [range] accepts only integers. *)
Inductive pynum : Type :=
| PyInt (z : Z)
| PyFloat (x : R).

Definition py_val (v : pynum) : R :=
  match v with
  | PyInt z => IZR z
  | PyFloat x => x
  end.

Definition py_plus (v : pynum) (k : Z) : pynum :=
  match v with
  | PyInt z => PyInt (z + k)
  | PyFloat x => PyFloat (x + IZR k)
  end.

Definition Ztrunc (x : R) : Z := if Rlt_dec x 0 then Zceil x else Zfloor x.

Definition py_int (v : pynum) : Z :=
  match v with
  | PyInt z => z
  | PyFloat x => Ztrunc x
  end.

Definition np_floor (x : R) : pynum := PyFloat (IZR (Zfloor x)).
Definition np_ceil (x : R) : pynum := PyFloat (IZR (Zceil x)).

(** [operator.index]: what [range] applies to its arguments. *)
Definition py_index (v : pynum) : res Z :=
  match v with
  | PyInt z => Ret z
  | PyFloat _ => Raise TypeError
  end.

Definition range_Z (a b : Z) : list Z :=
  map (fun k => (a + Z.of_nat k)%Z) (seq 0 (Z.to_nat (b - a))).

Definition py_range (a b : pynum) : res (list Z) :=
  a' <- py_index a ;;
  b' <- py_index b ;;
  Ret (range_Z a' b').

(** [N/2.] for the integer [N]. *)
Definition half (N : nat) : R := INR N / 2.

(** ** Floating-point values with the IEEE special values

    Signed zeros are not distinguished: a zero divisor is taken as [+0]. *)

Inductive npfloat : Type :=
| Fin (x : R)
| PInf
| NInf
| NaN.

Definition np_neg (a : npfloat) : npfloat :=
  match a with
  | Fin x => Fin (- x)
  | PInf => NInf
  | NInf => PInf
  | NaN => NaN
  end.

Definition np_add (a b : npfloat) : npfloat :=
  match a, b with
  | NaN, _ | _, NaN => NaN
  | Fin x, Fin y => Fin (x + y)
  | PInf, NInf | NInf, PInf => NaN
  | PInf, _ | _, PInf => PInf
  | NInf, _ | _, NInf => NInf
  end.

Definition np_sub (a b : npfloat) : npfloat := np_add a (np_neg b).

(** The sign of a real number as an infinity, [NaN] at zero. *)
Definition inf_of_sign (x : R) : npfloat :=
  if Req_EM_T x 0 then NaN else if Rlt_dec 0 x then PInf else NInf.

Definition np_mul (a b : npfloat) : npfloat :=
  match a, b with
  | NaN, _ | _, NaN => NaN
  | Fin x, Fin y => Fin (x * y)
  | PInf, Fin y | Fin y, PInf => inf_of_sign y
  | NInf, Fin y | Fin y, NInf => inf_of_sign (- y)
  | PInf, PInf | NInf, NInf => PInf
  | PInf, NInf | NInf, PInf => NInf
  end.

Definition np_div (a b : npfloat) : npfloat :=
  match a, b with
  | NaN, _ | _, NaN => NaN
  | Fin x, Fin y => if Req_EM_T y 0 then inf_of_sign x else Fin (x / y)
  | Fin _, (PInf | NInf) => Fin 0
  | PInf, Fin y => if Rlt_dec y 0 then NInf else PInf
  | NInf, Fin y => if Rlt_dec y 0 then PInf else NInf
  | (PInf | NInf), (PInf | NInf) => NaN
  end.

Definition np_sqrt (a : npfloat) : npfloat :=
  match a with
  | Fin x => if Rlt_dec x 0 then NaN else Fin (sqrt x)
  | PInf => PInf
  | NInf | NaN => NaN
  end.

Definition np_abs (a : npfloat) : npfloat :=
  match a with
  | Fin x => Fin (Rabs x)
  | PInf | NInf => PInf
  | NaN => NaN
  end.

Definition np_square (a : npfloat) : npfloat := np_mul a a.

(** [a > b]: false as soon as one side is [NaN]. *)
Definition np_gtb (a b : npfloat) : bool :=
  match a, b with
  | NaN, _ | _, NaN => false
  | Fin x, Fin y => if Rlt_dec y x then true else false
  | PInf, (Fin _ | NInf) => true
  | Fin _, NInf => true
  | _, _ => false
  end.

(** [a != 0] *)
Definition np_nonzero (a : npfloat) : bool :=
  match a with
  | Fin x => if Req_EM_T x 0 then false else true
  | _ => true
  end.

Definition is_fin (a : npfloat) : option R :=
  match a with
  | Fin x => Some x
  | _ => None
  end.

(** [int(round(x))] on a float: round half to even; [ValueError] on NaN and
    [OverflowError] on an infinity. *)
Definition round_half_even (x : R) : Z :=
  let f := Zfloor x in
  if Rlt_dec (x - IZR f) (1 / 2) then f
  else if Rlt_dec (1 / 2) (x - IZR f) then (f + 1)%Z
  else if Z.even f then f else (f + 1)%Z.

Definition py_int_round (a : npfloat) : res Z :=
  match a with
  | Fin x => Ret (round_half_even x)
  | NaN => Raise ValueError
  | PInf | NInf => Raise OverflowError
  end.

(** ** Arrays

    A NumPy array is a list (a matrix is the list of its rows).  Each NumPy
    primitive is defined by the entry it puts at every index. *)

Definition vec : Type := list C.
Definition mat (A : Type) : Type := list (list A).

Definition mk_vec {A : Type} (n : nat) (f : nat -> A) : list A :=
  map f (seq 0 n).

Definition mk_mat {A : Type} (r c : nat) (f : nat -> nat -> A) : mat A :=
  mk_vec r (fun i => mk_vec c (f i)).

Definition nrows {A : Type} (m : mat A) : nat := length m.
(** [len(m[0])] *)
Definition ncols {A : Type} (m : mat A) : nat := length (hd [] m).

Definition nth2 {A : Type} (d : A) (m : mat A) (i j : nat) : A :=
  nth j (nth i m []) d.

Definition vget (v : vec) (i : nat) : C := nth i v 0%C.
Definition mget (m : mat C) (i j : nat) : C := nth2 0%C m i j.

(** An array of shape [(r, c)]. *)
Definition has_shape {A : Type} (r c : nat) (m : mat A) : Prop :=
  length m = r /\ Forall (fun row => length row = c) m.

Fixpoint map2 {A B D : Type} (f : A -> B -> D) (l1 : list A) (l2 : list B)
  : list D :=
  match l1, l2 with
  | a :: l1', b :: l2' => f a b :: map2 f l1' l2'
  | _, _ => []
  end.

(** Elementwise operation on two arrays of the same shape. *)
Definition mat_map2 {A B D : Type} (f : A -> B -> D) (a : mat A) (b : mat B)
  : mat D :=
  map2 (map2 f) a b.

Definition mat_map {A B : Type} (f : A -> B) (a : mat A) : mat B :=
  map (map f) a.

(** The index [z] taken modulo [n]. *)
Definition wrap (n : nat) (z : Z) : nat := Z.to_nat (z mod Z.of_nat n).

(** [np.roll(v, s)]: the entry at [i] moves to [(i + s) mod n]. *)
Definition np_roll {A : Type} (d : A) (v : list A) (s : Z) : list A :=
  mk_vec (length v) (fun i => nth (wrap (length v) (Z.of_nat i - s)) v d).

(** [np.roll(m, s, 0)] and [np.roll(m, s, 1)] *)
Definition roll_axis0 {A : Type} (m : mat A) (s : Z) : mat A := np_roll [] m s.
Definition roll_axis1 {A : Type} (d : A) (m : mat A) (s : Z) : mat A :=
  map (fun r => np_roll d r s) m.

Definition fliplr {A : Type} (m : mat A) : mat A := map (@rev A) m.
Definition flipud {A : Type} (m : mat A) : mat A := rev m.

Definition transpose {A : Type} (d : A) (m : mat A) : mat A :=
  mk_mat (ncols m) (nrows m) (fun i j => nth2 d m j i).

(** [np.fft.fftshift(m, 1)] and [np.fft.ifftshift(m, 1)]: a roll of every
    row by [n // 2], respectively [-(n // 2)]. *)
Definition fftshift_axis1 {A : Type} (d : A) (m : mat A) : mat A :=
  map (fun r => np_roll d r (Z.of_nat (length r / 2))) m.
Definition ifftshift_axis1 {A : Type} (d : A) (m : mat A) : mat A :=
  map (fun r => np_roll d r (- Z.of_nat (length r / 2))) m.

(** [np.fft.fftshift(m)] and [np.fft.ifftshift(m)] over both axes. *)
Definition fftshift2 {A : Type} (d : A) (m : mat A) : mat A :=
  fftshift_axis1 d (roll_axis0 m (Z.of_nat (nrows m / 2))).
Definition ifftshift2 {A : Type} (d : A) (m : mat A) : mat A :=
  ifftshift_axis1 d (roll_axis0 m (- Z.of_nat (nrows m / 2))).

(** [np.outer(a, b)] *)
Definition outer (a b : vec) : mat C :=
  mk_mat (length a) (length b) (fun i j => (vget a i * vget b j)%C).

(** [np.tril(m, k)] keeps the entries with [j - i <= k], [np.triu(m, k)]
    those with [j - i >= k]; [k] may be a float. *)
Definition np_tril (m : mat C) (k : R) : mat C :=
  mk_mat (nrows m) (ncols m)
    (fun i j => if Rle_dec (INR j - INR i) k then mget m i j else 0%C).
Definition np_triu (m : mat C) (k : R) : mat C :=
  mk_mat (nrows m) (ncols m)
    (fun i j => if Rle_dec k (INR j - INR i) then mget m i j else 0%C).

(** Sums. *)
Definition Csum (l : list C) : C := fold_right Cplus 0%C l.
Definition bigsum (n : nat) (f : nat -> C) : C := Csum (map f (seq 0 n)).
Definition Rsum (l : list R) : R := fold_right Rplus 0 l.

(** [e^{2 pi i z / N}] *)
Definition omega (N : nat) (z : Z) : C := cis (2 * PI * IZR z / INR N).

(** The discrete Fourier sum with sign [sgn] in the exponent:
    [sum_n x[n] e^{sgn 2 pi i k n / N}]. *)
Definition dft (sgn : Z) (N : nat) (x : nat -> C) (k : nat) : C :=
  bigsum N (fun n => (x n * omega N (sgn * Z.of_nat k * Z.of_nat n))%C).

(** [np.fft.fft(v, axis=0)] and [np.fft.ifft(v, axis=0)] on a vector;
    NumPy refuses a transform of length 0. *)
Definition np_fft (v : vec) : res vec :=
  let N := length v in
  if (N =? 0)%nat then Raise ValueError
  else Ret (mk_vec N (dft (-1) N (vget v))).

Definition np_ifft (v : vec) : res vec :=
  let N := length v in
  if (N =? 0)%nat then Raise ValueError
  else Ret (mk_vec N (fun k => Cdivr (dft 1 N (vget v) k) (INR N))).

(** [np.fft.fft(m, None, axis=0)] and [np.fft.ifft(m, None, axis=0)]:
    the transform of every column. *)
Definition fft_axis0 (m : mat C) : res (mat C) :=
  let M := nrows m in
  if (M =? 0)%nat then Raise ValueError
  else Ret (mk_mat M (ncols m) (fun k j => dft (-1) M (fun n => mget m n j) k)).

Definition ifft_axis0 (m : mat C) : res (mat C) :=
  let M := nrows m in
  if (M =? 0)%nat then Raise ValueError
  else Ret (mk_mat M (ncols m)
              (fun k j => Cdivr (dft 1 M (fun n => mget m n j) k) (INR M))).

(** The transform of every row. *)
Definition fft_axis1 (m : mat C) : res (mat C) :=
  let N := ncols m in
  if (N =? 0)%nat then Raise ValueError
  else Ret (mk_mat (nrows m) N (fun i l => dft (-1) N (fun n => mget m i n) l)).

Definition ifft_axis1 (m : mat C) : res (mat C) :=
  let N := ncols m in
  if (N =? 0)%nat then Raise ValueError
  else Ret (mk_mat (nrows m) N
              (fun i l => Cdivr (dft 1 N (fun n => mget m i n) l) (INR N))).

(** [np.fft.fft2] and [np.fft.ifft2]: last axis first, then axis 0. *)
Definition fft2 (m : mat C) : res (mat C) :=
  a <- fft_axis1 m ;; fft_axis0 a.
Definition ifft2 (m : mat C) : res (mat C) :=
  a <- ifft_axis1 m ;; ifft_axis0 a.

(** [np.dot(m, v)]; the shapes must be aligned. *)
Definition dot (a b : vec) : C := Csum (map2 Cmult a b).
Definition matvec (m : mat C) (v : vec) : res vec :=
  if (ncols m =? length v)%nat then Ret (map (fun row => dot row v) m)
  else Raise ValueError.

(** [np.conjugate(np.transpose(m))] *)
Definition ctranspose (m : mat C) : mat C := mat_map Cconj (transpose 0%C m).

(** [np.linalg.norm(v)] *)
Definition np_norm (v : vec) : R := sqrt (Rsum (map Cnorm2 v)).

(** [np.square(np.absolute(EF))] *)
Definition abs2 (EF : mat C) : mat R :=
  mat_map (fun z => Cmod z * Cmod z) EF.

(** ** Module-level functions *)

Definition lift (m : mat R) : mat npfloat := mat_map Fin m.

Definition np_sum (m : mat npfloat) : npfloat :=
  fold_right np_add (Fin 0) (concat m).

(** [np.mean]: the sum over the number of entries ([NaN] on an empty array). *)
Definition np_mean (m : mat npfloat) : npfloat :=
  np_div (np_sum m) (Fin (INR (length (concat m)))).

(** [np.amax]; NumPy refuses an empty array. *)
Definition np_amax (arr : mat R) : res R :=
  match concat arr with
  | [] => Raise ValueError
  | x :: l => Ret (fold_left Rmax l x)
  end.

(** [np.amin] *)
Definition np_amin (arr : mat R) : res R :=
  match concat arr with
  | [] => Raise ValueError
  | x :: l => Ret (fold_left Rmin l x)
  end.

(** [result = np.sqrt(np.mean(np.square(F1-F2)))] *)
Definition rms_diff (F1 F2 : mat npfloat) : npfloat :=
  np_sqrt (np_mean (mat_map np_square (mat_map2 np_sub F1 F2))).

(** [result = arr/np.amax(arr)] *)
Definition normalize_max_one (arr : mat R) : res (mat npfloat) :=
  m <- np_amax arr ;;
  Ret (mat_map (fun x => np_div (Fin x) (Fin m)) arr).

(** [result = np.sum(Fm*Fr)/np.sum(np.square(Fr))] *)
Definition calc_alpha (Fm Fr : mat npfloat) : npfloat :=
  np_div (np_sum (mat_map2 np_mul Fm Fr)) (np_sum (mat_map np_square Fr)).

(** ** [PhaseRetrieval.makeFROG] *)

Definition mat_minus (a b : mat C) : mat C := mat_map2 Cminus a b.

(** [EF = EF - np.tril(EF,-np.ceil(N/2.)) - np.triu(EF,np.ceil(N/2.))] *)
Definition antialias_time (N : nat) (EF : mat C) : mat C :=
  let c := py_val (np_ceil (half N)) in
  mat_minus (mat_minus EF (np_tril EF (- c))) (np_triu EF c).

(** [for n in range(0, N): EF[n,:] = np.roll(EF[n,:], sgn*n)];
    a row index beyond the last row is an [IndexError]. *)
Definition rotate_rows (N : nat) (sgn : Z) (EF : mat C) : res (mat C) :=
  if (nrows EF <? N)%nat then Raise IndexError
  else Ret (mk_vec (nrows EF)
              (fun n => let row := nth n EF [] in
                        if (n <? N)%nat then np_roll 0%C row (sgn * Z.of_nat n)
                        else row)).

(** [row[a:b] = 0] for nonnegative bounds. *)
Definition zero_slice (row : list C) (a b : Z) : list C :=
  mk_vec (length row)
    (fun j => if ((a <=? Z.of_nat j) && (Z.of_nat j <? b))%Z then 0%C
              else nth j row 0%C).

(** [EF[n, a:b] = 0] *)
Definition set_zero (EF : mat C) (n a b : Z) : mat C :=
  mk_vec (length EF)
    (fun i => if (Z.of_nat i =? n)%Z then zero_slice (nth i EF []) a b
              else nth i EF []).

(** The frequency-domain anti-alias loops,
<<
    vmin = vmax+1
    for n in range(first,vmax+1):
        EF[n,vmax-(n-1):vmax+1] = 0
    for n in range(vmin,N):
        EF[n,vmin:vmin+(N-n)] = 0
>>
    [makeFROG] has [vmax = int(np.floor(N/2.))] and [first = 1];
    [guessPulse] has [vmax = np.floor(N/2.)] and [first = 2].  Once the first
    [range] has accepted [vmax] it is an integer, and the slice bounds are
    integers too. *)
Definition antialias_freq (N : nat) (vmax : pynum) (first : Z) (EF : mat C)
  : res (mat C) :=
  let vmin := py_plus vmax 1 in
  r1 <- py_range (PyInt first) (py_plus vmax 1) ;;
  let EF1 :=
    fold_left (fun m n => set_zero m n (py_int vmax - (n - 1)) (py_int vmax + 1))
      r1 EF in
  r2 <- py_range vmin (PyInt (Z.of_nat N)) ;;
  Ret (fold_left
         (fun m n => set_zero m n (py_int vmin) (py_int vmin + (Z.of_nat N - n)))
         r2 EF1).

(** [makeFROG(Pt, domain, antialias)] returns [(F, EF)]; a [domain] other
    than 0 and 1 falls through both tests and the call returns [None]. *)
Definition makeFROG (Pt : vec) (domain antialias : Z)
  : res (option (mat R * mat C)) :=
  let N := length Pt in
  if (domain =? 0)%Z then
    let EF := outer Pt Pt in
    let EF := if (antialias =? 0)%Z then EF else antialias_time N EF in
    EF <- rotate_rows N (-1) EF ;;
    let EF := fliplr (fftshift_axis1 0%C EF) in
    EF <- fft_axis0 EF ;;
    let EF := roll_axis0 EF (py_int (py_plus (np_ceil (half N)) (-1))) in
    Ret (Some (abs2 EF, EF))
  else if (domain =? 1)%Z then
    PtFFT <- np_fft Pt ;;
    let EF := outer PtFFT PtFFT in
    EF <- (if (antialias =? 0)%Z then Ret EF
           else antialias_freq N (PyInt (py_int (np_floor (half N)))) 1 EF) ;;
    let EF := fliplr EF in
    EF <- rotate_rows N (-1) EF ;;
    EF <- ifft_axis0 EF ;;
    let EF := flipud (fliplr EF) in
    let EF := roll_axis0 EF (py_int (np_ceil (half N))) in
    let EF := roll_axis1 0%C EF (py_int (py_plus (np_ceil (half N)) (-1))) in
    let EF := transpose 0%C EF in
    Ret (Some (abs2 EF, EF))
  else Ret None.

(** ** [PhaseRetrieval.guessPulse] *)

(** A field returned by [guessPulse]: finite, or [n] entries that are all
    NaN (what [Pt / np.linalg.norm(Pt)] gives when the norm is zero, that is
    when every entry of [Pt] is zero). *)
Inductive npfield : Type :=
| Field (v : vec)
| NanField (n : nat).

(** [Pt = Pt / np.linalg.norm(Pt)] *)
Definition normalize (Pt : vec) : npfield :=
  let nrm := np_norm Pt in
  if Req_EM_T nrm 0 then NanField (length Pt)
  else Field (map (fun z => Cdivr z nrm) Pt).

(** The Euclidean norm of a returned field; [NaN] for a field of NaN. *)
Definition field_norm (p : npfield) : npfloat :=
  match p with
  | Field v => Fin (np_norm v)
  | NanField _ => NaN
  end.

Section GuessPulse.

(** [np.linalg.svd] is outside the repository: [svd_U0 EF] stands for
    column 0 of the matrix [U] it returns ([LinAlgError] when the
    decomposition does not converge). *)
Variable svd_U0 : mat C -> res vec.

Definition guessPulse (EF : mat C) (lastPt : vec)
    (domain antialias PowerOrSVD : Z) : res (option npfield) :=
  N <- match EF with
       | [] => Raise IndexError
       | row :: _ => Ret (length row)
       end ;;
  if (domain =? 0)%Z then
    EF <- ifft_axis0
            (roll_axis0 EF (- py_int (py_plus (np_ceil (half N)) (-1)))) ;;
    let EF := ifftshift_axis1 0%C (fliplr EF) in
    EF <- rotate_rows N 1 EF ;;
    let EF := if (antialias =? 0)%Z then EF else antialias_time N EF in
    Pt <- (if (PowerOrSVD =? 0)%Z then
             w <- matvec (ctranspose EF) lastPt ;; matvec EF w
           else svd_U0 EF) ;;
    Ret (Some (normalize Pt))
  else if (domain =? 1)%Z then
    let EF := transpose 0%C EF in
    let EF := roll_axis1 0%C EF (- py_int (py_plus (np_ceil (half N)) (-1))) in
    let EF := roll_axis0 EF (- py_int (np_ceil (half N))) in
    let EF := flipud (fliplr EF) in
    EF <- fft_axis0 EF ;;
    EF <- rotate_rows N 1 EF ;;
    let EF := fliplr EF in
    EF <- (if (antialias =? 0)%Z then Ret EF
           else antialias_freq N (np_floor (half N)) 2 EF) ;;
    Pt <- (if (PowerOrSVD =? 0)%Z then
             lastPtFFT <- np_fft lastPt ;;
             w <- matvec (ctranspose EF) lastPtFFT ;;
             u <- matvec EF w ;;
             np_ifft u
           else
             u <- svd_U0 EF ;; np_ifft u) ;;
    Ret (Some (normalize Pt))
  else Ret None.

End GuessPulse.

(** ** [PhaseRetrieval.retrievePhase]

    The attributes read by the method.  [rnd] stands for the draw
    [np.random.rand(1, N)]; fields are column arrays of shape [(N, 1)], as
    [retrievePhase] and [load_seed] build them.  The plot axes, the printing
    and the signal emissions have no effect on the retrieval and are left
    out. *)
Record config : Type := {
  max_iter : Z;
  GTol : R;
  seed : option vec;
  method0 : Z;   (* method[0]: makeFROGdomain *)
  method1 : Z;   (* method[1]: makeFROGantialias *)
  method2 : Z;   (* method[2]: guessPulsedomain *)
  method3 : Z;   (* method[3]: guessPulseantialias *)
  rnd : nat -> R
}.

(** The local variables of the main loop. *)
Record gp_state : Type := {
  iteration : nat;
  Pt : vec;
  EFr : mat C;
  Fr : mat npfloat;
  G : npfloat
}.

(** The noise-times-gaussian initial guess,
    [exp(-2 ln2 ((n - N/2.)/(N/10.))^2) * exp(0.1*2*pi*1j*rand)]. *)
Definition initial_guess (N : nat) (rand : nat -> R) : vec :=
  mk_vec N
    (fun n =>
       Cscal (exp (- 2 * ln 2 * Rsqr ((INR n - half N) / (INR N / 10))))
             (cis (0.1 * 2 * PI * rand n))).

(** [Fr, EFr = self.makeFROG(...)]: unpacking [None] is a [TypeError]. *)
Definition unpack {A : Type} (r : res (option A)) : res A :=
  o <- r ;;
  match o with
  | Some a => Ret a
  | None => Raise TypeError
  end.

(** [Fr = Fr * calc_alpha(Fm, Fr)] followed by [G = rms_diff(Fm, Fr)]. *)
Definition scale_trace (Fm : mat npfloat) (F : mat R) : mat npfloat :=
  let alpha := calc_alpha Fm (lift F) in
  mat_map (fun x => np_mul x alpha) (lift F).

(** [np.divide(Fm, Fr, out=np.zeros_like(Fm), where=Fr!=0)] *)
Definition safe_ratio (Fm Fr : mat npfloat) : mat npfloat :=
  mat_map2 (fun fm fr => if np_nonzero fr then np_div fm fr else Fin 0) Fm Fr.

(** All the entries of a real array, if they are all finite. *)
Fixpoint all_fin_list (l : list npfloat) : option (list R) :=
  match l with
  | [] => Some []
  | a :: l' =>
      match is_fin a, all_fin_list l' with
      | Some x, Some xs => Some (x :: xs)
      | _, _ => None
      end
  end.

Fixpoint all_fin (m : mat npfloat) : option (mat R) :=
  match m with
  | [] => Some []
  | r :: m' =>
      match all_fin_list r, all_fin m' with
      | Some x, Some xs => Some (x :: xs)
      | _, _ => None
      end
  end.

(** [EFr = EFr * np.sqrt(...)], a complex array times a real one. *)
Definition rescale (EF : mat C) (w : mat R) : mat C :=
  mat_map2 (fun z x => Cscal x z) EF w.

Definition Cpow4 (z : C) : C := ((z * z) * (z * z))%C.

(** [np.sum(np.arange(1, N+1).reshape(N, 1) * np.absolute(np.power(Pt, 4)))
     / np.sum(np.absolute(np.power(Pt, 4)))] *)
Definition centerindex (P : vec) : npfloat :=
  np_div
    (Fin (Rsum (map (fun n => INR (n + 1) * Cmod (Cpow4 (vget P n)))
                  (seq 0 (length P)))))
    (Fin (Rsum (map (fun z => Cmod (Cpow4 z)) P))).

(** [Pt = np.roll(Pt,-int(np.round(centerindex-N/2.)))] *)
Definition recentre (N : nat) (P : vec) : res vec :=
  s <- py_int_round (np_sub (centerindex P) (Fin (half N))) ;;
  Ret (np_roll 0%C P (- s)).

(** The data-consistency update,
<<
    EFr = EFr * np.sqrt(np.divide(Fm, Fr, out=np.zeros_like(Fm), where=Fr!=0))
>>
    when the square roots are all finite. *)
Definition amplitude_update (Fm : mat npfloat) (st : gp_state)
  : option (mat C) :=
  match all_fin (mat_map np_sqrt (safe_ratio Fm (Fr st))) with
  | Some w => Some (rescale (EFr st) w)
  | None => None
  end.

(** Modelled from the spec: the terminal status of a run, which the code
    does not record.  Section 4.4 step 8 of the specification reads
    "CONVERGED if G <= tolerance; MAX_ITER_REACHED if iteration count hits
    the configured cap"; the loop leaves with [G > GTol] only when the
    iteration count has reached [max_iter]. *)
Inductive status : Type := CONVERGED | MAX_ITER_REACHED.

Section RetrievePhase.

Variable svd_U0 : mat C -> res vec.
Variable cfg : config.

(** The code before the loop, for the prepared trace [Fm0] the method is
    given (or finds in [self.Fm] or in the file). *)
Definition gp_init (Fm0 : mat R) : res (mat npfloat * gp_state) :=
  N <- match Fm0 with
       | [] => Raise IndexError
       | row :: _ => Ret (length row)
       end ;;
  let Pt :=
    match seed cfg with
    | None => initial_guess N (rnd cfg)
    | Some s => s
    end in
  Fm <- normalize_max_one Fm0 ;;
  '(F, EF) <- unpack (makeFROG Pt (method0 cfg) (method1 cfg)) ;;
  let Fr := scale_trace Fm F in
  Ret (Fm, {| iteration := 0; Pt := Pt; EFr := EF; Fr := Fr;
              G := rms_diff Fm Fr |}).

(** One pass through the body of the [while] loop.  When the corrected
    amplitudes are not all finite (a NaN from the square root of a negative
    quotient, or from a trace that is not finite), [guessPulse] goes through
    the same branches as on finite data and every entry of the field it
    returns is NaN, on which [int(np.round(...))] raises [ValueError]. *)
Definition gp_step (N : nat) (Fm : mat npfloat) (st : gp_state)
  : res gp_state :=
  let upd := amplitude_update Fm st in
  p <- unpack (guessPulse svd_U0
                 (match upd with
                  | Some EF' => EF'
                  | None => EFr st
                  end)
                 (Pt st) (method2 cfg) (method3 cfg) 0) ;;
  match upd, p with
  | Some _, Field P =>
      P' <- recentre N P ;;
      '(F, EF) <- unpack (makeFROG P' (method0 cfg) (method1 cfg)) ;;
      let Fr := scale_trace Fm F in
      Ret {| iteration := S (iteration st); Pt := P'; EFr := EF; Fr := Fr;
             G := rms_diff Fm Fr |}
  | _, _ => Raise ValueError
  end.

(** [while G>self.GTol and iteration<self.max_iter:], by recursion on the
    number of iterations left, [max_iter - iteration]. *)
Fixpoint gp_loop (left : nat) (N : nat) (Fm : mat npfloat) (st : gp_state)
  : res gp_state :=
  match left with
  | O => Ret st
  | S k =>
      if np_gtb (G st) (Fin (GTol cfg)) then
        st' <- gp_step N Fm st ;; gp_loop k N Fm st'
      else Ret st
  end.

(** The method returns nothing and keeps [Fr] in [self.Fr]; the model
    returns the local variables at the end of the loop. *)
Definition retrievePhase (Fm0 : mat R) : res gp_state :=
  '(Fm, st) <- gp_init Fm0 ;;
  gp_loop (Z.to_nat (max_iter cfg)) (ncols Fm0) Fm st.

Definition exit_status (st : gp_state) : status :=
  if np_gtb (G st) (Fin (GTol cfg)) then MAX_ITER_REACHED else CONVERGED.

End RetrievePhase.

(** ** [PhaseRetrieval.prepFROG]

    The method is modelled for an image passed as [ccdimg] with its two
    calibration steps (Python floats), without the plots
    ([showprogress = showautocor = 0]). *)

Definition rnth2 (m : mat R) (i j : nat) : R := nth2 0 m i j.

(** [np.sum(img, 0)] and [np.sum(img, 1)] *)
Definition colsums (img : mat R) : list R :=
  mk_vec (ncols img) (fun j => Rsum (map (fun row => nth j row 0) img)).
Definition rowsums (img : mat R) : list R := map Rsum img.

(** [np.inner(np.arange(1, n+1), s) / np.sum(s)] *)
Definition centroid (s : list R) : npfloat :=
  np_div (Fin (Rsum (map (fun k => INR (k + 1) * nth k s 0) (seq 0 (length s)))))
         (Fin (Rsum s)).

(** [2*np.inner(np.abs(np.arange(1, n+1)-center), s) / np.sum(s)] *)
Definition spot_size (s : list R) (center : npfloat) : npfloat :=
  np_div
    (np_mul (Fin 2)
       (fold_right np_add (Fin 0)
          (map (fun k => np_mul (np_abs (np_sub (Fin (INR (k + 1))) center))
                                (Fin (nth k s 0)))
             (seq 0 (length s)))))
    (Fin (Rsum s)).

(** The top-hat mask of the low-pass filter, [rho = 0.3]. *)
Definition tophatfilter (v t : nat) : mat R :=
  let maxtimesrho := INR (Nat.max v t) * (3 / 10) in
  mk_mat v t
    (fun ii jj =>
       if Rlt_dec (sqrt (Rsqr (INR (ii + 1) - INR v / 2)
                         + Rsqr (INR (jj + 1) - INR t / 2))) maxtimesrho
       then 1 else 0).

(** [ccdimgfft=np.fft.fftshift(np.fft.fft2(ccdimg))], the product with the
    mask, and [ccdimg = abs(np.fft.ifft2(np.fft.ifftshift(ccdimgfft)))]. *)
Definition lowpass (img : mat R) : res (mat R) :=
  let v := nrows img in
  let t := ncols img in
  f <- fft2 (mat_map RtoC img) ;;
  let ccdimgfft := mat_map2 Cscal (tophatfilter v t) (fftshift2 0%C f) in
  g <- ifft2 (ifftshift2 0%C ccdimgfft) ;;
  Ret (mat_map Cmod g).

Definition mat_plus (a b : mat R) : mat R := mat_map2 Rplus a b.

(** The sum of the 64 rolled copies of the image. *)
Definition imgblocks (img : mat R) : mat R :=
  fold_left
    (fun acc ii =>
       let rollv := roll_axis0 img (Z.of_nat ii + 1) in
       fold_left
         (fun acc' jj => mat_plus acc' (roll_axis1 0 rollv (Z.of_nat jj + 1)))
         (seq 0 8) acc)
    (seq 0 8)
    (mk_mat (nrows img) (ncols img) (fun _ _ => 0)).

(** [background = np.amin(imgblocks)/(8.*8.)], the subtraction, and
    [ccdimg[ccdimg<0] = 0]. *)
Definition subtract_background (img : mat R) : res (mat R) :=
  m <- np_amin (imgblocks img) ;;
  let background := m / (8 * 8) in
  Ret (mat_map (fun x => if Rlt_dec (x - background) 0 then 0
                         else x - background) img).

(** [int(round(N/2. + ((k+1) - center)/pitch)) - 1], when it is the index
    of a bin. *)
Definition target_bin (N : nat) (center pitch : npfloat) (k : nat)
  : res (option nat) :=
  z <- py_int_round
         (np_add (Fin (half N))
                 (np_div (np_sub (Fin (INR (k + 1))) center) pitch)) ;;
  let b := (z - 1)%Z in
  Ret (if ((b <? 0) || (Z.of_nat N <=? b))%Z then None else Some (Z.to_nat b)).

(** [m[r, c] += x] *)
Definition add_at (m : mat R) (r c : nat) (x : R) : mat R :=
  mk_mat (nrows m) (ncols m)
    (fun i j => if ((i =? r) && (j =? c))%nat then rnth2 m i j + x
                else rnth2 m i j).

(** The two nested loops of the downsampling, then
    [fnlimgcount[fnlimgcount==0] = 1] and [fnlimg / fnlimgcount]. *)
Definition rebin (N : nat) (img : mat R) (centerrow centercol vpx tpx : npfloat)
  : res (mat R) :=
  let zeros := mk_mat N N (fun _ _ => 0) in
  '(cnt, acc) <-
    fold_left
      (fun st ii =>
         s <- st ;;
         r <- target_bin N centerrow vpx ii ;;
         match r with
         | None => Ret s
         | Some rowinfinal =>
             fold_left
               (fun st' jj =>
                  '(cnt, acc) <- st' ;;
                  c <- target_bin N centercol tpx jj ;;
                  match c with
                  | None => Ret (cnt, acc)
                  | Some colinfinal =>
                      Ret (add_at cnt rowinfinal colinfinal 1,
                           add_at acc rowinfinal colinfinal (rnth2 img ii jj))
                  end)
               (seq 0 (ncols img)) (Ret s)
         end)
      (seq 0 (nrows img)) (Ret (zeros, zeros)) ;;
  Ret (mat_map2 (fun x n => x / (if Req_EM_T n 0 then 1 else n)) acc cnt).

(** What the method stores: [self.dtperpx] and [self.Fm]. *)
Record prepared : Type := {
  dtperpx : npfloat;
  Fm : mat R
}.

(** [if flip in (1, 3): ccdimg = np.transpose(ccdimg)] and
    [if flip in (2, 3): ccdimg = np.flipud(ccdimg)] *)
Definition orient (flip : Z) (ccdimg : mat R) : mat R :=
  let ccdimg :=
    if ((flip =? 1) || (flip =? 3))%Z then transpose 0 ccdimg else ccdimg in
  if ((flip =? 2) || (flip =? 3))%Z then flipud ccdimg else ccdimg.

Definition prepFROG (prep_size : nat) (ccddt ccddv : R) (ccdimg : mat R)
    (flip : Z) : res prepared :=
  let ccddtdv := ccddt * ccddv in
  let ccdimg := orient flip ccdimg in
  _ <- match ccdimg with
       | [] => Raise IndexError
       | _ => Ret tt
       end ;;
  let centercol := centroid (colsums ccdimg) in
  let centerrow := centroid (rowsums ccdimg) in
  let spotwidth := spot_size (colsums ccdimg) centercol in
  let spotheight := spot_size (rowsums ccdimg) centerrow in
  let aspectratio := np_div spotheight spotwidth in
  _ <- (if Req_EM_T (INR prep_size * ccddtdv) 0 then Raise ZeroDivisionError
        else Ret tt) ;;
  let vpxpersample :=
    np_sqrt (np_mul (Fin (1 / (INR prep_size * ccddtdv))) aspectratio) in
  let tpxpersample :=
    np_sqrt (np_div (Fin (1 / (INR prep_size * ccddtdv))) aspectratio) in
  filtered <- lowpass ccdimg ;;
  ccdimg' <- subtract_background filtered ;;
  if ((nrows ccdimg' =? prep_size) && (ncols ccdimg' =? prep_size))%nat
     && (if Req_EM_T (ccddt * ccddv) (1 / INR prep_size) then true else false)
  then
    Ret {| dtperpx := Fin ccddt; Fm := ccdimg' |}
  else
    fnlimg <- rebin prep_size ccdimg' centerrow centercol vpxpersample
                tpxpersample ;;
    Ret {| dtperpx := np_mul (Fin ccddt) tpxpersample; Fm := fnlimg |}.

(** The Hermitian product [sum_j conj(a[j]) b[j]] and the squared
    Euclidean norm of a field. *)
Definition inner (a b : vec) : C := dot (map Cconj a) b.
Definition norm2 (a : vec) : R := Rsum (map Cnorm2 a).

(** The sum of squares [sum (Fm - a Fr)^2] that [calc_alpha] is meant to
    minimise over the scalar [a]. *)
Definition sq_residual (a : R) (Fm Fr : mat R) : R :=
  Rsum (concat (mat_map2 (fun x y => Rsqr (x - a * y)) Fm Fr)).

(** [np.sum] of a finite array. *)
Definition total (m : mat R) : R := Rsum (concat m).

(** The array of shape [(r, c)] with every entry equal to [x]. *)
Definition np_full {A : Type} (r c : nat) (x : A) : mat A :=
  mk_mat r c (fun _ _ => x).

(** The field the run starts from: the loaded seed, or the initial guess. *)
Definition start_field (cfg : config) (N : nat) : vec :=
  match seed cfg with
  | None => initial_guess N (rnd cfg)
  | Some s => s
  end.

(** The attribute values set by [__init__] ([max_iter=200], [GTol=0.001],
    [method = [0,0,0,0]]), with a given seed and a constant random draw. *)
Definition default_config (s : option vec) : config :=
  {| max_iter := 200; GTol := 1 / 1000; seed := s;
     method0 := 0; method1 := 0; method2 := 0; method3 := 0;
     rnd := fun _ => 1 / 2 |}.

(** The integer values of [np.ceil(N/2.)] and [np.floor(N/2.)]. *)
Definition ceil_half (N : nat) : Z := Z.of_nat ((N + 1) / 2).
Definition floor_half (N : nat) : Z := Z.of_nat (N / 2).

(** The matrix that [makeFROG] transforms in the time domain: the outer
    product, masked when anti-aliasing is on. *)
Definition time_product (P : vec) (antialias : Z) : mat C :=
  if (antialias =? 0)%Z then outer P P
  else antialias_time (length P) (outer P P).

(** Entry [(r, c)] of [EF] in the time domain. *)
Definition time_entry (N : nat) (M : mat C) (r c : nat) : C :=
  dft (-1) N
    (fun n => mget M n
                (wrap N (Z.of_nat (wrap N (Z.of_nat (N - 1 - c)
                                           - Z.of_nat (N / 2)))
                         - -1 * Z.of_nat n)))
    (wrap N (Z.of_nat r - (ceil_half N - 1))).

(** The quotient [Fm / Fr] taken as zero where [Fr = 0]. *)
Definition ratio0 (x y : R) : R := if Req_EM_T y 0 then 0 else x / y.

(** Whether one of the assignments [EF[n, fa n : fb n] = 0], [n] in [l],
    reaches the entry [(i, j)]. *)
Fixpoint zeroed (fa fb : Z -> Z) (l : list Z) (i j : nat) : bool :=
  match l with
  | [] => false
  | n :: l' =>
      ((Z.of_nat i =? n) && ((fa n <=? Z.of_nat j) && (Z.of_nat j <? fb n)))%Z
      || zeroed fa fb l' i j
  end.

(** The entries that the two loops of the mask set to zero, for the
    integer [vmax]. *)
Definition freq_mask (N : nat) (vmax first : Z) (i j : nat) : bool :=
  zeroed (fun _ => (vmax + 1)%Z) (fun n => (vmax + 1 + (Z.of_nat N - n))%Z)
    (range_Z (vmax + 1) (Z.of_nat N)) i j
  || zeroed (fun n => (vmax - (n - 1))%Z) (fun _ => (vmax + 1)%Z)
       (range_Z first (vmax + 1)) i j.

(** The mask applied by [makeFROG] in the frequency domain. *)
Definition makeFROG_mask (N : nat) (antialias : Z) (i j : nat) : bool :=
  if (antialias =? 0)%Z then false
  else freq_mask N (py_int (np_floor (half N))) 1 i j.

(** Entry [(i, j)] of [EF] in the frequency domain, from the transform [A]
    of the field. *)
Definition freq_entry (N : nat) (A : vec) (mask : nat -> nat -> bool)
    (i j : nat) : C :=
  let r := (N - 1 - wrap N (Z.of_nat j - ceil_half N))%nat in
  let k := (N - 1 - wrap N (Z.of_nat i - (ceil_half N - 1)))%nat in
  Cdivr
    (dft 1 N
       (fun n =>
          let c := (N - 1 - wrap N (Z.of_nat k - -1 * Z.of_nat n))%nat in
          if mask n c then 0%C else (vget A n * vget A c)%C)
       r)
    (INR N).

(** The three lines that follow the recentring in the loop,
<<
    Fr, EFr = self.makeFROG(Pt, makeFROGdomain, makeFROGantialias)
    Fr = Fr * calc_alpha(Fm, Fr)
    G = rms_diff(Fm, Fr)
>>
    as a function of the field: [(EFr, Fr, G)]. *)
Definition reconstruct (Fm : mat npfloat) (P : vec) (domain antialias : Z)
  : res (mat C * mat npfloat * npfloat) :=
  '(F, EF) <- unpack (makeFROG P domain antialias) ;;
  let Fr := scale_trace Fm F in
  Ret (EF, Fr, rms_diff Fm Fr).

(** ** The other module-level functions

    [parity]: [result = int(x-2*np.floor(x/2.))] for a Python number. *)
Definition parity (x : pynum) : Z :=
  py_int (PyFloat (py_val x - 2 * py_val (np_floor (py_val x / 2)))).

(** [np.arange(start, stop, step)] on floats: [ceil((stop - start)/step)]
    points [start + i*step], none when that number is not positive.  A zero
    step is left out of the model ([None]). *)
Definition np_arange (start stop step : R) : option (list R) :=
  if Req_EM_T step 0 then None
  else Some (mk_vec (Z.to_nat (Zceil ((stop - start) / step)))
               (fun i => start + INR i * step)).

(** [axis = np.arange(-length/2 * step, length/2*step, step)] *)
Definition make_axis (length : Z) (step : R) : option (list R) :=
  np_arange (IZR (- length) / 2 * step) (IZR length / 2 * step) step.

(** The product of two arrays of one dimension (or two columns) under
    NumPy's broadcasting: equal lengths, or one of them of length 1. *)
Definition broadcast2 {A B D : Type} (f : A -> B -> D) (a : list A)
    (b : list B) : res (list D) :=
  if (length a =? length b)%nat then Ret (map2 f a b)
  else match a, b with
       | [x], _ => Ret (map (f x) b)
       | _, [y] => Ret (map (fun x => f x y) a)
       | _, _ => Raise ValueError
       end.

(** [shift_signal]:
<<
    sig_freq_domain = np.fft.fft(sig_in, axis=0)
    sig_out = np.fft.ifft(sig_freq_domain * np.exp(1.j*2*np.pi*shift*freq_axis), axis=0)
>>
    for a signal and a frequency axis of one dimension (or two columns). *)
Definition shift_signal (sig_in : vec) (shift : R) (freq_axis : list R)
  : res vec :=
  sig_freq_domain <- np_fft sig_in ;;
  prod <- broadcast2 (fun z f => (z * cis (2 * PI * shift * f))%C)
            sig_freq_domain freq_axis ;;
  np_ifft prod.

(** The phase factors applied to the spectrum. *)
Definition phase_ramp (shift : R) (X : vec) (F : list R) : vec :=
  map2 (fun z f => (z * cis (2 * PI * shift * f))%C) X F.

Definition all_nonneg (m : mat R) : Prop :=
  Forall (Forall (fun x => 0 <= x)) m.

(** The state of the two downsampling loops: both arrays have the final
    shape and nonnegative entries. *)
Definition rebin_inv (N : nat) (st : res (mat R * mat R)) : Prop :=
  match st with
  | Ret (cnt, acc) =>
      has_shape N N cnt /\ has_shape N N acc /\ all_nonneg cnt /\ all_nonneg acc
  | Raise _ => True
  end.

(** ** [Model/frog.py]: the experiment class

    The devices, the parameter tree and the file system are outside the
    repository; the functions below are the computations the class makes on
    the values it reads from them.  The exceptions of these functions
    include some that [phase_retrieval.py] does not raise. *)
Inductive pyexn : Type :=
| KeyError
| UnboundLocalError
| PlainException
| Builtin (e : exn).

Inductive pyres (A : Type) : Type :=
| Return (a : A)
| Throw (e : pyexn).

(** [FrogParams.update_crop_param], one axis of the region of interest:
<<
    if pos[i] < 0:
        pos[i] = 0
    if size[i] > max_size[i]:
        size[i] = max_size[i]
        pos[i] = 0
    if size[i]+pos[i] > max_size[i]:
        size[i] = max_size[i] - pos[i]
    pos[i] = round(pos[i]/2.)*2
    size[i] = round(size[i]/2.)*2
>>
    The result is the pair [(int(pos[i]), int(size[i]))] handed to
    [setValue]. *)
Definition crop_axis (pos size : R) (max_size : Z) : Z * Z :=
  let pos := if Rlt_dec pos 0 then 0 else pos in
  let '(size, pos) :=
    if Rlt_dec (IZR max_size) size then (IZR max_size, 0) else (size, pos) in
  let size :=
    if Rlt_dec (IZR max_size) (size + pos) then IZR max_size - pos else size in
  let pos := (round_half_even (pos / 2) * 2)%Z in
  let size := (round_half_even (size / 2) * 2)%Z in
  (pos, size).

(** The four values [(Xpos, Ypos, Width, Height)] it sets. *)
Definition update_crop_param (pos size : R * R) (max_size : Z * Z)
  : Z * Z * Z * Z :=
  let '(x, w) := crop_axis (fst pos) (fst size) (fst max_size) in
  let '(y, h) := crop_axis (snd pos) (snd size) (snd max_size) in
  (x, y, w, h).

(** [FrogParams.show_steps]:
    [val = int(round(2*abs(start_pos.value())/step_size.value()))] on two
    floats. *)
Definition show_steps (start_pos step_size : R) : res Z :=
  if Req_EM_T step_size 0 then Raise ZeroDivisionError
  else Ret (round_half_even (2 * Rabs start_pos / step_size)).

(** The scale chosen in [FROG.scale_pxl_values] for a pixel format; no
    value is bound for another format. *)
Definition pxl_scale (pix_format : String.string) : option R :=
  if String.eqb pix_format "Mono8" then Some 255
  else if String.eqb pix_format "Mono12" then Some 65535
  else None.

(** [FROG.scale_pxl_values], for the mode of the spectrometer and the pixel
    format of the camera:
    [np.rint(scale * frog_array / np.amax(frog_array)).astype(int)].
    When the maximum is zero the quotient is not finite and the cast is
    unspecified: [None]. *)
Definition scale_pxl_values (mode : Z) (pix_format : String.string)
    (frog_array : mat R) : pyres (option (mat Z)) :=
  if (mode =? 0)%Z then
    match pxl_scale pix_format with
    | None => Throw _ UnboundLocalError
    | Some scale =>
        match np_amax frog_array with
        | Raise e => Throw _ (Builtin e)
        | Ret m =>
            if Req_EM_T m 0 then Return _ None
            else Return _
                   (Some (mat_map (fun x => round_half_even (scale * x / m))
                            frog_array))
        end
    end
  else if (mode =? 1)%Z then Throw _ PlainException
  else Throw _ UnboundLocalError.

(** The cast [data.image.astype(bit_type)] of
    [FileHandler.save_new_measurement]: [np.uint8] for ['Mono8'],
    [np.uint16] for ['Mono12'], no type bound otherwise. *)
Definition saved_image (bit_depth : String.string) (image : mat Z)
  : pyres (mat Z) :=
  if String.eqb bit_depth "Mono8"
  then Return _ (mat_map (fun z => (z mod 256)%Z) image)
  else if String.eqb bit_depth "Mono12"
  then Return _ (mat_map (fun z => (z mod 65536)%Z) image)
  else Throw _ UnboundLocalError.

(** [str(counter)] for a counter that is not negative. *)
Definition py_str_nat (n : nat) : String.string :=
  DecimalString.NilEmpty.string_of_uint (Nat.to_uint n).

Fixpoint zeros (n : nat) : String.string :=
  match n with
  | O => String.EmptyString
  | S k => String.append "0"%string (zeros k)
  end.

(** ['{:03d}'.format(counter)]: the decimal digits, padded with zeros on the
    left to three characters. *)
Definition format_03d (n : nat) : String.string :=
  let s := py_str_nat n in
  String.append (zeros (3 - String.length s)) s.

(** [name_pattern.format(counter)] for a pattern that ends in the field
    ['{:03d}'], as ['measurement_{:03d}'] does. *)
Definition pattern_format (prefix : String.string) (counter : nat)
  : String.string :=
  String.append prefix (format_03d counter).

(** [FileHandler.get_unique_path]:
<<
    counter = 0
    while True:
        counter += 1
        path = directory / name_pattern.format(counter)
        if not path.exists():
            return path
>>
    [existing] lists the names of the entries of [directory]; the recursion
    is on a bound [fuel] for the number of passes. *)
Fixpoint unique_path_loop (fuel : nat) (existing : list String.string)
    (prefix : String.string) (counter : nat) : option String.string :=
  match fuel with
  | O => None
  | S fuel' =>
      let counter := S counter in
      let path := pattern_format prefix counter in
      if existsb (String.eqb path) existing
      then unique_path_loop fuel' existing prefix counter
      else Some path
  end.

Definition get_unique_path (fuel : nat) (existing : list String.string)
    (prefix : String.string) : option String.string :=
  unique_path_loop fuel existing prefix 0.

(** The number that a string of digits writes. *)
Definition parse_nat (s : String.string) : option nat :=
  option_map Nat.of_uint (DecimalString.NilEmpty.uint_of_string s).

(** The column that holds the opposite delay: the columns are mirrored
    about the column [ceil(N/2) - 1] of zero delay. *)
Definition mirror_delay (N c : nat) : nat :=
  wrap N (2 * (ceil_half N - 1) - Z.of_nat c).

(** [sum_{i < n} f i] for real terms. *)
Definition rsum (n : nat) (f : nat -> R) : R := Rsum (map f (seq 0 n)).

(** The delay, in samples, that column [c] of the trace holds. *)
Definition delay_index (N c : nat) : nat :=
  wrap N (Z.of_nat (N - 1 - c) - Z.of_nat (N / 2)).

(** The cyclic intensity autocorrelation of the field at the delay [J]:
    [sum_n |P[n]|^2 |P[(n + J) mod N]|^2]. *)
Definition autocorrelation (P : vec) (J : nat) : R :=
  rsum (length P)
    (fun n => Cnorm2 (vget P n)
              * Cnorm2 (vget P (wrap (length P) (Z.of_nat J + Z.of_nat n)))).

(** [np.angle(z)], the argument [arctan2(z.imag, z.real)] in [(-pi, pi]],
    zero at the origin. *)
Definition np_angle (z : C) : R :=
  let x := fst z in
  let y := snd z in
  if Rlt_dec 0 x then atan (y / x)
  else if Rlt_dec x 0 then
    if Rle_dec 0 y then atan (y / x) + PI else atan (y / x) - PI
  else if Rlt_dec 0 y then PI / 2
  else if Rlt_dec y 0 then - (PI / 2)
  else 0.

(** [np.max(np.abs(v)**2)] of a column. *)
Definition max_abs2 (v : vec) : res R :=
  np_amax [map (fun z => Rsqr (Cmod z)) v].

(** [np.fft.fft(psi, axis=0) / N] for a column. *)
Definition fft_over_N (N : nat) (psi : vec) : res vec :=
  f <- np_fft psi ;;
  Ret (map (fun z => Cdivr z (INR N)) f).

(** One pass through the body of [for iterK in range(K)], for the trace
    [I] of shape [(N, K)]: [d] is the delay [D[s[iterK]]], [Icol] the
    column [I[:, s[iterK]]], [alpha] the strength drawn for this sweep, and
    [Fsupp] holds [True] [N] times.
<<
    temp = shift_signal(Obj, D[s[iterK]], F)
    psi = Obj * temp
    psi_n = np.fft.fft(psi, axis=0) / N
    phase = np.exp(1.j*np.angle(psi_n))
    amp = np.fft.fftshift( I[:, s[iterK]].reshape(K, 1) )
    psi_n[Fsupp] = amp[Fsupp] * phase[Fsupp]
    psi_n = np.fft.ifft(psi_n, axis=0)*N
    Uo = temp.conjugate() / np.max( (np.abs(temp)**2) )
    Up = Obj.conjugate() / np.max( (np.abs(Obj)**2) )
    Corr1 = alpha * Uo * (psi_n - psi)
    Corr2 = shift_signal(alpha * Up * (psi_n - psi), -D[s[iterK]], F)
    Obj = Obj +  Corr1 + Corr2
    Ir[:, s[iterK]] = np.abs( np.fft.fftshift( np.fft.fft(Obj * temp, axis=0)/N ) )[:,0]
>>
    The result is the new [Obj] and the new column of [Ir].  A maximum
    equal to zero makes [Uo] or [Up] the quotient [0/0] in every entry, and
    then every entry of the new [Obj] and of the column is NaN; the shapes
    are checked as for finite values.  The column has the [N] entries of a
    column of [Ir] whenever the body gets that far. *)
Definition ePIE_update (N K : nat) (Obj : vec) (d : R) (F : list R)
    (Icol : list R) (alpha : R) : res (npfield * list npfloat) :=
  temp <- shift_signal Obj d F ;;
  psi <- broadcast2 Cmult Obj temp ;;
  psi_n <- fft_over_N N psi ;;
  let phase := map (fun z => cis (np_angle z)) psi_n in
  amp <- (if (length Icol =? K)%nat
          then Ret (np_roll 0 Icol (Z.of_nat (K / 2)))
          else Raise ValueError) ;;
  psi_n <- (if ((length psi_n =? N) && (K =? N))%nat
            then Ret (map2 Cscal amp phase)
            else Raise IndexError) ;;
  g <- np_ifft psi_n ;;
  let psi_n := map (Cscal (INR N)) g in
  mt <- max_abs2 temp ;;
  mo <- max_abs2 Obj ;;
  let Uo := map (fun z => Cdivr (Cconj z) mt) temp in
  let Up := map (fun z => Cdivr (Cconj z) mo) Obj in
  diff <- broadcast2 Cminus psi_n psi ;;
  Corr1 <- broadcast2 Cmult (map (Cscal alpha) Uo) diff ;;
  c2 <- broadcast2 Cmult (map (Cscal alpha) Up) diff ;;
  Corr2 <- shift_signal c2 (- d) F ;;
  o1 <- broadcast2 Cplus Obj Corr1 ;;
  Obj' <- broadcast2 Cplus o1 Corr2 ;;
  ot <- broadcast2 Cmult Obj' temp ;;
  s <- fft_over_N N ot ;;
  let col := map Cmod (np_roll 0%C s (Z.of_nat (length s / 2))) in
  if Req_EM_T mt 0 then Ret (NanField (length Obj'), map (fun _ => NaN) col)
  else if Req_EM_T mo 0 then
    Ret (NanField (length Obj'), map (fun _ => NaN) col)
  else Ret (Field Obj', map Fin col).

(** [SPEEDOFLIGHT = 299792458.] *)
Definition SPEEDOFLIGHT : R := 299792458.

(** The configuration read from [config.yml]: a dictionary with numbers as
    values. *)
Definition config_dict : Type := list (String.string * R).

(** [self._config[key]] *)
Fixpoint config_get (d : config_dict) (key : String.string) : pyres R :=
  match d with
  | [] => Throw _ KeyError
  | (k, v) :: d' => if String.eqb k key then Return _ v else config_get d' key
  end.

Definition pybind {A B : Type} (m : pyres A) (k : A -> pyres B) : pyres B :=
  match m with
  | Return _ a => k a
  | Throw _ e => Throw _ e
  end.

(** The quotient of two Python numbers. *)
Definition py_div (x y : R) : pyres R :=
  if Req_EM_T y 0 then Throw _ (Builtin ZeroDivisionError)
  else Return _ (x / y).

(** [FROG.freq_step_per_pixel], for the mode of the spectrometer:
<<
    wlatcenter = self._config['center wavelength']
    mm_per_mrad = 1. * self._config['focal length'] / 1000.
    pxls_per_mrad = mm_per_mrad/(self._config['pixel size'] /1000)
    nm_per_px = self._config['grating']/pxls_per_mrad
    vperpxGHz = SPEEDOFLIGHT * (1/(wlatcenter) -1/(wlatcenter + nm_per_px))
    vperpx = vperpxGHz * 1.e-3
>>
    In mode 1 the method raises [Exception]; in another mode [vperpx] is
    not bound at [return vperpx]. *)
Definition freq_step_per_pixel (mode : Z) (config : config_dict) : pyres R :=
  if (mode =? 0)%Z then
    pybind (config_get config "center wavelength"%string) (fun wlatcenter =>
    pybind (config_get config "focal length"%string) (fun focal =>
    let mm_per_mrad := 1 * focal / 1000 in
    pybind (config_get config "pixel size"%string) (fun pixel =>
    pybind (py_div mm_per_mrad (pixel / 1000)) (fun pxls_per_mrad =>
    pybind (config_get config "grating"%string) (fun grating =>
    pybind (py_div grating pxls_per_mrad) (fun nm_per_px =>
    pybind (py_div 1 wlatcenter) (fun a =>
    pybind (py_div 1 (wlatcenter + nm_per_px)) (fun b =>
    let vperpxGHz := SPEEDOFLIGHT * (a - b) in
    Return _ (vperpxGHz * (1 / 1000))))))))))
  else if (mode =? 1)%Z then Throw _ PlainException
  else Throw _ UnboundLocalError.

(** [ccddt = 1e6*2*step_size/(SPEEDOFLIGHT)] of [FROG._get_settings]. *)
Definition ccddt_of_step (step_size : R) : R :=
  1000000 * 2 * step_size / SPEEDOFLIGHT.

(* ================================================================== *)
(** * Properties *)

(** ** Complex arithmetic *)

Lemma C_eq (a b : C) : fst a = fst b -> snd a = snd b -> a = b.
Proof. destruct a, b; simpl; intros -> ->; reflexivity. Qed.

Lemma Cplus_comm (a b : C) : (a + b = b + a)%C.
Proof. Ceq. Qed.

Lemma Cplus_assoc (a b c : C) : (a + (b + c) = a + b + c)%C.
Proof. Ceq. Qed.

Lemma Cplus_0_l (a : C) : (0 + a = a)%C.
Proof. destruct a; Ceq. Qed.

Lemma Cplus_0_r (a : C) : (a + 0 = a)%C.
Proof. destruct a; Ceq. Qed.

Lemma Cmult_comm (a b : C) : (a * b = b * a)%C.
Proof. Ceq. Qed.

Lemma Cmult_assoc (a b c : C) : (a * (b * c) = a * b * c)%C.
Proof. Ceq. Qed.

Lemma Cmult_0_l (a : C) : (0 * a = 0)%C.
Proof. Ceq. Qed.

Lemma Cmult_0_r (a : C) : (a * 0 = 0)%C.
Proof. Ceq. Qed.

Lemma Cmult_1_l (a : C) : (1 * a = a)%C.
Proof. destruct a; Ceq. Qed.

Lemma Cmult_1_r (a : C) : (a * 1 = a)%C.
Proof. destruct a; Ceq. Qed.

Lemma Cmult_plus_distr_l (a b c : C) : (a * (b + c) = a * b + a * c)%C.
Proof. Ceq. Qed.

Lemma Cmult_plus_distr_r (a b c : C) : ((a + b) * c = a * c + b * c)%C.
Proof. Ceq. Qed.

Lemma Cnorm2_nonneg (z : C) : 0 <= Cnorm2 z.
Proof. unfold Cnorm2. nra. Qed.

Lemma Cnorm2_mult (a b : C) : Cnorm2 (a * b) = Cnorm2 a * Cnorm2 b.
Proof. Cunf. ring. Qed.

Lemma Cnorm2_eq_0 (z : C) : Cnorm2 z = 0 -> z = 0%C.
Proof.
  destruct z as [x y]. unfold Cnorm2, RtoC. simpl. intros H.
  assert (x = 0) by nra. assert (y = 0) by nra. subst. reflexivity.
Qed.

Lemma Cnorm2_0 : Cnorm2 0 = 0.
Proof. Cunf. ring. Qed.

Lemma Cmod_nonneg (z : C) : 0 <= Cmod z.
Proof. apply sqrt_pos. Qed.

Lemma Cmod_sqr (z : C) : Cmod z * Cmod z = Cnorm2 z.
Proof. apply sqrt_sqrt, Cnorm2_nonneg. Qed.

Lemma Cmod_mult (a b : C) : Cmod (a * b) = Cmod a * Cmod b.
Proof.
  unfold Cmod. rewrite Cnorm2_mult. apply sqrt_mult; apply Cnorm2_nonneg.
Qed.

Lemma Cmod_0 : Cmod 0 = 0.
Proof. unfold Cmod. rewrite Cnorm2_0. apply sqrt_0. Qed.

Lemma Cmod_eq_0 (z : C) : Cmod z = 0 -> z = 0%C.
Proof.
  intros H. apply Cnorm2_eq_0. rewrite <- Cmod_sqr, H. ring.
Qed.

Lemma Cnorm2_cis (t : R) : Cnorm2 (cis t) = 1.
Proof.
  unfold Cnorm2, cis. simpl. pose proof (sin2_cos2 t) as H.
  unfold Rsqr in H. lra.
Qed.

Lemma Cmod_cis (t : R) : Cmod (cis t) = 1.
Proof. unfold Cmod. rewrite Cnorm2_cis. apply sqrt_1. Qed.

Lemma cis_plus (a b : R) : cis (a + b) = (cis a * cis b)%C.
Proof.
  unfold cis, Cmult. simpl. rewrite cos_plus, sin_plus. f_equal; ring.
Qed.

Lemma cis_0 : cis 0 = 1%C.
Proof. unfold cis, RtoC. rewrite cos_0, sin_0. reflexivity. Qed.

Lemma Cnorm2_scal (x : R) (z : C) : Cnorm2 (Cscal x z) = x * x * Cnorm2 z.
Proof. Cunf. ring. Qed.

Lemma Cmod_scal (x : R) (z : C) : 0 <= x -> Cmod (Cscal x z) = x * Cmod z.
Proof.
  intros Hx. unfold Cmod. rewrite Cnorm2_scal.
  rewrite sqrt_mult; [|nra|apply Cnorm2_nonneg].
  rewrite sqrt_square by assumption. reflexivity.
Qed.

Lemma Cmod_1 : Cmod 1 = 1.
Proof. rewrite <- cis_0. apply Cmod_cis. Qed.

Lemma Cmod_conj (z : C) : Cmod (Cconj z) = Cmod z.
Proof. unfold Cmod. f_equal. Cunf. ring. Qed.

Lemma Cmult_conj (z : C) : (z * Cconj z)%C = RtoC (Cnorm2 z).
Proof. Ceq. Qed.

(** ** Tabulated arrays *)

Lemma length_mk_vec {A : Type} (n : nat) (f : nat -> A) :
  length (mk_vec n f) = n.
Proof. unfold mk_vec. rewrite length_map, length_seq. reflexivity. Qed.

Lemma nth_mk_vec {A : Type} (d : A) (n : nat) (f : nat -> A) (i : nat) :
  (i < n)%nat -> nth i (mk_vec n f) d = f i.
Proof.
  intros Hi. unfold mk_vec.
  rewrite (nth_indep _ d (f 0%nat)) by (rewrite length_map, length_seq; exact Hi).
  rewrite map_nth, seq_nth by exact Hi. reflexivity.
Qed.

Lemma nth2_mk_mat {A : Type} (d : A) (r c : nat) (f : nat -> nat -> A)
    (i j : nat) :
  (i < r)%nat -> (j < c)%nat -> nth2 d (mk_mat r c f) i j = f i j.
Proof.
  intros Hi Hj. unfold nth2, mk_mat.
  rewrite (nth_mk_vec [] r _ i Hi). apply nth_mk_vec, Hj.
Qed.

Lemma mk_vec_ext {A : Type} (n : nat) (f g : nat -> A) :
  (forall i, (i < n)%nat -> f i = g i) -> mk_vec n f = mk_vec n g.
Proof.
  intros H. unfold mk_vec. apply map_ext_in. intros i Hi.
  apply in_seq in Hi. apply H. lia.
Qed.

Lemma mk_mat_ext {A : Type} (r c : nat) (f g : nat -> nat -> A) :
  (forall i j, (i < r)%nat -> (j < c)%nat -> f i j = g i j) ->
  mk_mat r c f = mk_mat r c g.
Proof.
  intros H. apply mk_vec_ext. intros i Hi. apply mk_vec_ext. intros j Hj.
  apply H; assumption.
Qed.

Lemma mk_vec_nth {A : Type} (d : A) (l : list A) :
  mk_vec (length l) (fun i => nth i l d) = l.
Proof.
  apply (nth_ext _ _ d d).
  - apply length_mk_vec.
  - intros i Hi. rewrite length_mk_vec in Hi.
    exact (nth_mk_vec d (length l) (fun k => nth k l d) i Hi).
Qed.

Lemma has_shape_mk_mat {A : Type} (r c : nat) (f : nat -> nat -> A) :
  has_shape r c (mk_mat r c f).
Proof.
  split.
  - apply length_mk_vec.
  - apply Forall_forall. intros row Hin. unfold mk_mat, mk_vec in Hin.
    apply in_map_iff in Hin. destruct Hin as [i [<- _]]. apply length_mk_vec.
Qed.

Lemma has_shape_row {A : Type} (r c : nat) (m : mat A) (i : nat) :
  has_shape r c m -> (i < r)%nat -> length (nth i m []) = c.
Proof.
  intros [Hl Hf] Hi. rewrite Forall_forall in Hf. apply Hf, nth_In. lia.
Qed.

Lemma has_shape_ncols {A : Type} (r c : nat) (m : mat A) :
  has_shape r c m -> (0 < r)%nat -> ncols m = c.
Proof.
  intros H Hr. unfold ncols. destruct m as [|row m'].
  - destruct H as [Hl _]. simpl in Hl. lia.
  - simpl. destruct H as [_ Hf]. inversion Hf; assumption.
Qed.

Lemma mk_mat_nth2 {A : Type} (d : A) (r c : nat) (m : mat A) :
  has_shape r c m -> mk_mat r c (fun i j => nth2 d m i j) = m.
Proof.
  intros H. apply (nth_ext _ _ [] []).
  - rewrite (proj1 H). apply length_mk_vec.
  - intros i Hi. unfold mk_mat in Hi. rewrite length_mk_vec in Hi.
    unfold mk_mat. rewrite (nth_mk_vec [] r _ i Hi).
    rewrite <- (has_shape_row r c m i H Hi). apply mk_vec_nth.
Qed.

(** Two arrays of the same shape with the same entries are equal. *)
Lemma mat_ext {A : Type} (d : A) (r c : nat) (a b : mat A) :
  has_shape r c a -> has_shape r c b ->
  (forall i j, (i < r)%nat -> (j < c)%nat -> nth2 d a i j = nth2 d b i j) ->
  a = b.
Proof.
  intros Ha Hb H.
  rewrite <- (mk_mat_nth2 d r c a Ha), <- (mk_mat_nth2 d r c b Hb).
  apply mk_mat_ext, H.
Qed.

Lemma has_shape_map {A B : Type} (f : A -> B) (r c : nat) (m : mat A) :
  has_shape r c m -> has_shape r c (mat_map f m).
Proof.
  intros [Hl Hf]. split.
  - unfold mat_map. rewrite length_map. exact Hl.
  - unfold mat_map. apply Forall_map. eapply Forall_impl; [|exact Hf].
    intros row Hrow. simpl. rewrite length_map. exact Hrow.
Qed.

Lemma nth2_mat_map {A B : Type} (dA : A) (dB : B) (f : A -> B) (m : mat A)
    (r c i j : nat) :
  has_shape r c m -> (i < r)%nat -> (j < c)%nat ->
  nth2 dB (mat_map f m) i j = f (nth2 dA m i j).
Proof.
  intros H Hi Hj. unfold nth2, mat_map.
  rewrite (nth_indep _ [] (map f [])) by (rewrite length_map, (proj1 H); exact Hi).
  rewrite map_nth.
  rewrite (nth_indep _ dB (f dA))
    by (rewrite length_map, (has_shape_row r c m i H Hi); exact Hj).
  apply map_nth.
Qed.

(** ** Shapes and entries of the array primitives *)

Lemma has_shape_nil {A : Type} (c : nat) : has_shape 0 c (@nil (list A)).
Proof. split; [reflexivity | constructor]. Qed.

Lemma has_shape_0 {A : Type} (c : nat) (m : mat A) : has_shape 0 c m -> m = [].
Proof. intros [Hl _]. destruct m; [reflexivity | discriminate]. Qed.

Lemma has_shape_dims {A : Type} (r c : nat) (m : mat A) :
  has_shape r c m -> mk_mat (nrows m) (ncols m) = @mk_mat A r c \/ m = [].
Proof.
  intros H. destruct r.
  - right. eapply has_shape_0, H.
  - left. unfold nrows. rewrite (proj1 H), (has_shape_ncols _ _ _ H) by lia.
    reflexivity.
Qed.

Lemma wrap_lt (n : nat) (z : Z) : (0 < n)%nat -> (wrap n z < n)%nat.
Proof.
  intros Hn. unfold wrap.
  pose proof (Z.mod_pos_bound z (Z.of_nat n) ltac:(lia)). lia.
Qed.

Lemma wrap_small (n i : nat) : (i < n)%nat -> wrap n (Z.of_nat i) = i.
Proof.
  intros Hi. unfold wrap. rewrite Z.mod_small by lia. apply Nat2Z.id.
Qed.

Lemma wrap_eqm (n : nat) (a b : Z) :
  (a mod Z.of_nat n = b mod Z.of_nat n)%Z -> wrap n a = wrap n b.
Proof. intros H. unfold wrap. rewrite H. reflexivity. Qed.

Lemma Z_of_wrap (n : nat) (z : Z) :
  (0 < n)%nat -> Z.of_nat (wrap n z) = (z mod Z.of_nat n)%Z.
Proof.
  intros Hn. unfold wrap.
  pose proof (Z.mod_pos_bound z (Z.of_nat n) ltac:(lia)). lia.
Qed.

Lemma length_np_roll {A : Type} (d : A) (v : list A) (s : Z) :
  length (np_roll d v s) = length v.
Proof. apply length_mk_vec. Qed.

Lemma nth_np_roll {A : Type} (d : A) (v : list A) (s : Z) (i : nat) :
  (i < length v)%nat ->
  nth i (np_roll d v s) d = nth (wrap (length v) (Z.of_nat i - s)) v d.
Proof.
  intros Hi. unfold np_roll. rewrite nth_mk_vec by exact Hi. reflexivity.
Qed.

Lemma np_roll_roll {A : Type} (d : A) (v : list A) (s t : Z) :
  np_roll d (np_roll d v s) t = np_roll d v (s + t).
Proof.
  unfold np_roll at 1. rewrite length_np_roll. unfold np_roll at 2.
  apply mk_vec_ext. intros i Hi.
  assert (Hn : (0 < length v)%nat) by lia.
  rewrite nth_np_roll by (apply wrap_lt, Hn).
  f_equal. apply wrap_eqm. rewrite Z_of_wrap by exact Hn.
  rewrite Zminus_mod_idemp_l. f_equal. lia.
Qed.

Lemma np_roll_0 {A : Type} (d : A) (v : list A) : np_roll d v 0 = v.
Proof.
  rewrite <- (mk_vec_nth d v) at 2. apply mk_vec_ext. intros i Hi.
  rewrite Z.sub_0_r, wrap_small by exact Hi. reflexivity.
Qed.

Lemma np_roll_inv {A : Type} (d : A) (v : list A) (s : Z) :
  np_roll d (np_roll d v s) (- s) = v.
Proof. rewrite np_roll_roll, Z.add_opp_diag_r. apply np_roll_0. Qed.

Lemma np_roll_inv' {A : Type} (d : A) (v : list A) (s : Z) :
  np_roll d (np_roll d v (- s)) s = v.
Proof. rewrite np_roll_roll, Z.add_opp_diag_l. apply np_roll_0. Qed.

Lemma has_shape_forall {A : Type} (r c : nat) (m : mat A) :
  length m = r -> (forall row, In row m -> length row = c) -> has_shape r c m.
Proof. intros Hl H. split; [exact Hl | apply Forall_forall, H]. Qed.

Lemma has_shape_in {A : Type} (r c : nat) (m : mat A) (row : list A) :
  has_shape r c m -> In row m -> length row = c.
Proof. intros [_ Hf] Hin. rewrite Forall_forall in Hf. apply Hf, Hin. Qed.

Lemma has_shape_roll_axis0 {A : Type} (r c : nat) (m : mat A) (s : Z) :
  has_shape r c m -> has_shape r c (roll_axis0 m s).
Proof.
  intros H. apply has_shape_forall.
  - unfold roll_axis0. rewrite length_np_roll. apply H.
  - intros row Hin. unfold roll_axis0, np_roll, mk_vec in Hin.
    apply in_map_iff in Hin. destruct Hin as [i [<- Hi]]. apply in_seq in Hi.
    eapply has_shape_in; [exact H|]. apply nth_In, wrap_lt. lia.
Qed.

Lemma nth2_roll_axis0 {A : Type} (d : A) (r c : nat) (m : mat A) (s : Z)
    (i j : nat) :
  has_shape r c m -> (i < r)%nat ->
  nth2 d (roll_axis0 m s) i j = nth2 d m (wrap r (Z.of_nat i - s)) j.
Proof.
  intros H Hi. unfold nth2, roll_axis0.
  rewrite nth_np_roll by (rewrite (proj1 H); exact Hi).
  rewrite (proj1 H). reflexivity.
Qed.

Lemma has_shape_map_rows {A B : Type} (f : list A -> list B) (r c : nat)
    (m : mat A) :
  (forall row, length (f row) = length row) ->
  has_shape r c m -> has_shape r c (map f m).
Proof.
  intros Hf H. apply has_shape_forall.
  - rewrite length_map. apply H.
  - intros row Hin. apply in_map_iff in Hin. destruct Hin as [x [<- Hx]].
    rewrite Hf. eapply has_shape_in; eassumption.
Qed.

Lemma nth_map_rows {A : Type} (f : list A -> list A) (r c : nat) (m : mat A)
    (i : nat) :
  has_shape r c m -> (i < r)%nat -> nth i (map f m) [] = f (nth i m []).
Proof.
  intros H Hi.
  rewrite (nth_indep _ [] (f [])) by (rewrite length_map, (proj1 H); exact Hi).
  apply map_nth.
Qed.

Lemma has_shape_roll_axis1 {A : Type} (d : A) (r c : nat) (m : mat A) (s : Z) :
  has_shape r c m -> has_shape r c (roll_axis1 d m s).
Proof. apply has_shape_map_rows. intros row. apply length_np_roll. Qed.

Lemma nth2_roll_axis1 {A : Type} (d : A) (r c : nat) (m : mat A) (s : Z)
    (i j : nat) :
  has_shape r c m -> (i < r)%nat -> (j < c)%nat ->
  nth2 d (roll_axis1 d m s) i j = nth2 d m i (wrap c (Z.of_nat j - s)).
Proof.
  intros H Hi Hj. unfold nth2, roll_axis1.
  rewrite (nth_map_rows _ r c m i H Hi).
  pose proof (has_shape_row r c m i H Hi) as Hlen.
  rewrite nth_np_roll by (rewrite Hlen; exact Hj). rewrite Hlen. reflexivity.
Qed.

Lemma has_shape_fftshift_axis1 {A : Type} (d : A) (r c : nat) (m : mat A) :
  has_shape r c m -> has_shape r c (fftshift_axis1 d m).
Proof. apply has_shape_map_rows. intros row. apply length_np_roll. Qed.

Lemma has_shape_ifftshift_axis1 {A : Type} (d : A) (r c : nat) (m : mat A) :
  has_shape r c m -> has_shape r c (ifftshift_axis1 d m).
Proof. apply has_shape_map_rows. intros row. apply length_np_roll. Qed.

Lemma fftshift_axis1_roll {A : Type} (d : A) (r c : nat) (m : mat A) :
  has_shape r c m -> fftshift_axis1 d m = roll_axis1 d m (Z.of_nat (c / 2)).
Proof.
  intros H. unfold fftshift_axis1, roll_axis1. apply map_ext_in.
  intros row Hin. rewrite (has_shape_in r c m row H Hin). reflexivity.
Qed.

Lemma ifftshift_axis1_roll {A : Type} (d : A) (r c : nat) (m : mat A) :
  has_shape r c m -> ifftshift_axis1 d m = roll_axis1 d m (- Z.of_nat (c / 2)).
Proof.
  intros H. unfold ifftshift_axis1, roll_axis1. apply map_ext_in.
  intros row Hin. rewrite (has_shape_in r c m row H Hin). reflexivity.
Qed.

Lemma has_shape_fliplr {A : Type} (r c : nat) (m : mat A) :
  has_shape r c m -> has_shape r c (fliplr m).
Proof. apply has_shape_map_rows. intros row. apply length_rev. Qed.

Lemma nth2_fliplr {A : Type} (d : A) (r c : nat) (m : mat A) (i j : nat) :
  has_shape r c m -> (i < r)%nat -> (j < c)%nat ->
  nth2 d (fliplr m) i j = nth2 d m i (c - 1 - j).
Proof.
  intros H Hi Hj. unfold nth2, fliplr.
  rewrite (nth_map_rows _ r c m i H Hi).
  pose proof (has_shape_row r c m i H Hi) as Hlen.
  rewrite rev_nth by (rewrite Hlen; exact Hj). rewrite Hlen.
  f_equal. lia.
Qed.

Lemma has_shape_flipud {A : Type} (r c : nat) (m : mat A) :
  has_shape r c m -> has_shape r c (flipud m).
Proof.
  intros H. apply has_shape_forall.
  - unfold flipud. rewrite length_rev. apply H.
  - intros row Hin. unfold flipud in Hin. apply in_rev in Hin.
    eapply has_shape_in; eassumption.
Qed.

Lemma nth2_flipud {A : Type} (d : A) (r c : nat) (m : mat A) (i j : nat) :
  has_shape r c m -> (i < r)%nat ->
  nth2 d (flipud m) i j = nth2 d m (r - 1 - i) j.
Proof.
  intros H Hi. unfold nth2, flipud.
  rewrite rev_nth by (rewrite (proj1 H); exact Hi). rewrite (proj1 H).
  do 2 f_equal. lia.
Qed.

Lemma fliplr_invol {A : Type} (m : mat A) : fliplr (fliplr m) = m.
Proof.
  unfold fliplr. rewrite map_map. rewrite <- (map_id m) at 2.
  apply map_ext. intros row. apply rev_involutive.
Qed.

Lemma flipud_invol {A : Type} (m : mat A) : flipud (flipud m) = m.
Proof. apply rev_involutive. Qed.

Lemma flipud_fliplr_comm {A : Type} (m : mat A) :
  flipud (fliplr m) = fliplr (flipud m).
Proof. unfold flipud, fliplr. symmetry. apply map_rev. Qed.

Lemma has_shape_transpose {A : Type} (d : A) (r c : nat) (m : mat A) :
  has_shape r c m -> (0 < r)%nat -> has_shape c r (transpose d m).
Proof.
  intros H Hr. unfold transpose, nrows.
  rewrite (has_shape_ncols r c m H Hr), (proj1 H). apply has_shape_mk_mat.
Qed.

Lemma nth2_transpose {A : Type} (d : A) (r c : nat) (m : mat A) (i j : nat) :
  has_shape r c m -> (i < c)%nat -> (j < r)%nat ->
  nth2 d (transpose d m) i j = nth2 d m j i.
Proof.
  intros H Hi Hj. unfold transpose, nrows.
  rewrite (has_shape_ncols r c m H) by lia. rewrite (proj1 H).
  rewrite nth2_mk_mat by assumption. reflexivity.
Qed.

Lemma length_map2 {A B D : Type} (f : A -> B -> D) (l1 : list A) (l2 : list B) :
  length (map2 f l1 l2) = Nat.min (length l1) (length l2).
Proof.
  revert l2. induction l1 as [|a l1 IH]; intros [|b l2]; simpl; try reflexivity.
  rewrite IH. reflexivity.
Qed.

Lemma nth_map2 {A B D : Type} (dA : A) (dB : B) (dD : D) (f : A -> B -> D)
    (l1 : list A) (l2 : list B) (i : nat) :
  (i < length l1)%nat -> (i < length l2)%nat ->
  nth i (map2 f l1 l2) dD = f (nth i l1 dA) (nth i l2 dB).
Proof.
  revert l2 i. induction l1 as [|a l1 IH]; intros [|b l2] i H1 H2;
    simpl in *; try lia.
  destruct i as [|i]; [reflexivity|]. apply IH; lia.
Qed.

Lemma has_shape_mat_map2 {A B D : Type} (f : A -> B -> D) (r c : nat)
    (a : mat A) (b : mat B) :
  has_shape r c a -> has_shape r c b -> has_shape r c (mat_map2 f a b).
Proof.
  intros Ha Hb. unfold mat_map2. split.
  - rewrite length_map2, (proj1 Ha), (proj1 Hb). apply Nat.min_id.
  - apply Forall_forall. intros row Hin.
    destruct (In_nth _ _ [] Hin) as [i [Hi <-]].
    rewrite length_map2, (proj1 Ha), (proj1 Hb), Nat.min_id in Hi.
    rewrite (nth_map2 [] [] [] _ a b i)
      by (rewrite ?(proj1 Ha), ?(proj1 Hb); exact Hi).
    rewrite length_map2, (has_shape_row r c a i Ha Hi),
      (has_shape_row r c b i Hb Hi). apply Nat.min_id.
Qed.

Lemma nth2_mat_map2 {A B D : Type} (dA : A) (dB : B) (dD : D)
    (f : A -> B -> D) (r c : nat) (a : mat A) (b : mat B) (i j : nat) :
  has_shape r c a -> has_shape r c b -> (i < r)%nat -> (j < c)%nat ->
  nth2 dD (mat_map2 f a b) i j = f (nth2 dA a i j) (nth2 dB b i j).
Proof.
  intros Ha Hb Hi Hj. unfold nth2, mat_map2.
  rewrite (nth_map2 [] [] [] _ a b i)
    by (rewrite ?(proj1 Ha), ?(proj1 Hb); exact Hi).
  apply nth_map2.
  - rewrite (has_shape_row r c a i Ha Hi). exact Hj.
  - rewrite (has_shape_row r c b i Hb Hi). exact Hj.
Qed.

Lemma has_shape_outer (a b : vec) : has_shape (length a) (length b) (outer a b).
Proof. apply has_shape_mk_mat. Qed.

Lemma mget_outer (a b : vec) (i j : nat) :
  (i < length a)%nat -> (j < length b)%nat ->
  mget (outer a b) i j = (vget a i * vget b j)%C.
Proof.
  intros Hi Hj. unfold mget, outer. rewrite nth2_mk_mat by assumption.
  reflexivity.
Qed.

Lemma np_tril_shape (r c : nat) (m : mat C) (k : R) :
  has_shape r c m ->
  np_tril m k =
  mk_mat r c (fun i j => if Rle_dec (INR j - INR i) k then mget m i j else 0%C).
Proof.
  intros H. unfold np_tril. destruct (has_shape_dims r c m H) as [-> | ->].
  - reflexivity.
  - destruct H as [Hl _]. simpl in Hl. subst r. reflexivity.
Qed.

Lemma np_triu_shape (r c : nat) (m : mat C) (k : R) :
  has_shape r c m ->
  np_triu m k =
  mk_mat r c (fun i j => if Rle_dec k (INR j - INR i) then mget m i j else 0%C).
Proof.
  intros H. unfold np_triu. destruct (has_shape_dims r c m H) as [-> | ->].
  - reflexivity.
  - destruct H as [Hl _]. simpl in Hl. subst r. reflexivity.
Qed.

Lemma has_shape_antialias_time (N r c : nat) (m : mat C) :
  has_shape r c m -> has_shape r c (antialias_time N m).
Proof.
  intros H. unfold antialias_time, mat_minus.
  rewrite (np_tril_shape r c), (np_triu_shape r c) by exact H.
  repeat apply has_shape_mat_map2; try exact H; apply has_shape_mk_mat.
Qed.

Lemma mget_antialias_time (N r c : nat) (m : mat C) (i j : nat) :
  has_shape r c m -> (i < r)%nat -> (j < c)%nat ->
  mget (antialias_time N m) i j =
  let k := py_val (np_ceil (half N)) in
  (mget m i j
   - (if Rle_dec (INR j - INR i) (- k) then mget m i j else 0)
   - (if Rle_dec k (INR j - INR i) then mget m i j else 0))%C.
Proof.
  intros H Hi Hj. unfold antialias_time, mat_minus, mget.
  rewrite (np_tril_shape r c), (np_triu_shape r c) by exact H.
  set (lo := mk_mat r c _). set (hi := mk_mat r c _).
  assert (Hlo : has_shape r c lo) by apply has_shape_mk_mat.
  assert (Hhi : has_shape r c hi) by apply has_shape_mk_mat.
  assert (Hd : has_shape r c (mat_map2 Cminus m lo))
    by (apply has_shape_mat_map2; assumption).
  rewrite (nth2_mat_map2 0%C 0%C 0%C _ r c) by assumption.
  rewrite (nth2_mat_map2 0%C 0%C 0%C _ r c) by assumption.
  unfold lo, hi. rewrite !nth2_mk_mat by assumption. reflexivity.
Qed.

Lemma rotate_rows_shape (N : nat) (sgn : Z) (c : nat) (m : mat C) :
  has_shape N c m ->
  rotate_rows N sgn m =
  Ret (mk_mat N c (fun n j => mget m n (wrap c (Z.of_nat j - sgn * Z.of_nat n)))).
Proof.
  intros H. unfold rotate_rows, nrows. rewrite (proj1 H), Nat.ltb_irrefl.
  f_equal. apply mk_vec_ext. intros n Hn.
  apply Nat.ltb_lt in Hn as Hn'. rewrite Hn'.
  pose proof (has_shape_row N c m n H Hn) as Hlen.
  unfold np_roll. rewrite Hlen. reflexivity.
Qed.

Lemma fft_axis0_shape (r c : nat) (m : mat C) :
  has_shape r c m -> (0 < r)%nat ->
  fft_axis0 m =
  Ret (mk_mat r c (fun k j => dft (-1) r (fun n => mget m n j) k)).
Proof.
  intros H Hr. unfold fft_axis0, nrows.
  rewrite (proj1 H), (has_shape_ncols r c m H Hr).
  destruct (Nat.eqb_spec r 0); [lia | reflexivity].
Qed.

Lemma ifft_axis0_shape (r c : nat) (m : mat C) :
  has_shape r c m -> (0 < r)%nat ->
  ifft_axis0 m =
  Ret (mk_mat r c
         (fun k j => Cdivr (dft 1 r (fun n => mget m n j) k) (INR r))).
Proof.
  intros H Hr. unfold ifft_axis0, nrows.
  rewrite (proj1 H), (has_shape_ncols r c m H Hr).
  destruct (Nat.eqb_spec r 0); [lia | reflexivity].
Qed.

Lemma np_fft_shape (v : vec) :
  (0 < length v)%nat ->
  np_fft v = Ret (mk_vec (length v) (dft (-1) (length v) (vget v))).
Proof.
  intros H. unfold np_fft. destruct (Nat.eqb_spec (length v) 0); [lia|].
  reflexivity.
Qed.

Lemma np_ifft_shape (v : vec) :
  (0 < length v)%nat ->
  np_ifft v =
  Ret (mk_vec (length v)
         (fun k => Cdivr (dft 1 (length v) (vget v) k) (INR (length v)))).
Proof.
  intros H. unfold np_ifft. destruct (Nat.eqb_spec (length v) 0); [lia|].
  reflexivity.
Qed.

Lemma has_shape_abs2 (r c : nat) (m : mat C) :
  has_shape r c m -> has_shape r c (abs2 m).
Proof. apply has_shape_map. Qed.

Lemma nth2_abs2 (r c : nat) (m : mat C) (i j : nat) :
  has_shape r c m -> (i < r)%nat -> (j < c)%nat ->
  nth2 0 (abs2 m) i j = Cmod (mget m i j) * Cmod (mget m i j).
Proof.
  intros H Hi Hj. unfold abs2, mget.
  rewrite (nth2_mat_map 0%C 0 _ m r c i j H Hi Hj). reflexivity.
Qed.

(** ** The index arithmetic on [N/2.] *)

Lemma half_bounds (N : nat) :
  IZR (floor_half N) <= half N < IZR (floor_half N) + 1 /\
  IZR (ceil_half N) - 1 < half N <= IZR (ceil_half N).
Proof.
  unfold half, floor_half, ceil_half. rewrite INR_IZR_INZ.
  pose proof (Nat.div_mod_eq N 2) as H1.
  pose proof (Nat.mod_upper_bound N 2 ltac:(lia)) as H2.
  pose proof (Nat.div_mod_eq (N + 1) 2) as H3.
  pose proof (Nat.mod_upper_bound (N + 1) 2 ltac:(lia)) as H4.
  assert (E1 : (Z.of_nat N = 2 * Z.of_nat (N / 2) + Z.of_nat (N mod 2))%Z) by lia.
  assert (E2 : (Z.of_nat N + 1
                = 2 * Z.of_nat ((N + 1) / 2) + Z.of_nat ((N + 1) mod 2))%Z) by lia.
  apply (f_equal IZR) in E1, E2.
  rewrite !plus_IZR, !mult_IZR in E1. rewrite !plus_IZR in E2. rewrite !mult_IZR in E2.
  assert (B1 : 0 <= IZR (Z.of_nat (N mod 2)) <= 1)
    by (split; apply IZR_le; lia).
  assert (B2 : 0 <= IZR (Z.of_nat ((N + 1) mod 2)) <= 1)
    by (split; apply IZR_le; lia).
  lra.
Qed.

Lemma Zfloor_half (N : nat) : Zfloor (half N) = floor_half N.
Proof. apply Zfloor_eq, half_bounds. Qed.

Lemma Zceil_half (N : nat) : Zceil (half N) = ceil_half N.
Proof. apply Zceil_eq, half_bounds. Qed.

Lemma Ztrunc_IZR (z : Z) : Ztrunc (IZR z) = z.
Proof.
  unfold Ztrunc. destruct (Rlt_dec (IZR z) 0).
  - apply Zceil_eq. lra.
  - apply ZfloorZ.
Qed.

Lemma py_int_ceil_half (N : nat) : py_int (np_ceil (half N)) = ceil_half N.
Proof. simpl. rewrite Zceil_half. apply Ztrunc_IZR. Qed.

Lemma py_int_ceil_half_m1 (N : nat) :
  py_int (py_plus (np_ceil (half N)) (-1)) = (ceil_half N - 1)%Z.
Proof.
  simpl. rewrite Zceil_half, <- plus_IZR. apply Ztrunc_IZR.
Qed.

Lemma py_int_floor_half (N : nat) : py_int (np_floor (half N)) = floor_half N.
Proof. simpl. rewrite Zfloor_half. apply Ztrunc_IZR. Qed.

Lemma py_val_ceil_half (N : nat) : py_val (np_ceil (half N)) = IZR (ceil_half N).
Proof. simpl. rewrite Zceil_half. reflexivity. Qed.

(** ** [makeFROG] returns a pair of [N x N] arrays *)

Lemma has_shape_set_zero (r c : nat) (m : mat C) (n a b : Z) :
  has_shape r c m -> has_shape r c (set_zero m n a b).
Proof.
  intros H. apply has_shape_forall.
  - unfold set_zero. rewrite length_mk_vec. apply H.
  - intros row Hin. unfold set_zero, mk_vec in Hin.
    apply in_map_iff in Hin. destruct Hin as [i [<- Hi]]. apply in_seq in Hi.
    assert (Hr : (i < r)%nat) by (rewrite <- (proj1 H); lia).
    destruct (Z.of_nat i =? n)%Z.
    + unfold zero_slice. rewrite length_mk_vec. apply (has_shape_row r c m i H Hr).
    + apply (has_shape_row r c m i H Hr).
Qed.

Lemma has_shape_fold_set_zero (r c : nat) (fa fb : Z -> Z) (l : list Z)
    (m : mat C) :
  has_shape r c m ->
  has_shape r c (fold_left (fun m n => set_zero m n (fa n) (fb n)) l m).
Proof.
  revert m. induction l as [|n l IH]; intros m H; simpl.
  - exact H.
  - apply IH, has_shape_set_zero, H.
Qed.

Lemma antialias_freq_int (N r c : nat) (vmax first : Z) (m : mat C) :
  has_shape r c m ->
  exists m', antialias_freq N (PyInt vmax) first m = Ret m' /\ has_shape r c m'.
Proof.
  intros H. unfold antialias_freq. simpl. eexists. split; [reflexivity|].
  apply (has_shape_fold_set_zero r c
           (fun _ => (vmax + 1)%Z) (fun n => (vmax + 1 + (Z.of_nat N - n))%Z)).
  apply (has_shape_fold_set_zero r c
           (fun n => (vmax - (n - 1))%Z) (fun _ => (vmax + 1)%Z)).
  exact H.
Qed.

Lemma has_shape_np_fft (v w : vec) :
  np_fft v = Ret w -> length w = length v /\ (0 < length v)%nat.
Proof.
  unfold np_fft. destruct (Nat.eqb_spec (length v) 0); [discriminate|].
  intros E. injection E as <-. rewrite length_mk_vec. split; [reflexivity | lia].
Qed.

Lemma makeFROG_time_returns (P : vec) (antialias : Z) :
  (0 < length P)%nat ->
  exists EF, makeFROG P 0 antialias = Ret (Some (abs2 EF, EF)) /\
             has_shape (length P) (length P) EF.
Proof.
  intros HN. set (N := length P) in *. unfold makeFROG. fold N.
  change ((0 =? 0)%Z) with true. cbv iota.
  set (EF0 := if (antialias =? 0)%Z then outer P P else antialias_time N (outer P P)).
  assert (H0 : has_shape N N EF0).
  { unfold EF0. destruct (antialias =? 0)%Z.
    - apply has_shape_outer.
    - apply has_shape_antialias_time, has_shape_outer. }
  rewrite (rotate_rows_shape N (-1) N EF0 H0). cbn [bind].
  set (EF1 := fliplr (fftshift_axis1 0%C _)).
  assert (H1 : has_shape N N EF1).
  { apply has_shape_fliplr, has_shape_fftshift_axis1, has_shape_mk_mat. }
  rewrite (fft_axis0_shape N N EF1 H1 HN). cbn [bind].
  eexists. split; [reflexivity|].
  apply has_shape_roll_axis0, has_shape_mk_mat.
Qed.

Lemma makeFROG_freq_returns (P : vec) (antialias : Z) :
  (0 < length P)%nat ->
  exists EF, makeFROG P 1 antialias = Ret (Some (abs2 EF, EF)) /\
             has_shape (length P) (length P) EF.
Proof.
  intros HN. set (N := length P) in *. unfold makeFROG. fold N.
  change ((1 =? 0)%Z) with false. change ((1 =? 1)%Z) with true. cbv iota.
  rewrite (np_fft_shape P HN). fold N. cbn [bind].
  set (PtFFT := mk_vec N _).
  assert (HF : has_shape N N (outer PtFFT PtFFT)).
  { pose proof (has_shape_outer PtFFT PtFFT) as H.
    unfold PtFFT in H at 1 2. rewrite length_mk_vec in H. exact H. }
  assert (Haa : exists EF0,
             (if (antialias =? 0)%Z then Ret (outer PtFFT PtFFT)
              else antialias_freq N (PyInt (py_int (np_floor (half N)))) 1
                     (outer PtFFT PtFFT)) = Ret EF0 /\ has_shape N N EF0).
  { destruct (antialias =? 0)%Z.
    - eexists. split; [reflexivity | exact HF].
    - apply antialias_freq_int, HF. }
  destruct Haa as [EF0 [-> H0]]. cbn [bind].
  rewrite (rotate_rows_shape N (-1) N (fliplr EF0))
    by (apply has_shape_fliplr, H0). cbn [bind].
  rewrite (ifft_axis0_shape N N) by (try exact HN; apply has_shape_mk_mat).
  cbn [bind]. eexists. split; [reflexivity|].
  apply has_shape_transpose; [|exact HN].
  apply has_shape_roll_axis1, has_shape_roll_axis0, has_shape_flipud,
    has_shape_fliplr, has_shape_mk_mat.
Qed.

(** C2.  For a field [P] of length [N >= 1] (NumPy refuses the transform of
    an empty field), in both domains and for every anti-alias setting,
    [makeFROG] returns a pair [(F, EF)] of [N x N] arrays with
    [F[i,j] = |EF[i,j]|^2] at every entry. *)
Theorem makeFROG_trace_is_squared_modulus
    (P : vec) (domain antialias : Z) :
  P <> [] -> domain = 0%Z \/ domain = 1%Z ->
  exists F EF,
    makeFROG P domain antialias = Ret (Some (F, EF)) /\
    has_shape (length P) (length P) EF /\
    has_shape (length P) (length P) F /\
    forall i j, (i < length P)%nat -> (j < length P)%nat ->
      nth2 0 F i j = (Cmod (mget EF i j)) ^ 2.
Proof.
  intros HP Hd.
  assert (HN : (0 < length P)%nat) by (destruct P; [congruence | simpl; lia]).
  assert (H : exists EF, makeFROG P domain antialias = Ret (Some (abs2 EF, EF)) /\
                         has_shape (length P) (length P) EF).
  { destruct Hd as [-> | ->].
    - apply makeFROG_time_returns, HN.
    - apply makeFROG_freq_returns, HN. }
  destruct H as [EF [E HS]]. exists (abs2 EF), EF.
  split; [exact E|]. split; [exact HS|]. split; [apply has_shape_abs2, HS|].
  intros i j Hi Hj. rewrite (nth2_abs2 _ _ EF i j HS Hi Hj). ring.
Qed.

Lemma makeFROG_trace_is_squared_modulus_witness :
  exists F EF,
    makeFROG [RtoC 1; Ci] 1 1 = Ret (Some (F, EF)) /\
    has_shape 2 2 EF /\ has_shape 2 2 F /\
    forall i j, (i < 2)%nat -> (j < 2)%nat ->
      nth2 0 F i j = (Cmod (mget EF i j)) ^ 2.
Proof.
  apply (makeFROG_trace_is_squared_modulus [RtoC 1; Ci] 1 1).
  - discriminate.
  - right. reflexivity.
Defined.

(** ** [guessPulse] in the frequency domain with anti-aliasing *)

Lemma antialias_freq_float (N : nat) (x : R) (first : Z) (EF : mat C) :
  antialias_freq N (PyFloat x) first EF = Raise TypeError.
Proof. reflexivity. Qed.

Lemma bind_raise {A B : Type} (m : res A) (k : A -> res B) :
  (forall a, exists e, k a = Raise e) -> exists e, bind m k = Raise e.
Proof.
  intros H. destruct m as [a|e]; cbn [bind].
  - apply H.
  - exists e. reflexivity.
Qed.

(** On a square matrix the exception is the [TypeError] of
    [range(2,vmax+1)], [vmax] being the float [np.floor(N/2.)]. *)
Lemma guessPulse_freq_antialias_TypeError
    (svd_U0 : mat C -> res vec) (N : nat) (EF : mat C) (lastPt : vec)
    (antialias PowerOrSVD : Z) :
  has_shape N N EF -> (0 < N)%nat -> antialias <> 0%Z ->
  guessPulse svd_U0 EF lastPt 1 antialias PowerOrSVD = Raise TypeError.
Proof.
  intros H HN Haa. unfold guessPulse.
  destruct EF as [|row EF'] eqn:E; [destruct H as [Hl _]; simpl in Hl; lia|].
  rewrite <- E in *. cbn [bind].
  assert (Hrow : length row = N).
  { apply (has_shape_in N N EF row H). rewrite E. left. reflexivity. }
  rewrite Hrow.
  change ((1 =? 0)%Z) with false. change ((1 =? 1)%Z) with true. cbv iota.
  rewrite (fft_axis0_shape N N); [|
    apply has_shape_flipud, has_shape_fliplr, has_shape_roll_axis0,
      has_shape_roll_axis1, has_shape_transpose; assumption | exact HN].
  cbn [bind].
  rewrite (rotate_rows_shape N 1 N) by apply has_shape_mk_mat. cbn [bind].
  destruct (Z.eqb_spec antialias 0); [contradiction|].
  reflexivity.
Qed.

(** C10.  With [domain=1] and [antialias=1], [guessPulse] returns no value,
    whatever the matrix, the previous field and the method: the loop bound
    [vmax = np.floor(N/2.)] is a float, which [range] refuses. *)
Theorem guessPulse_freq_antialias_raises
    (svd_U0 : mat C -> res vec) (EF : mat C) (lastPt : vec) (PowerOrSVD : Z) :
  exists e, guessPulse svd_U0 EF lastPt 1 1 PowerOrSVD = Raise e.
Proof.
  unfold guessPulse. apply bind_raise. intros N.
  change ((1 =? 0)%Z) with false. change ((1 =? 1)%Z) with true. cbv iota.
  apply bind_raise. intros EF1. apply bind_raise. intros EF2.
  unfold np_floor. rewrite antialias_freq_float. cbn [bind].
  exists TypeError. reflexivity.
Qed.

(** ** Finite sums *)

Lemma bigsum_S (n : nat) (f : nat -> C) :
  bigsum (S n) f = (bigsum n f + f n)%C.
Proof.
  unfold bigsum. rewrite seq_S, map_app. simpl.
  induction (map f (seq 0 n)) as [|a l IH]; simpl.
  - Ceq.
  - rewrite IH. apply Cplus_assoc.
Qed.

Lemma bigsum_0 (f : nat -> C) : bigsum 0 f = 0%C.
Proof. reflexivity. Qed.

Lemma bigsum_ext (n : nat) (f g : nat -> C) :
  (forall i, (i < n)%nat -> f i = g i) -> bigsum n f = bigsum n g.
Proof.
  intros H. unfold bigsum. f_equal. apply map_ext_in. intros i Hi.
  apply in_seq in Hi. apply H. lia.
Qed.

Lemma bigsum_zero (n : nat) (f : nat -> C) :
  (forall i, (i < n)%nat -> f i = 0%C) -> bigsum n f = 0%C.
Proof.
  induction n as [|n IH]; intros H.
  - reflexivity.
  - rewrite bigsum_S. rewrite IH by (intros i Hi; apply H; lia).
    rewrite (H n) by lia. Ceq.
Qed.

Lemma bigsum_plus (n : nat) (f g : nat -> C) :
  bigsum n (fun i => (f i + g i)%C) = (bigsum n f + bigsum n g)%C.
Proof.
  induction n as [|n IH].
  - rewrite !bigsum_0. Ceq.
  - rewrite !bigsum_S, IH. Ceq.
Qed.

Lemma bigsum_mult_l (n : nat) (c : C) (f : nat -> C) :
  bigsum n (fun i => (c * f i)%C) = (c * bigsum n f)%C.
Proof.
  induction n as [|n IH].
  - rewrite !bigsum_0. Ceq.
  - rewrite !bigsum_S, IH. Ceq.
Qed.

Lemma bigsum_mult_r (n : nat) (c : C) (f : nat -> C) :
  bigsum n (fun i => (f i * c)%C) = (bigsum n f * c)%C.
Proof.
  induction n as [|n IH].
  - rewrite !bigsum_0. Ceq.
  - rewrite !bigsum_S, IH. Ceq.
Qed.

Lemma bigsum_swap (n m : nat) (f : nat -> nat -> C) :
  bigsum n (fun i => bigsum m (fun j => f i j)) =
  bigsum m (fun j => bigsum n (fun i => f i j)).
Proof.
  induction n as [|n IH].
  - rewrite bigsum_0. symmetry. apply bigsum_zero. intros. apply bigsum_0.
  - rewrite bigsum_S, IH, <- bigsum_plus. apply bigsum_ext. intros j _.
    rewrite bigsum_S. reflexivity.
Qed.

(** A sum with a single nonzero term. *)
Lemma bigsum_single (n k : nat) (f : nat -> C) :
  (k < n)%nat -> (forall i, (i < n)%nat -> i <> k -> f i = 0%C) ->
  bigsum n f = f k.
Proof.
  induction n as [|n IH]; intros Hk H; [lia|].
  rewrite bigsum_S. destruct (Nat.eq_dec k n) as [->|Hne].
  - rewrite bigsum_zero by (intros i Hi; apply H; lia). apply Cplus_0_l.
  - rewrite IH by (try lia; intros i Hi Hik; apply H; lia).
    rewrite (H n) by lia. apply Cplus_0_r.
Qed.

Lemma bigsum_conj (n : nat) (f : nat -> C) :
  Cconj (bigsum n f) = bigsum n (fun i => Cconj (f i)).
Proof.
  induction n as [|n IH].
  - rewrite !bigsum_0. Ceq.
  - rewrite !bigsum_S, <- IH. Ceq.
Qed.

Lemma bigsum_const (n : nat) (c : C) :
  bigsum n (fun _ => c) = (RtoC (INR n) * c)%C.
Proof.
  induction n as [|n IH].
  - rewrite bigsum_0. simpl INR. Ceq.
  - rewrite bigsum_S, IH, S_INR. Ceq.
Qed.

(** ** Roots of unity *)

Lemma omega_add (N : nat) (a b : Z) :
  omega N (a + b) = (omega N a * omega N b)%C.
Proof.
  unfold omega. rewrite <- cis_plus. f_equal. rewrite plus_IZR.
  unfold Rdiv. ring.
Qed.

Lemma omega_0 (N : nat) : omega N 0 = 1%C.
Proof.
  unfold omega. replace (2 * PI * 0 / INR N) with 0
    by (unfold Rdiv; ring). apply cis_0.
Qed.

Lemma Cmod_omega (N : nat) (z : Z) : Cmod (omega N z) = 1.
Proof. apply Cmod_cis. Qed.

Lemma Cnorm2_omega (N : nat) (z : Z) : Cnorm2 (omega N z) = 1.
Proof. apply Cnorm2_cis. Qed.

Lemma cis_2PI_nat (n : nat) : cis (2 * PI * INR n) = 1%C.
Proof.
  unfold cis, RtoC. f_equal.
  - replace (2 * PI * INR n) with (0 + 2 * INR n * PI) by ring.
    rewrite cos_period. apply cos_0.
  - replace (2 * PI * INR n) with (0 + 2 * INR n * PI) by ring.
    rewrite sin_period. apply sin_0.
Qed.

Lemma cis_neg (t : R) : cis (- t) = Cconj (cis t).
Proof. unfold cis, Cconj. simpl. rewrite cos_neg, sin_neg. reflexivity. Qed.

Lemma cis_2PI_mult (k : Z) : cis (2 * PI * IZR k) = 1%C.
Proof.
  destruct (Z_le_gt_dec 0 k) as [Hk | Hk].
  - rewrite <- (Z2Nat.id k Hk), <- INR_IZR_INZ. apply cis_2PI_nat.
  - replace k with (- Z.of_nat (Z.to_nat (- k)))%Z by lia.
    rewrite opp_IZR, <- INR_IZR_INZ.
    replace (2 * PI * - INR (Z.to_nat (- k)))
      with (- (2 * PI * INR (Z.to_nat (- k)))) by ring.
    rewrite cis_neg, cis_2PI_nat. Ceq.
Qed.

Lemma omega_period (N : nat) (k : Z) :
  (0 < N)%nat -> omega N (k * Z.of_nat N) = 1%C.
Proof.
  intros HN. unfold omega. rewrite mult_IZR, <- INR_IZR_INZ.
  replace (2 * PI * (IZR k * INR N) / INR N) with (2 * PI * IZR k).
  - apply cis_2PI_mult.
  - field. apply not_0_INR. lia.
Qed.

Lemma omega_mod (N : nat) (z : Z) :
  (0 < N)%nat -> omega N z = omega N (z mod Z.of_nat N).
Proof.
  intros HN.
  rewrite (Z.div_mod z (Z.of_nat N)) at 1 by lia.
  rewrite omega_add, Z.mul_comm, omega_period by exact HN. apply Cmult_1_l.
Qed.

Lemma omega_eqm (N : nat) (a b : Z) :
  (0 < N)%nat -> (a mod Z.of_nat N = b mod Z.of_nat N)%Z ->
  omega N a = omega N b.
Proof.
  intros HN H. rewrite (omega_mod N a), (omega_mod N b), H by exact HN.
  reflexivity.
Qed.

Lemma omega_conj (N : nat) (z : Z) : Cconj (omega N z) = omega N (- z).
Proof.
  unfold omega, cis, Cconj. simpl. rewrite opp_IZR.
  replace (2 * PI * - IZR z / INR N) with (- (2 * PI * IZR z / INR N))
    by (unfold Rdiv; ring).
  rewrite cos_neg, sin_neg. reflexivity.
Qed.

(** ** Orthogonality of the roots of unity and inversion of the transform *)

Lemma cis_eq_1 (t : R) : cis t = 1%C -> exists k : Z, t = 2 * PI * IZR k.
Proof.
  unfold cis, RtoC. intros H. injection H as Hc Hs.
  assert (H2 : sin (t / 2) = 0).
  { replace t with (2 * (t / 2)) in Hc by field.
    rewrite cos_2a_sin in Hc. nra. }
  destruct (sin_eq_0_0 _ H2) as [k Hk]. exists k. lra.
Qed.

Lemma omega_eq_1 (N : nat) (z : Z) :
  (0 < N)%nat -> omega N z = 1%C -> (z mod Z.of_nat N = 0)%Z.
Proof.
  intros HN H. unfold omega in H. destruct (cis_eq_1 _ H) as [k Hk].
  assert (HNr : INR N <> 0) by (apply not_0_INR; lia).
  assert (Hpi : PI <> 0) by (pose proof PI_RGT_0; lra).
  assert (E : IZR z = IZR (k * Z.of_nat N)).
  { rewrite mult_IZR, <- INR_IZR_INZ.
    apply (Rmult_eq_reg_l (2 * PI)); [|lra].
    apply (Rmult_eq_reg_r (/ INR N)); [|apply Rinv_neq_0_compat; exact HNr].
    unfold Rdiv in Hk. rewrite Hk. field. exact HNr. }
  apply eq_IZR in E. subst z. apply Z.mod_mul. lia.
Qed.

Lemma geometric_omega (N : nat) (j : Z) (n : nat) :
  ((omega N j - 1) * bigsum n (fun k => omega N (j * Z.of_nat k))
   = omega N (j * Z.of_nat n) - 1)%C.
Proof.
  induction n as [|n IH].
  - rewrite bigsum_0, Z.mul_0_r, omega_0. Ceq.
  - rewrite bigsum_S, Cmult_plus_distr_l, IH.
    replace (j * Z.of_nat (S n))%Z with (j + j * Z.of_nat n)%Z by lia.
    rewrite omega_add. Ceq.
Qed.

Lemma Cmult_integral (a b : C) : (a * b = 0)%C -> a = 0%C \/ b = 0%C.
Proof.
  intros H. assert (E : Cnorm2 a * Cnorm2 b = 0).
  { rewrite <- Cnorm2_mult, H. apply Cnorm2_0. }
  apply Rmult_integral in E. destruct E as [E | E]; [left | right];
    apply Cnorm2_eq_0, E.
Qed.

Lemma Cminus_eq_0 (a b : C) : (a - b = 0)%C -> a = b.
Proof.
  destruct a, b. Cunf. intros H. injection H as H1 H2. f_equal; lra.
Qed.

Lemma Cminus_diag (a : C) : (a - a = 0)%C.
Proof. Ceq. Qed.

(** [sum_{k<N} w^(j k)] is [N] when [N] divides [j] and [0] otherwise. *)
Lemma omega_sum (N : nat) (j : Z) :
  (0 < N)%nat ->
  bigsum N (fun k => omega N (j * Z.of_nat k)) =
  if (j mod Z.of_nat N =? 0)%Z then RtoC (INR N) else 0%C.
Proof.
  intros HN. destruct (Z.eqb_spec (j mod Z.of_nat N) 0) as [E | E].
  - rewrite (bigsum_ext N _ (fun _ => 1%C)).
    + rewrite bigsum_const. apply Cmult_1_r.
    + intros k _. rewrite (omega_eqm N (j * Z.of_nat k) 0 HN); [apply omega_0|].
      rewrite <- Zmult_mod_idemp_l, E. reflexivity.
  - pose proof (geometric_omega N j N) as G.
    rewrite omega_period, Cminus_diag in G by exact HN.
    apply Cmult_integral in G. destruct G as [G | G]; [|exact G].
    exfalso. apply E. apply omega_eq_1; [exact HN|]. apply Cminus_eq_0, G.
Qed.

Lemma dft_ext (sgn : Z) (N : nat) (x y : nat -> C) (k : nat) :
  (forall n, (n < N)%nat -> x n = y n) -> dft sgn N x k = dft sgn N y k.
Proof.
  intros H. unfold dft. apply bigsum_ext. intros n Hn. rewrite H by exact Hn.
  reflexivity.
Qed.

(** The transform with one sign undoes the transform with the other, up to
    the factor [N]. *)
Lemma dft_inverse (sgn : Z) (N : nat) (x : nat -> C) (k : nat) :
  sgn = 1%Z \/ sgn = (-1)%Z -> (k < N)%nat ->
  dft (- sgn) N (fun m => dft sgn N x m) k = (RtoC (INR N) * x k)%C.
Proof.
  intros Hs Hk. assert (HN : (0 < N)%nat) by lia. unfold dft.
  rewrite (bigsum_ext N _
             (fun m => bigsum N (fun n =>
                (x n * omega N ((sgn * (Z.of_nat n - Z.of_nat k)) * Z.of_nat m))%C))).
  2:{ intros m Hm. rewrite <- bigsum_mult_r. apply bigsum_ext. intros n Hn.
      rewrite <- Cmult_assoc, <- omega_add. do 2 f_equal. lia. }
  rewrite bigsum_swap.
  rewrite (bigsum_ext N _
             (fun n => (x n * (if (n =? k)%nat then RtoC (INR N) else 0))%C)).
  2:{ intros n Hn. rewrite bigsum_mult_l, omega_sum by exact HN. f_equal.
      destruct (Nat.eqb_spec n k) as [-> | Hne].
      - rewrite Z.sub_diag, Z.mul_0_r. reflexivity.
      - destruct (Z.eqb_spec ((sgn * (Z.of_nat n - Z.of_nat k)) mod Z.of_nat N) 0)
          as [E | E]; [|reflexivity].
        exfalso. apply Z.mod_divide in E; [|lia]. destruct E as [q Hq].
        destruct (Z.eq_dec q 0) as [-> | Hq0]; [destruct Hs; subst sgn; lia|].
        assert (Hq1 : (q <= -1 \/ 1 <= q)%Z) by lia.
        destruct Hs; subst sgn; destruct Hq1; nia. }
  rewrite (bigsum_single N k); [| exact Hk |].
  - rewrite Nat.eqb_refl. apply Cmult_comm.
  - intros i Hi Hne. cbv beta.
    destruct (Nat.eqb_spec i k); [contradiction | apply Cmult_0_r].
Qed.

(** ** Each step of [guessPulse] undoes a step of [makeFROG] *)

Lemma Cdivr_mult_INR (N : nat) (z : C) :
  (0 < N)%nat -> Cdivr (RtoC (INR N) * z) (INR N) = z.
Proof.
  intros HN. assert (H : INR N <> 0) by (apply not_0_INR; lia).
  destruct z as [a b]. Cunf. f_equal; field; exact H.
Qed.

Lemma bigsum_divr (n : nat) (f : nat -> C) (c : R) :
  bigsum n (fun i => Cdivr (f i) c) = Cdivr (bigsum n f) c.
Proof.
  induction n as [|n IH].
  - rewrite !bigsum_0. Cunf. f_equal; unfold Rdiv; ring.
  - rewrite !bigsum_S, IH. Cunf. f_equal; unfold Rdiv; ring.
Qed.

Lemma dft_scal (sgn : Z) (N : nat) (x : nat -> C) (c : R) (k : nat) :
  dft sgn N (fun n => Cdivr (x n) c) k = Cdivr (dft sgn N x k) c.
Proof.
  unfold dft. rewrite <- bigsum_divr. apply bigsum_ext. intros n _.
  Cunf. f_equal; unfold Rdiv; ring.
Qed.

Lemma ifft_fft_axis0 (r c : nat) (m : mat C) :
  has_shape r c m -> (0 < r)%nat ->
  exists m1, fft_axis0 m = Ret m1 /\ has_shape r c m1 /\ ifft_axis0 m1 = Ret m.
Proof.
  intros H Hr. rewrite (fft_axis0_shape r c m H Hr).
  eexists. split; [reflexivity|]. split; [apply has_shape_mk_mat|].
  rewrite (ifft_axis0_shape r c) by (try exact Hr; apply has_shape_mk_mat).
  f_equal. etransitivity; [| apply (mk_mat_nth2 0%C r c m H)].
  apply mk_mat_ext. intros k j Hk Hj.
  rewrite (dft_ext 1 r _ (fun n => dft (-1) r (fun n0 => mget m n0 j) n)).
  - rewrite (dft_inverse (-1) r _ k) by (try exact Hk; right; reflexivity).
    apply Cdivr_mult_INR, Hr.
  - intros n Hn. unfold mget. rewrite nth2_mk_mat by assumption. reflexivity.
Qed.

Lemma fft_ifft_axis0 (r c : nat) (m : mat C) :
  has_shape r c m -> (0 < r)%nat ->
  exists m1, ifft_axis0 m = Ret m1 /\ has_shape r c m1 /\ fft_axis0 m1 = Ret m.
Proof.
  intros H Hr. rewrite (ifft_axis0_shape r c m H Hr).
  eexists. split; [reflexivity|]. split; [apply has_shape_mk_mat|].
  rewrite (fft_axis0_shape r c) by (try exact Hr; apply has_shape_mk_mat).
  f_equal. etransitivity; [| apply (mk_mat_nth2 0%C r c m H)].
  apply mk_mat_ext. intros k j Hk Hj.
  rewrite (dft_ext (-1) r _
             (fun n => Cdivr (dft 1 r (fun n0 => mget m n0 j) n) (INR r))).
  - rewrite dft_scal.
    rewrite (dft_inverse 1 r _ k) by (try exact Hk; left; reflexivity).
    apply Cdivr_mult_INR, Hr.
  - intros n Hn. unfold mget. rewrite nth2_mk_mat by assumption. reflexivity.
Qed.

Lemma ifft_fft_vec (v : vec) :
  (0 < length v)%nat ->
  exists w, np_fft v = Ret w /\ length w = length v /\ np_ifft w = Ret v.
Proof.
  intros HN. rewrite (np_fft_shape v HN). eexists. split; [reflexivity|].
  split; [apply length_mk_vec|].
  rewrite np_ifft_shape by (rewrite length_mk_vec; exact HN).
  rewrite length_mk_vec. f_equal.
  etransitivity; [| apply (mk_vec_nth 0%C v)]. apply mk_vec_ext. intros k Hk.
  rewrite (dft_ext 1 _ _ (fun n => dft (-1) (length v) (vget v) n)).
  - rewrite (dft_inverse (-1) _ _ k) by (try exact Hk; right; reflexivity).
    apply Cdivr_mult_INR, HN.
  - intros n Hn. unfold vget at 1. rewrite nth_mk_vec by exact Hn. reflexivity.
Qed.

Lemma wrap_wrap_add (c : nat) (a b : Z) :
  (0 < c)%nat -> wrap c (Z.of_nat (wrap c a) + b) = wrap c (a + b).
Proof.
  intros Hc. apply wrap_eqm. rewrite Z_of_wrap by exact Hc.
  apply Zplus_mod_idemp_l.
Qed.

Lemma rotate_rows_inv (N c : nat) (sgn : Z) (m : mat C) :
  has_shape N c m ->
  exists m1, rotate_rows N sgn m = Ret m1 /\ has_shape N c m1 /\
             rotate_rows N (- sgn) m1 = Ret m.
Proof.
  intros H. rewrite (rotate_rows_shape N sgn c m H).
  eexists. split; [reflexivity|]. split; [apply has_shape_mk_mat|].
  rewrite (rotate_rows_shape N (- sgn) c) by apply has_shape_mk_mat.
  f_equal. etransitivity; [| apply (mk_mat_nth2 0%C N c m H)].
  apply mk_mat_ext. intros n j Hn Hj.
  assert (Hc : (0 < c)%nat) by lia.
  unfold mget at 1. rewrite nth2_mk_mat by (try exact Hn; apply wrap_lt, Hc).
  unfold mget. f_equal.
  replace (Z.of_nat (wrap c (Z.of_nat j - - sgn * Z.of_nat n)) - sgn * Z.of_nat n)%Z
    with (Z.of_nat (wrap c (Z.of_nat j - - sgn * Z.of_nat n)) + (- (sgn * Z.of_nat n)))%Z
    by lia.
  rewrite wrap_wrap_add by exact Hc.
  replace (Z.of_nat j - - sgn * Z.of_nat n + - (sgn * Z.of_nat n))%Z
    with (Z.of_nat j) by lia.
  apply wrap_small, Hj.
Qed.

Lemma ifftshift_fftshift_axis1 {A : Type} (d : A) (m : mat A) :
  ifftshift_axis1 d (fftshift_axis1 d m) = m.
Proof.
  unfold ifftshift_axis1, fftshift_axis1. rewrite map_map.
  rewrite <- (map_id m) at 2. apply map_ext. intros row.
  rewrite length_np_roll. apply np_roll_inv.
Qed.

Lemma roll_axis0_inv {A : Type} (m : mat A) (s : Z) :
  roll_axis0 (roll_axis0 m s) (- s) = m.
Proof. apply np_roll_inv. Qed.

Lemma roll_axis1_inv {A : Type} (d : A) (m : mat A) (s : Z) :
  roll_axis1 d (roll_axis1 d m s) (- s) = m.
Proof.
  unfold roll_axis1. rewrite map_map. rewrite <- (map_id m) at 2.
  apply map_ext. intros row. apply np_roll_inv.
Qed.

Lemma transpose_invol {A : Type} (d : A) (r c : nat) (m : mat A) :
  has_shape r c m -> (0 < r)%nat -> (0 < c)%nat ->
  transpose d (transpose d m) = m.
Proof.
  intros H Hr Hc.
  pose proof (has_shape_transpose d r c m H Hr) as Ht.
  apply (mat_ext d r c).
  - apply has_shape_transpose; assumption.
  - exact H.
  - intros i j Hi Hj.
    rewrite (nth2_transpose d c r) by assumption.
    apply (nth2_transpose d r c); assumption.
Qed.

(** ** [guessPulse] on the output of [makeFROG] *)

Lemma first_row_length {A : Type} (r c : nat) (m : mat A) :
  has_shape r c m -> (0 < r)%nat ->
  match m with
  | [] => Raise IndexError
  | row :: _ => Ret (length row)
  end = Ret c.
Proof.
  intros H Hr. destruct m as [|row m'].
  - destruct H as [Hl _]. simpl in Hl. lia.
  - f_equal. apply (has_shape_in r c (row :: m') row H). left. reflexivity.
Qed.

(** In the time domain the inverse steps of [guessPulse] give back the
    matrix [M] that [makeFROG] had before its row rotation: the outer
    product, masked when [makeFROG] ran with anti-aliasing. *)
Lemma guessPulse_makeFROG_time
    (svd_U0 : mat C -> res vec) (P lastPt : vec) (aa aa' p : Z) :
  (0 < length P)%nat ->
  let N := length P in
  let M := if (aa =? 0)%Z then outer P P else antialias_time N (outer P P) in
  let M' := if (aa' =? 0)%Z then M else antialias_time N M in
  exists EF,
    makeFROG P 0 aa = Ret (Some (abs2 EF, EF)) /\
    has_shape N N EF /\
    guessPulse svd_U0 EF lastPt 0 aa' p =
    (Pt <- (if (p =? 0)%Z then
              w <- matvec (ctranspose M') lastPt ;; matvec M' w
            else svd_U0 M') ;;
     Ret (Some (normalize Pt))).
Proof.
  intros HN N M M'.
  assert (HM : has_shape N N M).
  { unfold M. destruct (aa =? 0)%Z.
    - apply has_shape_outer.
    - apply has_shape_antialias_time, has_shape_outer. }
  destruct (rotate_rows_inv N N (-1) M HM) as [Y [EY [HY EY']]].
  set (Z1 := fliplr (fftshift_axis1 0%C Y)).
  assert (HZ : has_shape N N Z1)
    by (apply has_shape_fliplr, has_shape_fftshift_axis1, HY).
  destruct (ifft_fft_axis0 N N Z1 HZ HN) as [X [EX [HX EX']]].
  set (s := py_int (py_plus (np_ceil (half N)) (-1))).
  exists (roll_axis0 X s).
  assert (HE : has_shape N N (roll_axis0 X s)) by (apply has_shape_roll_axis0, HX).
  split; [|split; [exact HE|]].
  - unfold makeFROG. fold N. change ((0 =? 0)%Z) with true. cbv iota.
    fold M. rewrite EY. cbn [bind]. fold Z1. rewrite EX. cbn [bind].
    reflexivity.
  - unfold guessPulse. rewrite (first_row_length N N _ HE HN). cbn [bind].
    change ((0 =? 0)%Z) with true. cbv iota. fold s.
    rewrite roll_axis0_inv, EX'. cbn [bind].
    unfold Z1. rewrite fliplr_invol, ifftshift_fftshift_axis1.
    change 1%Z with (- (-1))%Z at 1. rewrite EY'. cbn [bind]. reflexivity.
Qed.

(** In the frequency domain, without anti-aliasing in [guessPulse], the
    inverse steps give back the matrix [M] that [makeFROG] had before its
    column flip: the outer product of the transform of the field, masked when
    [makeFROG] ran with anti-aliasing. *)
Lemma guessPulse_makeFROG_freq
    (svd_U0 : mat C -> res vec) (P lastPt : vec) (aa p : Z) :
  (0 < length P)%nat ->
  let N := length P in
  exists PtFFT M EF,
    np_fft P = Ret PtFFT /\ length PtFFT = N /\
    (if (aa =? 0)%Z then Ret (outer PtFFT PtFFT)
     else antialias_freq N (PyInt (py_int (np_floor (half N)))) 1
            (outer PtFFT PtFFT)) = Ret M /\
    has_shape N N M /\
    makeFROG P 1 aa = Ret (Some (abs2 EF, EF)) /\
    has_shape N N EF /\
    guessPulse svd_U0 EF lastPt 1 0 p =
    (Pt <- (if (p =? 0)%Z then
              lastPtFFT <- np_fft lastPt ;;
              w <- matvec (ctranspose M) lastPtFFT ;;
              u <- matvec M w ;;
              np_ifft u
            else u <- svd_U0 M ;; np_ifft u) ;;
     Ret (Some (normalize Pt))).
Proof.
  intros HN N.
  destruct (ifft_fft_vec P HN) as [PtFFT [EF0 [HL _]]]. fold N in HL.
  assert (HO : has_shape N N (outer PtFFT PtFFT)).
  { pose proof (has_shape_outer PtFFT PtFFT) as H. rewrite HL in H. exact H. }
  assert (Haa : exists M,
             (if (aa =? 0)%Z then Ret (outer PtFFT PtFFT)
              else antialias_freq N (PyInt (py_int (np_floor (half N)))) 1
                     (outer PtFFT PtFFT)) = Ret M /\ has_shape N N M).
  { destruct (aa =? 0)%Z.
    - eexists. split; [reflexivity | exact HO].
    - apply antialias_freq_int, HO. }
  destruct Haa as [M [EM HM]].
  destruct (rotate_rows_inv N N (-1) (fliplr M) (has_shape_fliplr N N M HM))
    as [Y [EY [HY EY']]].
  destruct (fft_ifft_axis0 N N Y HY HN) as [X [EX [HX EX']]].
  set (c := py_int (np_ceil (half N))).
  set (s := py_int (py_plus (np_ceil (half N)) (-1))).
  set (W := roll_axis1 0%C (roll_axis0 (flipud (fliplr X)) c) s).
  assert (HW : has_shape N N W).
  { apply has_shape_roll_axis1, has_shape_roll_axis0, has_shape_flipud,
      has_shape_fliplr, HX. }
  assert (HT : has_shape N N (transpose 0%C W))
    by (apply has_shape_transpose; assumption).
  exists PtFFT, M, (transpose 0%C W).
  repeat split; try assumption.
  - apply HM.
  - apply HM.
  - unfold makeFROG. fold N.
    change ((1 =? 0)%Z) with false. change ((1 =? 1)%Z) with true. cbv iota.
    rewrite EF0. cbn [bind]. rewrite EM. cbn [bind]. rewrite EY. cbn [bind].
    rewrite EX. cbn [bind]. reflexivity.
  - apply HT.
  - apply HT.
  - unfold guessPulse. rewrite (first_row_length N N _ HT HN). cbn [bind].
    change ((1 =? 0)%Z) with false. change ((1 =? 1)%Z) with true. cbv iota.
    change ((0 =? 0)%Z) with true. cbv iota. fold s. fold c.
    rewrite (transpose_invol 0%C N N W HW HN HN). unfold W.
    rewrite roll_axis1_inv, roll_axis0_inv.
    rewrite flipud_fliplr_comm, flipud_invol, fliplr_invol.
    rewrite EX'. cbn [bind].
    change 1%Z with (- (-1))%Z at 1. rewrite EY'. cbn [bind].
    rewrite fliplr_invol. reflexivity.
Qed.

(** ** The power method on an outer product *)

Lemma dot_scal_l (x : C) (a b : vec) :
  dot (map (Cmult x) a) b = (x * dot a b)%C.
Proof.
  unfold dot. revert b. induction a as [|y a IH]; intros [|z b]; simpl;
    try (symmetry; apply Cmult_0_r).
  rewrite IH. Ceq.
Qed.

Lemma dot_scal_r (x : C) (a b : vec) :
  dot a (map (fun y => (y * x)%C) b) = (dot a b * x)%C.
Proof.
  unfold dot. revert b. induction a as [|y a IH]; intros [|z b]; simpl;
    try (symmetry; apply Cmult_0_l).
  rewrite IH. Ceq.
Qed.

Lemma dot_conj_self (a : vec) : dot a (map Cconj a) = RtoC (norm2 a).
Proof.
  unfold dot, norm2. induction a as [|y a IH]; simpl.
  - reflexivity.
  - rewrite IH. Ceq.
Qed.

Lemma nth_map_in {A B : Type} (dA : A) (dB : B) (f : A -> B) (l : list A)
    (i : nat) :
  (i < length l)%nat -> nth i (map f l) dB = f (nth i l dA).
Proof.
  intros Hi. rewrite (nth_indep _ dB (f dA)) by (rewrite length_map; exact Hi).
  apply map_nth.
Qed.

Lemma outer_rows (a b : vec) :
  outer a b = map (fun x => map (Cmult x) b) a.
Proof.
  unfold outer, mk_mat. apply (nth_ext _ _ [] []).
  - rewrite length_mk_vec, length_map. reflexivity.
  - intros i Hi. rewrite length_mk_vec in Hi.
    rewrite nth_mk_vec by exact Hi.
    rewrite (nth_map_in 0%C) by exact Hi.
    apply (nth_ext _ _ 0%C 0%C).
    + rewrite length_mk_vec, length_map. reflexivity.
    + intros j Hj. rewrite length_mk_vec in Hj.
      rewrite nth_mk_vec by exact Hj.
      rewrite (nth_map_in 0%C) by exact Hj. reflexivity.
Qed.

Lemma ctranspose_outer (a : vec) :
  ctranspose (outer a a) =
  map (fun x => map (Cmult (Cconj x)) (map Cconj a)) a.
Proof.
  set (N := length a). destruct (Nat.eq_dec N 0) as [E | E].
  - apply length_zero_iff_nil in E. rewrite E. reflexivity.
  - assert (HN : (0 < N)%nat) by lia.
    pose proof (has_shape_outer a a) as HO. fold N in HO.
    unfold ctranspose.
    apply (mat_ext 0%C N N).
    + apply has_shape_map, has_shape_transpose; assumption.
    + apply has_shape_forall.
      * apply length_map.
      * intros row Hin. apply in_map_iff in Hin. destruct Hin as [x [<- _]].
        rewrite !length_map. reflexivity.
    + intros i j Hi Hj.
      rewrite (nth2_mat_map 0%C 0%C Cconj _ N N)
        by (try assumption; apply has_shape_transpose; assumption).
      rewrite (nth2_transpose 0%C N N) by assumption.
      fold (mget (outer a a) j i). rewrite mget_outer by assumption.
      unfold nth2. rewrite (nth_map_in 0%C) by exact Hi.
      rewrite (nth_map_in 0%C) by (rewrite length_map; exact Hj).
      rewrite (nth_map_in 0%C) by exact Hj.
      unfold vget. Ceq.
Qed.

Lemma ncols_map_rows {A B : Type} (f : A -> list B) (n : nat) (a : list A) :
  a <> [] -> (forall x, length (f x) = n) -> ncols (map f a) = n.
Proof. intros Ha Hf. destruct a; [congruence|]. unfold ncols. simpl. apply Hf. Qed.

(** [np.dot(EF, np.dot(EF^H, v))] for [EF = outer(a, a)] is [a] times the
    scalar [|a|^2 <a, v>]. *)
Lemma power_outer (a v : vec) :
  a <> [] -> length v = length a ->
  (w <- matvec (ctranspose (outer a a)) v ;; matvec (outer a a) w) =
  Ret (map (fun z => (z * (RtoC (norm2 a) * inner a v))%C) a).
Proof.
  intros Ha Hv. unfold matvec.
  rewrite ctranspose_outer.
  rewrite (ncols_map_rows _ (length a)) by (try exact Ha; intros; rewrite !length_map; reflexivity).
  rewrite Hv, Nat.eqb_refl. cbn [bind]. rewrite outer_rows.
  rewrite (ncols_map_rows _ (length a)) by (try exact Ha; intros; rewrite !length_map; reflexivity).
  rewrite !length_map, Nat.eqb_refl. f_equal. rewrite !map_map.
  apply map_ext. intros x. rewrite dot_scal_l. f_equal.
  rewrite (map_ext _ (fun y => (Cconj y * inner a v)%C))
    by (intros y; apply dot_scal_l).
  rewrite <- (map_map Cconj (fun y => (y * inner a v)%C)).
  rewrite dot_scal_r, dot_conj_self. reflexivity.
Qed.

(** ** Normalisation *)

Lemma norm2_nonneg (a : vec) : 0 <= norm2 a.
Proof.
  unfold norm2. induction a as [|y a IH]; simpl; [lra|].
  pose proof (Cnorm2_nonneg y). lra.
Qed.

Lemma np_norm_sqr (a : vec) : np_norm a * np_norm a = norm2 a.
Proof. apply sqrt_sqrt, norm2_nonneg. Qed.

Lemma np_norm_nonneg (a : vec) : 0 <= np_norm a.
Proof. apply sqrt_pos. Qed.

Lemma np_norm_eq_0 (a : vec) : np_norm a = 0 <-> norm2 a = 0.
Proof.
  split; intros H.
  - rewrite <- np_norm_sqr, H. ring.
  - unfold np_norm. fold (norm2 a). rewrite H. apply sqrt_0.
Qed.

Lemma norm2_eq_0 (a : vec) : norm2 a = 0 -> Forall (fun z => z = 0%C) a.
Proof.
  unfold norm2. induction a as [|y a IH]; simpl; intros H; constructor.
  - apply Cnorm2_eq_0. pose proof (Cnorm2_nonneg y).
    pose proof (norm2_nonneg a). unfold norm2 in *. lra.
  - apply IH. pose proof (Cnorm2_nonneg y).
    pose proof (norm2_nonneg a). unfold norm2 in *. lra.
Qed.

Lemma norm2_zero (a : vec) : Forall (fun z => z = 0%C) a -> norm2 a = 0.
Proof.
  unfold norm2. induction 1 as [|y a Hy _ IH]; simpl; [reflexivity|].
  rewrite Hy, IH, Cnorm2_0. ring.
Qed.

Lemma inner_zero_l (a v : vec) : Forall (fun z => z = 0%C) a -> inner a v = 0%C.
Proof.
  unfold inner, dot. intros H. revert v.
  induction H as [|y a Hy _ IH]; intros [|z v]; simpl; try reflexivity.
  rewrite IH, Hy. Ceq.
Qed.

Lemma inner_neq_0 (a v : vec) : inner a v <> 0%C -> norm2 a <> 0.
Proof.
  intros H E. apply H, inner_zero_l, norm2_eq_0, E.
Qed.

Lemma norm2_map_mult (a : vec) (c : C) :
  norm2 (map (fun z => (z * c)%C) a) = Cnorm2 c * norm2 a.
Proof.
  unfold norm2. induction a as [|y a IH]; simpl; [ring|].
  rewrite IH, Cnorm2_mult. ring.
Qed.

Lemma norm2_map_divr (a : vec) (x : R) :
  x <> 0 -> norm2 (map (fun z => Cdivr z x) a) = norm2 a / (x * x).
Proof.
  intros Hx. unfold norm2. induction a as [|y a IH]; simpl.
  - field. exact Hx.
  - rewrite IH. Cunf. field. exact Hx.
Qed.

Lemma np_norm_map_mult (a : vec) (c : C) :
  np_norm (map (fun z => (z * c)%C) a) = Cmod c * np_norm a.
Proof.
  unfold np_norm. fold (norm2 (map (fun z => (z * c)%C) a)). fold (norm2 a).
  rewrite norm2_map_mult. unfold Cmod.
  apply sqrt_mult; [apply Cnorm2_nonneg | apply norm2_nonneg].
Qed.

(** What [normalize] returns: a field of unit norm, or the field of NaN
    when every entry is zero. *)
Lemma normalize_Field (P v : vec) :
  normalize P = Field v ->
  np_norm P <> 0 /\ v = map (fun z => Cdivr z (np_norm P)) P /\ np_norm v = 1.
Proof.
  unfold normalize. destruct (Req_EM_T (np_norm P) 0) as [E | E];
    [discriminate|].
  intros H. injection H as <-. split; [exact E|]. split; [reflexivity|].
  unfold np_norm at 1. fold (norm2 (map (fun z => Cdivr z (np_norm P)) P)).
  rewrite norm2_map_divr by exact E. rewrite <- np_norm_sqr.
  replace (np_norm P * np_norm P / (np_norm P * np_norm P)) with 1
    by (field; exact E).
  apply sqrt_1.
Qed.

Lemma normalize_NanField (P : vec) (n : nat) :
  normalize P = NanField n -> n = length P /\ Forall (fun z => z = 0%C) P.
Proof.
  unfold normalize. destruct (Req_EM_T (np_norm P) 0) as [E | E];
    [|discriminate].
  intros H. injection H as <-. split; [reflexivity|].
  apply norm2_eq_0, np_norm_eq_0, E.
Qed.

Lemma Cmod_neq_0 (c : C) : c <> 0%C -> Cmod c <> 0.
Proof. intros H E. apply H, Cmod_eq_0, E. Qed.

Lemma Cmod_divr (c : C) (x : R) : 0 < x -> Cmod (Cdivr c x) = Cmod c / x.
Proof.
  intros Hx. unfold Cmod.
  replace (Cnorm2 (Cdivr c x)) with (Cnorm2 c * (/ x * / x))
    by (Cunf; field; lra).
  rewrite sqrt_mult; [|apply Cnorm2_nonneg|].
  - rewrite sqrt_square; [reflexivity|]. apply Rlt_le, Rinv_0_lt_compat, Hx.
  - apply Rle_0_sqr.
Qed.

(** Normalising a nonzero multiple [c a] of a nonzero field [a] gives
    [a / |a|] times the phase factor [c / |c|]. *)
Lemma normalize_multiple (a : vec) (c : C) :
  c <> 0%C -> norm2 a <> 0 ->
  exists phi, Cmod phi = 1 /\
    normalize (map (fun z => (z * c)%C) a) =
    Field (map (fun z => Cdivr (phi * z)%C (np_norm a)) a).
Proof.
  intros Hc Ha.
  assert (Hmc : 0 < Cmod c).
  { pose proof (Cmod_nonneg c). pose proof (Cmod_neq_0 c Hc). lra. }
  assert (Hna : 0 < np_norm a).
  { pose proof (np_norm_nonneg a).
    assert (np_norm a <> 0) by (intros E; apply Ha, np_norm_eq_0, E). lra. }
  exists (Cdivr c (Cmod c)). split.
  - rewrite Cmod_divr by exact Hmc. field. lra.
  - unfold normalize. rewrite np_norm_map_mult.
    destruct (Req_EM_T (Cmod c * np_norm a) 0) as [E | E]; [nra|].
    f_equal. rewrite map_map. apply map_ext. intros z.
    destruct z as [x y], c as [p q]. Cunf. f_equal; field; lra.
Qed.

Lemma normalize_zero (P : vec) :
  Forall (fun z => z = 0%C) P -> normalize P = NanField (length P).
Proof.
  intros H. unfold normalize.
  destruct (Req_EM_T (np_norm P) 0) as [E | E]; [reflexivity|].
  exfalso. apply E, np_norm_eq_0, norm2_zero, H.
Qed.

Lemma ceil_half_1 : ceil_half 1 = 1%Z.
Proof. reflexivity. Qed.

(** [guessPulse] on a [1 x 1] matrix, time domain, power method. *)
Lemma guessPulse_1x1 (svd_U0 : mat C -> res vec) (z w : C) :
  guessPulse svd_U0 [[z]] [w] 0 0 0 =
  Ret (Some (normalize [(z * (Cconj z * w))%C])).
Proof.
  unfold guessPulse. cbn [bind length].
  change ((0 =? 0)%Z) with true. cbv iota.
  rewrite py_int_ceil_half_m1, ceil_half_1.
  change (roll_axis0 [[z]] (- (1 - 1))) with [[z]].
  unfold ifft_axis0. cbn [nrows ncols length hd Nat.eqb bind mk_mat mk_vec seq map].
  unfold dft, bigsum. cbn [seq map Csum fold_right mget nth2 nth].
  change (1 * Z.of_nat 0 * Z.of_nat 0)%Z with 0%Z. rewrite omega_0.
  replace (Cdivr (z * 1 + 0)%C (INR 1)) with z
    by (destruct z; simpl INR; Cunf; f_equal; field).
  change (rotate_rows 1 1 (ifftshift_axis1 (RtoC 0) (fliplr [[z]])))
    with (Ret [[z]]).
  cbn [bind]. change (ctranspose [[z]]) with [[Cconj z]].
  unfold matvec. cbn [ncols hd length Nat.eqb bind map dot map2 Csum fold_right].
  do 2 f_equal. rewrite !Cplus_0_r. reflexivity.
Qed.

Lemma bind_ret_inv {A B : Type} (m : res A) (k : A -> res B) (b : B) :
  bind m k = Ret b -> exists a, m = Ret a /\ k a = Ret b.
Proof.
  destruct m as [a | e]; cbn [bind]; intros H; [|discriminate].
  exists a. split; [reflexivity | exact H].
Qed.

(** Whatever [guessPulse] returns went through [Pt / np.linalg.norm(Pt)]. *)
Lemma guessPulse_normalized
    (svd_U0 : mat C -> res vec) (EF : mat C) (lastPt : vec)
    (domain antialias PowerOrSVD : Z) (p : npfield) :
  guessPulse svd_U0 EF lastPt domain antialias PowerOrSVD = Ret (Some p) ->
  exists P, p = normalize P.
Proof.
  unfold guessPulse. intros H.
  apply bind_ret_inv in H. destruct H as [N [_ H]].
  destruct (domain =? 0)%Z.
  - apply bind_ret_inv in H. destruct H as [EF1 [_ H]].
    apply bind_ret_inv in H. destruct H as [EF2 [_ H]].
    apply bind_ret_inv in H. destruct H as [P [_ H]].
    injection H as <-. exists P. reflexivity.
  - destruct (domain =? 1)%Z; [|discriminate].
    apply bind_ret_inv in H. destruct H as [EF1 [_ H]].
    apply bind_ret_inv in H. destruct H as [EF2 [_ H]].
    apply bind_ret_inv in H. destruct H as [EF3 [_ H]].
    apply bind_ret_inv in H. destruct H as [P [_ H]].
    injection H as <-. exists P. reflexivity.
Qed.

(** A finite field returned by [guessPulse] has Euclidean norm 1. *)
Lemma guessPulse_Field_unit_norm
    (svd_U0 : mat C -> res vec) (EF : mat C) (lastPt : vec)
    (domain antialias PowerOrSVD : Z) (v : vec) :
  guessPulse svd_U0 EF lastPt domain antialias PowerOrSVD
    = Ret (Some (Field v)) ->
  field_norm (Field v) = Fin 1.
Proof.
  intros H. apply guessPulse_normalized in H. destruct H as [P HP].
  symmetry in HP. apply normalize_Field in HP.
  destruct HP as [_ [_ Hn]]. simpl. rewrite Hn. reflexivity.
Qed.

(** The claim as stated fails on a zero matrix: the value returned is the
    all-NaN field, whose norm is NaN and not 1. *)
Lemma guessPulse_zero_matrix :
  guessPulse (fun _ => Raise LinAlgError) [[RtoC 0]] [RtoC 1] 0 0 0
    = Ret (Some (NanField 1)) /\
  field_norm (NanField 1) <> Fin 1.
Proof.
  split.
  - rewrite guessPulse_1x1. do 2 f_equal.
    apply (normalize_zero [_]). constructor; [|constructor]. Ceq.
  - discriminate.
Qed.

(** ** Parseval's identity for [np.fft.fft] *)

Lemma vget_mk_vec (n : nat) (f : nat -> C) (k : nat) :
  (k < n)%nat -> vget (mk_vec n f) k = f k.
Proof. intros Hk. unfold vget. rewrite nth_mk_vec by exact Hk. reflexivity. Qed.

Lemma dot_bigsum (a b : vec) :
  length b = length a ->
  dot a b = bigsum (length a) (fun j => (vget a j * vget b j)%C).
Proof.
  intros Hl. unfold dot, bigsum. f_equal. apply (nth_ext _ _ 0%C 0%C).
  - rewrite length_map2, length_map, length_seq, Hl. apply Nat.min_id.
  - intros j Hj. rewrite length_map2, Hl, Nat.min_id in Hj.
    rewrite (nth_map2 0%C 0%C) by (rewrite ?Hl; exact Hj).
    fold (mk_vec (length a) (fun j => (vget a j * vget b j)%C)).
    rewrite nth_mk_vec by exact Hj. reflexivity.
Qed.

Lemma inner_bigsum (a b : vec) :
  length b = length a ->
  inner a b = bigsum (length a) (fun j => (Cconj (vget a j) * vget b j)%C).
Proof.
  intros Hl. unfold inner. rewrite dot_bigsum by (rewrite length_map; exact Hl).
  rewrite length_map. apply bigsum_ext. intros j Hj. f_equal.
  unfold vget. apply (nth_map_in 0%C), Hj.
Qed.

Lemma inner_self (a : vec) : inner a a = RtoC (norm2 a).
Proof.
  unfold inner, dot, norm2. induction a as [|y a IH]; simpl.
  - reflexivity.
  - rewrite IH. Ceq.
Qed.

Lemma Cconj_mult (a b : C) : Cconj (a * b) = (Cconj a * Cconj b)%C.
Proof. Ceq. Qed.

Lemma parseval (a b A B : vec) :
  length b = length a -> np_fft a = Ret A -> np_fft b = Ret B ->
  inner A B = (RtoC (INR (length a)) * inner a b)%C.
Proof.
  intros Hl HA HB.
  destruct (has_shape_np_fft a A HA) as [HlA HN].
  destruct (has_shape_np_fft b B HB) as [HlB _].
  rewrite np_fft_shape in HA by exact HN. injection HA as HA.
  rewrite np_fft_shape in HB by (rewrite Hl; exact HN). injection HB as HB.
  set (N := length a) in *. rewrite Hl in HB.
  rewrite inner_bigsum by (rewrite HlA, HlB; exact Hl). rewrite HlA. fold N.
  rewrite inner_bigsum by exact Hl. fold N.
  rewrite (bigsum_ext N _
             (fun k => bigsum N (fun m =>
                (vget b m * (Cconj (dft (-1) N (vget a) k)
                             * omega N (- (Z.of_nat k * Z.of_nat m))))%C))).
  2:{ intros k Hk. subst A B.
      rewrite !vget_mk_vec by exact Hk.
      set (X := Cconj (dft (-1) N (vget a) k)). unfold dft.
      rewrite <- bigsum_mult_l. apply bigsum_ext. intros m Hm.
      replace (-1 * Z.of_nat k * Z.of_nat m)%Z
        with (- (Z.of_nat k * Z.of_nat m))%Z by lia.
      Ceq. }
  rewrite bigsum_swap. rewrite <- bigsum_mult_l.
  apply bigsum_ext. intros m Hm. rewrite bigsum_mult_l.
  rewrite (bigsum_ext N _
             (fun k => Cconj (dft (-1) N (vget a) k
                              * omega N (1 * Z.of_nat m * Z.of_nat k))%C)).
  2:{ intros k Hk. rewrite Cconj_mult, omega_conj. do 2 f_equal. lia. }
  rewrite <- bigsum_conj.
  change (bigsum N (fun i => (dft (-1) N (vget a) i
                              * omega N (1 * Z.of_nat m * Z.of_nat i))%C))
    with (dft (- (-1)) N (fun k => dft (-1) N (vget a) k) m).
  rewrite dft_inverse by (try exact Hm; right; reflexivity).
  Ceq.
Qed.

Lemma np_ifft_scal (w v : vec) (c : C) :
  np_ifft w = Ret v ->
  np_ifft (map (fun z => (z * c)%C) w) = Ret (map (fun z => (z * c)%C) v).
Proof.
  unfold np_ifft. rewrite length_map.
  destruct (Nat.eqb_spec (length w) 0) as [E | E]; [discriminate|].
  intros H. injection H as <-. f_equal.
  unfold mk_vec. rewrite map_map. apply map_ext_in. intros k Hk.
  apply in_seq in Hk.
  rewrite (dft_ext 1 _ _ (fun n => (vget w n * c)%C)).
  - unfold dft.
    rewrite (bigsum_ext _ _
               (fun n => (c * (vget w n * omega (length w) (1 * Z.of_nat k * Z.of_nat n)))%C))
      by (intros; Ceq).
    rewrite bigsum_mult_l. Cunf. f_equal; unfold Rdiv; ring.
  - intros n Hn. unfold vget. apply (nth_map_in 0%C), Hn.
Qed.

(** ** The round trip [guessPulse (makeFROG Pt)] *)

Lemma RtoC_neq_0 (x : R) : x <> 0 -> RtoC x <> 0%C.
Proof. intros H E. apply H. unfold RtoC in E. injection E as E. exact E. Qed.

Lemma Cmult_neq_0 (a b : C) : a <> 0%C -> b <> 0%C -> (a * b)%C <> 0%C.
Proof. intros Ha Hb E. apply Cmult_integral in E. tauto. Qed.

Lemma RtoC_inj (x y : R) : RtoC x = RtoC y -> x = y.
Proof. unfold RtoC. intros E. injection E as E. exact E. Qed.

Lemma RtoC_mult (x y : R) : RtoC (x * y) = (RtoC x * RtoC y)%C.
Proof. Ceq. Qed.

Lemma roundtrip_time (svd_U0 : mat C -> res vec) (P lastPt : vec) :
  P <> [] -> length lastPt = length P -> inner P lastPt <> 0%C ->
  exists EF phi,
    makeFROG P 0 0 = Ret (Some (abs2 EF, EF)) /\ Cmod phi = 1 /\
    guessPulse svd_U0 EF lastPt 0 0 0 =
    Ret (Some (Field (map (fun z => Cdivr (phi * z)%C (np_norm P)) P))).
Proof.
  intros HP Hl Hin.
  assert (HN : (0 < length P)%nat) by (destruct P; [congruence | simpl; lia]).
  destruct (guessPulse_makeFROG_time svd_U0 P lastPt 0 0 0 HN)
    as [EF [E1 [_ E2]]].
  cbv zeta in E2. change ((0 =? 0)%Z) with true in E2. cbv iota in E2.
  rewrite (power_outer P lastPt HP Hl) in E2. cbn [bind] in E2.
  pose proof (inner_neq_0 P lastPt Hin) as Hn2.
  destruct (normalize_multiple P (RtoC (norm2 P) * inner P lastPt)%C)
    as [phi [Hphi Hnorm]].
  - apply Cmult_neq_0; [apply RtoC_neq_0, Hn2 | exact Hin].
  - exact Hn2.
  - exists EF, phi. split; [exact E1|]. split; [exact Hphi|].
    rewrite E2, Hnorm. reflexivity.
Qed.

Lemma roundtrip_freq (svd_U0 : mat C -> res vec) (P lastPt : vec) :
  P <> [] -> length lastPt = length P -> inner P lastPt <> 0%C ->
  exists EF phi,
    makeFROG P 1 0 = Ret (Some (abs2 EF, EF)) /\ Cmod phi = 1 /\
    guessPulse svd_U0 EF lastPt 1 0 0 =
    Ret (Some (Field (map (fun z => Cdivr (phi * z)%C (np_norm P)) P))).
Proof.
  intros HP Hl Hin.
  assert (HN : (0 < length P)%nat) by (destruct P; [congruence | simpl; lia]).
  destruct (guessPulse_makeFROG_freq svd_U0 P lastPt 0 0 HN)
    as [PtFFT [M [EF [E0 [HL [EM [_ [E1 [_ E2]]]]]]]]].
  change ((0 =? 0)%Z) with true in EM, E2. cbv iota in EM, E2.
  injection EM as <-.
  destruct (ifft_fft_vec P HN) as [W [EW [_ EW']]].
  rewrite E0 in EW. injection EW as <-.
  destruct (ifft_fft_vec lastPt ltac:(lia)) as [L [EL [HLL _]]].
  rewrite EL in E2. cbn [bind] in E2.
  assert (HPF : PtFFT <> []).
  { intros E. rewrite E in HL. simpl in HL. lia. }
  pose proof (power_outer PtFFT L HPF ltac:(lia)) as Hpow.
  set (c := (RtoC (norm2 PtFFT) * inner PtFFT L)%C) in *.
  assert (E3 : (w <- matvec (ctranspose (outer PtFFT PtFFT)) L ;;
                u <- matvec (outer PtFFT PtFFT) w ;; np_ifft u)
               = Ret (map (fun z => (z * c)%C) P)).
  { destruct (matvec (ctranspose (outer PtFFT PtFFT)) L) as [w | e];
      cbn [bind] in *; [|discriminate].
    rewrite Hpow. cbn [bind]. apply np_ifft_scal, EW'. }
  rewrite E3 in E2. cbn [bind] in E2.
  pose proof (inner_neq_0 P lastPt Hin) as Hn2.
  pose proof (parseval P lastPt PtFFT L Hl E0 EL) as Hpar.
  pose proof (parseval P P PtFFT PtFFT eq_refl E0 E0) as Hself.
  rewrite !inner_self, <- RtoC_mult in Hself. apply RtoC_inj in Hself.
  assert (HNr : INR (length P) <> 0) by (apply not_0_INR; lia).
  destruct (normalize_multiple P c) as [phi [Hphi Hnorm]].
  - unfold c. apply Cmult_neq_0.
    + apply RtoC_neq_0. rewrite Hself. apply Rmult_integral_contrapositive.
      split; assumption.
    + rewrite Hpar. apply Cmult_neq_0; [apply RtoC_neq_0, HNr | exact Hin].
  - exact Hn2.
  - exists EF, phi. split; [exact E1|]. split; [exact Hphi|].
    rewrite E2, Hnorm. reflexivity.
Qed.

(** C1 (amended).  Without anti-aliasing and with the power method, for a
    field [P] and a previous field [lastPt] that is not orthogonal to it (for
    instance [P] itself), [guessPulse] applied to the matrix [EF] returned by
    [makeFROG P] gives [P / |P|] times a phase factor, in both domains. *)
Theorem guessPulse_recovers_field
    (svd_U0 : mat C -> res vec) (P lastPt : vec) (domain : Z) :
  P <> [] -> length lastPt = length P -> inner P lastPt <> 0%C ->
  domain = 0%Z \/ domain = 1%Z ->
  exists F EF phi,
    makeFROG P domain 0 = Ret (Some (F, EF)) /\ Cmod phi = 1 /\
    guessPulse svd_U0 EF lastPt domain 0 0 =
    Ret (Some (Field (map (fun z => Cdivr (phi * z)%C (np_norm P)) P))).
Proof.
  intros HP Hl Hin [-> | ->].
  - destruct (roundtrip_time svd_U0 P lastPt HP Hl Hin) as [EF [phi H]].
    exists (abs2 EF), EF, phi. exact H.
  - destruct (roundtrip_freq svd_U0 P lastPt HP Hl Hin) as [EF [phi H]].
    exists (abs2 EF), EF, phi. exact H.
Qed.

Lemma guessPulse_recovers_field_witness :
  exists F EF phi,
    makeFROG [RtoC 1; Ci] 1 0 = Ret (Some (F, EF)) /\ Cmod phi = 1 /\
    guessPulse (fun _ => Raise LinAlgError) EF [RtoC 1; Ci] 1 0 0 =
    Ret (Some (Field (map (fun z => Cdivr (phi * z)%C (np_norm [RtoC 1; Ci]))
                        [RtoC 1; Ci]))).
Proof.
  apply (guessPulse_recovers_field (fun _ => Raise LinAlgError)
           [RtoC 1; Ci] [RtoC 1; Ci] 1).
  - discriminate.
  - reflexivity.
  - unfold inner, dot. simpl. Cunf. intros H. injection H as H _. lra.
  - right. reflexivity.
Defined.

Lemma Cminus_0_r (a : C) : (a - 0 = a)%C.
Proof. destruct a. Ceq. Qed.

(** Time-domain anti-aliasing of a [2 x 2] matrix keeps its diagonal. *)
Lemma antialias_time_2x2 (a b c d : C) :
  antialias_time 2 [[a; b]; [c; d]] = [[a; RtoC 0]; [RtoC 0; d]].
Proof.
  unfold antialias_time. rewrite py_val_ceil_half.
  change (IZR (ceil_half 2)) with 1.
  unfold np_tril, np_triu, mat_minus, mat_map2.
  cbn [nrows ncols length hd mk_mat mk_vec seq map map2 mget nth2 nth INR].
  repeat match goal with
         | |- context [Rle_dec ?x ?y] => destruct (Rle_dec x y); try lra
         end.
  rewrite !Cminus_0_r, !Cminus_diag. reflexivity.
Qed.

(** The claim C1 as stated fails with matching anti-alias settings: in the
    time domain with [antialias = 1], for [Pt = (1, 2)] and the previous field
    [Pt] itself, the field returned is not [Pt / |Pt|] times a phase. *)
Lemma roundtrip_fails_with_antialias :
  exists F EF v,
    makeFROG [RtoC 1; RtoC 2] 0 1 = Ret (Some (F, EF)) /\
    guessPulse (fun _ => Raise LinAlgError) EF [RtoC 1; RtoC 2] 0 1 0
      = Ret (Some (Field v)) /\
    ~ (exists phi, Cmod phi = 1 /\
         v = map (fun z => Cdivr (phi * z)%C (np_norm [RtoC 1; RtoC 2]))
               [RtoC 1; RtoC 2]).
Proof.
  destruct (guessPulse_makeFROG_time (fun _ => Raise LinAlgError)
              [RtoC 1; RtoC 2] [RtoC 1; RtoC 2] 1 1 0)
    as [EF [E1 [_ E2]]]; [simpl; lia|].
  cbv zeta in E2. change ((1 =? 0)%Z) with false in E2.
  change ((0 =? 0)%Z) with true in E2. cbv iota in E2.
  change (length [RtoC 1; RtoC 2]) with 2%nat in E2.
  change (outer [RtoC 1; RtoC 2] [RtoC 1; RtoC 2])
    with [[(1 * 1)%C; (1 * RtoC 2)%C]; [(RtoC 2 * 1)%C; (RtoC 2 * RtoC 2)%C]] in E2.
  rewrite !antialias_time_2x2 in E2.
  change (ctranspose [[(1 * 1)%C; RtoC 0]; [RtoC 0; (RtoC 2 * RtoC 2)%C]])
    with [[Cconj (1 * 1)%C; Cconj (RtoC 0)];
          [Cconj (RtoC 0); Cconj (RtoC 2 * RtoC 2)%C]] in E2.
  unfold matvec in E2.
  cbn [ncols hd length Nat.eqb bind map dot map2 Csum fold_right] in E2.
  match type of E2 with
  | _ = Ret (Some (normalize [?a; ?b])) =>
      replace a with (RtoC 1) in E2 by Ceq;
      replace b with (RtoC 32) in E2 by Ceq
  end.
  destruct (normalize [RtoC 1; RtoC 32]) as [v | n] eqn:En.
  - exists (abs2 EF), EF, v. split; [exact E1|]. split; [exact E2|].
    apply normalize_Field in En. destruct En as [Hn [-> _]].
    intros [phi [_ H]]. simpl in H.
    set (n := np_norm [RtoC 1; RtoC 32]) in *.
    set (m := np_norm [RtoC 1; RtoC 2]) in *.
    injection H as H1 H2 H3 H4. destruct phi as [x y]. Cunf.
    unfold Rdiv in *.
    assert (Hn' : / n <> 0) by (apply Rinv_neq_0_compat, Hn).
    assert (E : 32 * / n = 2 * (1 * / n)) by (rewrite H3, H1; ring).
    apply Hn'. lra.
  - exfalso. apply normalize_NanField in En. destruct En as [_ Hz].
    inversion Hz as [|z l Hz1 _]. injection Hz1 as Hz1. lra.
Qed.

(** ** Finite arrays in the arithmetic with special values *)

Lemma map2_lift (f : R -> R -> R) (g : npfloat -> npfloat -> npfloat)
    (a b : list R) :
  (forall x y, g (Fin x) (Fin y) = Fin (f x y)) ->
  map2 g (map Fin a) (map Fin b) = map Fin (map2 f a b).
Proof.
  intros H. revert b. induction a as [|x a IH]; intros [|y b]; simpl;
    try reflexivity.
  rewrite H, IH. reflexivity.
Qed.

Lemma mat_map2_lift (f : R -> R -> R) (g : npfloat -> npfloat -> npfloat)
    (A B : mat R) :
  (forall x y, g (Fin x) (Fin y) = Fin (f x y)) ->
  mat_map2 g (lift A) (lift B) = lift (mat_map2 f A B).
Proof.
  intros H. unfold mat_map2, lift, mat_map. revert B.
  induction A as [|ra A IH]; intros [|rb B]; simpl; try reflexivity.
  rewrite (map2_lift f g ra rb H), IH. reflexivity.
Qed.

Lemma mat_map_lift (f : R -> R) (g : npfloat -> npfloat) (A : mat R) :
  (forall x, g (Fin x) = Fin (f x)) -> mat_map g (lift A) = lift (mat_map f A).
Proof.
  intros H. unfold lift, mat_map. rewrite !map_map. apply map_ext.
  intros row. rewrite !map_map. apply map_ext. intros x. apply H.
Qed.

Lemma concat_lift (A : mat R) : concat (lift A) = map Fin (concat A).
Proof.
  unfold lift, mat_map. induction A as [|row A IH]; simpl; [reflexivity|].
  rewrite IH, map_app. reflexivity.
Qed.

Lemma np_sum_lift (A : mat R) : np_sum (lift A) = Fin (total A).
Proof.
  unfold np_sum, total. rewrite concat_lift.
  induction (concat A) as [|x l IH]; simpl; [reflexivity|].
  rewrite IH. reflexivity.
Qed.

Lemma map2_app {A B D : Type} (f : A -> B -> D) (a1 a2 : list A)
    (b1 b2 : list B) :
  length a1 = length b1 ->
  map2 f (a1 ++ a2) (b1 ++ b2) = map2 f a1 b1 ++ map2 f a2 b2.
Proof.
  revert b1. induction a1 as [|x a1 IH]; intros [|y b1] H; simpl in *;
    try discriminate; [reflexivity|].
  rewrite IH by lia. reflexivity.
Qed.

Lemma has_shape_cons {A : Type} (r c : nat) (row : list A) (m : mat A) :
  has_shape (S r) c (row :: m) -> length row = c /\ has_shape r c m.
Proof.
  intros [Hl Hf]. inversion Hf; subst. simpl in Hl.
  split; [reflexivity|]. split; [lia | assumption].
Qed.

Lemma concat_mat_map2 {A B D : Type} (f : A -> B -> D) (r c : nat)
    (a : mat A) (b : mat B) :
  has_shape r c a -> has_shape r c b ->
  concat (mat_map2 f a b) = map2 f (concat a) (concat b).
Proof.
  unfold mat_map2. revert a b. induction r as [|r IH]; intros a b Ha Hb.
  - rewrite (has_shape_0 c a Ha), (has_shape_0 c b Hb). reflexivity.
  - destruct a as [|ra a]; [destruct Ha; discriminate|].
    destruct b as [|rb b]; [destruct Hb; discriminate|].
    apply has_shape_cons in Ha, Hb. destruct Ha as [Hra Ha], Hb as [Hrb Hb].
    simpl. rewrite (IH a b Ha Hb), map2_app by congruence. reflexivity.
Qed.

Lemma length_concat_shape {A : Type} (r c : nat) (a : mat A) :
  has_shape r c a -> length (concat a) = (r * c)%nat.
Proof.
  revert a. induction r as [|r IH]; intros a Ha.
  - rewrite (has_shape_0 c a Ha). reflexivity.
  - destruct a as [|ra a]; [destruct Ha; discriminate|].
    apply has_shape_cons in Ha. destruct Ha as [Hra Ha]. simpl.
    rewrite length_app, (IH a Ha), Hra. reflexivity.
Qed.

(** ** [calc_alpha] is the least-squares scale *)

Lemma Rsum_quadratic (a : R) (X Y : list R) :
  length X = length Y ->
  Rsum (map2 (fun x y => Rsqr (x - a * y)) X Y) =
  Rsum (map2 Rmult X X) - 2 * a * Rsum (map2 Rmult X Y)
  + a * a * Rsum (map2 Rmult Y Y).
Proof.
  revert Y. induction X as [|x X IH]; intros [|y Y] H; simpl in *;
    try discriminate; [ring|].
  rewrite IH by lia. unfold Rsqr. ring.
Qed.

Lemma Rsum_squares_nonneg (Y : list R) : 0 <= Rsum (map2 Rmult Y Y).
Proof.
  induction Y as [|y Y IH]; simpl; [lra|]. nra.
Qed.

Lemma map_square (l : list R) : map (fun x => x * x) l = map2 Rmult l l.
Proof. induction l as [|x l IH]; simpl; [reflexivity | rewrite IH; reflexivity]. Qed.

Lemma mat_map_square (A : mat R) :
  mat_map (fun x => x * x) A = mat_map2 Rmult A A.
Proof.
  unfold mat_map, mat_map2. induction A as [|row A IH]; simpl; [reflexivity|].
  rewrite IH, map_square. reflexivity.
Qed.

Lemma calc_alpha_finite (Fm Fr : mat R) :
  total (mat_map2 Rmult Fr Fr) <> 0 ->
  calc_alpha (lift Fm) (lift Fr) =
  Fin (total (mat_map2 Rmult Fm Fr) / total (mat_map2 Rmult Fr Fr)).
Proof.
  intros H. unfold calc_alpha.
  rewrite (mat_map2_lift Rmult np_mul) by reflexivity.
  rewrite (mat_map_lift (fun x => x * x) np_square) by reflexivity.
  rewrite !np_sum_lift.
  rewrite mat_map_square. unfold np_div.
  destruct (Req_EM_T (total (mat_map2 Rmult Fr Fr)) 0); [contradiction|].
  reflexivity.
Qed.

Lemma calc_alpha_minimizes (r c : nat) (Fm Fr : mat R) (a : R) :
  has_shape r c Fm -> has_shape r c Fr ->
  total (mat_map2 Rmult Fr Fr) <> 0 ->
  sq_residual (total (mat_map2 Rmult Fm Fr) / total (mat_map2 Rmult Fr Fr))
    Fm Fr
  <= sq_residual a Fm Fr.
Proof.
  intros HFm HFr H. unfold sq_residual, total in *.
  rewrite !(concat_mat_map2 _ r c) by assumption.
  rewrite (concat_mat_map2 _ r c) in H by assumption.
  assert (Hl : length (concat Fm) = length (concat Fr)).
  { rewrite (length_concat_shape r c Fm HFm), (length_concat_shape r c Fr HFr).
    reflexivity. }
  rewrite !Rsum_quadratic by exact Hl.
  set (Sxx := Rsum (map2 Rmult (concat Fm) (concat Fm))).
  set (Sxy := Rsum (map2 Rmult (concat Fm) (concat Fr))).
  set (Syy := Rsum (map2 Rmult (concat Fr) (concat Fr))) in *.
  assert (Hyy : 0 < Syy).
  { pose proof (Rsum_squares_nonneg (concat Fr)). fold Syy in H0. lra. }
  assert (E : Sxx - 2 * a * Sxy + a * a * Syy
              - (Sxx - 2 * (Sxy / Syy) * Sxy + Sxy / Syy * (Sxy / Syy) * Syy)
              = Syy * (a - Sxy / Syy) * (a - Sxy / Syy)).
  { field. lra. }
  assert (Hsq : 0 <= (a - Sxy / Syy) * (a - Sxy / Syy))
    by apply (Rle_0_sqr (a - Sxy / Syy)).
  assert (0 <= Syy * (a - Sxy / Syy) * (a - Sxy / Syy)).
  { rewrite Rmult_assoc. apply Rmult_le_pos; lra. }
  lra.
Qed.

(** ** [rms_diff] vanishes exactly on equal arrays *)

Lemma Rsum_app (l1 l2 : list R) : Rsum (l1 ++ l2) = Rsum l1 + Rsum l2.
Proof. induction l1 as [|x l1 IH]; simpl; [ring | rewrite IH; ring]. Qed.

Lemma sqdiff_nonneg (X Y : list R) :
  0 <= Rsum (map2 (fun x y => (x + - y) * (x + - y)) X Y).
Proof.
  revert Y. induction X as [|x X IH]; intros [|y Y]; simpl; try lra.
  pose proof (IH Y). pose proof (Rle_0_sqr (x + - y)). unfold Rsqr in *. lra.
Qed.

Lemma sqdiff_zero (X Y : list R) :
  length X = length Y ->
  Rsum (map2 (fun x y => (x + - y) * (x + - y)) X Y) = 0 -> X = Y.
Proof.
  revert Y. induction X as [|x X IH]; intros [|y Y] Hl H; simpl in *;
    try discriminate; [reflexivity|].
  pose proof (sqdiff_nonneg X Y). pose proof (Rle_0_sqr (x + - y)) as Hs.
  unfold Rsqr in Hs.
  assert (E : (x + - y) * (x + - y) = 0) by lra.
  apply Rmult_integral in E.
  f_equal; [destruct E; lra | apply IH; [lia | lra]].
Qed.

Lemma sqdiff_diag (X : list R) :
  Rsum (map2 (fun x y => (x + - y) * (x + - y)) X X) = 0.
Proof. induction X as [|x X IH]; simpl; [reflexivity | rewrite IH; ring]. Qed.

Lemma concat_inj_shape {A : Type} (r c : nat) (a b : mat A) :
  has_shape r c a -> has_shape r c b -> concat a = concat b -> a = b.
Proof.
  revert a b. induction r as [|r IH]; intros a b Ha Hb E.
  - rewrite (has_shape_0 c a Ha), (has_shape_0 c b Hb). reflexivity.
  - destruct a as [|ra a]; [destruct Ha; discriminate|].
    destruct b as [|rb b]; [destruct Hb; discriminate|].
    apply has_shape_cons in Ha, Hb. destruct Ha as [Hra Ha], Hb as [Hrb Hb].
    simpl in E. apply app_eq_app in E. destruct E as [l [[E1 E2] | [E1 E2]]].
    + assert (l = []).
      { apply (f_equal (@length A)) in E1. rewrite length_app in E1.
        destruct l; [reflexivity | simpl in E1; lia]. }
      subst l. rewrite app_nil_r in E1. simpl in E2. subst.
      f_equal. apply IH; try assumption; symmetry; assumption.
    + assert (l = []).
      { apply (f_equal (@length A)) in E1. rewrite length_app in E1.
        destruct l; [reflexivity | simpl in E1; lia]. }
      subst l. rewrite app_nil_r in E1. simpl in E2. subst.
      f_equal. apply IH; try assumption; symmetry; assumption.
Qed.

Lemma rms_diff_finite (r c : nat) (F1 F2 : mat R) :
  has_shape r c F1 -> has_shape r c F2 -> (0 < r)%nat -> (0 < c)%nat ->
  rms_diff (lift F1) (lift F2) =
  Fin (sqrt (total (mat_map2 (fun x y => (x + - y) * (x + - y)) F1 F2)
             / INR (r * c))).
Proof.
  intros H1 H2 Hr Hc. unfold rms_diff.
  rewrite (mat_map2_lift (fun x y => x + - y) np_sub) by reflexivity.
  rewrite (mat_map_lift (fun x => x * x) np_square) by reflexivity.
  unfold np_mean. rewrite np_sum_lift, concat_lift, length_map.
  assert (E : mat_map (fun x => x * x) (mat_map2 (fun x y => x + - y) F1 F2)
              = mat_map2 (fun x y => (x + - y) * (x + - y)) F1 F2).
  { apply (mat_ext 0 r c).
    - apply has_shape_map, has_shape_mat_map2; assumption.
    - apply has_shape_mat_map2; assumption.
    - intros i j Hi Hj.
      rewrite (nth2_mat_map 0 0 _ _ r c)
        by (try assumption; apply has_shape_mat_map2; assumption).
      rewrite !(nth2_mat_map2 0 0 0 _ r c) by assumption. reflexivity. }
  rewrite E.
  rewrite (length_concat_shape r c)
    by (apply has_shape_mat_map2; assumption).
  assert (Hn : INR (r * c) <> 0) by (apply not_0_INR; nia).
  unfold np_div. destruct (Req_EM_T (INR (r * c)) 0); [contradiction|].
  unfold np_sqrt.
  match goal with |- context [Rlt_dec ?q 0] => destruct (Rlt_dec q 0) as [Hq|Hq] end;
    [|reflexivity].
  exfalso. unfold total in Hq.
  rewrite (concat_mat_map2 _ r c) in Hq by assumption.
  pose proof (sqdiff_nonneg (concat F1) (concat F2)) as Hs.
  assert (0 < INR (r * c)) by (apply lt_0_INR; nia).
  assert (0 <= Rsum (map2 (fun x y => (x + - y) * (x + - y)) (concat F1) (concat F2))
               / INR (r * c)).
  { unfold Rdiv. apply Rmult_le_pos; [exact Hs|].
    apply Rlt_le, Rinv_0_lt_compat. assumption. }
  lra.
Qed.

Lemma rms_diff_zero_iff (r c : nat) (F1 F2 : mat R) :
  has_shape r c F1 -> has_shape r c F2 -> (0 < r)%nat -> (0 < c)%nat ->
  rms_diff (lift F1) (lift F2) = Fin 0 <-> F1 = F2.
Proof.
  intros H1 H2 Hr Hc. rewrite (rms_diff_finite r c F1 F2 H1 H2 Hr Hc).
  unfold total. rewrite (concat_mat_map2 _ r c) by assumption.
  pose proof (sqdiff_nonneg (concat F1) (concat F2)) as Hs.
  assert (Hn : 0 < INR (r * c)) by (apply lt_0_INR; nia).
  split.
  - intros E. injection E as E. apply sqrt_eq_0 in E.
    + apply (concat_inj_shape r c); try assumption.
      apply sqdiff_zero.
      * rewrite (length_concat_shape r c F1 H1), (length_concat_shape r c F2 H2).
        reflexivity.
      * unfold Rdiv in E. apply Rmult_integral in E. destruct E as [E | E];
          [exact E|].
        pose proof (Rinv_0_lt_compat _ Hn). lra.
    + unfold Rdiv. apply Rmult_le_pos; [exact Hs|].
      apply Rlt_le, Rinv_0_lt_compat, Hn.
  - intros <-. rewrite sqdiff_diag. unfold Rdiv. rewrite Rmult_0_l, sqrt_0.
    reflexivity.
Qed.

(** On empty arrays the mean is 0/0: the value is NaN, not zero. *)
Lemma rms_diff_empty : rms_diff (lift []) (lift []) = NaN.
Proof.
  unfold rms_diff, np_mean, np_div, inf_of_sign. simpl.
  destruct (Req_EM_T 0 0) as [_ | H]; [reflexivity | contradiction].
Qed.

(** C5 (amended).  For real arrays of one shape [r x c] with at least one
    entry: when [sum(Fr^2)] is nonzero, [calc_alpha] returns
    [alpha = sum(Fm*Fr)/sum(Fr^2)], and [alpha] minimises
    [a |-> sum((Fm - a Fr)^2)] over the reals; and [rms_diff(F1, F2)] is zero
    if and only if [F1 = F2]. *)
Theorem calc_alpha_least_squares_rms_diff_zero
    (r c : nat) (Fm Fr F1 F2 : mat R) :
  (0 < r)%nat -> (0 < c)%nat ->
  has_shape r c Fm -> has_shape r c Fr ->
  has_shape r c F1 -> has_shape r c F2 ->
  total (mat_map2 Rmult Fr Fr) <> 0 ->
  (exists alpha,
      calc_alpha (lift Fm) (lift Fr) = Fin alpha /\
      alpha = total (mat_map2 Rmult Fm Fr) / total (mat_map2 Rmult Fr Fr) /\
      forall a, sq_residual alpha Fm Fr <= sq_residual a Fm Fr) /\
  (rms_diff (lift F1) (lift F2) = Fin 0 <-> F1 = F2).
Proof.
  intros Hr Hc HFm HFr H1 H2 Hnz. split.
  - eexists. split; [apply calc_alpha_finite, Hnz|]. split; [reflexivity|].
    intros a. apply (calc_alpha_minimizes r c); assumption.
  - apply (rms_diff_zero_iff r c); assumption.
Qed.

Lemma calc_alpha_least_squares_rms_diff_zero_witness :
  (exists alpha,
      calc_alpha (lift [[1; 0]]) (lift [[2; 1]]) = Fin alpha /\
      alpha = total (mat_map2 Rmult [[1; 0]] [[2; 1]])
              / total (mat_map2 Rmult [[2; 1]] [[2; 1]]) /\
      forall a, sq_residual alpha [[1; 0]] [[2; 1]]
                <= sq_residual a [[1; 0]] [[2; 1]]) /\
  (rms_diff (lift [[1; 0]]) (lift [[2; 1]]) = Fin 0 <-> [[1; 0]] = [[2; 1]]).
Proof.
  apply (calc_alpha_least_squares_rms_diff_zero 1 2).
  - lia.
  - lia.
  - split; [reflexivity | repeat constructor].
  - split; [reflexivity | repeat constructor].
  - split; [reflexivity | repeat constructor].
  - split; [reflexivity | repeat constructor].
  - unfold total. simpl. lra.
Defined.

(** The second half of C5 as stated fails on a pair of empty arrays: they
    are equal, and [rms_diff] is NaN (the mean of no entry), not zero. *)
Lemma rms_diff_empty_not_zero :
  ~ (rms_diff (lift []) (lift []) = Fin 0 <-> @nil (list R) = []).
Proof.
  rewrite rms_diff_empty. intros [_ H]. specialize (H eq_refl). discriminate.
Qed.

(** ** Normalising an all-zero trace *)

Lemma has_shape_np_full {A : Type} (r c : nat) (x : A) :
  has_shape r c (np_full r c x).
Proof. apply has_shape_mk_mat. Qed.

Lemma nth2_np_full {A : Type} (d : A) (r c : nat) (x : A) (i j : nat) :
  (i < r)%nat -> (j < c)%nat -> nth2 d (np_full r c x) i j = x.
Proof. intros Hi Hj. unfold np_full. rewrite nth2_mk_mat by assumption. reflexivity. Qed.

Lemma mat_const_ext {A : Type} (d : A) (r c : nat) (m : mat A) (x : A) :
  has_shape r c m ->
  (forall i j, (i < r)%nat -> (j < c)%nat -> nth2 d m i j = x) ->
  m = np_full r c x.
Proof.
  intros H Hx. apply (mat_ext d r c); [exact H | apply has_shape_np_full|].
  intros i j Hi Hj. rewrite Hx, nth2_np_full by assumption. reflexivity.
Qed.

Lemma in_concat_np_full {A : Type} (r c : nat) (x y : A) :
  In y (concat (np_full r c x)) -> y = x.
Proof.
  intros H. apply in_concat in H. destruct H as [row [Hrow Hy]].
  unfold np_full, mk_mat, mk_vec in Hrow. apply in_map_iff in Hrow.
  destruct Hrow as [i [<- _]]. apply in_map_iff in Hy.
  destruct Hy as [j [<- _]]. reflexivity.
Qed.

Lemma concat_np_full_nonempty {A : Type} (r c : nat) (x : A) :
  (0 < r)%nat -> (0 < c)%nat -> concat (np_full r c x) <> [].
Proof.
  intros Hr Hc E. apply (f_equal (@length A)) in E.
  rewrite (length_concat_shape r c _ (has_shape_np_full r c x)) in E.
  simpl in E. nia.
Qed.

Lemma fold_Rmax_zero (l : list R) :
  Forall (fun x => x = 0) l -> fold_left Rmax l 0 = 0.
Proof.
  induction 1 as [|x l Hx _ IH]; simpl; [reflexivity|].
  rewrite Hx, Rmax_left by lra. exact IH.
Qed.

Lemma np_amax_zeros (r c : nat) :
  (0 < r)%nat -> (0 < c)%nat -> np_amax (np_full r c 0) = Ret 0.
Proof.
  intros Hr Hc. unfold np_amax.
  pose proof (concat_np_full_nonempty r c 0 Hr Hc) as Hne.
  assert (Hall : Forall (fun x => x = 0) (concat (np_full r c 0))).
  { apply Forall_forall. intros y Hy. apply (in_concat_np_full r c), Hy. }
  destruct (concat (np_full r c 0)) as [|x l]; [congruence|].
  inversion Hall as [|? ? Hx Hl]; subst. rewrite fold_Rmax_zero by exact Hl.
  reflexivity.
Qed.

Lemma np_div_0_0 : np_div (Fin 0) (Fin 0) = NaN.
Proof.
  unfold np_div, inf_of_sign.
  destruct (Req_EM_T 0 0) as [_ | H]; [reflexivity | contradiction].
Qed.

(** No exception, and 0/0 at every entry. *)
Lemma normalize_max_one_zeros (r c : nat) :
  (0 < r)%nat -> (0 < c)%nat ->
  normalize_max_one (np_full r c 0) = Ret (np_full r c NaN).
Proof.
  intros Hr Hc. unfold normalize_max_one.
  rewrite (np_amax_zeros r c Hr Hc). cbn [bind]. f_equal.
  apply (mat_const_ext NaN).
  - apply has_shape_map, has_shape_np_full.
  - intros i j Hi Hj.
    rewrite (nth2_mat_map 0 NaN _ _ r c i j (has_shape_np_full r c 0) Hi Hj).
    rewrite nth2_np_full by assumption. apply np_div_0_0.
Qed.

Lemma np_sum_has_nan (m : mat npfloat) : In NaN (concat m) -> np_sum m = NaN.
Proof.
  unfold np_sum. induction (concat m) as [|x l IH]; simpl; [tauto|].
  intros [-> | H]; [reflexivity|]. rewrite (IH H). destruct x; reflexivity.
Qed.

Lemma np_sum_full_nan (r c : nat) :
  (0 < r)%nat -> (0 < c)%nat -> np_sum (np_full r c NaN) = NaN.
Proof.
  intros Hr Hc. apply np_sum_has_nan.
  pose proof (concat_np_full_nonempty r c NaN Hr Hc) as Hne.
  destruct (concat (np_full r c NaN)) as [|x l] eqn:E; [congruence|].
  assert (x = NaN) by (apply (in_concat_np_full r c); rewrite E; left; reflexivity).
  subst. left. reflexivity.
Qed.

Lemma mat_map2_const {A B D : Type} (dA : A) (dB : B) (dD : D)
    (g : A -> B -> D) (r c : nat) (a : mat A) (b : mat B) (x : D) :
  has_shape r c a -> has_shape r c b ->
  (forall i j, (i < r)%nat -> (j < c)%nat ->
               g (nth2 dA a i j) (nth2 dB b i j) = x) ->
  mat_map2 g a b = np_full r c x.
Proof.
  intros Ha Hb H. apply (mat_const_ext dD).
  - apply has_shape_mat_map2; assumption.
  - intros i j Hi Hj. rewrite (nth2_mat_map2 dA dB dD g r c) by assumption.
    apply H; assumption.
Qed.

Lemma mat_map_const {A B : Type} (dA : A) (dB : B) (f : A -> B) (r c : nat)
    (a : mat A) (x : B) :
  has_shape r c a ->
  (forall i j, (i < r)%nat -> (j < c)%nat -> f (nth2 dA a i j) = x) ->
  mat_map f a = np_full r c x.
Proof.
  intros Ha H. apply (mat_const_ext dB).
  - apply has_shape_map, Ha.
  - intros i j Hi Hj. rewrite (nth2_mat_map dA dB f a r c) by assumption.
    apply H; assumption.
Qed.

Lemma np_mul_NaN_r (a : npfloat) : np_mul a NaN = NaN.
Proof. destruct a; reflexivity. Qed.

Lemma np_div_NaN_l (a : npfloat) : np_div NaN a = NaN.
Proof. reflexivity. Qed.

(** With a trace of NaN, the scaled reconstruction and the error are NaN. *)
Lemma scale_trace_nan (N : nat) (F : mat R) :
  (0 < N)%nat -> has_shape N N F ->
  scale_trace (np_full N N NaN) F = np_full N N NaN /\
  rms_diff (np_full N N NaN) (np_full N N NaN) = NaN.
Proof.
  intros HN HF.
  assert (HL : has_shape N N (lift F)) by (apply has_shape_map, HF).
  split.
  - unfold scale_trace, calc_alpha.
    rewrite (mat_map2_const NaN NaN NaN np_mul N N _ _ NaN
               (has_shape_np_full N N NaN) HL)
      by (intros i j Hi Hj; rewrite nth2_np_full by assumption; reflexivity).
    rewrite np_sum_full_nan by exact HN. rewrite np_div_NaN_l.
    apply (mat_map_const NaN NaN _ N N _ NaN HL).
    intros i j _ _. apply np_mul_NaN_r.
  - unfold rms_diff.
    rewrite (mat_map2_const NaN NaN NaN np_sub N N _ _ NaN
               (has_shape_np_full N N NaN) (has_shape_np_full N N NaN))
      by (intros i j Hi Hj; rewrite nth2_np_full by assumption; reflexivity).
    rewrite (mat_map_const NaN NaN np_square N N _ NaN (has_shape_np_full N N NaN))
      by (intros i j Hi Hj; rewrite nth2_np_full by assumption; reflexivity).
    unfold np_mean. rewrite np_sum_full_nan by exact HN. reflexivity.
Qed.

Lemma makeFROG_returns (P : vec) (domain antialias : Z) :
  (0 < length P)%nat -> domain = 0%Z \/ domain = 1%Z ->
  exists EF, makeFROG P domain antialias = Ret (Some (abs2 EF, EF)) /\
             has_shape (length P) (length P) EF.
Proof.
  intros HN [-> | ->].
  - apply makeFROG_time_returns, HN.
  - apply makeFROG_freq_returns, HN.
Qed.

Lemma gp_loop_not_above (svd_U0 : mat C -> res vec) (cfg : config)
    (k N : nat) (Fm : mat npfloat) (st : gp_state) :
  np_gtb (G st) (Fin (GTol cfg)) = false ->
  gp_loop svd_U0 cfg k N Fm st = Ret st.
Proof. intros H. destruct k; simpl; [reflexivity|]. rewrite H. reflexivity. Qed.

Lemma retrievePhase_zero_trace (svd_U0 : mat C -> res vec) (cfg : config)
    (N : nat) :
  (0 < N)%nat -> method0 cfg = 0%Z \/ method0 cfg = 1%Z ->
  length (start_field cfg N) = N ->
  exists st,
    retrievePhase svd_U0 cfg (np_full N N 0) = Ret st /\
    iteration st = 0%nat /\ Pt st = start_field cfg N /\
    Fr st = np_full N N NaN /\ G st = NaN.
Proof.
  intros HN Hm HP. unfold retrievePhase, gp_init.
  rewrite (first_row_length N N _ (has_shape_np_full N N 0) HN). cbn [bind].
  fold (start_field cfg N).
  rewrite (normalize_max_one_zeros N N HN HN). cbn [bind].
  destruct (makeFROG_returns (start_field cfg N) (method0 cfg) (method1 cfg))
    as [EF [E HEF]]; [lia | exact Hm |].
  rewrite HP in HEF. unfold unpack. rewrite E. cbn [bind].
  destruct (scale_trace_nan N (abs2 EF) HN (has_shape_abs2 N N EF HEF))
    as [E1 E2].
  rewrite E1, E2.
  rewrite gp_loop_not_above by reflexivity.
  eexists. split; [reflexivity|]. repeat split; reflexivity.
Qed.

(** C7 (amended).  Normalising an all-zero trace raises nothing:
    [normalize_max_one] returns the array whose entries are all NaN (0/0),
    and [retrievePhase] goes on with it: the scaled reconstruction [Fr] and
    the error [G] are NaN, the loop test [G > GTol] is false and the run ends
    without an iteration and without an error. *)
Theorem zero_trace_propagates_nan
    (svd_U0 : mat C -> res vec) (cfg : config) (N : nat) :
  (0 < N)%nat -> method0 cfg = 0%Z \/ method0 cfg = 1%Z ->
  length (start_field cfg N) = N ->
  normalize_max_one (np_full N N 0) = Ret (np_full N N NaN) /\
  exists st,
    retrievePhase svd_U0 cfg (np_full N N 0) = Ret st /\
    iteration st = 0%nat /\ Fr st = np_full N N NaN /\ G st = NaN.
Proof.
  intros HN Hm HP. split.
  - apply normalize_max_one_zeros; exact HN.
  - destruct (retrievePhase_zero_trace svd_U0 cfg N HN Hm HP)
      as [st [E [Hi [_ [HF HG]]]]].
    exists st. repeat split; assumption.
Qed.

Lemma zero_trace_propagates_nan_witness :
  normalize_max_one (np_full 2 2 0) = Ret (np_full 2 2 NaN) /\
  exists st,
    retrievePhase (fun _ => Raise LinAlgError) (default_config None)
      (np_full 2 2 0) = Ret st /\
    iteration st = 0%nat /\ Fr st = np_full 2 2 NaN /\ G st = NaN.
Proof.
  apply (zero_trace_propagates_nan (fun _ => Raise LinAlgError)
           (default_config None) 2).
  - lia.
  - left. reflexivity.
  - reflexivity.
Defined.

(** The claim C7 as stated fails: on the all-zero trace [[0]] the
    normalisation returns a value (no exception), that value is NaN, and the
    retrieval that follows ends with a NaN error. *)
Lemma zero_trace_not_detected :
  normalize_max_one [[0]] = Ret [[NaN]] /\
  (forall e, normalize_max_one [[0]] <> Raise e) /\
  exists st,
    retrievePhase (fun _ => Raise LinAlgError)
      (default_config (Some [RtoC 1])) [[0]] = Ret st /\
    G st = NaN.
Proof.
  assert (E : normalize_max_one [[0]] = Ret [[NaN]])
    by (apply (normalize_max_one_zeros 1 1); lia).
  split; [exact E|]. split.
  - intros e H. rewrite E in H. discriminate.
  - destruct (retrievePhase_zero_trace (fun _ => Raise LinAlgError)
                (default_config (Some [RtoC 1])) 1)
      as [st [Hst [_ [_ [_ HG]]]]].
    + lia.
    + left. reflexivity.
    + reflexivity.
    + exists st. split; [exact Hst | exact HG].
Qed.

(** ** The entries of the matrix returned by [makeFROG] *)

Lemma roll_axis0_mk_mat {A : Type} (r c : nat) (f : nat -> nat -> A) (s : Z) :
  roll_axis0 (mk_mat r c f) s
  = mk_mat r c (fun i j => f (wrap r (Z.of_nat i - s)) j).
Proof.
  destruct (Nat.eq_dec r 0) as [-> | Hr]; [reflexivity|].
  unfold roll_axis0, np_roll. unfold mk_mat at 1 2. rewrite length_mk_vec.
  unfold mk_mat. apply mk_vec_ext. intros i Hi.
  rewrite nth_mk_vec by (apply wrap_lt; lia). reflexivity.
Qed.

Lemma has_shape_time_product (P : vec) (antialias : Z) :
  has_shape (length P) (length P) (time_product P antialias).
Proof.
  unfold time_product. destruct (antialias =? 0)%Z.
  - apply has_shape_outer.
  - apply has_shape_antialias_time, has_shape_outer.
Qed.

Lemma makeFROG_time_closed (P : vec) (antialias : Z) :
  (0 < length P)%nat ->
  let N := length P in
  let EF := mk_mat N N (time_entry N (time_product P antialias)) in
  makeFROG P 0 antialias = Ret (Some (abs2 EF, EF)).
Proof.
  intros HN N EF. unfold makeFROG.
  change ((0 =? 0)%Z) with true. cbv iota.
  fold (time_product P antialias). fold N.
  pose proof (has_shape_time_product P antialias) as HM. fold N in HM.
  rewrite (rotate_rows_shape N (-1) N _ HM). cbn [bind].
  set (Y := mk_mat N N _).
  assert (HY : has_shape N N Y) by apply has_shape_mk_mat.
  assert (HS : has_shape N N (fftshift_axis1 0%C Y))
    by (apply has_shape_fftshift_axis1, HY).
  rewrite (fft_axis0_shape N N) by (try exact HN; apply has_shape_fliplr, HS).
  cbn [bind]. rewrite py_int_ceil_half_m1, roll_axis0_mk_mat.
  assert (E : mk_mat N N
                (fun i j => dft (-1) N
                   (fun n => mget (fliplr (fftshift_axis1 0%C Y)) n j)
                   (wrap N (Z.of_nat i - (ceil_half N - 1)))) = EF).
  { unfold EF. apply mk_mat_ext. intros i j Hi Hj. unfold time_entry.
    apply dft_ext. intros n Hn. unfold mget.
    rewrite (nth2_fliplr 0%C N N) by assumption.
    rewrite (fftshift_axis1_roll 0%C N N Y HY).
    rewrite (nth2_roll_axis1 0%C N N) by (try assumption; lia).
    unfold Y. rewrite nth2_mk_mat by (try assumption; apply wrap_lt, HN).
    reflexivity. }
  rewrite E. reflexivity.
Qed.

(** ** A worked example: the field [(1, 0)] *)

Ltac eval_wrap :=
  repeat match goal with
         | |- context [wrap ?n ?z] =>
             let v := eval vm_compute in (wrap n z) in
             progress change (wrap n z) with v
         end.

Ltac eval_omega :=
  repeat match goal with
         | |- context [omega ?n ?z] =>
             let v := eval vm_compute in z in
             progress change (omega n z) with (omega n v)
         end.

Ltac Csimp :=
  repeat (progress rewrite ?Cmult_0_l, ?Cmult_0_r, ?Cmult_1_l, ?Cmult_1_r,
            ?Cplus_0_l, ?Cplus_0_r, ?omega_0).

Lemma abs2_example :
  abs2 [[RtoC 1; RtoC 0]; [RtoC 1; RtoC 0]] = [[1; 0]; [1; 0]].
Proof.
  unfold abs2, mat_map. cbn [map]. rewrite Cmod_1, Cmod_0.
  repeat f_equal; ring.
Qed.

Lemma makeFROG_example :
  makeFROG [RtoC 1; RtoC 0] 0 0 =
  Ret (Some ([[1; 0]; [1; 0]], [[RtoC 1; RtoC 0]; [RtoC 1; RtoC 0]])).
Proof.
  rewrite makeFROG_time_closed by (simpl; lia). cbv zeta.
  assert (E : mk_mat 2 2 (time_entry 2 (time_product [RtoC 1; RtoC 0] 0))
              = [[RtoC 1; RtoC 0]; [RtoC 1; RtoC 0]]).
  { unfold time_product. change ((0 =? 0)%Z) with true. cbv iota.
    cbn [mk_mat mk_vec seq map length].
    unfold time_entry, dft, bigsum. cbn [seq map Csum fold_right].
    eval_wrap.
    rewrite !mget_outer by (simpl; lia).
    cbn [vget nth]. eval_omega. Csimp. reflexivity. }
  change (length [RtoC 1; RtoC 0]) with 2%nat. rewrite E, abs2_example.
  reflexivity.
Qed.

Lemma np_div_fin (x y : R) : y <> 0 -> np_div (Fin x) (Fin y) = Fin (x / y).
Proof.
  intros H. unfold np_div. destruct (Req_EM_T y 0); [contradiction|].
  reflexivity.
Qed.

Lemma has_shape_2x2 {A : Type} (a b c d : A) : has_shape 2 2 [[a; b]; [c; d]].
Proof. split; [reflexivity | repeat (constructor; try reflexivity)]. Qed.

Lemma normalize_max_one_example :
  normalize_max_one [[1; 0]; [1 / 2; 0]] = Ret (lift [[1; 0]; [1 / 2; 0]]).
Proof.
  unfold normalize_max_one, np_amax. cbn [concat app fold_left].
  replace (Rmax (Rmax (Rmax 1 0) (1 / 2)) 0) with 1.
  2:{ rewrite (Rmax_left 1 0) by lra. rewrite (Rmax_left 1 (1 / 2)) by lra.
      rewrite Rmax_left by lra. reflexivity. }
  cbn [bind]. unfold mat_map, lift. cbn [map].
  rewrite !np_div_fin by lra.
  replace (1 / 1) with 1 by field. replace (0 / 1) with 0 by field.
  replace (1 / 2 / 1) with (1 / 2) by field. reflexivity.
Qed.

(** The state before the loop for the trace [[1, 0], [1/2, 0]] and the seed
    [(1, 0)] in the time domain: [alpha = 3/4] and [G = sqrt(1/32)]. *)
Lemma gp_init_example (cfg : config) :
  seed cfg = Some [RtoC 1; RtoC 0] -> method0 cfg = 0%Z -> method1 cfg = 0%Z ->
  gp_init cfg [[1; 0]; [1 / 2; 0]] =
  Ret (lift [[1; 0]; [1 / 2; 0]],
       {| iteration := 0; Pt := [RtoC 1; RtoC 0];
          EFr := [[RtoC 1; RtoC 0]; [RtoC 1; RtoC 0]];
          Fr := lift [[3 / 4; 0]; [3 / 4; 0]];
          G := Fin (sqrt (1 / 32)) |}).
Proof.
  intros Hs H0 H1. unfold gp_init. cbn [bind length]. rewrite Hs, H0, H1.
  rewrite normalize_max_one_example. cbn [bind].
  unfold unpack. rewrite makeFROG_example. cbn [bind].
  assert (EFr : scale_trace (lift [[1; 0]; [1 / 2; 0]]) [[1; 0]; [1; 0]]
                = lift [[3 / 4; 0]; [3 / 4; 0]]).
  { unfold scale_trace. rewrite calc_alpha_finite by (unfold total; simpl; lra).
    unfold total. cbn [mat_map2 map2 concat app Rsum fold_right].
    unfold lift, mat_map. cbn [map np_mul].
    replace (1 * ((1 * 1 + (0 * 0 + (1 / 2 * 1 + (0 * 0 + 0))))
                  / (1 * 1 + (0 * 0 + (1 * 1 + (0 * 0 + 0))))))
      with (3 / 4) by field.
    replace (0 * ((1 * 1 + (0 * 0 + (1 / 2 * 1 + (0 * 0 + 0))))
                  / (1 * 1 + (0 * 0 + (1 * 1 + (0 * 0 + 0))))))
      with 0 by field.
    reflexivity. }
  rewrite EFr. do 3 f_equal.
  rewrite (rms_diff_finite 2 2); [| apply has_shape_2x2 .. | lia | lia].
  unfold total. cbn [mat_map2 map2 concat app Rsum fold_right].
  do 2 f_equal. simpl INR. field.
Qed.

Lemma sqrt_1_32_above_tol : 1 / 1000 < sqrt (1 / 32).
Proof.
  rewrite <- (sqrt_square (1 / 1000)) by lra. apply sqrt_lt_1; lra.
Qed.

(** ** A run with [max_iter = 0] *)

Lemma gp_init_start (cfg : config) (Fm0 : mat R) (Fm : mat npfloat)
    (st : gp_state) :
  gp_init cfg Fm0 = Ret (Fm, st) ->
  iteration st = 0%nat /\ Pt st = start_field cfg (ncols Fm0).
Proof.
  unfold gp_init. intros H.
  apply bind_ret_inv in H. destruct H as [N [HN H]].
  apply bind_ret_inv in H. destruct H as [Fm' [_ H]].
  apply bind_ret_inv in H. destruct H as [[F EF] [_ H]].
  injection H as _ <-. cbn [iteration Pt]. split; [reflexivity|].
  unfold start_field, ncols. destruct Fm0 as [|row Fm0']; [discriminate|].
  injection HN as <-. reflexivity.
Qed.

(** C6.  When the error [G] computed before the loop exceeds the tolerance
    and [max_iter = 0], [retrievePhase] does not enter the loop: it ends with
    the state computed before the loop (iteration count 0, the field equal to
    the seed or to the initial guess, [EFr] untouched), and since [G > GTol]
    the run has stopped on the iteration cap. *)
Theorem retrievePhase_max_iter_zero
    (svd_U0 : mat C -> res vec) (cfg : config) (Fm0 : mat R)
    (Fm : mat npfloat) (st0 : gp_state) :
  max_iter cfg = 0%Z ->
  gp_init cfg Fm0 = Ret (Fm, st0) ->
  np_gtb (G st0) (Fin (GTol cfg)) = true ->
  retrievePhase svd_U0 cfg Fm0 = Ret st0 /\
  iteration st0 = 0%nat /\
  Pt st0 = start_field cfg (ncols Fm0) /\
  exit_status cfg st0 = MAX_ITER_REACHED.
Proof.
  intros Hmax Hinit HG. split; [|split; [|split]].
  - unfold retrievePhase. rewrite Hinit, Hmax. reflexivity.
  - apply (gp_init_start cfg Fm0 Fm st0 Hinit).
  - apply (gp_init_start cfg Fm0 Fm st0 Hinit).
  - unfold exit_status. rewrite HG. reflexivity.
Qed.

Lemma retrievePhase_max_iter_zero_witness :
  let cfg := {| max_iter := 0; GTol := 1 / 1000;
                seed := Some [RtoC 1; RtoC 0];
                method0 := 0; method1 := 0; method2 := 0; method3 := 0;
                rnd := fun _ => 1 / 2 |} in
  let st0 := {| iteration := 0; Pt := [RtoC 1; RtoC 0];
                EFr := [[RtoC 1; RtoC 0]; [RtoC 1; RtoC 0]];
                Fr := lift [[3 / 4; 0]; [3 / 4; 0]];
                G := Fin (sqrt (1 / 32)) |} in
  retrievePhase (fun _ => Raise LinAlgError) cfg [[1; 0]; [1 / 2; 0]] = Ret st0 /\
  iteration st0 = 0%nat /\
  Pt st0 = start_field cfg (ncols [[1; 0]; [1 / 2; 0]]) /\
  exit_status cfg st0 = MAX_ITER_REACHED.
Proof.
  intros cfg st0.
  apply (retrievePhase_max_iter_zero (fun _ => Raise LinAlgError) cfg
           [[1; 0]; [1 / 2; 0]] (lift [[1; 0]; [1 / 2; 0]]) st0).
  - reflexivity.
  - apply gp_init_example; reflexivity.
  - simpl. destruct (Rlt_dec (1 / 1000) (sqrt (1 / 32))) as [_ | H];
      [reflexivity | exfalso; apply H, sqrt_1_32_above_tol].
Defined.

(** ** The data-consistency update *)

Lemma all_fin_list_lift (l : list R) : all_fin_list (map Fin l) = Some l.
Proof. induction l as [|x l IH]; simpl; [reflexivity | rewrite IH; reflexivity]. Qed.

Lemma all_fin_lift (m : mat R) : all_fin (lift m) = Some m.
Proof.
  unfold lift, mat_map. induction m as [|row m IH]; simpl; [reflexivity|].
  rewrite all_fin_list_lift, IH. reflexivity.
Qed.

Lemma has_shape_lift (r c : nat) (m : mat R) :
  has_shape r c m -> has_shape r c (lift m).
Proof. apply has_shape_map. Qed.

Lemma nth2_lift (r c : nat) (m : mat R) (i j : nat) :
  has_shape r c m -> (i < r)%nat -> (j < c)%nat ->
  nth2 NaN (lift m) i j = Fin (nth2 0 m i j).
Proof. intros H Hi Hj. apply (nth2_mat_map 0 NaN Fin m r c i j H Hi Hj). Qed.

Lemma safe_ratio_lift (fm fr : mat R) :
  safe_ratio (lift fm) (lift fr) = lift (mat_map2 ratio0 fm fr).
Proof.
  unfold safe_ratio. apply mat_map2_lift. intros x y. unfold ratio0. simpl.
  destruct (Req_EM_T y 0); reflexivity.
Qed.

Lemma sqrt_lift (r c : nat) (q : mat R) :
  has_shape r c q ->
  (forall i j, (i < r)%nat -> (j < c)%nat -> 0 <= nth2 0 q i j) ->
  mat_map np_sqrt (lift q) = lift (mat_map sqrt q).
Proof.
  intros H Hq. apply (mat_ext NaN r c).
  - apply has_shape_map, has_shape_lift, H.
  - apply has_shape_lift, has_shape_map, H.
  - intros i j Hi Hj.
    rewrite (nth2_mat_map NaN NaN np_sqrt _ r c i j (has_shape_lift r c q H) Hi Hj).
    rewrite (nth2_lift r c q i j H Hi Hj).
    rewrite (nth2_lift r c _ i j (has_shape_map sqrt r c q H) Hi Hj).
    rewrite (nth2_mat_map 0 0 sqrt q r c i j H Hi Hj).
    unfold np_sqrt. specialize (Hq i j Hi Hj).
    destruct (Rlt_dec (nth2 0 q i j) 0); [lra | reflexivity].
Qed.

Lemma ratio0_nonneg (x y : R) : 0 <= x -> 0 <= y -> 0 <= ratio0 x y.
Proof.
  intros Hx Hy. unfold ratio0. destruct (Req_EM_T y 0); [lra|].
  unfold Rdiv. apply Rmult_le_pos; [exact Hx|].
  apply Rlt_le, Rinv_0_lt_compat. lra.
Qed.

(** The update on finite data with nonnegative traces: entry by entry,
    [EFr] is multiplied by [sqrt(Fm/Fr)], or by zero where [Fr = 0]. *)
Lemma amplitude_update_finite (N : nat) (fm fr : mat R) (st : gp_state) :
  has_shape N N fm -> has_shape N N fr -> has_shape N N (EFr st) ->
  Fr st = lift fr ->
  (forall i j, (i < N)%nat -> (j < N)%nat -> 0 <= nth2 0 fm i j) ->
  (forall i j, (i < N)%nat -> (j < N)%nat -> 0 <= nth2 0 fr i j) ->
  exists EF',
    amplitude_update (lift fm) st = Some EF' /\ has_shape N N EF' /\
    forall i j, (i < N)%nat -> (j < N)%nat ->
      mget EF' i j =
      Cscal (sqrt (ratio0 (nth2 0 fm i j) (nth2 0 fr i j))) (mget (EFr st) i j).
Proof.
  intros Hfm Hfr HEF HFr Hpm Hpr. unfold amplitude_update.
  rewrite HFr, safe_ratio_lift.
  assert (Hq : has_shape N N (mat_map2 ratio0 fm fr))
    by (apply has_shape_mat_map2; assumption).
  rewrite (sqrt_lift N N _ Hq).
  2:{ intros i j Hi Hj. rewrite (nth2_mat_map2 0 0 0 ratio0 N N) by assumption.
      apply ratio0_nonneg; [apply Hpm | apply Hpr]; assumption. }
  rewrite all_fin_lift. eexists. split; [reflexivity|].
  assert (Hs : has_shape N N (mat_map sqrt (mat_map2 ratio0 fm fr)))
    by (apply has_shape_map, Hq).
  split.
  - unfold rescale. apply has_shape_mat_map2; assumption.
  - intros i j Hi Hj. unfold rescale, mget.
    rewrite (nth2_mat_map2 0%C 0 0%C _ N N) by assumption.
    rewrite (nth2_mat_map 0 0 sqrt _ N N i j Hq Hi Hj).
    rewrite (nth2_mat_map2 0 0 0 ratio0 N N) by assumption. reflexivity.
Qed.

Lemma scale_trace_finite (fm F : mat R) (alpha : R) :
  calc_alpha (lift fm) (lift F) = Fin alpha ->
  scale_trace (lift fm) F = lift (mat_map (fun x => x * alpha) F).
Proof.
  intros H. unfold scale_trace. rewrite H. apply mat_map_lift. reflexivity.
Qed.

Lemma Cscal_0 (z : C) : Cscal 0 z = 0%C.
Proof. Ceq. Qed.

(** C3 (amended).  In a GP iteration [Fr] is the reconstructed trace already
    scaled by [alpha].  After the update
    [EFr := EFr * sqrt(Fm/Fr)] (quotient zero where [Fr = 0]) every entry is
    a nonnegative real multiple of the entry before (the phase of a nonzero
    entry is unchanged), its amplitude is [sqrt(Fm[i,j]/alpha)] where
    [Fr[i,j]] is nonzero - the amplitude [sqrt(Fm)] up to the global factor
    [1/sqrt(alpha)] - and it is zero where [Fr[i,j] = 0]. *)
Theorem amplitude_update_spec
    (N : nat) (fm : mat R) (st : gp_state) (alpha : R) :
  has_shape N N fm -> has_shape N N (EFr st) ->
  (forall i j, (i < N)%nat -> (j < N)%nat -> 0 <= nth2 0 fm i j) ->
  0 < alpha ->
  calc_alpha (lift fm) (lift (abs2 (EFr st))) = Fin alpha ->
  Fr st = scale_trace (lift fm) (abs2 (EFr st)) ->
  exists EF',
    amplitude_update (lift fm) st = Some EF' /\ has_shape N N EF' /\
    forall i j, (i < N)%nat -> (j < N)%nat ->
      (exists t, 0 <= t /\ mget EF' i j = Cscal t (mget (EFr st) i j)) /\
      (nth2 NaN (Fr st) i j <> Fin 0 ->
       Cmod (mget EF' i j) = sqrt (nth2 0 fm i j / alpha)) /\
      (nth2 NaN (Fr st) i j = Fin 0 -> mget EF' i j = 0%C).
Proof.
  intros Hfm HEF Hpm Ha Halpha HFr.
  rewrite (scale_trace_finite _ _ alpha Halpha) in HFr.
  set (fr := mat_map (fun x => x * alpha) (abs2 (EFr st))) in *.
  assert (HA : has_shape N N (abs2 (EFr st))) by (apply has_shape_abs2, HEF).
  assert (Hfr : has_shape N N fr) by (apply has_shape_map, HA).
  assert (Efr : forall i j, (i < N)%nat -> (j < N)%nat ->
            nth2 0 fr i j
            = Cmod (mget (EFr st) i j) * Cmod (mget (EFr st) i j) * alpha).
  { intros i j Hi Hj. unfold fr.
    rewrite (nth2_mat_map 0 0 _ _ N N i j HA Hi Hj).
    rewrite (nth2_abs2 N N _ i j HEF Hi Hj). reflexivity. }
  destruct (amplitude_update_finite N fm fr st Hfm Hfr HEF HFr Hpm)
    as [EF' [E [HS Hent]]].
  { intros i j Hi Hj. rewrite Efr by assumption.
    pose proof (Cmod_nonneg (mget (EFr st) i j)).
    apply Rmult_le_pos; [apply Rmult_le_pos; assumption | lra]. }
  exists EF'. split; [exact E|]. split; [exact HS|].
  intros i j Hi Hj. rewrite (Hent i j Hi Hj).
  rewrite HFr, (nth2_lift N N fr i j Hfr Hi Hj), (Efr i j Hi Hj).
  set (z := mget (EFr st) i j). set (x := nth2 0 fm i j).
  assert (Hx : 0 <= x) by (apply Hpm; assumption).
  pose proof (Cmod_nonneg z) as Hz.
  split; [|split].
  - eexists. split; [apply sqrt_pos | reflexivity].
  - intros Hne. assert (Hfr0 : Cmod z * Cmod z * alpha <> 0)
      by (intros E0; apply Hne; rewrite E0; reflexivity).
    assert (Hz0 : 0 < Cmod z).
    { destruct Hz as [Hz | Hz]; [exact Hz|]. exfalso. apply Hfr0.
      rewrite <- Hz. ring. }
    unfold ratio0. destruct (Req_EM_T (Cmod z * Cmod z * alpha) 0);
      [contradiction|].
    rewrite Cmod_scal by apply sqrt_pos.
    replace (x / (Cmod z * Cmod z * alpha))
      with (x / alpha * (/ Cmod z * / Cmod z)) by (field; lra).
    rewrite sqrt_mult.
    + rewrite sqrt_square by (apply Rlt_le, Rinv_0_lt_compat, Hz0).
      field. lra.
    + unfold Rdiv. apply Rmult_le_pos; [exact Hx|].
      apply Rlt_le, Rinv_0_lt_compat, Ha.
    + apply Rle_0_sqr.
  - intros E0. injection E0 as E0. unfold ratio0.
    destruct (Req_EM_T (Cmod z * Cmod z * alpha) 0); [|contradiction].
    rewrite sqrt_0. apply Cscal_0.
Qed.

Lemma calc_alpha_example :
  calc_alpha (lift [[1; 0]; [1 / 2; 0]]) (lift [[1; 0]; [1; 0]]) = Fin (3 / 4).
Proof.
  rewrite calc_alpha_finite by (unfold total; simpl; lra).
  unfold total. cbn [mat_map2 map2 concat app Rsum fold_right]. f_equal. field.
Qed.

Lemma scale_trace_example :
  scale_trace (lift [[1; 0]; [1 / 2; 0]]) [[1; 0]; [1; 0]]
  = lift [[3 / 4; 0]; [3 / 4; 0]].
Proof.
  rewrite (scale_trace_finite _ _ (3 / 4) calc_alpha_example).
  unfold mat_map. cbn [map]. replace (1 * (3 / 4)) with (3 / 4) by field.
  replace (0 * (3 / 4)) with 0 by field. reflexivity.
Qed.

Lemma nonneg_example (i j : nat) :
  (i < 2)%nat -> (j < 2)%nat -> 0 <= nth2 0 [[1; 0]; [1 / 2; 0]] i j.
Proof.
  intros Hi Hj.
  destruct i as [|[|i]]; [| |lia]; (destruct j as [|[|j]]; [| |lia]);
    unfold nth2; simpl; lra.
Qed.

Lemma amplitude_update_spec_witness :
  let st := {| iteration := 0; Pt := [RtoC 1; RtoC 0];
               EFr := [[RtoC 1; RtoC 0]; [RtoC 1; RtoC 0]];
               Fr := lift [[3 / 4; 0]; [3 / 4; 0]];
               G := Fin (sqrt (1 / 32)) |} in
  exists EF',
    amplitude_update (lift [[1; 0]; [1 / 2; 0]]) st = Some EF' /\
    has_shape 2 2 EF' /\
    forall i j, (i < 2)%nat -> (j < 2)%nat ->
      (exists t, 0 <= t /\ mget EF' i j = Cscal t (mget (EFr st) i j)) /\
      (nth2 NaN (Fr st) i j <> Fin 0 ->
       Cmod (mget EF' i j) = sqrt (nth2 0 [[1; 0]; [1 / 2; 0]] i j / (3 / 4))) /\
      (nth2 NaN (Fr st) i j = Fin 0 -> mget EF' i j = 0%C).
Proof.
  intros st.
  apply (amplitude_update_spec 2 [[1; 0]; [1 / 2; 0]] st (3 / 4)).
  - apply has_shape_2x2.
  - apply has_shape_2x2.
  - apply nonneg_example.
  - lra.
  - cbn [EFr st]. rewrite abs2_example. apply calc_alpha_example.
  - cbn [EFr Fr st]. rewrite abs2_example. symmetry. apply scale_trace_example.
Defined.

(** The claim C3 as stated fails in the first iteration of the run on the
    trace [[1, 0], [1/2, 0]] seeded with [(1, 0)]: the loop is entered
    ([G = sqrt(1/32) > GTol]), [Fr[0,0] = 3/4] is nonzero, and after the
    update [|EFr[0,0]| = sqrt(4/3)], not [sqrt(Fm[0,0]) = 1]. *)
Lemma amplitude_update_not_sqrt_Fm :
  exists st EF',
    gp_init (default_config (Some [RtoC 1; RtoC 0])) [[1; 0]; [1 / 2; 0]]
      = Ret (lift [[1; 0]; [1 / 2; 0]], st) /\
    np_gtb (G st) (Fin (GTol (default_config (Some [RtoC 1; RtoC 0])))) = true /\
    amplitude_update (lift [[1; 0]; [1 / 2; 0]]) st = Some EF' /\
    nth2 NaN (Fr st) 0 0 <> Fin 0 /\
    Cmod (mget EF' 0 0) <> sqrt (nth2 0 [[1; 0]; [1 / 2; 0]] 0 0).
Proof.
  eexists. 
  destruct (amplitude_update_finite 2 [[1; 0]; [1 / 2; 0]]
              [[3 / 4; 0]; [3 / 4; 0]]
              {| iteration := 0; Pt := [RtoC 1; RtoC 0];
                 EFr := [[RtoC 1; RtoC 0]; [RtoC 1; RtoC 0]];
                 Fr := lift [[3 / 4; 0]; [3 / 4; 0]];
                 G := Fin (sqrt (1 / 32)) |})
    as [EF' [E [_ Hent]]];
    try apply has_shape_2x2; try reflexivity; try apply nonneg_example.
  { intros i j Hi Hj.
    destruct i as [|[|i]]; [| |lia]; (destruct j as [|[|j]]; [| |lia]);
      unfold nth2; simpl; lra. }
  exists EF'. split; [apply gp_init_example; reflexivity|].
  split; [|split; [exact E|split]].
  - simpl. destruct (Rlt_dec (1 / 1000) (sqrt (1 / 32))) as [_ | H];
      [reflexivity | exfalso; apply H, sqrt_1_32_above_tol].
  - unfold nth2. simpl. intros H. injection H as H. lra.
  - rewrite (Hent 0%nat 0%nat) by lia. unfold nth2, mget. simpl nth.
    unfold nth2. simpl nth. unfold ratio0.
    destruct (Req_EM_T (3 / 4) 0); [lra|].
    rewrite Cmod_scal by apply sqrt_pos. rewrite Cmod_1, Rmult_1_r.
    intros H. apply sqrt_inj in H; [lra | |lra].
    unfold Rdiv. lra.
Qed.

(** ** Sums over a cyclic shift of the index *)

Lemma Csum_perm (l l' : list C) : Permutation l l' -> Csum l = Csum l'.
Proof.
  induction 1 as [| x l l' _ IH | x y l | l l' l'' _ IH1 _ IH2]; simpl.
  - reflexivity.
  - rewrite IH. reflexivity.
  - rewrite !Cplus_assoc, (Cplus_comm y x). reflexivity.
  - rewrite IH1. exact IH2.
Qed.

Lemma NoDup_map_inj_in {A B : Type} (f : A -> B) (l : list A) :
  (forall x y, In x l -> In y l -> f x = f y -> x = y) ->
  NoDup l -> NoDup (map f l).
Proof.
  intros Hinj Hnd. induction Hnd as [|a l Ha Hnd IH]; simpl; constructor.
  - intros Hin. apply in_map_iff in Hin. destruct Hin as [y [E Hy]].
    apply Hinj in E; [subst; contradiction | right; exact Hy | left; reflexivity].
  - apply IH. intros x y Hx Hy. apply Hinj; right; assumption.
Qed.

Lemma wrap_shift_inj (N : nat) (m : Z) (x y : nat) :
  (x < N)%nat -> (y < N)%nat ->
  wrap N (Z.of_nat x - m) = wrap N (Z.of_nat y - m) -> x = y.
Proof.
  intros Hx Hy H. assert (HN : (0 < N)%nat) by lia.
  apply (f_equal Z.of_nat) in H. rewrite !Z_of_wrap in H by exact HN.
  assert (E : ((Z.of_nat x - Z.of_nat y) mod Z.of_nat N = 0)%Z).
  { replace (Z.of_nat x - Z.of_nat y)%Z
      with ((Z.of_nat x - m) - (Z.of_nat y - m))%Z by lia.
    rewrite Zminus_mod, H, Z.sub_diag. apply Z.mod_0_l. lia. }
  apply Z.mod_divide in E; [|lia]. destruct E as [q Hq].
  destruct (Z.eq_dec q 0) as [-> | Hq0]; [lia|].
  assert (Hq1 : (q <= -1 \/ 1 <= q)%Z) by lia. destruct Hq1; nia.
Qed.

Lemma shift_permutation (N : nat) (m : Z) :
  (0 < N)%nat ->
  Permutation (map (fun n => wrap N (Z.of_nat n - m)) (seq 0 N)) (seq 0 N).
Proof.
  intros HN. apply NoDup_Permutation_bis.
  - apply NoDup_map_inj_in; [|apply seq_NoDup].
    intros x y Hx Hy. apply in_seq in Hx, Hy. apply wrap_shift_inj; lia.
  - rewrite length_map. apply Nat.le_refl.
  - intros k Hk. apply in_map_iff in Hk. destruct Hk as [n [<- _]].
    apply in_seq. pose proof (wrap_lt N (Z.of_nat n - m) HN). lia.
Qed.

Lemma bigsum_reindex (N : nat) (m : Z) (g : nat -> C) :
  (0 < N)%nat ->
  bigsum N (fun n => g (wrap N (Z.of_nat n - m))) = bigsum N g.
Proof.
  intros HN. unfold bigsum.
  rewrite <- (map_map (fun n => wrap N (Z.of_nat n - m)) g).
  apply Csum_perm, Permutation_map, shift_permutation, HN.
Qed.

(** The shift theorem: a cyclic shift of the samples multiplies the
    Fourier sum by a phase. *)
Lemma bigsum_shift (N : nat) (m e : Z) (x : nat -> C) :
  (0 < N)%nat ->
  bigsum N (fun n => (x (wrap N (Z.of_nat n - m)) * omega N (e * Z.of_nat n))%C)
  = (omega N (e * m) * bigsum N (fun n => (x n * omega N (e * Z.of_nat n))%C))%C.
Proof.
  intros HN.
  rewrite <- (bigsum_reindex N m
                (fun n => (x n * omega N (e * Z.of_nat n))%C) HN).
  rewrite <- bigsum_mult_l. apply bigsum_ext. intros n Hn.
  rewrite (omega_eqm N (e * Z.of_nat n)
             (e * m + e * Z.of_nat (wrap N (Z.of_nat n - m))) HN).
  - rewrite omega_add. Ceq.
  - rewrite Z_of_wrap by exact HN.
    rewrite <- Z.mul_add_distr_l.
    rewrite <- (Zmult_mod_idemp_r (m + _)), Zplus_mod_idemp_r.
    rewrite Zmult_mod_idemp_r. f_equal. lia.
Qed.

(** ** A cyclic shift of the field and the trace: time domain *)

Lemma vget_np_roll (P : vec) (m : Z) (n : nat) :
  (n < length P)%nat ->
  vget (np_roll 0%C P m) n = vget P (wrap (length P) (Z.of_nat n - m)).
Proof. intros Hn. unfold vget. apply nth_np_roll, Hn. Qed.

Lemma time_entry_roll (P : vec) (m : Z) (r c : nat) :
  (0 < length P)%nat ->
  let N := length P in
  let P' := np_roll 0%C P m in
  time_entry N (outer P' P') r c =
  (omega N (-1 * Z.of_nat (wrap N (Z.of_nat r - (ceil_half N - 1))) * m)
   * time_entry N (outer P P) r c)%C.
Proof.
  intros HN N P'. unfold time_entry, dft.
  set (K := Z.of_nat (wrap N (Z.of_nat (N - 1 - c) - Z.of_nat (N / 2)))).
  set (rho := Z.of_nat (wrap N (Z.of_nat r - (ceil_half N - 1)))).
  assert (HP' : length P' = N) by apply length_np_roll.
  rewrite (bigsum_ext N _
             (fun n => ((fun k => (vget P k * vget P (wrap N (K - -1 * Z.of_nat k)))%C)
                          (wrap N (Z.of_nat n - m))
                        * omega N (-1 * rho * Z.of_nat n))%C)).
  2:{ intros n Hn. f_equal.
      rewrite mget_outer by (rewrite HP'; try exact Hn; apply wrap_lt, HN).
      unfold P'. rewrite !vget_np_roll by (try exact Hn; apply wrap_lt, HN).
      fold N. do 2 f_equal. apply wrap_eqm.
      rewrite !Z_of_wrap by exact HN.
      rewrite Zminus_mod_idemp_l.
      replace (K - -1 * ((Z.of_nat n - m) mod Z.of_nat N))%Z
        with (K + (Z.of_nat n - m) mod Z.of_nat N)%Z by lia.
      rewrite Zplus_mod_idemp_r. f_equal. lia. }
  rewrite (bigsum_shift N m (-1 * rho)
             (fun k => (vget P k * vget P (wrap N (K - -1 * Z.of_nat k)))%C) HN).
  f_equal. apply bigsum_ext. intros n Hn. f_equal.
  rewrite mget_outer by (try exact Hn; apply wrap_lt, HN). reflexivity.
Qed.

Lemma Cmod_omega_mult (N : nat) (z : Z) (a : C) :
  Cmod (omega N z * a) = Cmod a.
Proof. rewrite Cmod_mult, Cmod_omega. ring. Qed.

Lemma makeFROG_time_roll (P : vec) (m : Z) :
  (0 < length P)%nat ->
  exists F EF EF',
    makeFROG P 0 0 = Ret (Some (F, EF)) /\
    makeFROG (np_roll 0%C P m) 0 0 = Ret (Some (F, EF')).
Proof.
  intros HN.
  pose proof (makeFROG_time_closed P 0 HN) as E1.
  pose proof (makeFROG_time_closed (np_roll 0%C P m) 0) as E2.
  rewrite length_np_roll in E2. specialize (E2 HN). cbv zeta in E1, E2.
  unfold time_product in E1, E2. change ((0 =? 0)%Z) with true in E1, E2.
  cbv iota in E1, E2.
  eexists _, _, _. split; [exact E1|]. rewrite E2. do 3 f_equal.
  set (N := length P) in *. unfold abs2, mat_map, mk_mat, mk_vec.
  rewrite !map_map. apply map_ext_in. intros r Hr.
  rewrite !map_map. apply map_ext_in. intros c Hc.
  pose proof (time_entry_roll P m r c HN) as H. cbv zeta in H. fold N in H.
  rewrite H, Cmod_omega_mult. reflexivity.
Qed.

(** ** The frequency-domain anti-alias mask *)

Lemma mget_set_zero (r c : nat) (m : mat C) (n a b : Z) (i j : nat) :
  has_shape r c m -> (i < r)%nat -> (j < c)%nat ->
  mget (set_zero m n a b) i j =
  if ((Z.of_nat i =? n) && ((a <=? Z.of_nat j) && (Z.of_nat j <? b)))%Z
  then 0%C else mget m i j.
Proof.
  intros H Hi Hj. unfold mget, nth2, set_zero.
  rewrite nth_mk_vec by (rewrite (proj1 H); exact Hi).
  destruct (Z.of_nat i =? n)%Z; [|reflexivity].
  unfold zero_slice. rewrite nth_mk_vec
    by (rewrite (has_shape_row r c m i H Hi); exact Hj).
  reflexivity.
Qed.

Lemma mget_fold_set_zero (r c : nat) (fa fb : Z -> Z) (l : list Z) (m : mat C)
    (i j : nat) :
  has_shape r c m -> (i < r)%nat -> (j < c)%nat ->
  mget (fold_left (fun m n => set_zero m n (fa n) (fb n)) l m) i j =
  if zeroed fa fb l i j then 0%C else mget m i j.
Proof.
  revert m. induction l as [|n l IH]; intros m H Hi Hj; simpl.
  - reflexivity.
  - rewrite IH by (try assumption; apply has_shape_set_zero, H).
    rewrite (mget_set_zero r c m n (fa n) (fb n) i j H Hi Hj).
    destruct ((Z.of_nat i =? n) && ((fa n <=? Z.of_nat j) && (Z.of_nat j <? fb n)))%Z;
      simpl; [destruct (zeroed fa fb l i j); reflexivity | reflexivity].
Qed.

Lemma antialias_freq_entries (N r c : nat) (vmax first : Z) (m : mat C) :
  has_shape r c m ->
  exists m',
    antialias_freq N (PyInt vmax) first m = Ret m' /\ has_shape r c m' /\
    forall i j, (i < r)%nat -> (j < c)%nat ->
      mget m' i j = if freq_mask N vmax first i j then 0%C else mget m i j.
Proof.
  intros H. unfold antialias_freq. simpl. eexists. split; [reflexivity|].
  set (m1 := fold_left _ (range_Z first (vmax + 1)) m).
  assert (H1 : has_shape r c m1).
  { apply (has_shape_fold_set_zero r c
             (fun n => (vmax - (n - 1))%Z) (fun _ => (vmax + 1)%Z)), H. }
  split.
  - apply (has_shape_fold_set_zero r c
             (fun _ => (vmax + 1)%Z) (fun n => (vmax + 1 + (Z.of_nat N - n))%Z)),
      H1.
  - intros i j Hi Hj.
    rewrite (mget_fold_set_zero r c
               (fun _ => (vmax + 1)%Z) (fun n => (vmax + 1 + (Z.of_nat N - n))%Z))
      by assumption.
    unfold m1.
    rewrite (mget_fold_set_zero r c
               (fun n => (vmax - (n - 1))%Z) (fun _ => (vmax + 1)%Z))
      by assumption.
    unfold freq_mask.
    destruct (zeroed _ _ (range_Z (vmax + 1) (Z.of_nat N)) i j); reflexivity.
Qed.

(** ** The entries of [EF] in the frequency domain *)

Lemma makeFROG_freq_closed (P : vec) (antialias : Z) :
  (0 < length P)%nat ->
  let N := length P in
  let A := mk_vec N (dft (-1) N (vget P)) in
  exists EF,
    makeFROG P 1 antialias = Ret (Some (abs2 EF, EF)) /\
    has_shape N N EF /\
    forall i j, (i < N)%nat -> (j < N)%nat ->
      mget EF i j = freq_entry N A (makeFROG_mask N antialias) i j.
Proof.
  intros HN N A. unfold makeFROG. fold N.
  change ((1 =? 0)%Z) with false. change ((1 =? 1)%Z) with true. cbv iota.
  rewrite (np_fft_shape P HN). fold N. fold A. cbn [bind].
  assert (HA : length A = N) by apply length_mk_vec.
  assert (HO : has_shape N N (outer A A)).
  { pose proof (has_shape_outer A A) as H. rewrite HA in H. exact H. }
  assert (HM : exists M,
             (if (antialias =? 0)%Z then Ret (outer A A)
              else antialias_freq N (PyInt (py_int (np_floor (half N)))) 1
                     (outer A A)) = Ret M /\ has_shape N N M /\
             forall i j, (i < N)%nat -> (j < N)%nat ->
               mget M i j = if makeFROG_mask N antialias i j then 0%C
                            else (vget A i * vget A j)%C).
  { unfold makeFROG_mask. destruct (antialias =? 0)%Z.
    - exists (outer A A). split; [reflexivity|]. split; [exact HO|].
      intros i j Hi Hj. apply mget_outer; rewrite HA; assumption.
    - destruct (antialias_freq_entries N N N (py_int (np_floor (half N))) 1
                  (outer A A) HO) as [M [E [HS Hent]]].
      exists M. split; [exact E|]. split; [exact HS|].
      intros i j Hi Hj. rewrite (Hent i j Hi Hj).
      rewrite mget_outer by (rewrite HA; assumption). reflexivity. }
  destruct HM as [M [-> [HMs HMe]]]. cbn [bind].
  rewrite (rotate_rows_shape N (-1) N (fliplr M))
    by (apply has_shape_fliplr, HMs). cbn [bind].
  set (Y := mk_mat N N _).
  assert (HY : has_shape N N Y) by apply has_shape_mk_mat.
  rewrite (ifft_axis0_shape N N Y HY HN). cbn [bind].
  set (X := mk_mat N N _).
  assert (HX : has_shape N N X) by apply has_shape_mk_mat.
  rewrite py_int_ceil_half, py_int_ceil_half_m1.
  set (W1 := flipud (fliplr X)).
  assert (HW1 : has_shape N N W1)
    by (apply has_shape_flipud, has_shape_fliplr, HX).
  set (W2 := roll_axis0 W1 (ceil_half N)).
  assert (HW2 : has_shape N N W2) by (apply has_shape_roll_axis0, HW1).
  set (W3 := roll_axis1 0%C W2 (ceil_half N - 1)).
  assert (HW3 : has_shape N N W3) by (apply has_shape_roll_axis1, HW2).
  eexists. split; [reflexivity|]. split.
  - apply has_shape_transpose; assumption.
  - intros i j Hi Hj. unfold mget.
    rewrite (nth2_transpose 0%C N N W3 i j HW3 Hi Hj). unfold W3.
    rewrite (nth2_roll_axis1 0%C N N W2 _ j i HW2 Hj Hi). unfold W2.
    rewrite (nth2_roll_axis0 0%C N N W1 _ j _ HW1 Hj). unfold W1.
    pose proof (wrap_lt N (Z.of_nat j - ceil_half N) HN) as Hr.
    pose proof (wrap_lt N (Z.of_nat i - (ceil_half N - 1)) HN) as Hk.
    rewrite (nth2_flipud 0%C N N _ _ _ (has_shape_fliplr N N X HX) Hr).
    rewrite (nth2_fliplr 0%C N N X) by (try exact HX; lia).
    unfold X. rewrite nth2_mk_mat by lia.
    unfold freq_entry. cbv zeta. f_equal. apply dft_ext. intros n Hn.
    unfold Y, mget. rewrite nth2_mk_mat by (try exact Hn; lia).
    fold (mget (fliplr M) n
            (wrap N (Z.of_nat (N - 1 - wrap N (Z.of_nat i - (ceil_half N - 1)))
                     - -1 * Z.of_nat n))).
    unfold mget.
    rewrite (nth2_fliplr 0%C N N M) by (try assumption; apply wrap_lt, HN).
    fold (mget M n
            (N - 1 - wrap N (Z.of_nat (N - 1 - wrap N (Z.of_nat i - (ceil_half N - 1)))
                             - -1 * Z.of_nat n))).
    apply HMe; [exact Hn|].
    pose proof (wrap_lt N (Z.of_nat (N - 1 - wrap N (Z.of_nat i - (ceil_half N - 1)))
                           - -1 * Z.of_nat n) HN).
    lia.
Qed.

(** ** A cyclic shift of the field and the trace: frequency domain *)

Lemma fft_roll (P : vec) (m : Z) (k : nat) :
  (0 < length P)%nat ->
  dft (-1) (length P) (vget (np_roll 0%C P m)) k =
  (omega (length P) (-1 * Z.of_nat k * m) * dft (-1) (length P) (vget P) k)%C.
Proof.
  intros HN. unfold dft.
  rewrite <- (bigsum_shift (length P) m (-1 * Z.of_nat k) (vget P) HN).
  apply bigsum_ext. intros n Hn. rewrite vget_np_roll by exact Hn. reflexivity.
Qed.

Lemma Cdivr_mult_r (a b : C) (x : R) : Cdivr (a * b) x = (a * Cdivr b x)%C.
Proof. Cunf. f_equal; unfold Rdiv; ring. Qed.

Lemma freq_entry_roll (P : vec) (m : Z) (mask : nat -> nat -> bool)
    (i j : nat) :
  (0 < length P)%nat ->
  let N := length P in
  let A := mk_vec N (dft (-1) N (vget P)) in
  let A' := mk_vec N (dft (-1) N (vget (np_roll 0%C P m))) in
  let k := (N - 1 - wrap N (Z.of_nat i - (ceil_half N - 1)))%nat in
  freq_entry N A' mask i j =
  (omega N ((1 + Z.of_nat k) * m) * freq_entry N A mask i j)%C.
Proof.
  intros HN N A A' k. unfold freq_entry. cbv zeta. fold k.
  rewrite <- Cdivr_mult_r. f_equal. unfold dft.
  rewrite <- bigsum_mult_l. apply bigsum_ext. intros n Hn.
  set (w := wrap N (Z.of_nat k - -1 * Z.of_nat n)).
  assert (Hw : (w < N)%nat) by (apply wrap_lt, HN).
  destruct (mask n (N - 1 - w)%nat).
  - Ceq.
  - unfold A', A. rewrite !vget_mk_vec by lia.
    pose proof (fft_roll P m n HN) as E1. fold N in E1. rewrite E1.
    pose proof (fft_roll P m (N - 1 - w) HN) as E2. fold N in E2. rewrite E2.
    rewrite (omega_eqm N ((1 + Z.of_nat k) * m)
               (-1 * Z.of_nat n * m + -1 * Z.of_nat (N - 1 - w) * m) HN).
    + rewrite omega_add. Ceq.
    + assert (Ew : Z.of_nat (N - 1 - w) = (Z.of_nat N - 1 - Z.of_nat w)%Z) by lia.
      rewrite Ew.
      replace (-1 * Z.of_nat n * m + -1 * (Z.of_nat N - 1 - Z.of_nat w) * m)%Z
        with ((Z.of_nat w + (1 - Z.of_nat n - Z.of_nat N)) * m)%Z by ring.
      unfold w. rewrite <- (Zmult_mod_idemp_l (Z.of_nat (wrap N _) + _)).
      rewrite Z_of_wrap by exact HN. rewrite Zplus_mod_idemp_l.
      rewrite Zmult_mod_idemp_l.
      replace ((Z.of_nat k - -1 * Z.of_nat n + (1 - Z.of_nat n - Z.of_nat N)) * m)%Z
        with ((1 + Z.of_nat k) * m + (- m) * Z.of_nat N)%Z by ring.
      rewrite Z.mod_add by lia. reflexivity.
Qed.

Lemma makeFROG_freq_roll (P : vec) (m antialias : Z) :
  (0 < length P)%nat ->
  exists F EF EF',
    makeFROG P 1 antialias = Ret (Some (F, EF)) /\
    makeFROG (np_roll 0%C P m) 1 antialias = Ret (Some (F, EF')).
Proof.
  intros HN.
  destruct (makeFROG_freq_closed P antialias HN) as [EF [E1 [H1 Hent1]]].
  pose proof (makeFROG_freq_closed (np_roll 0%C P m) antialias) as H.
  rewrite length_np_roll in H. destruct (H HN) as [EF' [E2 [H2 Hent2]]].
  clear H. cbv zeta in *. set (N := length P) in *.
  exists (abs2 EF), EF, EF'. split; [exact E1|]. rewrite E2. do 3 f_equal.
  apply (mat_ext 0 N N); try (apply has_shape_abs2; assumption).
  intros i j Hi Hj. rewrite !(nth2_abs2 N N) by assumption.
  rewrite (Hent1 i j Hi Hj), (Hent2 i j Hi Hj).
  pose proof (freq_entry_roll P m (makeFROG_mask N antialias) i j HN) as E.
  cbv zeta in E. fold N in E. rewrite E, Cmod_omega_mult. reflexivity.
Qed.

(** ** Recentring and the error *)

Lemma makeFROG_roll (P : vec) (m domain antialias : Z) :
  (0 < length P)%nat ->
  (domain = 0%Z /\ antialias = 0%Z) \/ domain = 1%Z ->
  exists F EF EF',
    makeFROG P domain antialias = Ret (Some (F, EF)) /\
    makeFROG (np_roll 0%C P m) domain antialias = Ret (Some (F, EF')).
Proof.
  intros HN [[-> ->] | ->].
  - apply makeFROG_time_roll, HN.
  - apply makeFROG_freq_roll, HN.
Qed.

(** C8 (amended).  In the frequency domain, and in the time domain without
    anti-aliasing, a cyclic shift of the field by any amount [m] (the
    recentring step is one) changes neither the reconstructed trace [Fr] nor
    the error [G] computed from it, for every trace [Fm]. *)
Theorem recentring_preserves_error
    (Fm : mat npfloat) (P : vec) (m domain antialias : Z) :
  P <> [] ->
  (domain = 0%Z /\ antialias = 0%Z) \/ domain = 1%Z ->
  exists EF EF' Fr G,
    reconstruct Fm P domain antialias = Ret (EF, Fr, G) /\
    reconstruct Fm (np_roll 0%C P m) domain antialias = Ret (EF', Fr, G).
Proof.
  intros HP Hd.
  assert (HN : (0 < length P)%nat) by (destruct P; [congruence | simpl; lia]).
  destruct (makeFROG_roll P m domain antialias HN Hd) as [F [EF [EF' [E1 E2]]]].
  exists EF, EF', (scale_trace Fm F), (rms_diff Fm (scale_trace Fm F)).
  unfold reconstruct, unpack. rewrite E1, E2. split; reflexivity.
Qed.

Lemma recentring_preserves_error_witness :
  exists EF EF' Fr G,
    reconstruct (lift [[1; 0]; [1 / 2; 0]]) [RtoC 1; Ci] 1 1 = Ret (EF, Fr, G) /\
    reconstruct (lift [[1; 0]; [1 / 2; 0]]) (np_roll 0%C [RtoC 1; Ci] 1) 1 1
      = Ret (EF', Fr, G).
Proof.
  apply (recentring_preserves_error (lift [[1; 0]; [1 / 2; 0]])
           [RtoC 1; Ci] 1 1 1).
  - discriminate.
  - right. reflexivity.
Defined.

(** ** Time-domain anti-aliasing is not invariant under a cyclic shift *)

Lemma mget_time_product_3 (P : vec) (i j : nat) :
  length P = 3%nat -> (i < 3)%nat -> (j < 3)%nat ->
  mget (time_product P 1) i j =
  if Rle_dec 2 (Rabs (INR j - INR i)) then 0%C else (vget P i * vget P j)%C.
Proof.
  intros HP Hi Hj. unfold time_product. change ((1 =? 0)%Z) with false.
  cbv iota. rewrite HP.
  pose proof (has_shape_outer P P) as HO. rewrite HP in HO.
  rewrite (mget_antialias_time 3 3 3 _ i j HO Hi Hj). cbv zeta.
  rewrite py_val_ceil_half. change (IZR (ceil_half 3)) with 2.
  rewrite mget_outer by (rewrite HP; assumption).
  destruct (Rle_dec 2 (Rabs (INR j - INR i))) as [H | H];
    destruct (Rle_dec (INR j - INR i) (- (2))) as [H1 | H1];
    destruct (Rle_dec 2 (INR j - INR i)) as [H2 | H2];
    try (exfalso; lra);
    try (exfalso; revert H; unfold Rabs; destruct (Rcase_abs _); lra).
  - rewrite Cminus_diag. Ceq.
  - rewrite Cminus_0_r. apply Cminus_diag.
  - rewrite !Cminus_0_r. reflexivity.
Qed.

Lemma time_entry_3_masked (P : vec) :
  length P = 3%nat ->
  time_entry 3 (time_product P 1) 0 0 =
  (vget P 0 * vget P 1 + vget P 1 * vget P 2 * omega 3 (-2))%C.
Proof.
  intros HP. unfold time_entry, dft, bigsum. cbn [seq map Csum fold_right].
  eval_wrap. rewrite !(mget_time_product_3 P) by (try exact HP; lia).
  eval_omega. simpl INR.
  replace (1 - 0) with 1 by ring. replace (1 + 1 - 1) with 1 by ring.
  replace (0 - (1 + 1)) with (- (2)) by ring.
  rewrite Rabs_R1, Rabs_Ropp, (Rabs_right 2) by lra.
  destruct (Rle_dec 2 1) as [H | _]; [lra|].
  destruct (Rle_dec 2 2) as [_ | H]; [|lra].
  Csimp. reflexivity.
Qed.

(** For [Pt = (1, 0, 1)] the entry [(0, 0)] of the trace is 0; for its
    shift [(1, 1, 0)] it is 1. *)
Lemma masked_trace_entries :
  exists F1 EF1 F2 EF2,
    makeFROG [RtoC 1; RtoC 0; RtoC 1] 0 1 = Ret (Some (F1, EF1)) /\
    makeFROG (np_roll 0%C [RtoC 1; RtoC 0; RtoC 1] 1) 0 1
      = Ret (Some (F2, EF2)) /\
    has_shape 3 3 F1 /\ has_shape 3 3 F2 /\
    nth2 0 F1 0 0 = 0 /\ nth2 0 F2 0 0 = 1.
Proof.
  change (np_roll 0%C [RtoC 1; RtoC 0; RtoC 1] 1)
    with [RtoC 1; RtoC 1; RtoC 0].
  pose proof (makeFROG_time_closed [RtoC 1; RtoC 0; RtoC 1] 1) as E1.
  pose proof (makeFROG_time_closed [RtoC 1; RtoC 1; RtoC 0] 1) as E2.
  cbv zeta in E1, E2. specialize (E1 ltac:(simpl; lia)).
  specialize (E2 ltac:(simpl; lia)).
  change (length [RtoC 1; RtoC 0; RtoC 1]) with 3%nat in E1.
  change (length [RtoC 1; RtoC 1; RtoC 0]) with 3%nat in E2.
  eexists _, _, _, _. split; [exact E1|]. split; [exact E2|].
  split; [apply has_shape_abs2, has_shape_mk_mat|].
  split; [apply has_shape_abs2, has_shape_mk_mat|].
  rewrite !(nth2_abs2 3 3) by (try lia; apply has_shape_mk_mat).
  unfold mget. rewrite !nth2_mk_mat by lia.
  rewrite !time_entry_3_masked by reflexivity. cbn [vget nth]. Csimp.
  rewrite Cmod_0, Cmod_1. split; ring.
Qed.

(** ** The error for a finite trace *)

Lemma map2_map_r {A B B' D : Type} (g : A -> B' -> D) (h : B -> B')
    (a : list A) (b : list B) :
  map2 g a (map h b) = map2 (fun x y => g x (h y)) a b.
Proof.
  revert b. induction a as [|x a IH]; intros [|y b]; simpl; try reflexivity.
  rewrite IH. reflexivity.
Qed.

Lemma map2_ext {A B D : Type} (f g : A -> B -> D) (a : list A) (b : list B) :
  (forall x y, f x y = g x y) -> map2 f a b = map2 g a b.
Proof.
  intros H. revert b. induction a as [|x a IH]; intros [|y b]; simpl;
    try reflexivity.
  rewrite H, IH. reflexivity.
Qed.

Lemma length_concat_map {A B : Type} (f : A -> B) (m : mat A) :
  concat (mat_map f m) = map f (concat m).
Proof.
  unfold mat_map. induction m as [|row m IH]; simpl; [reflexivity|].
  rewrite IH, map_app. reflexivity.
Qed.

(** [G] as computed in the loop, for finite traces of one shape with
    [sum(F^2)] nonzero: the root of the mean of [(Fm - alpha F)^2]. *)
Lemma error_finite (r c : nat) (fm F : mat R) :
  has_shape r c fm -> has_shape r c F -> (0 < r)%nat -> (0 < c)%nat ->
  total (mat_map2 Rmult F F) <> 0 ->
  rms_diff (lift fm) (scale_trace (lift fm) F) =
  Fin (sqrt (sq_residual
               (total (mat_map2 Rmult fm F) / total (mat_map2 Rmult F F)) fm F
             / INR (r * c))).
Proof.
  intros Hfm HF Hr Hc HS.
  rewrite (scale_trace_finite fm F _ (calc_alpha_finite fm F HS)).
  set (alpha := total (mat_map2 Rmult fm F) / total (mat_map2 Rmult F F)).
  rewrite (rms_diff_finite r c) by (try assumption; apply has_shape_map, HF).
  do 3 f_equal. unfold total, sq_residual.
  rewrite !(concat_mat_map2 _ r c) by (try assumption; apply has_shape_map, HF).
  rewrite length_concat_map, map2_map_r. f_equal. apply map2_ext.
  intros x y. unfold Rsqr. ring.
Qed.

Lemma sq_residual_optimum (r c : nat) (fm F : mat R) :
  has_shape r c fm -> has_shape r c F ->
  total (mat_map2 Rmult F F) <> 0 ->
  sq_residual (total (mat_map2 Rmult fm F) / total (mat_map2 Rmult F F)) fm F
  = total (mat_map2 Rmult fm fm)
    - total (mat_map2 Rmult fm F) * total (mat_map2 Rmult fm F)
      / total (mat_map2 Rmult F F).
Proof.
  intros Hfm HF HS. unfold sq_residual, total in *.
  rewrite !(concat_mat_map2 _ r c) by assumption.
  rewrite (concat_mat_map2 _ r c) in HS by assumption.
  rewrite Rsum_quadratic.
  - field. exact HS.
  - rewrite (length_concat_shape r c fm Hfm), (length_concat_shape r c F HF).
    reflexivity.
Qed.

Lemma has_shape_3x3_inv {A : Type} (m : mat A) :
  has_shape 3 3 m ->
  exists a b c d e f g h i, m = [[a; b; c]; [d; e; f]; [g; h; i]].
Proof.
  intros [Hl Hf].
  destruct m as [|r1 [|r2 [|r3 [|r4 m]]]]; try discriminate.
  inversion Hf as [|? ? H1 Hf1]; subst.
  inversion Hf1 as [|? ? H2 Hf2]; subst.
  inversion Hf2 as [|? ? H3 _]; subst.
  destruct r1 as [|a [|b [|c [|? ?]]]]; try discriminate.
  destruct r2 as [|d [|e [|f [|? ?]]]]; try discriminate.
  destruct r3 as [|g [|h [|i [|? ?]]]]; try discriminate.
  exists a, b, c, d, e, f, g, h, i. reflexivity.
Qed.

Lemma np_sub_NaN_r (a : npfloat) : np_sub a NaN = NaN.
Proof. destruct a; reflexivity. Qed.

Lemma rms_diff_nan_r (N : nat) (A : mat npfloat) :
  (0 < N)%nat -> has_shape N N A -> rms_diff A (np_full N N NaN) = NaN.
Proof.
  intros HN HA. unfold rms_diff.
  rewrite (mat_map2_const NaN NaN NaN np_sub N N _ _ NaN HA
             (has_shape_np_full N N NaN))
    by (intros i j Hi Hj; rewrite nth2_np_full by assumption;
        apply np_sub_NaN_r).
  rewrite (mat_map_const NaN NaN np_square N N _ NaN (has_shape_np_full N N NaN))
    by (intros i j Hi Hj; rewrite nth2_np_full by assumption; reflexivity).
  unfold np_mean. rewrite np_sum_full_nan by exact HN. reflexivity.
Qed.

(** The error against the trace that is 1 at [(0, 0)] and 0 elsewhere. *)
Lemma error_indicator (F : mat R) :
  has_shape 3 3 F ->
  let E := [[1; 0; 0]; [0; 0; 0]; [0; 0; 0]] in
  let G := rms_diff (lift E) (scale_trace (lift E) F) in
  (nth2 0 F 0 0 = 0 -> G = NaN \/ G = Fin (sqrt (1 / INR 9))) /\
  (nth2 0 F 0 0 = 1 -> exists g, G = Fin (sqrt (g / INR 9)) /\ 0 <= g < 1).
Proof.
  intros HF E G.
  assert (HE : has_shape 3 3 E)
    by (split; [reflexivity | repeat (constructor; try reflexivity)]).
  destruct (has_shape_3x3_inv F HF) as [a [b [c [d [e [f [g [h [i ->]]]]]]]]].
  unfold nth2. cbn [nth].
  assert (Sxy : total (mat_map2 Rmult E [[a; b; c]; [d; e; f]; [g; h; i]]) = a)
    by (unfold total; simpl; ring).
  assert (Sxx : total (mat_map2 Rmult E E) = 1) by (unfold total; simpl; ring).
  assert (Syy : total (mat_map2 Rmult [[a; b; c]; [d; e; f]; [g; h; i]]
                         [[a; b; c]; [d; e; f]; [g; h; i]])
                = a * a + b * b + c * c + d * d + e * e + f * f + g * g
                  + h * h + i * i)
    by (unfold total; simpl; ring).
  split.
  - intros Ha. subst a.
    destruct (Req_EM_T (total (mat_map2 Rmult [[0; b; c]; [d; e; f]; [g; h; i]]
                                 [[0; b; c]; [d; e; f]; [g; h; i]])) 0)
      as [S0 | S0].
    + left. unfold G, scale_trace, calc_alpha.
      rewrite (mat_map2_lift Rmult np_mul) by reflexivity.
      rewrite (mat_map_lift (fun x => x * x) np_square) by reflexivity.
      rewrite !np_sum_lift, mat_map_square, Sxy, S0, np_div_0_0.
      rewrite (mat_map_const NaN NaN _ 3 3 _ NaN (has_shape_lift 3 3 _ HF))
        by (intros; apply np_mul_NaN_r).
      apply rms_diff_nan_r; [lia | apply has_shape_lift, HE].
    + right. unfold G. rewrite (error_finite 3 3) by (try assumption; lia).
      rewrite (sq_residual_optimum 3 3) by assumption.
      rewrite Sxx, Sxy. do 3 f_equal. field. exact S0.
  - intros Ha. subst a.
    set (S := total (mat_map2 Rmult [[1; b; c]; [d; e; f]; [g; h; i]]
                       [[1; b; c]; [d; e; f]; [g; h; i]])) in *.
    assert (HS : 1 <= S).
    { rewrite Syy. pose proof (Rle_0_sqr b). pose proof (Rle_0_sqr c).
      pose proof (Rle_0_sqr d). pose proof (Rle_0_sqr e).
      pose proof (Rle_0_sqr f). pose proof (Rle_0_sqr g).
      pose proof (Rle_0_sqr h). pose proof (Rle_0_sqr i).
      unfold Rsqr in *. lra. }
    exists (1 - 1 / S). split.
    + unfold G. rewrite (error_finite 3 3) by (try assumption; try lia; fold S; lra).
      rewrite (sq_residual_optimum 3 3) by (try assumption; fold S; lra).
      fold S. rewrite Sxx, Sxy. do 3 f_equal. field. lra.
    + assert (0 < / S) by (apply Rinv_0_lt_compat; lra).
      assert (/ S <= 1).
      { rewrite <- Rinv_1. apply Rinv_le_contravar; lra. }
      unfold Rdiv. lra.
Qed.

(** The claim C8 as stated fails in the time domain with anti-aliasing: for
    [Pt = (1, 0, 1)], its cyclic shift by one sample and the trace that is 1
    at [(0, 0)] and 0 elsewhere, the two errors differ. *)
Lemma recentring_changes_error_with_antialias :
  exists EF1 Fr1 G1 EF2 Fr2 G2,
    reconstruct (lift [[1; 0; 0]; [0; 0; 0]; [0; 0; 0]])
      [RtoC 1; RtoC 0; RtoC 1] 0 1 = Ret (EF1, Fr1, G1) /\
    reconstruct (lift [[1; 0; 0]; [0; 0; 0]; [0; 0; 0]])
      (np_roll 0%C [RtoC 1; RtoC 0; RtoC 1] 1) 0 1 = Ret (EF2, Fr2, G2) /\
    G1 <> G2.
Proof.
  destruct masked_trace_entries as [F1 [EF1 [F2 [EF2 [E1 [E2 [H1 [H2 [Z1 Z2]]]]]]]]].
  unfold reconstruct, unpack. rewrite E1, E2. cbn [bind].
  eexists _, _, _, _, _, _. split; [reflexivity|]. split; [reflexivity|].
  destruct (error_indicator F1 H1) as [HG1 _].
  destruct (error_indicator F2 H2) as [_ HG2].
  cbv zeta in HG1, HG2.
  destruct (HG2 Z2) as [g [-> [Hg0 Hg1]]].
  destruct (HG1 Z1) as [-> | ->]; [discriminate|].
  intros H. injection H as H.
  assert (H9 : 0 < INR 9) by (apply lt_0_INR; lia).
  apply sqrt_inj in H.
  - unfold Rdiv in H. apply Rmult_eq_reg_r in H; [lra|].
    apply Rinv_neq_0_compat. lra.
  - unfold Rdiv. apply Rmult_le_pos; [lra|].
    apply Rlt_le, Rinv_0_lt_compat, H9.
  - unfold Rdiv. apply Rmult_le_pos; [exact Hg0|].
    apply Rlt_le, Rinv_0_lt_compat, H9.
Qed.

(** ** [prepFROG] on an image that is already sampled correctly *)

Lemma fft_axis1_shape (r c : nat) (m : mat C) :
  has_shape r c m -> (0 < r)%nat -> (0 < c)%nat ->
  fft_axis1 m =
  Ret (mk_mat r c (fun i l => dft (-1) c (fun n => mget m i n) l)).
Proof.
  intros H Hr Hc. unfold fft_axis1, nrows.
  rewrite (proj1 H), (has_shape_ncols r c m H Hr).
  destruct (Nat.eqb_spec c 0); [lia | reflexivity].
Qed.

Lemma ifft_axis1_shape (r c : nat) (m : mat C) :
  has_shape r c m -> (0 < r)%nat -> (0 < c)%nat ->
  ifft_axis1 m =
  Ret (mk_mat r c
         (fun i l => Cdivr (dft 1 c (fun n => mget m i n) l) (INR c))).
Proof.
  intros H Hr Hc. unfold ifft_axis1, nrows.
  rewrite (proj1 H), (has_shape_ncols r c m H Hr).
  destruct (Nat.eqb_spec c 0); [lia | reflexivity].
Qed.

Lemma fft2_returns (r c : nat) (m : mat C) :
  has_shape r c m -> (0 < r)%nat -> (0 < c)%nat ->
  exists f, fft2 m = Ret f /\ has_shape r c f.
Proof.
  intros H Hr Hc. unfold fft2. rewrite (fft_axis1_shape r c m H Hr Hc).
  cbn [bind]. rewrite (fft_axis0_shape r c) by (try exact Hr; apply has_shape_mk_mat).
  eexists. split; [reflexivity | apply has_shape_mk_mat].
Qed.

Lemma ifft2_returns (r c : nat) (m : mat C) :
  has_shape r c m -> (0 < r)%nat -> (0 < c)%nat ->
  exists f, ifft2 m = Ret f /\ has_shape r c f.
Proof.
  intros H Hr Hc. unfold ifft2. rewrite (ifft_axis1_shape r c m H Hr Hc).
  cbn [bind]. rewrite (ifft_axis0_shape r c) by (try exact Hr; apply has_shape_mk_mat).
  eexists. split; [reflexivity | apply has_shape_mk_mat].
Qed.

Lemma has_shape_fftshift2 {A : Type} (d : A) (r c : nat) (m : mat A) :
  has_shape r c m -> has_shape r c (fftshift2 d m).
Proof.
  intros H. apply has_shape_fftshift_axis1, has_shape_roll_axis0, H.
Qed.

Lemma has_shape_ifftshift2 {A : Type} (d : A) (r c : nat) (m : mat A) :
  has_shape r c m -> has_shape r c (ifftshift2 d m).
Proof.
  intros H. apply has_shape_ifftshift_axis1, has_shape_roll_axis0, H.
Qed.

Lemma lowpass_returns (r c : nat) (img : mat R) :
  has_shape r c img -> (0 < r)%nat -> (0 < c)%nat ->
  exists g, lowpass img = Ret g /\ has_shape r c g.
Proof.
  intros H Hr Hc. unfold lowpass, nrows.
  rewrite (proj1 H), (has_shape_ncols r c img H Hr).
  destruct (fft2_returns r c (mat_map RtoC img) (has_shape_map RtoC r c img H) Hr Hc)
    as [f [-> Hf]].
  cbn [bind].
  assert (Hm : has_shape r c (mat_map2 Cscal (tophatfilter r c) (fftshift2 0%C f))).
  { apply has_shape_mat_map2; [apply has_shape_mk_mat|].
    apply has_shape_fftshift2, Hf. }
  destruct (ifft2_returns r c _ (has_shape_ifftshift2 0%C r c _ Hm) Hr Hc)
    as [g [-> Hg]].
  cbn [bind]. eexists. split; [reflexivity | apply has_shape_map, Hg].
Qed.

Lemma has_shape_fold_plus {I : Type} (r c : nat) (f : I -> mat R) (l : list I) :
  (forall i, has_shape r c (f i)) ->
  forall acc, has_shape r c acc ->
  has_shape r c (fold_left (fun acc' i => mat_plus acc' (f i)) l acc).
Proof.
  intros Hf. induction l as [|i l IH]; intros acc Hacc; [exact Hacc|].
  simpl. apply IH. unfold mat_plus. apply has_shape_mat_map2; [exact Hacc | apply Hf].
Qed.

Lemma has_shape_imgblocks (r c : nat) (img : mat R) :
  has_shape r c img -> (0 < r)%nat -> has_shape r c (imgblocks img).
Proof.
  intros H Hr. unfold imgblocks, nrows.
  rewrite (proj1 H), (has_shape_ncols r c img H Hr).
  assert (G : forall l1 l2 acc, has_shape r c acc ->
     has_shape r c
       (fold_left (fun acc ii =>
            fold_left (fun acc' jj =>
               mat_plus acc' (roll_axis1 0 (roll_axis0 img (Z.of_nat ii + 1))
                                 (Z.of_nat jj + 1))) l2 acc) l1 acc)).
  { induction l1 as [|ii l1 IH]; intros l2 acc Hacc; [exact Hacc|].
    simpl. apply IH.
    apply (has_shape_fold_plus r c
             (fun jj => roll_axis1 0 (roll_axis0 img (Z.of_nat ii + 1))
                          (Z.of_nat jj + 1))); [|exact Hacc].
    intros jj. apply has_shape_roll_axis1, has_shape_roll_axis0, H. }
  apply G, has_shape_mk_mat.
Qed.

Lemma np_amin_returns (r c : nat) (m : mat R) :
  has_shape r c m -> (0 < r)%nat -> (0 < c)%nat -> exists x, np_amin m = Ret x.
Proof.
  intros H Hr Hc. unfold np_amin.
  pose proof (length_concat_shape r c m H) as Hl.
  destruct (concat m) as [|x l]; [simpl in Hl; nia|].
  eexists. reflexivity.
Qed.

Lemma subtract_background_returns (r c : nat) (img : mat R) :
  has_shape r c img -> (0 < r)%nat -> (0 < c)%nat ->
  exists g, subtract_background img = Ret g /\ has_shape r c g.
Proof.
  intros H Hr Hc. unfold subtract_background.
  destruct (np_amin_returns r c _ (has_shape_imgblocks r c img H Hr) Hr Hc)
    as [x ->].
  cbn [bind]. eexists. split; [reflexivity | apply has_shape_map, H].
Qed.

Lemma has_shape_orient (N : nat) (flip : Z) (img : mat R) :
  has_shape N N img -> (0 < N)%nat -> has_shape N N (orient flip img).
Proof.
  intros H HN. unfold orient.
  assert (H1 : has_shape N N (if ((flip =? 1) || (flip =? 3))%Z
                              then transpose 0 img else img)).
  { destruct ((flip =? 1) || (flip =? 3))%Z;
      [apply has_shape_transpose; assumption | exact H]. }
  destruct ((flip =? 2) || (flip =? 3))%Z;
    [apply has_shape_flipud, H1 | exact H1].
Qed.

(** The branch taken on a correctly sampled image, given the results of
    the two filters. *)
Lemma prepFROG_sampled (N : nat) (ccddt ccddv : R) (img filtered Fm' : mat R)
    (flip : Z) :
  (0 < N)%nat -> ccddt * ccddv = 1 / INR N ->
  orient flip img <> [] ->
  lowpass (orient flip img) = Ret filtered ->
  subtract_background filtered = Ret Fm' ->
  has_shape N N Fm' ->
  prepFROG N ccddt ccddv img flip = Ret {| dtperpx := Fin ccddt; Fm := Fm' |}.
Proof.
  intros HN Hs Hne E1 E2 Hm.
  unfold prepFROG. cbv zeta.
  destruct (orient flip img) as [|row rest] eqn:Eo; [contradiction|].
  cbn [bind].
  assert (HNR : INR N <> 0) by (apply not_0_INR; lia).
  destruct (Req_EM_T (INR N * (ccddt * ccddv)) 0) as [E0 | _].
  { rewrite Hs in E0. field_simplify in E0; [lra | exact HNR]. }
  cbn [bind]. rewrite E1. cbn [bind]. rewrite E2. cbn [bind].
  unfold nrows. rewrite (proj1 Hm), (has_shape_ncols N N Fm' Hm HN).
  rewrite Nat.eqb_refl. cbn [andb].
  destruct (Req_EM_T (ccddt * ccddv) (1 / INR N)) as [_ | E0]; [reflexivity|].
  contradiction.
Qed.

(** The low-pass mask of a 2 x 2 image keeps one frequency only. *)
Lemma tophatfilter_2x2 : tophatfilter 2 2 = [[1; 0]; [0; 0]].
Proof.
  unfold tophatfilter. cbn [mk_mat mk_vec seq map Nat.max Nat.add].
  change (INR 2) with (1 + 1). change (INR 1) with 1.
  replace (1 - (1 + 1) / 2) with 0 by field.
  replace (1 + 1 - (1 + 1) / 2) with 1 by field.
  rewrite Rsqr_0, Rsqr_1, !Rplus_0_l, !Rplus_0_r, sqrt_0, sqrt_1.
  assert (H2 : 1 <= sqrt (1 + 1)).
  { rewrite <- sqrt_1 at 1. apply sqrt_le_1; lra. }
  destruct (Rlt_dec 0 ((1 + 1) * (3 / 10))); [|lra].
  destruct (Rlt_dec 1 ((1 + 1) * (3 / 10))); [lra|].
  destruct (Rlt_dec (sqrt (1 + 1)) ((1 + 1) * (3 / 10))); [lra|].
  reflexivity.
Qed.

Lemma fft2_2x2_example :
  fft2 [[RtoC 0; RtoC 0]; [RtoC 1; RtoC 0]] =
  Ret [[RtoC 1; RtoC 1]; [omega 2 (-1); omega 2 (-1)]].
Proof.
  unfold fft2, fft_axis1, fft_axis0.
  cbn [map ncols nrows hd length Nat.eqb bind mk_mat mk_vec seq].
  unfold dft, bigsum. cbn [seq map Csum fold_right].
  unfold mget, nth2. cbn [nth]. eval_omega. Csimp. reflexivity.
Qed.

Lemma Cscal_1 (z : C) : Cscal 1 z = z.
Proof. destruct z. Ceq. Qed.

Lemma Cdivr_0 (x : R) : x <> 0 -> Cdivr 0%C x = 0%C.
Proof. intros Hx. Cunf. f_equal; field; exact Hx. Qed.

Lemma lowpass_2x2_example :
  lowpass [[0; 0]; [1; 0]] = Ret [[1 / 4; 1 / 4]; [1 / 4; 1 / 4]].
Proof.
  unfold lowpass. change (nrows [[0; 0]; [1; 0]]) with 2%nat.
  change (ncols [[0; 0]; [1; 0]]) with 2%nat. rewrite tophatfilter_2x2.
  change (mat_map RtoC [[0; 0]; [1; 0]])
    with [[RtoC 0; RtoC 0]; [RtoC 1; RtoC 0]].
  rewrite fft2_2x2_example. cbn [bind].
  assert (E : ifftshift2 0%C
                (mat_map2 Cscal [[1; 0]; [0; 0]]
                   (fftshift2 0%C
                      [[RtoC 1; RtoC 1]; [omega 2 (-1); omega 2 (-1)]]))
              = [[0%C; 0%C]; [0%C; omega 2 (-1)]]).
  { unfold fftshift2, fftshift_axis1, roll_axis0, np_roll.
    cbn [mk_vec seq map length nrows]. change (2 / 2)%nat with 1%nat.
    eval_wrap. cbn [nth map length mk_vec seq]. eval_wrap. cbn [nth].
    unfold mat_map2. cbn [map2]. rewrite !Cscal_0.
    unfold ifftshift2, ifftshift_axis1, roll_axis0, np_roll.
    cbn [mk_vec seq map length nrows]. change (2 / 2)%nat with 1%nat.
    eval_wrap. cbn [nth map length mk_vec seq]. eval_wrap. cbn [nth].
    rewrite Cscal_1.
    reflexivity. }
  rewrite E. clear E.
  unfold ifft2, ifft_axis1, ifft_axis0.
  cbn [map ncols nrows hd length Nat.eqb bind mk_mat mk_vec seq].
  unfold dft, bigsum. cbn [seq map Csum fold_right].
  unfold mget, nth2. cbn [nth]. eval_omega. Csimp.
  assert (H2 : 0 < INR 2) by (apply lt_0_INR; lia).
  rewrite Cdivr_0 by lra. Csimp.
  unfold mat_map. cbn [map].
  rewrite !Cmod_divr, !Cmod_mult, !Cmod_divr, ?Cmod_mult, !Cmod_omega by exact H2.
  change (INR 2) with (1 + 1).
  replace (1 / (1 + 1) / (1 + 1)) with (1 / 4) by field.
  replace (1 * 1 / (1 + 1) / (1 + 1)) with (1 / 4) by field.
  replace (1 / (1 + 1) * 1 / (1 + 1)) with (1 / 4) by field.
  replace (1 * 1 / (1 + 1) * 1 / (1 + 1)) with (1 / 4) by field.
  reflexivity.
Qed.

Lemma roll_const_2x2 (x : R) (s t : Z) :
  roll_axis1 0 (roll_axis0 [[x; x]; [x; x]] s) t = [[x; x]; [x; x]].
Proof.
  assert (Hv : forall (A : Type) (d a : A) (z : Z), nth (wrap 2 z) [a; a] d = a).
  { intros A d a z. pose proof (wrap_lt 2 z ltac:(lia)) as Hw.
    destruct (wrap 2 z) as [|[|k]]; [reflexivity | reflexivity | lia]. }
  unfold roll_axis1, roll_axis0, np_roll.
  cbn [length mk_vec seq map]. rewrite !Hv.
  cbn [map length mk_vec seq]. rewrite !Hv. reflexivity.
Qed.

Lemma imgblocks_const_2x2 (x : R) :
  imgblocks [[x; x]; [x; x]] = [[64 * x; 64 * x]; [64 * x; 64 * x]].
Proof.
  unfold imgblocks. cbn [seq fold_left]. rewrite !roll_const_2x2.
  cbn [nrows ncols hd length mk_mat mk_vec seq map].
  unfold mat_plus, mat_map2. cbn [map2].
  match goal with
  | |- [[?a; _]; _] = _ => replace a with (64 * x) by ring
  end.
  reflexivity.
Qed.

Lemma subtract_background_2x2_example :
  subtract_background [[1 / 4; 1 / 4]; [1 / 4; 1 / 4]] = Ret [[0; 0]; [0; 0]].
Proof.
  unfold subtract_background. rewrite imgblocks_const_2x2.
  unfold np_amin. cbn [concat app fold_left].
  rewrite !(Rmin_left (64 * (1 / 4)) (64 * (1 / 4))) by apply Rle_refl.
  cbn [bind]. unfold mat_map. cbn [map].
  replace (1 / 4 - 64 * (1 / 4) / (8 * 8)) with 0 by field.
  destruct (Rlt_dec 0 0); [lra | reflexivity].
Qed.

(** C4 (amended).  For an image that already has shape N x N (N =
    prep_size, N >= 1) and calibration scalars with ccddt * ccddv = 1/N
    exactly, [prepFROG] returns; it skips the rebinning only: what it
    stores in Fm is the image after the orientation chosen by [flip], the
    low-pass Fourier filter and the background subtraction, and the
    effective time-step it stores is the input delay-step. *)
Theorem prepFROG_shortcut (N : nat) (ccddt ccddv : R) (img : mat R) (flip : Z) :
  has_shape N N img -> (0 < N)%nat -> ccddt * ccddv = 1 / INR N ->
  exists filtered Fm',
    lowpass (orient flip img) = Ret filtered /\
    subtract_background filtered = Ret Fm' /\
    has_shape N N Fm' /\
    prepFROG N ccddt ccddv img flip = Ret {| dtperpx := Fin ccddt; Fm := Fm' |}.
Proof.
  intros H HN Hs.
  pose proof (has_shape_orient N flip img H HN) as Ho.
  destruct (lowpass_returns N N _ Ho HN HN) as [filtered [E1 Hf]].
  destruct (subtract_background_returns N N _ Hf HN HN) as [Fm' [E2 Hm]].
  exists filtered, Fm'. repeat split; try assumption; try apply Hm.
  apply (prepFROG_sampled N ccddt ccddv img filtered Fm' flip); try assumption.
  intros E. rewrite E in Ho. destruct Ho as [Hl _]. simpl in Hl. lia.
Qed.

(** Witness for C4: the 2 x 2 image with one bright pixel, delay step 1/2
    and frequency step 1. *)
Lemma prepFROG_shortcut_witness :
  exists filtered Fm',
    lowpass (orient 2 [[1; 0]; [0; 0]]) = Ret filtered /\
    subtract_background filtered = Ret Fm' /\
    has_shape 2 2 Fm' /\
    prepFROG 2 (1 / 2) 1 [[1; 0]; [0; 0]] 2
    = Ret {| dtperpx := Fin (1 / 2); Fm := Fm' |}.
Proof.
  apply (prepFROG_shortcut 2 (1 / 2) 1 [[1; 0]; [0; 0]] 2).
  - apply has_shape_2x2.
  - lia.
  - simpl. field.
Defined.

(** C4 (counterexample).  The 2 x 2 image [[1, 0], [0, 0]] with delay step
    1/2 and frequency step 1 meets both conditions of the shortcut, and with
    the default orientation [flip = 2] the method stores the all-zero image:
    the low-pass filter leaves the constant image 1/4, which the background
    subtraction removes. *)
Lemma prepFROG_filters_sampled_image :
  has_shape 2 2 [[1; 0]; [0; 0]] /\
  1 / 2 * 1 = 1 / INR 2 /\
  prepFROG 2 (1 / 2) 1 [[1; 0]; [0; 0]] 2
  = Ret {| dtperpx := Fin (1 / 2); Fm := [[0; 0]; [0; 0]] |} /\
  [[0; 0]; [0; 0]] <> [[1; 0]; [0; 0]].
Proof.
  split; [apply has_shape_2x2|].
  split; [simpl; field|].
  split.
  - apply (prepFROG_sampled 2 (1 / 2) 1 [[1; 0]; [0; 0]]
             [[1 / 4; 1 / 4]; [1 / 4; 1 / 4]] [[0; 0]; [0; 0]] 2).
    + lia.
    + simpl. field.
    + discriminate.
    + change (orient 2 [[1; 0]; [0; 0]]) with [[0; 0]; [1; 0]].
      apply lowpass_2x2_example.
    + apply subtract_background_2x2_example.
    + apply has_shape_2x2.
  - intros E. injection E as E. lra.
Qed.

(** ** The field kept by the GP loop *)

Lemma Rsum_perm (l l' : list R) : Permutation l l' -> Rsum l = Rsum l'.
Proof.
  induction 1 as [| x l l' _ IH | x y l | l l' l'' _ IH1 _ IH2]; simpl.
  - reflexivity.
  - rewrite IH. reflexivity.
  - ring.
  - rewrite IH1. exact IH2.
Qed.

(** A cyclic shift permutes the samples. *)
Lemma np_roll_perm {A : Type} (d : A) (v : list A) (s : Z) :
  Permutation (np_roll d v s) v.
Proof.
  destruct v as [|a v']; [apply perm_nil|].
  set (v := a :: v'). unfold np_roll, mk_vec.
  rewrite <- (map_map (fun i => wrap (length v) (Z.of_nat i - s))
                      (fun k => nth k v d)).
  apply (Permutation_trans (l' := map (fun k => nth k v d) (seq 0 (length v)))).
  - apply Permutation_map, shift_permutation. simpl. lia.
  - fold (mk_vec (length v) (fun k => nth k v d)). rewrite mk_vec_nth.
    apply Permutation_refl.
Qed.

Lemma np_norm_roll (P : vec) (s : Z) : np_norm (np_roll 0%C P s) = np_norm P.
Proof.
  unfold np_norm. f_equal. apply Rsum_perm, Permutation_map, np_roll_perm.
Qed.

(** After a pass through the loop body that completes, the field held by
    the solver has unit Euclidean norm. *)
Lemma gp_step_unit_norm (svd_U0 : mat C -> res vec) (cfg : config) (N : nat)
    (Fm : mat npfloat) (st st' : gp_state) :
  gp_step svd_U0 cfg N Fm st = Ret st' -> np_norm (Pt st') = 1.
Proof.
  unfold gp_step. intros H.
  apply bind_ret_inv in H. destruct H as [p [Hp H]].
  unfold unpack in Hp. apply bind_ret_inv in Hp. destruct Hp as [o [Hg Ho]].
  destruct o as [p'|]; [|discriminate]. injection Ho as ->.
  destruct (amplitude_update Fm st) as [EF'|]; [|discriminate].
  destruct p as [P | n]; [|discriminate].
  apply bind_ret_inv in H. destruct H as [P' [HP' H]].
  apply bind_ret_inv in H. destruct H as [[F EF] [_ H]].
  injection H as <-. cbn [Pt].
  unfold recentre in HP'. apply bind_ret_inv in HP'.
  destruct HP' as [s [_ HP']]. injection HP' as <-.
  rewrite np_norm_roll.
  apply guessPulse_normalized in Hg. destruct Hg as [Q HQ].
  symmetry in HQ. apply normalize_Field in HQ. apply HQ.
Qed.

Lemma omega_2_1 : omega 2 1 = RtoC (-1).
Proof.
  unfold omega, cis, RtoC. change (INR 2) with (1 + 1).
  replace (2 * PI * 1 / (1 + 1)) with PI by field.
  rewrite cos_PI, sin_PI. reflexivity.
Qed.

Lemma guessPulse_2x2_example (svd_U0 : mat C -> res vec) (a b : R) :
  guessPulse svd_U0 [[RtoC a; RtoC 0]; [RtoC b; RtoC 0]] [RtoC 1; RtoC 0] 0 0 0
  = Ret (Some (normalize [RtoC ((a + b) / 2 * ((a + b) / 2)); RtoC 0])).
Proof.
  unfold guessPulse. cbn [bind length].
  change ((0 =? 0)%Z) with true. cbv iota.
  rewrite py_int_ceil_half_m1.
  change (ceil_half 2) with 1%Z.
  change (roll_axis0 [[RtoC a; RtoC 0]; [RtoC b; RtoC 0]] (- (1 - 1)))
    with [[RtoC a; RtoC 0]; [RtoC b; RtoC 0]].
  unfold ifft_axis0. cbn [nrows ncols length hd Nat.eqb bind mk_mat mk_vec seq map].
  unfold dft, bigsum. cbn [seq map Csum fold_right mget nth2 nth].
  eval_omega. Csimp. rewrite omega_2_1.
  replace (Cdivr (RtoC a + RtoC b) (INR 2)) with (RtoC ((a + b) / 2))
    by (simpl INR; Cunf; f_equal; field).
  replace (Cdivr (RtoC 0) (INR 2)) with (RtoC 0)
    by (simpl INR; Cunf; f_equal; field).
  replace (Cdivr (RtoC a + RtoC b * RtoC (-1)) (INR 2)) with (RtoC ((a - b) / 2))
    by (simpl INR; Cunf; f_equal; field).
  unfold fliplr, ifftshift_axis1, np_roll. cbn [map rev app length mk_vec seq].
  change (2 / 2)%nat with 1%nat. eval_wrap. cbn [nth].
  unfold rotate_rows. cbn [nrows length Nat.ltb Nat.leb bind mk_vec seq map nth].
  unfold np_roll. cbn [length mk_vec seq map]. eval_wrap. cbn [nth].
  unfold ctranspose, transpose, mat_map.
  cbn [nrows ncols hd length mk_mat mk_vec seq map nth2 nth].
  unfold matvec. cbn [ncols hd length Nat.eqb bind map dot map2 Csum fold_right].
  do 3 f_equal. f_equal; [|f_equal]; Cunf; f_equal; field.
Qed.

Lemma normalize_real_first (c : R) :
  0 < c -> normalize [RtoC c; RtoC 0] = Field [RtoC 1; RtoC 0].
Proof.
  intros Hc.
  assert (E : np_norm [RtoC c; RtoC 0] = c).
  { unfold np_norm. cbn [map Rsum fold_right]. unfold Cnorm2, RtoC.
    cbn [fst snd].
    replace (c * c + 0 * 0 + (0 * 0 + 0 * 0 + 0)) with (c * c) by ring.
    apply sqrt_square. lra. }
  unfold normalize. rewrite E.
  destruct (Req_EM_T c 0) as [E0 | _]; [lra|].
  cbn [map]. f_equal. f_equal; [|f_equal]; Cunf; f_equal; field; lra.
Qed.

Lemma Zfloor_0 : Zfloor 0 = 0%Z.
Proof. apply Zfloor_eq. simpl. lra. Qed.

Lemma recentre_example :
  recentre 2 [RtoC 1; RtoC 0] = Ret [RtoC 1; RtoC 0].
Proof.
  unfold recentre, centerindex.
  cbn [length seq map vget nth Rsum fold_right Nat.add].
  replace (Cpow4 (RtoC 1)) with (RtoC 1) by (unfold Cpow4; Ceq).
  replace (Cpow4 (RtoC 0)) with (RtoC 0) by (unfold Cpow4; Ceq).
  rewrite Cmod_1, Cmod_0. unfold half. change (INR 2) with (1 + 1).
  change (INR 1) with 1.
  rewrite np_div_fin by lra. cbn [np_sub np_neg np_add py_int_round bind].
  replace ((1 * 1 + ((1 + 1) * 0 + 0)) / (1 + (0 + 0)) + - ((1 + 1) / 2))
    with 0 by field.
  unfold round_half_even. rewrite Zfloor_0.
  destruct (Rlt_dec (0 - 0) (1 / 2)) as [_ | H]; [|exfalso; apply H; lra].
  reflexivity.
Qed.

Lemma amplitude_update_example (st : gp_state) :
  EFr st = [[RtoC 1; RtoC 0]; [RtoC 1; RtoC 0]] ->
  Fr st = lift [[3 / 4; 0]; [3 / 4; 0]] ->
  amplitude_update (lift [[1; 0]; [1 / 2; 0]]) st
  = Some [[RtoC (sqrt (4 / 3)); RtoC 0]; [RtoC (sqrt (2 / 3)); RtoC 0]].
Proof.
  intros HE HF. unfold amplitude_update. rewrite HE, HF.
  unfold safe_ratio, lift, mat_map, mat_map2. cbn [map map2].
  unfold np_nonzero.
  destruct (Req_EM_T (3 / 4) 0) as [E | _]; [lra|].
  destruct (Req_EM_T 0 0) as [_ | E]; [|contradiction].
  rewrite !np_div_fin by lra. unfold np_sqrt.
  destruct (Rlt_dec (1 / (3 / 4)) 0) as [H | _];
    [exfalso; revert H; apply Rle_not_lt; lra|].
  destruct (Rlt_dec (1 / 2 / (3 / 4)) 0) as [H | _];
    [exfalso; revert H; apply Rle_not_lt; lra|].
  destruct (Rlt_dec 0 0) as [H | _]; [lra|].
  cbn [all_fin all_fin_list is_fin]. unfold rescale, mat_map2. cbn [map2].
  replace (1 / (3 / 4)) with (4 / 3) by field.
  replace (1 / 2 / (3 / 4)) with (2 / 3) by field.
  f_equal. f_equal; [|f_equal]; (f_equal; [|f_equal]); Cunf; f_equal; ring.
Qed.

Lemma rms_diff_example :
  rms_diff (lift [[1; 0]; [1 / 2; 0]]) (lift [[3 / 4; 0]; [3 / 4; 0]])
  = Fin (sqrt (1 / 32)).
Proof.
  rewrite (rms_diff_finite 2 2); [| apply has_shape_2x2 .. | lia | lia].
  unfold total. cbn [mat_map2 map2 concat app Rsum fold_right].
  do 2 f_equal. simpl INR. field.
Qed.

(** A pass through the loop for the trace [[1, 0], [1/2, 0]] seeded with
    [(1, 0)]: the estimate is the seed again, so that only the counter
    changes. *)
Lemma gp_step_example (svd_U0 : mat C -> res vec) (k : nat) :
  let cfg := default_config (Some [RtoC 1; RtoC 0]) in
  let Fm := lift [[1; 0]; [1 / 2; 0]] in
  let st := {| iteration := k; Pt := [RtoC 1; RtoC 0];
               EFr := [[RtoC 1; RtoC 0]; [RtoC 1; RtoC 0]];
               Fr := lift [[3 / 4; 0]; [3 / 4; 0]];
               G := Fin (sqrt (1 / 32)) |} in
  gp_step svd_U0 cfg 2 Fm st =
  Ret {| iteration := S k; Pt := [RtoC 1; RtoC 0];
         EFr := [[RtoC 1; RtoC 0]; [RtoC 1; RtoC 0]];
         Fr := lift [[3 / 4; 0]; [3 / 4; 0]];
         G := Fin (sqrt (1 / 32)) |}.
Proof.
  intros cfg Fm st. unfold gp_step. cbv zeta.
  unfold Fm at 1 2. rewrite (amplitude_update_example st) by reflexivity.
  cbn [Pt st method2 method3 cfg default_config].
  rewrite guessPulse_2x2_example.
  assert (Hs : 0 < (sqrt (4 / 3) + sqrt (2 / 3)) / 2
                   * ((sqrt (4 / 3) + sqrt (2 / 3)) / 2)).
  { assert (0 < sqrt (4 / 3)) by (apply sqrt_lt_R0; lra).
    assert (0 < sqrt (2 / 3)) by (apply sqrt_lt_R0; lra).
    apply Rmult_lt_0_compat; lra. }
  rewrite (normalize_real_first _ Hs).
  unfold unpack at 1. cbn [bind].
  rewrite recentre_example. cbn [bind].
  change (method0 cfg) with 0%Z. change (method1 cfg) with 0%Z.
  unfold unpack. rewrite makeFROG_example. cbn [bind].
  unfold Fm. rewrite scale_trace_example, rms_diff_example. reflexivity.
Qed.

(** On that trace the error never improves, and the loop runs until the
    iteration cap. *)
Lemma gp_loop_example (svd_U0 : mat C -> res vec) (left k : nat) :
  gp_loop svd_U0 (default_config (Some [RtoC 1; RtoC 0])) left 2
    (lift [[1; 0]; [1 / 2; 0]])
    {| iteration := k; Pt := [RtoC 1; RtoC 0];
       EFr := [[RtoC 1; RtoC 0]; [RtoC 1; RtoC 0]];
       Fr := lift [[3 / 4; 0]; [3 / 4; 0]];
       G := Fin (sqrt (1 / 32)) |}
  = Ret {| iteration := (left + k)%nat; Pt := [RtoC 1; RtoC 0];
           EFr := [[RtoC 1; RtoC 0]; [RtoC 1; RtoC 0]];
           Fr := lift [[3 / 4; 0]; [3 / 4; 0]];
           G := Fin (sqrt (1 / 32)) |}.
Proof.
  revert k. induction left as [|left IH]; intros k; [reflexivity|].
  cbn [gp_loop G GTol default_config np_gtb].
  destruct (Rlt_dec (1 / 1000) (sqrt (1 / 32))) as [_ | H];
    [|exfalso; apply H, sqrt_1_32_above_tol].
  pose proof (gp_step_example svd_U0 k) as E. cbv zeta in E. rewrite E.
  cbn [bind]. rewrite IH. do 2 f_equal. lia.
Qed.

Lemma retrievePhase_example (svd_U0 : mat C -> res vec) :
  retrievePhase svd_U0 (default_config (Some [RtoC 1; RtoC 0]))
    [[1; 0]; [1 / 2; 0]]
  = Ret {| iteration := 200; Pt := [RtoC 1; RtoC 0];
           EFr := [[RtoC 1; RtoC 0]; [RtoC 1; RtoC 0]];
           Fr := lift [[3 / 4; 0]; [3 / 4; 0]];
           G := Fin (sqrt (1 / 32)) |}.
Proof.
  unfold retrievePhase. rewrite gp_init_example by reflexivity.
  cbn [bind max_iter default_config ncols hd length].
  rewrite gp_loop_example. reflexivity.
Qed.

(** C9 (amended).  Every finite field returned by [guessPulse], in both
    domains and with both methods, has Euclidean norm exactly 1; when the
    estimate before normalisation is the zero vector the division is 0/0 and
    the returned field is NaN throughout (see [guessPulse_zero_matrix]), on
    which the recentring of the loop raises.  Hence the field held by the GP
    solver has unit Euclidean norm after every pass through the loop body
    that completes: the recentring is a cyclic shift, which keeps the
    norm. *)
Theorem guessPulse_unit_norm (svd_U0 : mat C -> res vec) :
  (forall (EF : mat C) (lastPt : vec) (domain antialias PowerOrSVD : Z)
          (v : vec),
      guessPulse svd_U0 EF lastPt domain antialias PowerOrSVD
        = Ret (Some (Field v)) ->
      field_norm (Field v) = Fin 1) /\
  (forall (cfg : config) (N : nat) (Fm : mat npfloat) (st st' : gp_state),
      gp_step svd_U0 cfg N Fm st = Ret st' -> np_norm (Pt st') = 1).
Proof.
  split.
  - intros EF lastPt domain antialias PowerOrSVD v H.
    exact (guessPulse_Field_unit_norm svd_U0 EF lastPt domain antialias
             PowerOrSVD v H).
  - intros cfg N Fm st st' H.
    exact (gp_step_unit_norm svd_U0 cfg N Fm st st' H).
Qed.

(** Witness for C9: the estimate from the corrected amplitudes of the first
    pass on the trace [[1, 0], [1/2, 0]], and that pass itself. *)
Lemma guessPulse_unit_norm_witness :
  let svd_U0 := fun _ : mat C => @Raise vec LinAlgError in
  let EF := [[RtoC (sqrt (4 / 3)); RtoC 0]; [RtoC (sqrt (2 / 3)); RtoC 0]] in
  let st := {| iteration := 0; Pt := [RtoC 1; RtoC 0];
               EFr := [[RtoC 1; RtoC 0]; [RtoC 1; RtoC 0]];
               Fr := lift [[3 / 4; 0]; [3 / 4; 0]];
               G := Fin (sqrt (1 / 32)) |} in
  exists (v : vec) (st' : gp_state),
    guessPulse svd_U0 EF [RtoC 1; RtoC 0] 0 0 0 = Ret (Some (Field v)) /\
    field_norm (Field v) = Fin 1 /\
    gp_step svd_U0 (default_config (Some [RtoC 1; RtoC 0])) 2
      (lift [[1; 0]; [1 / 2; 0]]) st = Ret st' /\
    np_norm (Pt st') = 1.
Proof.
  intros svd_U0 EF st.
  assert (Hs : 0 < (sqrt (4 / 3) + sqrt (2 / 3)) / 2
                   * ((sqrt (4 / 3) + sqrt (2 / 3)) / 2)).
  { assert (0 < sqrt (4 / 3)) by (apply sqrt_lt_R0; lra).
    assert (0 < sqrt (2 / 3)) by (apply sqrt_lt_R0; lra).
    apply Rmult_lt_0_compat; lra. }
  assert (E1 : guessPulse svd_U0 EF [RtoC 1; RtoC 0] 0 0 0
               = Ret (Some (Field [RtoC 1; RtoC 0]))).
  { unfold EF. rewrite guessPulse_2x2_example.
    rewrite (normalize_real_first _ Hs). reflexivity. }
  pose proof (gp_step_example svd_U0 0) as E2. cbv zeta in E2. fold st in E2.
  eexists. eexists.
  split; [exact E1|]. split; [|split; [exact E2|]].
  - exact (proj1 (guessPulse_unit_norm svd_U0) _ _ _ _ _ _ E1).
  - exact (proj2 (guessPulse_unit_norm svd_U0) _ _ _ _ _ E2).
Defined.

(** ** [parity] *)

Lemma Zfloor_bounds (x : R) : IZR (Zfloor x) <= x < IZR (Zfloor x) + 1.
Proof.
  unfold Zfloor. rewrite minus_IZR. destruct (archimed x) as [H1 H2].
  simpl. lra.
Qed.

Lemma Zfloor_half_Z (n : Z) : Zfloor (IZR n / 2) = (n / 2)%Z.
Proof.
  apply Zfloor_eq.
  pose proof (Z.div_mod n 2 ltac:(lia)) as E.
  pose proof (Z.mod_pos_bound n 2 ltac:(lia)) as B.
  assert (En : IZR n = 2 * IZR (n / 2) + IZR (n mod 2)).
  { rewrite E at 1. rewrite plus_IZR, mult_IZR. reflexivity. }
  assert (B1 : 0 <= IZR (n mod 2)) by (apply IZR_le; lia).
  assert (B2 : IZR (n mod 2) <= 1) by (apply IZR_le; lia).
  lra.
Qed.

(** [parity(x)] is 0 or 1 for every number, and for an integer (given as an
    [int] or as a float) it is [1 for odd, 0 for even], negative integers
    included. *)
Theorem parity_spec (x : pynum) :
  (parity x = 0 \/ parity x = 1)%Z /\
  forall n : Z, py_val x = IZR n -> parity x = (n mod 2)%Z.
Proof.
  unfold parity. cbn [py_int np_floor py_val].
  set (v := py_val x). set (d := v - 2 * IZR (Zfloor (v / 2))).
  pose proof (Zfloor_bounds (v / 2)) as B.
  assert (Hd : 0 <= d < 2) by (unfold d; lra).
  assert (Ht : Ztrunc d = Zfloor d).
  { unfold Ztrunc. destruct (Rlt_dec d 0); [lra | reflexivity]. }
  rewrite Ht. split.
  - pose proof (Zfloor_bounds d) as Bd.
    assert (H1 : (-1 < Zfloor d)%Z) by (apply lt_IZR; simpl; lra).
    assert (H2 : (Zfloor d < 2)%Z) by (apply lt_IZR; simpl; lra).
    lia.
  - intros n Hn. unfold d. rewrite Hn, Zfloor_half_Z.
    rewrite <- mult_IZR, <- minus_IZR.
    replace (n - 2 * (n / 2))%Z with (n mod 2)%Z
      by (pose proof (Z.div_mod n 2 ltac:(lia)); lia).
    apply Zfloor_eq. lra.
Qed.

(** ** [make_axis] *)

Lemma Zceil_IZR (n : Z) : Zceil (IZR n) = n.
Proof.
  unfold Zceil. rewrite <- opp_IZR.
  replace (Zfloor (IZR (- n))) with (- n)%Z; [lia|].
  symmetry. apply Zfloor_eq. lra.
Qed.

(** For a step that is not zero, [make_axis(length, step)] has exactly
    [length] points (none for a negative length), spaced by [step] from
    [-length/2 * step]; the points [i] and [length - i] are opposite, so the
    axis is centred on zero, and the end value [length/2 * step] is not on
    it. *)
Theorem make_axis_spec (len : Z) (step : R) :
  step <> 0 ->
  exists axis,
    make_axis len step = Some axis /\
    length axis = Z.to_nat len /\
    (forall i, (i < Z.to_nat len)%nat ->
       nth i axis 0 = (INR i - IZR len / 2) * step) /\
    (forall i, (0 < i < Z.to_nat len)%nat ->
       nth (Z.to_nat len - i) axis 0 = - nth i axis 0) /\
    ~ In (IZR len / 2 * step) axis.
Proof.
  intros Hs. unfold make_axis, np_arange.
  destruct (Req_EM_T step 0) as [E | _]; [contradiction|].
  replace ((IZR len / 2 * step - IZR (- len) / 2 * step) / step)
    with (IZR len) by (rewrite opp_IZR; field; exact Hs).
  rewrite Zceil_IZR.
  set (n := Z.to_nat len).
  assert (Hent : forall i, (i < n)%nat ->
            nth i (mk_vec n (fun i => IZR (- len) / 2 * step + INR i * step)) 0
            = (INR i - IZR len / 2) * step).
  { intros i Hi. rewrite nth_mk_vec by exact Hi. rewrite opp_IZR. field. }
  eexists. split; [reflexivity|]. split; [apply length_mk_vec|].
  split; [exact Hent|]. split.
  - intros i Hi. rewrite !Hent by lia.
    assert (Hl : (0 < len)%Z) by lia.
    rewrite minus_INR by lia. unfold n. rewrite INR_IZR_INZ, Z2Nat.id by lia.
    field.
  - intros Hin. apply In_nth with (d := 0) in Hin.
    destruct Hin as [i [Hi E]]. rewrite length_mk_vec in Hi.
    rewrite Hent in E by exact Hi.
    assert (Hl : (0 < len)%Z) by lia.
    assert (Hi' : INR i < IZR len).
    { rewrite INR_IZR_INZ. apply IZR_lt. lia. }
    assert (E' : (INR i - IZR len) * step = 0) by lra.
    apply Rmult_integral in E'. destruct E' as [E' | E']; lra.
Qed.

Lemma make_axis_spec_witness :
  exists axis,
    make_axis 4 (1 / 2) = Some axis /\
    length axis = Z.to_nat 4 /\
    (forall i, (i < Z.to_nat 4)%nat ->
       nth i axis 0 = (INR i - IZR 4 / 2) * (1 / 2)) /\
    (forall i, (0 < i < Z.to_nat 4)%nat ->
       nth (Z.to_nat 4 - i) axis 0 = - nth i axis 0) /\
    ~ In (IZR 4 / 2 * (1 / 2)) axis.
Proof.
  apply (make_axis_spec 4 (1 / 2)). lra.
Defined.

(** ** [shift_signal] *)

Lemma fft_ifft_vec (w : vec) :
  (0 < length w)%nat ->
  exists v, np_ifft w = Ret v /\ length v = length w /\ np_fft v = Ret w.
Proof.
  intros HN. rewrite (np_ifft_shape w HN). eexists. split; [reflexivity|].
  split; [apply length_mk_vec|].
  rewrite np_fft_shape by (rewrite length_mk_vec; exact HN).
  rewrite length_mk_vec. f_equal.
  etransitivity; [| apply (mk_vec_nth 0%C w)]. apply mk_vec_ext. intros k Hk.
  rewrite (dft_ext (-1) _ _
             (fun n => Cdivr (dft 1 (length w) (vget w) n) (INR (length w)))).
  - rewrite dft_scal.
    rewrite (dft_inverse 1 _ _ k) by (try exact Hk; left; reflexivity).
    apply Cdivr_mult_INR, HN.
  - intros n Hn. unfold vget at 1. rewrite nth_mk_vec by exact Hn. reflexivity.
Qed.

Lemma broadcast2_same {A B D : Type} (f : A -> B -> D) (a : list A)
    (b : list B) :
  length a = length b -> broadcast2 f a b = Ret (map2 f a b).
Proof. intros H. unfold broadcast2. rewrite H, Nat.eqb_refl. reflexivity. Qed.

Lemma length_phase_ramp (s : R) (X : vec) (F : list R) :
  length F = length X -> length (phase_ramp s X F) = length X.
Proof.
  intros H. unfold phase_ramp. rewrite length_map2, H. apply Nat.min_id.
Qed.

Lemma shift_signal_closed (sig : vec) (s : R) (F : list R) (X : vec) :
  length F = length sig -> np_fft sig = Ret X ->
  shift_signal sig s F = np_ifft (phase_ramp s X F).
Proof.
  intros HF HX. unfold shift_signal. rewrite HX. cbn [bind].
  assert (HN : (0 < length sig)%nat).
  { destruct sig; [discriminate HX | simpl; lia]. }
  rewrite (np_fft_shape sig HN) in HX. injection HX as <-.
  rewrite broadcast2_same by (rewrite length_mk_vec; symmetry; exact HF).
  reflexivity.
Qed.

Lemma phase_ramp_0 (X : vec) (F : list R) :
  length F = length X -> phase_ramp 0 X F = X.
Proof.
  revert F. induction X as [|z X IH]; intros [|f F] H; try discriminate H;
    [reflexivity|].
  unfold phase_ramp in *. cbn [map2]. rewrite IH by (simpl in H; lia).
  f_equal. replace (2 * PI * 0 * f) with 0 by ring. rewrite cis_0.
  apply Cmult_1_r.
Qed.

Lemma phase_ramp_add (a b : R) (X : vec) (F : list R) :
  phase_ramp b (phase_ramp a X F) F = phase_ramp (a + b) X F.
Proof.
  revert F. induction X as [|z X IH]; intros [|f F]; try reflexivity.
  unfold phase_ramp in *. cbn [map2]. rewrite IH. f_equal.
  replace (2 * PI * (a + b) * f) with (2 * PI * a * f + 2 * PI * b * f) by ring.
  rewrite cis_plus. apply eq_sym, Cmult_assoc.
Qed.

Lemma norm2_cons (z : C) (a : vec) : norm2 (z :: a) = Cnorm2 z + norm2 a.
Proof. reflexivity. Qed.

Lemma norm2_phase_ramp (s : R) (X : vec) (F : list R) :
  length F = length X -> norm2 (phase_ramp s X F) = norm2 X.
Proof.
  revert F. induction X as [|z X IH]; intros [|f F] H; try discriminate H;
    [reflexivity|].
  change (phase_ramp s (z :: X) (f :: F))
    with ((z * cis (2 * PI * s * f))%C :: phase_ramp s X F).
  rewrite !norm2_cons, IH by (simpl in H; lia).
  rewrite Cnorm2_mult, Cnorm2_cis. ring.
Qed.

Lemma norm2_fft (a A : vec) :
  np_fft a = Ret A -> norm2 A = INR (length a) * norm2 a.
Proof.
  intros H. pose proof (parseval a a A A eq_refl H H) as P.
  rewrite !inner_self in P. unfold RtoC, Cmult in P. cbn [fst snd] in P.
  injection P as P _. rewrite P. ring.
Qed.

(** The shifted signal, its length and its spectrum. *)
Lemma shift_signal_returns (sig : vec) (s : R) (F : list R) :
  (0 < length sig)%nat -> length F = length sig ->
  exists X out,
    np_fft sig = Ret X /\ length X = length sig /\
    shift_signal sig s F = Ret out /\ length out = length sig /\
    np_fft out = Ret (phase_ramp s X F).
Proof.
  intros HN HF.
  destruct (ifft_fft_vec sig HN) as [X [HX [HlX _]]].
  assert (HlY : length (phase_ramp s X F) = length sig).
  { rewrite length_phase_ramp; [exact HlX | congruence]. }
  destruct (fft_ifft_vec (phase_ramp s X F)) as [out [Ho [Hlo Hfo]]];
    [rewrite HlY; exact HN|].
  exists X, out. split; [exact HX|]. split; [exact HlX|].
  rewrite (shift_signal_closed sig s F X HF HX).
  split; [exact Ho|]. split; [congruence | exact Hfo].
Qed.

(** A shift by zero returns the signal; a shift by [a] followed by a shift
    by [b] is the shift by [a + b]; so the shift by [-a] undoes the shift by
    [a]. *)
Theorem shift_signal_compose (sig : vec) (a b : R) (F : list R) :
  (0 < length sig)%nat -> length F = length sig ->
  shift_signal sig 0 F = Ret sig /\
  exists s1,
    shift_signal sig a F = Ret s1 /\ length s1 = length sig /\
    shift_signal s1 b F = shift_signal sig (a + b) F /\
    shift_signal s1 (- a) F = Ret sig.
Proof.
  intros HN HF.
  destruct (ifft_fft_vec sig HN) as [X [HX [HlX HiX]]].
  assert (H0 : shift_signal sig 0 F = Ret sig).
  { rewrite (shift_signal_closed sig 0 F X HF HX).
    rewrite phase_ramp_0 by congruence. exact HiX. }
  split; [exact H0|].
  destruct (shift_signal_returns sig a F HN HF)
    as [X' [s1 [HX' [_ [Hs1 [Hl1 Hf1]]]]]].
  rewrite HX in HX'. injection HX' as <-.
  exists s1. split; [exact Hs1|]. split; [exact Hl1|].
  assert (Hc : forall c, shift_signal s1 c F = shift_signal sig (a + c) F).
  { intros c.
    rewrite (shift_signal_closed s1 c F _ (eq_trans HF (eq_sym Hl1)) Hf1).
    rewrite (shift_signal_closed sig (a + c) F X HF HX).
    rewrite phase_ramp_add. reflexivity. }
  split; [apply Hc|].
  rewrite Hc. replace (a + - a) with 0 by ring. exact H0.
Qed.

Lemma shift_signal_compose_witness :
  shift_signal [RtoC 1; RtoC 2] 0 [0; 1 / 2] = Ret [RtoC 1; RtoC 2] /\
  exists s1,
    shift_signal [RtoC 1; RtoC 2] 1 [0; 1 / 2] = Ret s1 /\
    length s1 = length [RtoC 1; RtoC 2] /\
    shift_signal s1 3 [0; 1 / 2] = shift_signal [RtoC 1; RtoC 2] (1 + 3) [0; 1 / 2] /\
    shift_signal s1 (- 1) [0; 1 / 2] = Ret [RtoC 1; RtoC 2].
Proof.
  apply (shift_signal_compose [RtoC 1; RtoC 2] 1 3 [0; 1 / 2]).
  - simpl. lia.
  - reflexivity.
Defined.

(** The shift keeps the Euclidean norm of the signal (its energy), whatever
    the shift and the real frequency axis. *)
Theorem shift_signal_norm (sig : vec) (s : R) (F : list R) :
  (0 < length sig)%nat -> length F = length sig ->
  exists out, shift_signal sig s F = Ret out /\ np_norm out = np_norm sig.
Proof.
  intros HN HF.
  destruct (shift_signal_returns sig s F HN HF)
    as [X [out [HX [HlX [Ho [Hlo Hfo]]]]]].
  exists out. split; [exact Ho|].
  pose proof (norm2_fft sig X HX) as E1.
  pose proof (norm2_fft out _ Hfo) as E2.
  rewrite norm2_phase_ramp in E2 by congruence. rewrite Hlo in E2.
  assert (HNR : 0 < INR (length sig)) by (apply lt_0_INR; exact HN).
  assert (E : norm2 out = norm2 sig).
  { apply (Rmult_eq_reg_l (INR (length sig))); [lra | lra]. }
  unfold np_norm. fold (norm2 out). fold (norm2 sig). rewrite E. reflexivity.
Qed.

Lemma shift_signal_norm_witness :
  exists out,
    shift_signal [RtoC 1; RtoC 2] (1 / 3) [0; 1 / 2] = Ret out /\
    np_norm out = np_norm [RtoC 1; RtoC 2].
Proof.
  apply (shift_signal_norm [RtoC 1; RtoC 2] (1 / 3) [0; 1 / 2]).
  - simpl. lia.
  - reflexivity.
Defined.

(** On a frequency axis with the points [k/N] (each up to a whole number,
    as in [np.fft.fftfreq(N)]), a shift by the integer [m] is the cyclic
    shift of the samples by [m] places to the left:
    [sig_out[n] = sig_in[(n + m) mod N]]. *)
Theorem shift_signal_integer (sig : vec) (m : Z) (F : list R) :
  (0 < length sig)%nat -> length F = length sig ->
  (forall k, (k < length sig)%nat ->
     exists q : Z, nth k F 0 = INR k / INR (length sig) + IZR q) ->
  shift_signal sig (IZR m) F = Ret (np_roll 0%C sig (- m)).
Proof.
  intros HN HF Hgrid. set (N := length sig) in *.
  assert (HNR : INR N <> 0) by (apply not_0_INR; lia).
  destruct (ifft_fft_vec (np_roll 0%C sig (- m))) as [Y [HY [HlY HiY]]];
    [rewrite length_np_roll; exact HN|].
  rewrite length_np_roll in HlY. fold N in HlY.
  destruct (ifft_fft_vec sig HN) as [X [HX [HlX _]]]. fold N in HlX.
  rewrite (shift_signal_closed sig (IZR m) F X HF HX).
  replace (phase_ramp (IZR m) X F) with Y; [exact HiY|].
  apply (nth_ext _ _ 0%C 0%C).
  - rewrite length_phase_ramp; congruence.
  - intros k Hk. rewrite HlY in Hk.
    rewrite np_fft_shape in HY by (rewrite length_np_roll; exact HN).
    rewrite length_np_roll in HY. fold N in HY. injection HY as <-.
    rewrite (np_fft_shape sig HN) in HX. fold N in HX. injection HX as <-.
    rewrite nth_mk_vec by exact Hk.
    unfold phase_ramp.
    rewrite (nth_map2 0%C 0 0%C)
      by (rewrite ?length_mk_vec, ?HF; exact Hk).
    rewrite nth_mk_vec by exact Hk.
    pose proof (fft_roll sig (- m) k HN) as E. fold N in E. rewrite E.
    rewrite Cmult_comm. f_equal.
    destruct (Hgrid k Hk) as [q Hq]. rewrite Hq.
    replace (2 * PI * IZR m * (INR k / INR N + IZR q))
      with (2 * PI * IZR (-1 * Z.of_nat k * - m) / INR N
            + 2 * PI * IZR (m * q)).
    + rewrite cis_plus, cis_2PI_mult, Cmult_1_r. reflexivity.
    + rewrite !mult_IZR, opp_IZR, <- INR_IZR_INZ. simpl IZR. field. exact HNR.
Qed.

Lemma shift_signal_integer_witness :
  shift_signal [RtoC 1; RtoC 2; RtoC 3] (IZR 1) [0; 1 / 3; - (1 / 3)]
  = Ret (np_roll 0%C [RtoC 1; RtoC 2; RtoC 3] (- 1)).
Proof.
  apply (shift_signal_integer [RtoC 1; RtoC 2; RtoC 3] 1 [0; 1 / 3; - (1 / 3)]).
  - simpl. lia.
  - reflexivity.
  - intros k Hk. simpl in Hk.
    destruct k as [|[|[|k]]]; [exists 0%Z | exists 0%Z | exists (-1)%Z | lia];
      simpl; field.
Defined.

(** ** [normalize_max_one] on a trace with a positive entry *)

Lemma fold_Rmax_ge_init (l : list R) (x : R) : x <= fold_left Rmax l x.
Proof.
  revert x. induction l as [|y l IH]; intros x; simpl; [lra|].
  eapply Rle_trans; [apply (Rmax_l x y) | apply IH].
Qed.

Lemma fold_Rmax_ge (l : list R) (x y : R) :
  In y l -> y <= fold_left Rmax l x.
Proof.
  revert x. induction l as [|z l IH]; intros x Hin; [destruct Hin|].
  simpl. destruct Hin as [-> | Hin].
  - eapply Rle_trans; [apply (Rmax_r x y) | apply fold_Rmax_ge_init].
  - apply IH, Hin.
Qed.

Lemma fold_Rmax_in (l : list R) (x : R) :
  fold_left Rmax l x = x \/ In (fold_left Rmax l x) l.
Proof.
  revert x. induction l as [|z l IH]; intros x; simpl; [left; reflexivity|].
  destruct (IH (Rmax x z)) as [E | Hin].
  - rewrite E. unfold Rmax. destruct (Rle_dec x z); auto.
  - right. right. exact Hin.
Qed.

Lemma concat_mat_map {A B : Type} (f : A -> B) (m : mat A) :
  concat (mat_map f m) = map f (concat m).
Proof.
  unfold mat_map. induction m as [|row m IH]; simpl; [reflexivity|].
  rewrite IH, map_app. reflexivity.
Qed.

(** For an array with a positive entry, [normalize_max_one] divides by the
    largest entry [M > 0]: no entry of the result exceeds 1, the value 1 is
    reached, and nonnegative entries stay nonnegative. *)
Theorem normalize_max_one_range (arr : mat R) :
  (exists x, In x (concat arr) /\ 0 < x) ->
  exists M,
    np_amax arr = Ret M /\ 0 < M /\
    normalize_max_one arr = Ret (lift (mat_map (fun x => x / M) arr)) /\
    (forall y, In y (concat (mat_map (fun x => x / M) arr)) -> y <= 1) /\
    In 1 (concat (mat_map (fun x => x / M) arr)) /\
    ((forall x, In x (concat arr) -> 0 <= x) ->
     forall y, In y (concat (mat_map (fun x => x / M) arr)) -> 0 <= y).
Proof.
  intros [x0 [Hin0 Hpos0]]. unfold normalize_max_one, np_amax.
  destruct (concat arr) as [|a l] eqn:Ec; [destruct Hin0|].
  set (M := fold_left Rmax l a).
  assert (Hge : forall y, In y (a :: l) -> y <= M).
  { intros y [-> | Hy]; [apply fold_Rmax_ge_init | apply fold_Rmax_ge, Hy]. }
  assert (HinM : In M (a :: l)).
  { destruct (fold_Rmax_in l a) as [E | Hi]; [left; symmetry; exact E|].
    right. exact Hi. }
  assert (HM : 0 < M) by (eapply Rlt_le_trans; [exact Hpos0 | apply Hge, Hin0]).
  exists M. split; [reflexivity|]. split; [exact HM|]. cbn [bind].
  split.
  { f_equal. unfold lift, mat_map. rewrite map_map. apply map_ext.
    intros row. rewrite map_map. apply map_ext. intros x.
    apply np_div_fin. lra. }
  rewrite concat_mat_map, Ec. split; [|split].
  - intros y Hy. apply in_map_iff in Hy. destruct Hy as [x [<- Hx]].
    apply Hge in Hx. apply (Rmult_le_reg_r M); [exact HM|].
    unfold Rdiv. rewrite Rmult_assoc, Rinv_l by lra. lra.
  - apply in_map_iff. exists M. split; [field; lra | exact HinM].
  - intros Hnn y Hy. apply in_map_iff in Hy. destruct Hy as [x [<- Hx]].
    apply Hnn in Hx. unfold Rdiv. apply Rmult_le_pos; [exact Hx|].
    apply Rlt_le, Rinv_0_lt_compat, HM.
Qed.

Lemma normalize_max_one_range_witness :
  exists M,
    np_amax [[1; 4]; [2; 0]] = Ret M /\ 0 < M /\
    normalize_max_one [[1; 4]; [2; 0]]
      = Ret (lift (mat_map (fun x => x / M) [[1; 4]; [2; 0]])) /\
    (forall y, In y (concat (mat_map (fun x => x / M) [[1; 4]; [2; 0]])) ->
       y <= 1) /\
    In 1 (concat (mat_map (fun x => x / M) [[1; 4]; [2; 0]])) /\
    ((forall x, In x (concat [[1; 4]; [2; 0]]) -> 0 <= x) ->
     forall y, In y (concat (mat_map (fun x => x / M) [[1; 4]; [2; 0]])) ->
       0 <= y).
Proof.
  apply (normalize_max_one_range [[1; 4]; [2; 0]]).
  exists 4. split; [simpl; auto | lra].
Defined.

(** ** The trace of a multiple of the field *)

Lemma vget_scale (c : C) (P : vec) (i : nat) :
  (i < length P)%nat -> vget (map (Cmult c) P) i = (c * vget P i)%C.
Proof. intros Hi. unfold vget. apply (nth_map_in 0%C), Hi. Qed.

Lemma dft_mult_l (sgn : Z) (N : nat) (c : C) (x : nat -> C) (k : nat) :
  dft sgn N (fun n => (c * x n)%C) k = (c * dft sgn N x k)%C.
Proof.
  unfold dft. rewrite <- bigsum_mult_l. apply bigsum_ext. intros n _.
  apply eq_sym, Cmult_assoc.
Qed.

Lemma mget_time_product_scale (c : C) (P : vec) (antialias : Z) (i j : nat) :
  (i < length P)%nat -> (j < length P)%nat ->
  mget (time_product (map (Cmult c) P) antialias) i j =
  (c * c * mget (time_product P antialias) i j)%C.
Proof.
  intros Hi Hj.
  assert (Ho : mget (outer (map (Cmult c) P) (map (Cmult c) P)) i j
               = (c * c * mget (outer P P) i j)%C).
  { rewrite !mget_outer by (rewrite ?length_map; assumption).
    rewrite !vget_scale by assumption.
    destruct c, (vget P i), (vget P j). Ceq. }
  unfold time_product. destruct (antialias =? 0)%Z; [exact Ho|].
  rewrite length_map.
  rewrite (mget_antialias_time _ (length P) (length P))
    by (try assumption; rewrite <- (length_map (Cmult c) P) at 1 2;
        apply has_shape_outer).
  rewrite (mget_antialias_time _ (length P) (length P))
    by (try assumption; apply has_shape_outer).
  cbv zeta. rewrite Ho.
  destruct (Rle_dec _ _), (Rle_dec _ _);
    destruct c, (mget (outer P P) i j); Ceq.
Qed.

Lemma time_entry_scale (c : C) (P : vec) (antialias : Z) (r col : nat) :
  (0 < length P)%nat ->
  time_entry (length P) (time_product (map (Cmult c) P) antialias) r col =
  (c * c * time_entry (length P) (time_product P antialias) r col)%C.
Proof.
  intros HN. unfold time_entry. rewrite <- dft_mult_l. apply dft_ext.
  intros n Hn. apply mget_time_product_scale; [exact Hn|]. apply wrap_lt, HN.
Qed.

Lemma freq_entry_scale (c : C) (P : vec) (mask : nat -> nat -> bool)
    (i j : nat) :
  (0 < length P)%nat ->
  let N := length P in
  freq_entry N (mk_vec N (dft (-1) N (vget (map (Cmult c) P)))) mask i j =
  (c * c * freq_entry N (mk_vec N (dft (-1) N (vget P))) mask i j)%C.
Proof.
  intros HN N. unfold freq_entry. cbv zeta.
  rewrite <- Cdivr_mult_r, <- dft_mult_l. f_equal. apply dft_ext.
  intros n Hn.
  destruct (mask n _); [symmetry; apply Cmult_0_r|].
  assert (HA : forall q, (q < N)%nat ->
            vget (mk_vec N (dft (-1) N (vget (map (Cmult c) P)))) q
            = (c * vget (mk_vec N (dft (-1) N (vget P))) q)%C).
  { intros q Hq. rewrite !vget_mk_vec by exact Hq.
    rewrite <- dft_mult_l. apply dft_ext. intros p Hp.
    apply vget_scale, Hp. }
  rewrite !HA by (try exact Hn; lia).
  set (u := vget _ n). set (v := vget _ _). destruct c, u, v. Ceq.
Qed.

(** [makeFROG] on [c * Pt]: the matrix [EF] is multiplied by [c^2]. *)
Lemma makeFROG_scale (c : C) (P : vec) (domain antialias : Z) :
  (0 < length P)%nat -> domain = 0%Z \/ domain = 1%Z ->
  exists EF,
    makeFROG P domain antialias = Ret (Some (abs2 EF, EF)) /\
    has_shape (length P) (length P) EF /\
    makeFROG (map (Cmult c) P) domain antialias
    = Ret (Some (abs2 (mat_map (Cmult (c * c)) EF),
                 mat_map (Cmult (c * c)) EF)).
Proof.
  intros HN [-> | ->].
  - pose proof (makeFROG_time_closed P antialias HN) as E. cbv zeta in E.
    pose proof (makeFROG_time_closed (map (Cmult c) P) antialias) as E'.
    rewrite length_map in E'. specialize (E' HN). cbv zeta in E'.
    eexists. split; [exact E|]. split; [apply has_shape_mk_mat|].
    rewrite E'. do 2 f_equal.
    assert (Em : mk_mat (length P) (length P)
                   (time_entry (length P)
                      (time_product (map (Cmult c) P) antialias))
                 = mat_map (Cmult (c * c))
                     (mk_mat (length P) (length P)
                        (time_entry (length P) (time_product P antialias)))).
    { apply (mat_ext 0%C (length P) (length P));
        [apply has_shape_mk_mat | apply has_shape_map, has_shape_mk_mat|].
      intros i j Hi Hj.
      rewrite (nth2_mat_map 0%C 0%C _ _ (length P) (length P) i j
                 (has_shape_mk_mat _ _ _) Hi Hj).
      rewrite !nth2_mk_mat by assumption. apply time_entry_scale, HN. }
    rewrite Em. reflexivity.
  - destruct (makeFROG_freq_closed P antialias HN) as [EF [E [HS Hent]]].
    cbv zeta in Hent.
    destruct (makeFROG_freq_closed (map (Cmult c) P) antialias)
      as [EF' [E' [HS' Hent']]]; [rewrite length_map; exact HN|].
    cbv zeta in Hent'. rewrite length_map in HS', Hent'.
    exists EF. split; [exact E|]. split; [exact HS|].
    rewrite E'.
    assert (Em : EF' = mat_map (Cmult (c * c)) EF).
    { apply (mat_ext 0%C (length P) (length P));
        [exact HS' | apply has_shape_map, HS|].
      intros i j Hi Hj.
      rewrite (nth2_mat_map 0%C 0%C _ _ (length P) (length P) i j HS Hi Hj).
      fold (mget EF' i j). fold (mget EF i j).
      rewrite Hent', Hent by assumption.
      apply (freq_entry_scale c P _ i j HN). }
    rewrite Em. reflexivity.
Qed.

Lemma abs2_scale (k : C) (EF : mat C) :
  abs2 (mat_map (Cmult k) EF) = mat_map (Rmult (Cnorm2 k)) (abs2 EF).
Proof.
  unfold abs2, mat_map. rewrite !map_map. apply map_ext. intros row.
  rewrite !map_map. apply map_ext. intros z.
  rewrite Cmod_mult. rewrite <- (Cmod_sqr k). ring.
Qed.

Lemma Rsum_map2_scale_r (k : R) (X Y : list R) :
  Rsum (map2 Rmult X (map (Rmult k) Y)) = k * Rsum (map2 Rmult X Y).
Proof.
  revert Y. induction X as [|x X IH]; intros [|y Y]; simpl; try ring.
  rewrite IH. ring.
Qed.

Lemma Rsum_map2_scale_both (k : R) (Y : list R) :
  Rsum (map2 Rmult (map (Rmult k) Y) (map (Rmult k) Y))
  = k * k * Rsum (map2 Rmult Y Y).
Proof. induction Y as [|y Y IH]; simpl; [ring | rewrite IH; ring]. Qed.

Lemma Rsum_squares_zero (Y : list R) :
  Rsum (map2 Rmult Y Y) = 0 -> Forall (fun y => y = 0) Y.
Proof.
  induction Y as [|y Y IH]; simpl; intros H; constructor.
  - pose proof (Rsum_squares_nonneg Y). pose proof (Rle_0_sqr y) as Hy.
    unfold Rsqr in Hy. assert (E : y * y = 0) by lra.
    apply Rmult_integral in E. destruct E; assumption.
  - apply IH. pose proof (Rsum_squares_nonneg Y). pose proof (Rle_0_sqr y) as Hy.
    unfold Rsqr in Hy. lra.
Qed.

Lemma mat_map_id_on {A : Type} (f : A -> A) (m : mat A) :
  (forall x, In x (concat m) -> f x = x) -> mat_map f m = m.
Proof.
  unfold mat_map. induction m as [|row m IH]; intros H; simpl; [reflexivity|].
  f_equal.
  - rewrite <- (map_id row) at 2. apply map_ext_in. intros x Hx.
    apply H. simpl. apply in_or_app. left. exact Hx.
  - apply IH. intros x Hx. apply H. simpl. apply in_or_app. right. exact Hx.
Qed.

(** Scaling the reconstructed trace by a nonzero factor changes neither
    [alpha * Fr] nor the error. *)
Lemma scale_trace_scale (r c : nat) (fm F : mat R) (k : R) :
  has_shape r c fm -> has_shape r c F -> k <> 0 ->
  scale_trace (lift fm) (mat_map (Rmult k) F) = scale_trace (lift fm) F.
Proof.
  intros Hfm HF Hk.
  assert (HkF : has_shape r c (mat_map (Rmult k) F)) by apply has_shape_map, HF.
  assert (T2 : total (mat_map2 Rmult (mat_map (Rmult k) F) (mat_map (Rmult k) F))
               = k * k * total (mat_map2 Rmult F F)).
  { unfold total. rewrite (concat_mat_map2 _ r c) by assumption.
    rewrite (concat_mat_map2 _ r c) by assumption.
    rewrite concat_mat_map. apply Rsum_map2_scale_both. }
  assert (T1 : total (mat_map2 Rmult fm (mat_map (Rmult k) F))
               = k * total (mat_map2 Rmult fm F)).
  { unfold total. rewrite (concat_mat_map2 _ r c) by assumption.
    rewrite (concat_mat_map2 _ r c) by assumption.
    rewrite concat_mat_map. apply Rsum_map2_scale_r. }
  destruct (Req_EM_T (total (mat_map2 Rmult F F)) 0) as [E0 | E0].
  - rewrite mat_map_id_on; [reflexivity|].
    intros x Hx. unfold total in E0.
    rewrite (concat_mat_map2 _ r c) in E0 by assumption.
    apply Rsum_squares_zero in E0. rewrite Forall_forall in E0.
    rewrite (E0 x Hx). ring.
  - assert (E0' : total (mat_map2 Rmult (mat_map (Rmult k) F)
                           (mat_map (Rmult k) F)) <> 0).
    { rewrite T2. apply Rmult_integral_contrapositive_currified; [|exact E0].
      apply Rmult_integral_contrapositive_currified; exact Hk. }
    rewrite (scale_trace_finite _ _ _ (calc_alpha_finite fm _ E0')).
    rewrite (scale_trace_finite _ _ _ (calc_alpha_finite fm _ E0)).
    rewrite T1, T2. f_equal.
    set (t1 := total (mat_map2 Rmult fm F)).
    set (t2 := total (mat_map2 Rmult F F)). fold t2 in E0.
    unfold mat_map. rewrite map_map. apply map_ext. intros row.
    rewrite map_map. apply map_ext. intros x.
    field. split; assumption.
Qed.

(** The error does not depend on the amplitude or on the global phase of
    the field: for [c <> 0], the field [c * Pt] gives the matrix [c^2 * EF],
    and the same scaled trace [alpha * Fr] and error [G] as [Pt], in both
    domains and for every anti-alias setting. *)
Theorem error_scale_invariant
    (fm : mat R) (P : vec) (c : C) (domain antialias : Z) :
  P <> [] -> c <> 0%C -> domain = 0%Z \/ domain = 1%Z ->
  has_shape (length P) (length P) fm ->
  exists EF Fr G,
    reconstruct (lift fm) P domain antialias = Ret (EF, Fr, G) /\
    reconstruct (lift fm) (map (Cmult c) P) domain antialias
    = Ret (mat_map (Cmult (c * c)) EF, Fr, G).
Proof.
  intros HP Hc Hd Hfm.
  assert (HN : (0 < length P)%nat) by (destruct P; [congruence | simpl; lia]).
  destruct (makeFROG_scale c P domain antialias HN Hd) as [EF [E1 [HS E2]]].
  exists EF, (scale_trace (lift fm) (abs2 EF)),
    (rms_diff (lift fm) (scale_trace (lift fm) (abs2 EF))).
  unfold reconstruct, unpack. rewrite E1, E2. cbn [bind].
  split; [reflexivity|].
  rewrite abs2_scale.
  rewrite (scale_trace_scale (length P) (length P)); [reflexivity | exact Hfm | |].
  - apply has_shape_abs2, HS.
  - rewrite Cnorm2_mult. intros E.
    assert (E' : Cnorm2 c = 0).
    { apply Rmult_integral in E. destruct E; assumption. }
    apply Hc, Cnorm2_eq_0, E'.
Qed.

Lemma error_scale_invariant_witness :
  exists EF Fr G,
    reconstruct (lift [[1; 0]; [1 / 2; 0]]) [RtoC 1; RtoC 0] 0 0
      = Ret (EF, Fr, G) /\
    reconstruct (lift [[1; 0]; [1 / 2; 0]]) (map (Cmult Ci) [RtoC 1; RtoC 0]) 0 0
    = Ret (mat_map (Cmult (Ci * Ci)) EF, Fr, G).
Proof.
  apply (error_scale_invariant [[1; 0]; [1 / 2; 0]] [RtoC 1; RtoC 0] Ci 0 0).
  - discriminate.
  - intros H. injection H as H. lra.
  - left. reflexivity.
  - apply has_shape_2x2.
Defined.

(** ** The two domains of [makeFROG] *)

Lemma wrap_decomp (N : nat) (z : Z) :
  (0 < N)%nat -> exists q : Z, Z.of_nat (wrap N z) = (z + q * Z.of_nat N)%Z.
Proof.
  intros HN. exists (- (z / Z.of_nat N))%Z. rewrite Z_of_wrap by exact HN.
  rewrite (Z.mod_eq z (Z.of_nat N)) by lia. ring.
Qed.

Lemma mod_eq_wit (N a b q : Z) : a = (b + q * N)%Z -> (a mod N = b mod N)%Z.
Proof. intros ->. apply Z_mod_plus_full. Qed.

Lemma ceil_floor_half (N : nat) : (ceil_half N + floor_half N = Z.of_nat N)%Z.
Proof.
  unfold ceil_half, floor_half. rewrite <- Nat2Z.inj_add. f_equal.
  pose proof (Nat.div_mod_eq N 2). pose proof (Nat.div_mod_eq (N + 1) 2).
  pose proof (Nat.mod_upper_bound N 2 ltac:(lia)).
  pose proof (Nat.mod_upper_bound (N + 1) 2 ltac:(lia)).
  lia.
Qed.

(** Without a mask, the entry of [EF] computed in the frequency domain is
    the entry computed in the time domain. *)
Lemma freq_entry_time_entry (P : vec) (i j : nat) :
  (i < length P)%nat -> (j < length P)%nat ->
  let N := length P in
  freq_entry N (mk_vec N (dft (-1) N (vget P))) (fun _ _ => false) i j
  = time_entry N (outer P P) i j.
Proof.
  intros Hi Hj N. assert (HN : (0 < N)%nat) by (unfold N; lia).
  assert (HNR : INR N <> 0) by (apply not_0_INR; lia).
  unfold freq_entry, time_entry. cbv zeta.
  set (K := wrap N (Z.of_nat i - (ceil_half N - 1))).
  assert (HK : (K < N)%nat) by apply wrap_lt, HN.
  set (r := (N - 1 - wrap N (Z.of_nat j - ceil_half N))%nat).
  assert (Hr : (r < N)%nat) by (unfold r; lia).
  set (J := wrap N (Z.of_nat (N - 1 - j) - Z.of_nat (N / 2))).
  set (A := mk_vec N (dft (-1) N (vget P))).
  (* the time-domain sum *)
  transitivity
    (dft (-1) N (fun s => (vget P s * vget P (wrap N (Z.of_nat r + Z.of_nat s)))%C) K).
  2:{ apply dft_ext. intros n Hn.
      rewrite mget_outer by (try exact Hn; apply wrap_lt, HN). f_equal. f_equal.
      apply wrap_eqm.
      destruct (wrap_decomp N (Z.of_nat (N - 1 - j) - Z.of_nat (N / 2)) HN)
        as [q1 E1]. fold J in E1.
      destruct (wrap_decomp N (Z.of_nat j - ceil_half N) HN) as [q2 E2].
      pose proof (wrap_lt N (Z.of_nat j - ceil_half N) HN) as B2.
      pose proof (ceil_floor_half N) as Ecf. unfold floor_half in Ecf.
      apply (mod_eq_wit _ _ _ (- q2 - q1 + 1)%Z).
      unfold r. rewrite E1. lia. }
  (* the frequency-domain sum *)
  unfold dft at 1.
  rewrite (bigsum_ext N _
    (fun n => bigsum N (fun s =>
       ((vget P s * omega N (-1 * Z.of_nat K * Z.of_nat s))
        * (vget A n * omega N (1 * Z.of_nat (wrap N (Z.of_nat r + Z.of_nat s))
                               * Z.of_nat n)))%C))).
  2:{ intros n Hn.
      set (w := wrap N (Z.of_nat (N - 1 - K) - -1 * Z.of_nat n)).
      assert (Hw : (w < N)%nat) by apply wrap_lt, HN.
      replace (vget A (N - 1 - w))
        with (bigsum N (fun s => (vget P s
                 * (omega N (-1 * Z.of_nat K * Z.of_nat s)
                    * omega N (Z.of_nat n * Z.of_nat s)))%C)).
      2:{ unfold A. rewrite vget_mk_vec by lia. unfold dft.
          apply bigsum_ext. intros s Hs. f_equal.
          rewrite <- omega_add. apply omega_eqm; [exact HN|].
          destruct (wrap_decomp N (Z.of_nat (N - 1 - K) - -1 * Z.of_nat n) HN)
            as [q1 E1]. fold w in E1.
          apply (mod_eq_wit _ _ _ (- q1 * Z.of_nat s)%Z).
          rewrite (Nat2Z.inj_sub _ w) by lia.
          rewrite E1. rewrite !Nat2Z.inj_sub by lia. simpl Z.of_nat. ring. }
      rewrite <- bigsum_mult_l, <- bigsum_mult_r. apply bigsum_ext.
      intros s Hs.
      rewrite (omega_eqm N (1 * Z.of_nat (wrap N (Z.of_nat r + Z.of_nat s))
                            * Z.of_nat n)
                 (Z.of_nat n * Z.of_nat s + 1 * Z.of_nat r * Z.of_nat n) HN).
      - rewrite omega_add.
        set (a := vget A n). set (p := vget P s).
        set (o1 := omega N _). set (o2 := omega N _). set (o3 := omega N _).
        destruct a, p, o1, o2, o3. Ceq.
      - destruct (wrap_decomp N (Z.of_nat r + Z.of_nat s) HN) as [q1 E1].
        apply (mod_eq_wit _ _ _ (q1 * Z.of_nat n)%Z). rewrite E1. ring. }
  rewrite bigsum_swap.
  rewrite (bigsum_ext N _
    (fun s => ((vget P s * omega N (-1 * Z.of_nat K * Z.of_nat s))
               * (RtoC (INR N) * vget P (wrap N (Z.of_nat r + Z.of_nat s))))%C)).
  2:{ intros s Hs. rewrite bigsum_mult_l. f_equal.
      pose proof (dft_inverse (-1) N (vget P)
                    (wrap N (Z.of_nat r + Z.of_nat s))
                    (or_intror eq_refl) (wrap_lt N _ HN)) as E.
      rewrite <- E. unfold dft at 1. apply bigsum_ext. intros n Hn.
      unfold A. rewrite vget_mk_vec by exact Hn. reflexivity. }
  unfold dft. rewrite <- bigsum_divr. apply bigsum_ext. intros s Hs.
  set (p := vget P s). set (p' := vget P _). set (o := omega N _).
  destruct p, p', o. Cunf. f_equal; field; exact HNR.
Qed.

(** Without anti-aliasing the two implementations agree: [makeFROG] returns
    the same pair [(F, EF)] in the time domain ([domain = 0]) and in the
    frequency domain ([domain = 1]), and both refuse an empty field. *)
Theorem makeFROG_domains_agree (P : vec) :
  makeFROG P 0 0 = makeFROG P 1 0.
Proof.
  destruct P as [|z P']; [reflexivity|].
  set (P := z :: P').
  assert (HN : (0 < length P)%nat) by (simpl; lia).
  pose proof (makeFROG_time_closed P 0 HN) as E0. cbv zeta in E0.
  destruct (makeFROG_freq_closed P 0 HN) as [EF [E1 [HS Hent]]].
  cbv zeta in Hent. rewrite E0, E1.
  assert (E : mk_mat (length P) (length P)
                (time_entry (length P) (time_product P 0)) = EF).
  { apply (mat_ext 0%C (length P) (length P));
      [apply has_shape_mk_mat | exact HS|].
    intros i j Hi Hj. rewrite nth2_mk_mat by assumption.
    fold (mget EF i j). rewrite Hent by assumption.
    change (makeFROG_mask (length P) 0) with (fun _ _ : nat => false).
    symmetry. exact (freq_entry_time_entry P i j Hi Hj). }
  rewrite E. reflexivity.
Qed.

(** ** The loop of [retrievePhase] *)

Lemma gp_step_iteration (svd_U0 : mat C -> res vec) (cfg : config) (N : nat)
    (Fm : mat npfloat) (st st' : gp_state) :
  gp_step svd_U0 cfg N Fm st = Ret st' -> iteration st' = S (iteration st).
Proof.
  unfold gp_step. intros H.
  apply bind_ret_inv in H. destruct H as [p [_ H]].
  destruct (amplitude_update Fm st) as [EF'|]; [|discriminate].
  destruct p as [P | n]; [|discriminate].
  apply bind_ret_inv in H. destruct H as [P' [_ H]].
  apply bind_ret_inv in H. destruct H as [[F EF] [_ H]].
  injection H as <-. reflexivity.
Qed.

Lemma gp_loop_post (svd_U0 : mat C -> res vec) (cfg : config) (left N : nat)
    (Fm : mat npfloat) (st st' : gp_state) :
  gp_loop svd_U0 cfg left N Fm st = Ret st' ->
  (iteration st <= iteration st' <= iteration st + left)%nat /\
  ((iteration st' < iteration st + left)%nat ->
   np_gtb (G st') (Fin (GTol cfg)) = false).
Proof.
  revert st. induction left as [|left IH]; intros st H.
  - injection H as <-. split; lia.
  - cbn [gp_loop] in H.
    destruct (np_gtb (G st) (Fin (GTol cfg))) eqn:Eg.
    + apply bind_ret_inv in H. destruct H as [st1 [H1 H2]].
      apply gp_step_iteration in H1. apply IH in H2. rewrite H1 in H2.
      destruct H2 as [H2 H3]. split; [lia|]. intros Hlt. apply H3. lia.
    + injection H as <-. split; [lia|]. intros _. exact Eg.
Qed.

(** Whenever [retrievePhase] returns, the loop has run at most [max_iter]
    times (not at all for [max_iter <= 0]), and if it has run fewer times
    then the test [G > GTol] has failed on the last error. *)
Theorem retrievePhase_loop_bound (svd_U0 : mat C -> res vec) (cfg : config)
    (Fm0 : mat R) (st : gp_state) :
  retrievePhase svd_U0 cfg Fm0 = Ret st ->
  (Z.of_nat (iteration st) <= Z.max 0 (max_iter cfg))%Z /\
  ((Z.of_nat (iteration st) < max_iter cfg)%Z ->
   np_gtb (G st) (Fin (GTol cfg)) = false).
Proof.
  unfold retrievePhase. intros H.
  apply bind_ret_inv in H. destruct H as [[Fm st0] [H0 H]].
  apply gp_init_start in H0. destruct H0 as [H0 _].
  apply gp_loop_post in H. rewrite H0 in H. destruct H as [H1 H2].
  split; [lia|]. intros Hlt. apply H2. lia.
Qed.

Lemma retrievePhase_loop_bound_witness :
  let cfg := default_config (Some [RtoC 1; RtoC 0]) in
  let st := {| iteration := 200; Pt := [RtoC 1; RtoC 0];
               EFr := [[RtoC 1; RtoC 0]; [RtoC 1; RtoC 0]];
               Fr := lift [[3 / 4; 0]; [3 / 4; 0]];
               G := Fin (sqrt (1 / 32)) |} in
  retrievePhase (fun _ => Raise LinAlgError) cfg [[1; 0]; [1 / 2; 0]] = Ret st /\
  (Z.of_nat (iteration st) <= Z.max 0 (max_iter cfg))%Z /\
  ((Z.of_nat (iteration st) < max_iter cfg)%Z ->
   np_gtb (G st) (Fin (GTol cfg)) = false).
Proof.
  intros cfg st.
  pose proof (retrievePhase_example (fun _ => Raise LinAlgError)) as E.
  split; [exact E|].
  exact (retrievePhase_loop_bound _ cfg _ st E).
Defined.

(** With a [method[0]] other than 0 and 1, [makeFROG] returns nothing and
    the unpacking [Fr, EFr = self.makeFROG(...)] before the loop raises
    [TypeError], for every trace with at least one entry. *)
Theorem retrievePhase_bad_domain (svd_U0 : mat C -> res vec) (cfg : config)
    (r c : nat) (Fm0 : mat R) :
  has_shape r c Fm0 -> (0 < r)%nat -> (0 < c)%nat ->
  method0 cfg <> 0%Z -> method0 cfg <> 1%Z ->
  retrievePhase svd_U0 cfg Fm0 = Raise TypeError.
Proof.
  intros HS Hr Hc H0 H1. unfold retrievePhase, gp_init.
  destruct Fm0 as [|row Fm0'] eqn:EF; [destruct HS as [Hl _]; simpl in Hl; lia|].
  cbn [bind]. rewrite <- EF in *.
  assert (Hn : exists Fm, normalize_max_one Fm0 = Ret Fm).
  { unfold normalize_max_one, np_amax.
    pose proof (length_concat_shape r c Fm0 HS) as Hl.
    destruct (concat Fm0) as [|x l]; [simpl in Hl; nia|].
    cbn [bind]. eexists. reflexivity. }
  destruct Hn as [Fm ->]. cbn [bind].
  unfold makeFROG.
  destruct (Z.eqb_spec (method0 cfg) 0) as [E | _]; [contradiction|].
  destruct (Z.eqb_spec (method0 cfg) 1) as [E | _]; [contradiction|].
  reflexivity.
Qed.

Lemma retrievePhase_bad_domain_witness :
  retrievePhase (fun _ => Raise LinAlgError)
    {| max_iter := 200; GTol := 1 / 1000; seed := None;
       method0 := 2; method1 := 0; method2 := 0; method3 := 0;
       rnd := fun _ => 1 / 2 |}
    [[1; 0]; [1 / 2; 0]]
  = Raise TypeError.
Proof.
  apply (retrievePhase_bad_domain _ _ 2 2).
  - apply has_shape_2x2.
  - lia.
  - lia.
  - discriminate.
  - discriminate.
Defined.

(** ** A seed that reproduces the trace *)

Lemma normalize_max_one_pos (arr : mat R) :
  (exists x, In x (concat arr) /\ 0 < x) ->
  exists M, 0 < M /\
    normalize_max_one arr = Ret (lift (mat_map (fun x => x / M) arr)).
Proof.
  intros [x0 [Hin0 Hpos0]]. unfold normalize_max_one, np_amax.
  destruct (concat arr) as [|a l] eqn:Ec; [destruct Hin0|].
  set (M := fold_left Rmax l a).
  assert (HM : 0 < M).
  { eapply Rlt_le_trans; [exact Hpos0|].
    destruct Hin0 as [-> | Hy]; [apply fold_Rmax_ge_init | apply fold_Rmax_ge, Hy]. }
  exists M. split; [exact HM|]. cbn [bind].
  f_equal. unfold lift, mat_map. rewrite map_map. apply map_ext.
  intros row. rewrite map_map. apply map_ext. intros x.
  apply np_div_fin. lra.
Qed.

Lemma Rsum_nonneg (l : list R) : Forall (fun x => 0 <= x) l -> 0 <= Rsum l.
Proof.
  induction 1 as [|x l Hx _ IH]; simpl; lra.
Qed.

Lemma sq_residual_nonneg (r c : nat) (a : R) (Fm Fr : mat R) :
  has_shape r c Fm -> has_shape r c Fr -> 0 <= sq_residual a Fm Fr.
Proof.
  intros H1 H2. unfold sq_residual. rewrite (concat_mat_map2 _ r c) by assumption.
  apply Rsum_nonneg. apply Forall_forall. intros x Hx.
  generalize dependent (concat Fr). induction (concat Fm) as [|u l IH];
    intros [|v l'] Hx; simpl in Hx; try contradiction.
  destruct Hx as [<- | Hx]; [apply Rle_0_sqr | exact (IH l' Hx)].
Qed.

Lemma sq_residual_multiple (r c : nat) (b : R) (F : mat R) :
  has_shape r c F -> sq_residual b (mat_map (Rmult b) F) F = 0.
Proof.
  intros H. unfold sq_residual.
  rewrite (concat_mat_map2 _ r c) by (try apply has_shape_map; exact H).
  rewrite concat_mat_map. induction (concat F) as [|x l IH]; simpl; [reflexivity|].
  rewrite IH. unfold Rsqr. ring.
Qed.

(** The error of a trace that is a positive multiple of the reconstructed
    one is zero. *)
Lemma error_of_multiple (r c : nat) (b : R) (F : mat R) :
  has_shape r c F -> (0 < r)%nat -> (0 < c)%nat ->
  total (mat_map2 Rmult F F) <> 0 ->
  rms_diff (lift (mat_map (Rmult b) F))
    (scale_trace (lift (mat_map (Rmult b) F)) F) = Fin 0.
Proof.
  intros HS Hr Hc HF.
  assert (HbF : has_shape r c (mat_map (Rmult b) F)) by apply has_shape_map, HS.
  rewrite (error_finite r c _ _ HbF HS Hr Hc HF).
  set (alpha := total (mat_map2 Rmult (mat_map (Rmult b) F) F)
                / total (mat_map2 Rmult F F)).
  assert (E : sq_residual alpha (mat_map (Rmult b) F) F = 0).
  { apply Rle_antisym; [|apply (sq_residual_nonneg r c); assumption].
    rewrite <- (sq_residual_multiple r c b F HS).
    apply (calc_alpha_minimizes r c); assumption. }
  rewrite E. unfold Rdiv. rewrite Rmult_0_l, sqrt_0. reflexivity.
Qed.

Lemma total_squares_pos (F : mat R) (r c : nat) :
  has_shape r c F -> (exists x, In x (concat F) /\ 0 < x) ->
  total (mat_map2 Rmult F F) <> 0.
Proof.
  intros HS [x [Hin Hx]] E. unfold total in E.
  rewrite (concat_mat_map2 _ r c) in E by assumption.
  apply Rsum_squares_zero in E. rewrite Forall_forall in E.
  specialize (E x Hin). lra.
Qed.

(** A seed whose trace is the measured one, up to a positive factor, is
    accepted at once: the error before the loop is zero, the loop is not
    entered (for a tolerance [GTol >= 0]) and the field kept is the seed. *)
Theorem retrievePhase_consistent_seed
    (svd_U0 : mat C -> res vec) (cfg : config) (s : vec) (F : mat R)
    (EF : mat C) (k : R) :
  seed cfg = Some s -> s <> [] ->
  makeFROG s (method0 cfg) (method1 cfg) = Ret (Some (F, EF)) ->
  (exists x, In x (concat F) /\ 0 < x) -> 0 < k -> 0 <= GTol cfg ->
  exists st,
    retrievePhase svd_U0 cfg (mat_map (Rmult k) F) = Ret st /\
    iteration st = 0%nat /\ Pt st = s /\ EFr st = EF /\ G st = Fin 0.
Proof.
  intros Hseed Hs HmF Hpos Hk Htol.
  assert (HN : (0 < length s)%nat) by (destruct s; [congruence | simpl; lia]).
  assert (Hd : method0 cfg = 0%Z \/ method0 cfg = 1%Z).
  { unfold makeFROG in HmF.
    destruct (Z.eqb_spec (method0 cfg) 0); [left; assumption|].
    destruct (Z.eqb_spec (method0 cfg) 1); [right; assumption|].
    discriminate. }
  destruct (makeFROG_returns s (method0 cfg) (method1 cfg) HN Hd)
    as [EF' [E' HS']].
  rewrite E' in HmF. injection HmF as HF HEF. subst EF'.
  assert (HS : has_shape (length s) (length s) F)
    by (rewrite <- HF; apply has_shape_abs2, HS').
  assert (Hpos' : exists x, In x (concat (mat_map (Rmult k) F)) /\ 0 < x).
  { destruct Hpos as [x [Hin Hx]]. exists (k * x). split.
    - rewrite concat_mat_map. apply in_map, Hin.
    - apply Rmult_lt_0_compat; assumption. }
  destruct (normalize_max_one_pos _ Hpos') as [M [HM Hnorm]].
  assert (Efm : mat_map (fun x => x / M) (mat_map (Rmult k) F)
                = mat_map (Rmult (k / M)) F).
  { unfold mat_map. rewrite map_map. apply map_ext. intros row.
    rewrite map_map. apply map_ext. intros x. field. lra. }
  rewrite Efm in Hnorm.
  pose proof (error_of_multiple (length s) (length s) (k / M) F HS HN HN
                (total_squares_pos F _ _ HS Hpos)) as HG.
  eexists. split.
  - unfold retrievePhase, gp_init.
    destruct (mat_map (Rmult k) F) as [|row rest] eqn:Em.
    { destruct HS as [Hl _]. apply (f_equal (@length _)) in Em.
      unfold mat_map in Em. rewrite length_map in Em. simpl in Em. lia. }
    cbn [bind]. rewrite Hseed, Hnorm. cbn [bind].
    unfold unpack. rewrite E'. cbn [bind]. rewrite HF, HG.
    apply gp_loop_not_above. cbn [G GTol np_gtb].
    destruct (Rlt_dec (GTol cfg) 0); [lra | reflexivity].
  - cbn [iteration Pt EFr G]. repeat split; reflexivity.
Qed.

Lemma retrievePhase_consistent_seed_witness :
  exists st,
    retrievePhase (fun _ => Raise LinAlgError)
      (default_config (Some [RtoC 1; RtoC 0]))
      (mat_map (Rmult 2) [[1; 0]; [1; 0]]) = Ret st /\
    iteration st = 0%nat /\ Pt st = [RtoC 1; RtoC 0] /\
    EFr st = [[RtoC 1; RtoC 0]; [RtoC 1; RtoC 0]] /\ G st = Fin 0.
Proof.
  apply (retrievePhase_consistent_seed _
           (default_config (Some [RtoC 1; RtoC 0])) [RtoC 1; RtoC 0]
           [[1; 0]; [1; 0]] _ 2).
  - reflexivity.
  - discriminate.
  - apply makeFROG_example.
  - exists 1. split; [simpl; auto | lra].
  - lra.
  - simpl. lra.
Defined.

(** ** [guessPulse] on a multiple of the matrix *)

Lemma nth_map_default {A B : Type} (f : A -> B) (l : list A) (i : nat)
    (d : A) (d' : B) :
  f d = d' -> nth i (map f l) d' = f (nth i l d).
Proof. intros <-. apply map_nth. Qed.

Lemma map_mk_vec {A B : Type} (f : A -> B) (n : nat) (g : nat -> A) :
  map f (mk_vec n g) = mk_vec n (fun i => f (g i)).
Proof. unfold mk_vec. apply map_map. Qed.

Lemma np_roll_map {A B : Type} (f : A -> B) (d : A) (d' : B) (v : list A)
    (s : Z) :
  f d = d' -> np_roll d' (map f v) s = map f (np_roll d v s).
Proof.
  intros Hd. unfold np_roll. rewrite map_mk_vec, length_map.
  apply mk_vec_ext. intros i _. apply nth_map_default, Hd.
Qed.

Lemma roll_axis0_map {A B : Type} (f : A -> B) (m : mat A) (s : Z) :
  roll_axis0 (mat_map f m) s = mat_map f (roll_axis0 m s).
Proof. unfold roll_axis0, mat_map. apply np_roll_map. reflexivity. Qed.

Lemma roll_axis1_map {A B : Type} (f : A -> B) (d : A) (d' : B) (m : mat A)
    (s : Z) :
  f d = d' -> roll_axis1 d' (mat_map f m) s = mat_map f (roll_axis1 d m s).
Proof.
  intros Hd. unfold roll_axis1, mat_map. rewrite !map_map. apply map_ext.
  intros row. apply np_roll_map, Hd.
Qed.

Lemma fliplr_map {A B : Type} (f : A -> B) (m : mat A) :
  fliplr (mat_map f m) = mat_map f (fliplr m).
Proof.
  unfold fliplr, mat_map. rewrite !map_map. apply map_ext. intros row.
  symmetry. apply map_rev.
Qed.

Lemma flipud_map {A B : Type} (f : A -> B) (m : mat A) :
  flipud (mat_map f m) = mat_map f (flipud m).
Proof. unfold flipud, mat_map. symmetry. apply map_rev. Qed.

Lemma ifftshift_axis1_map {A B : Type} (f : A -> B) (d : A) (d' : B)
    (m : mat A) :
  f d = d' -> ifftshift_axis1 d' (mat_map f m) = mat_map f (ifftshift_axis1 d m).
Proof.
  intros Hd. unfold ifftshift_axis1, mat_map. rewrite !map_map. apply map_ext.
  intros row. rewrite length_map. apply np_roll_map, Hd.
Qed.

Lemma nrows_mat_map {A B : Type} (f : A -> B) (m : mat A) :
  nrows (mat_map f m) = nrows m.
Proof. apply length_map. Qed.

Lemma ncols_mat_map {A B : Type} (f : A -> B) (m : mat A) :
  ncols (mat_map f m) = ncols m.
Proof. destruct m as [|row m]; [reflexivity | apply length_map]. Qed.

Lemma nth2_mat_map_default {A B : Type} (f : A -> B) (d : A) (d' : B)
    (m : mat A) (i j : nat) :
  f d = d' -> nth2 d' (mat_map f m) i j = f (nth2 d m i j).
Proof.
  intros Hd. unfold nth2, mat_map.
  rewrite (nth_map_default (map f) m i [] []) by reflexivity.
  apply nth_map_default, Hd.
Qed.

Lemma mat_map_mk_mat {A B : Type} (f : A -> B) (r c : nat)
    (g : nat -> nat -> A) :
  mat_map f (mk_mat r c g) = mk_mat r c (fun i j => f (g i j)).
Proof.
  unfold mat_map, mk_mat. rewrite map_mk_vec. apply mk_vec_ext. intros i _.
  apply map_mk_vec.
Qed.

Lemma transpose_map {A B : Type} (f : A -> B) (d : A) (d' : B) (m : mat A) :
  f d = d' -> transpose d' (mat_map f m) = mat_map f (transpose d m).
Proof.
  intros Hd. unfold transpose. rewrite mat_map_mk_mat, nrows_mat_map,
    ncols_mat_map.
  apply mk_mat_ext. intros i j _ _. apply nth2_mat_map_default, Hd.
Qed.

Lemma mget_scale (c : C) (m : mat C) (i j : nat) :
  mget (mat_map (Cmult c) m) i j = (c * mget m i j)%C.
Proof. apply nth2_mat_map_default, Cmult_0_r. Qed.

Lemma ifft_axis0_scale (c : C) (m : mat C) :
  ifft_axis0 (mat_map (Cmult c) m)
  = (r <- ifft_axis0 m ;; Ret (mat_map (Cmult c) r)).
Proof.
  unfold ifft_axis0. rewrite nrows_mat_map, ncols_mat_map.
  destruct (nrows m =? 0)%nat; [reflexivity|]. cbn [bind]. f_equal.
  rewrite mat_map_mk_mat. apply mk_mat_ext. intros k j _ _.
  rewrite <- Cdivr_mult_r, <- dft_mult_l. f_equal. apply dft_ext.
  intros n _. apply mget_scale.
Qed.

Lemma fft_axis0_scale (c : C) (m : mat C) :
  fft_axis0 (mat_map (Cmult c) m)
  = (r <- fft_axis0 m ;; Ret (mat_map (Cmult c) r)).
Proof.
  unfold fft_axis0. rewrite nrows_mat_map, ncols_mat_map.
  destruct (nrows m =? 0)%nat; [reflexivity|]. cbn [bind]. f_equal.
  rewrite mat_map_mk_mat. apply mk_mat_ext. intros k j _ _.
  rewrite <- dft_mult_l. apply dft_ext. intros n _. apply mget_scale.
Qed.

Lemma rotate_rows_map (f : C -> C) (N : nat) (sgn : Z) (m : mat C) :
  f 0%C = 0%C ->
  rotate_rows N sgn (mat_map f m)
  = (r <- rotate_rows N sgn m ;; Ret (mat_map f r)).
Proof.
  intros Hf. unfold rotate_rows. rewrite nrows_mat_map.
  destruct (nrows m <? N)%nat; [reflexivity|]. cbn [bind]. f_equal.
  unfold mat_map. rewrite map_mk_vec. apply mk_vec_ext. intros n _.
  cbv zeta. rewrite (nth_map_default (map f) m n [] []) by reflexivity.
  destruct (n <? N)%nat; [apply np_roll_map, Hf | reflexivity].
Qed.

Lemma mat_map2_scale (c : C) (a b : mat C) :
  mat_map2 Cminus (mat_map (Cmult c) a) (mat_map (Cmult c) b)
  = mat_map (Cmult c) (mat_map2 Cminus a b).
Proof.
  unfold mat_map2, mat_map. revert b.
  induction a as [|ra a IH]; intros [|rb b]; simpl; try reflexivity.
  rewrite IH. f_equal. clear IH. revert rb.
  induction ra as [|x ra IH]; intros [|y rb]; simpl; try reflexivity.
  rewrite IH. f_equal. destruct c, x, y. Ceq.
Qed.

Lemma antialias_time_scale (N : nat) (c : C) (m : mat C) :
  antialias_time N (mat_map (Cmult c) m) = mat_map (Cmult c) (antialias_time N m).
Proof.
  unfold antialias_time, mat_minus. cbv zeta.
  assert (Hl : forall k, np_tril (mat_map (Cmult c) m) k
                         = mat_map (Cmult c) (np_tril m k)).
  { intros k. unfold np_tril. rewrite nrows_mat_map, ncols_mat_map,
      mat_map_mk_mat. apply mk_mat_ext. intros i j _ _.
    destruct (Rle_dec _ _); [apply mget_scale | symmetry; apply Cmult_0_r]. }
  assert (Hu : forall k, np_triu (mat_map (Cmult c) m) k
                         = mat_map (Cmult c) (np_triu m k)).
  { intros k. unfold np_triu. rewrite nrows_mat_map, ncols_mat_map,
      mat_map_mk_mat. apply mk_mat_ext. intros i j _ _.
    destruct (Rle_dec _ _); [apply mget_scale | symmetry; apply Cmult_0_r]. }
  rewrite Hl, Hu, !mat_map2_scale. reflexivity.
Qed.

Lemma ctranspose_scale (c : C) (m : mat C) :
  ctranspose (mat_map (Cmult c) m) = mat_map (Cmult (Cconj c)) (ctranspose m).
Proof.
  unfold ctranspose.
  rewrite (transpose_map (Cmult c) 0%C 0%C) by apply Cmult_0_r.
  unfold mat_map. rewrite !map_map. apply map_ext. intros row.
  rewrite !map_map. apply map_ext. intros z. apply Cconj_mult.
Qed.

Lemma matvec_scale_l (c : C) (m : mat C) (v : vec) :
  matvec (mat_map (Cmult c) m) v
  = (w <- matvec m v ;; Ret (map (Cmult c) w)).
Proof.
  unfold matvec. rewrite ncols_mat_map.
  destruct (ncols m =? length v)%nat; [|reflexivity]. cbn [bind]. f_equal.
  unfold mat_map. rewrite !map_map. apply map_ext. intros row.
  apply dot_scal_l.
Qed.

Lemma dot_scale_r (c : C) (a b : vec) :
  dot a (map (Cmult c) b) = (c * dot a b)%C.
Proof.
  rewrite (map_ext (Cmult c) (fun y => (y * c)%C))
    by (intros y; apply Cmult_comm).
  rewrite dot_scal_r. apply Cmult_comm.
Qed.

Lemma matvec_scale_r (c : C) (m : mat C) (v : vec) :
  matvec m (map (Cmult c) v)
  = (w <- matvec m v ;; Ret (map (Cmult c) w)).
Proof.
  unfold matvec. rewrite length_map.
  destruct (ncols m =? length v)%nat; [|reflexivity]. cbn [bind]. f_equal.
  rewrite map_map. apply map_ext. intros row. apply dot_scale_r.
Qed.

Lemma np_ifft_scale (c : C) (u : vec) :
  np_ifft (map (Cmult c) u) = (w <- np_ifft u ;; Ret (map (Cmult c) w)).
Proof.
  unfold np_ifft. rewrite length_map.
  destruct (length u =? 0)%nat; [reflexivity|]. cbn [bind]. f_equal.
  rewrite map_mk_vec. apply mk_vec_ext. intros k _.
  rewrite <- Cdivr_mult_r, <- dft_mult_l. f_equal. apply dft_ext. intros n _.
  unfold vget. apply nth_map_default, Cmult_0_r.
Qed.

Lemma mat_map_map_compose {A B D : Type} (f : A -> B) (g : B -> D)
    (m : mat A) :
  mat_map g (mat_map f m) = mat_map (fun x => g (f x)) m.
Proof.
  unfold mat_map. rewrite map_map. apply map_ext. intros row. apply map_map.
Qed.

(** A positive multiple of the estimate has the same normalisation. *)
Lemma normalize_scale (k : R) (P : vec) :
  0 < k -> normalize (map (Cmult (RtoC k)) P) = normalize P.
Proof.
  intros Hk.
  assert (En : np_norm (map (Cmult (RtoC k)) P) = k * np_norm P).
  { rewrite (map_ext (Cmult (RtoC k)) (fun z => (z * RtoC k)%C))
      by (intros z; apply Cmult_comm).
    rewrite np_norm_map_mult. f_equal. unfold Cmod, Cnorm2, RtoC. cbn [fst snd].
    replace (k * k + 0 * 0) with (k * k) by ring. apply sqrt_square. lra. }
  unfold normalize. rewrite En, length_map.
  destruct (Req_EM_T (np_norm P) 0) as [E | E].
  - rewrite E, Rmult_0_r. destruct (Req_EM_T 0 0); [reflexivity | contradiction].
  - destruct (Req_EM_T (k * np_norm P) 0) as [E' | _].
    { apply Rmult_integral in E'. destruct E'; [lra | contradiction]. }
    f_equal. rewrite map_map. apply map_ext. intros z. destruct z.
    Cunf. f_equal; field; split; lra.
Qed.

Lemma map_scale_scale (c : C) (u : vec) :
  map (Cmult c) (map (Cmult (Cconj c)) u) = map (Cmult (RtoC (Cnorm2 c))) u.
Proof.
  rewrite map_map. apply map_ext. intros z. rewrite Cmult_assoc, Cmult_conj.
  reflexivity.
Qed.

Lemma Cnorm2_pos (c : C) : c <> 0%C -> 0 < Cnorm2 c.
Proof.
  intros Hc. pose proof (Cnorm2_nonneg c).
  assert (Cnorm2 c <> 0) by (intros E; apply Hc, Cnorm2_eq_0, E). lra.
Qed.

(** The power step on [c * EF]: the estimate is multiplied by [|c|^2]. *)
Lemma power_step_scale (c : C) (EF : mat C) (v : vec) :
  (w <- matvec (ctranspose (mat_map (Cmult c) EF)) v ;;
   matvec (mat_map (Cmult c) EF) w)
  = (u <- (w <- matvec (ctranspose EF) v ;; matvec EF w) ;;
     Ret (map (Cmult (RtoC (Cnorm2 c))) u)).
Proof.
  rewrite ctranspose_scale, matvec_scale_l.
  destruct (matvec (ctranspose EF) v) as [w | e]; [|reflexivity].
  cbn [bind]. rewrite matvec_scale_l, matvec_scale_r.
  destruct (matvec EF w) as [u | e]; [|reflexivity].
  cbn [bind]. rewrite map_scale_scale. reflexivity.
Qed.

(** With the power method, [guessPulse] does not depend on a nonzero
    complex factor of the matrix [EF] (so neither on the factor
    [1/sqrt(alpha)] that the data-consistency update leaves in [EFr]): the
    estimate is multiplied by [|c|^2], which the normalisation removes.  The
    same holds for the exceptions raised. *)
Theorem guessPulse_scale (svd_U0 : mat C -> res vec) (EF : mat C)
    (lastPt : vec) (c : C) (domain antialias : Z) :
  c <> 0%C ->
  guessPulse svd_U0 (mat_map (Cmult c) EF) lastPt domain antialias 0
  = guessPulse svd_U0 EF lastPt domain antialias 0.
Proof.
  intros Hc. pose proof (Cnorm2_pos c Hc) as Hk.
  unfold guessPulse.
  destruct EF as [|row EF']; [reflexivity|].
  set (EF := row :: EF').
  change (mat_map (Cmult c) (row :: EF')) with (mat_map (Cmult c) EF).
  replace (match mat_map (Cmult c) EF with
           | [] => Raise IndexError
           | row0 :: _ => Ret (length row0)
           end) with (Ret (A := nat) (length row))
    by (unfold EF; simpl; rewrite length_map; reflexivity).
  change (match EF with
          | [] => Raise IndexError
          | row0 :: _ => Ret (length row0)
          end) with (Ret (A := nat) (length row)).
  cbn [bind]. set (N := length row).
  change ((0 =? 0)%Z) with true. cbv iota.
  destruct (domain =? 0)%Z.
  - rewrite roll_axis0_map, ifft_axis0_scale.
    destruct (ifft_axis0 _) as [E1 | e]; [|reflexivity]. cbn [bind].
    rewrite fliplr_map.
    rewrite (ifftshift_axis1_map (Cmult c) 0%C 0%C) by apply Cmult_0_r.
    rewrite rotate_rows_map by apply Cmult_0_r.
    destruct (rotate_rows N 1 _) as [E2 | e]; [|reflexivity]. cbn [bind].
    assert (E3 : (if (antialias =? 0)%Z then mat_map (Cmult c) E2
                  else antialias_time N (mat_map (Cmult c) E2))
                 = mat_map (Cmult c)
                     (if (antialias =? 0)%Z then E2 else antialias_time N E2)).
    { destruct (antialias =? 0)%Z; [reflexivity | apply antialias_time_scale]. }
    rewrite E3, power_step_scale.
    destruct (w <- matvec _ lastPt ;; matvec _ w) as [u | e]; [|reflexivity].
    cbn [bind]. rewrite normalize_scale by exact Hk. reflexivity.
  - destruct (domain =? 1)%Z; [|reflexivity].
    rewrite (transpose_map (Cmult c) 0%C 0%C) by apply Cmult_0_r.
    rewrite (roll_axis1_map (Cmult c) 0%C 0%C) by apply Cmult_0_r.
    rewrite roll_axis0_map, fliplr_map, flipud_map, fft_axis0_scale.
    destruct (fft_axis0 _) as [E1 | e]; [|reflexivity]. cbn [bind].
    rewrite rotate_rows_map by apply Cmult_0_r.
    destruct (rotate_rows N 1 _) as [E2 | e]; [|reflexivity]. cbn [bind].
    rewrite fliplr_map.
    destruct (antialias =? 0)%Z.
    + cbn [bind].
      destruct (np_fft lastPt) as [L | e]; [|reflexivity]. cbn [bind].
      rewrite ctranspose_scale, matvec_scale_l.
      destruct (matvec (ctranspose (fliplr E2)) L) as [w | e]; [|reflexivity].
      cbn [bind]. rewrite matvec_scale_l, matvec_scale_r.
      destruct (matvec (fliplr E2) w) as [u | e]; [|reflexivity].
      cbn [bind]. rewrite map_scale_scale, np_ifft_scale.
      destruct (np_ifft u) as [p | e]; [|reflexivity].
      cbn [bind]. rewrite normalize_scale by exact Hk. reflexivity.
    + unfold np_floor. rewrite !antialias_freq_float. reflexivity.
Qed.

Lemma guessPulse_scale_witness :
  guessPulse (fun _ => Raise LinAlgError)
    (mat_map (Cmult Ci) [[RtoC 1; RtoC 0]; [RtoC 1; RtoC 0]])
    [RtoC 1; RtoC 0] 0 0 0
  = guessPulse (fun _ => Raise LinAlgError)
      [[RtoC 1; RtoC 0]; [RtoC 1; RtoC 0]] [RtoC 1; RtoC 0] 0 0 0.
Proof.
  apply (guessPulse_scale _ [[RtoC 1; RtoC 0]; [RtoC 1; RtoC 0]]
           [RtoC 1; RtoC 0] Ci 0 0).
  intros H. injection H as H. lra.
Defined.

(** ** The trace prepared by [prepFROG] *)

Lemma all_nonneg_rnth2 (m : mat R) (i j : nat) :
  all_nonneg m -> 0 <= rnth2 m i j.
Proof.
  intros H. unfold rnth2, nth2.
  destruct (Nat.lt_ge_cases i (length m)) as [Hi | Hi].
  - assert (Hr : Forall (fun x => 0 <= x) (nth i m [])).
    { unfold all_nonneg in H. rewrite Forall_forall in H. apply H.
      apply nth_In, Hi. }
    destruct (Nat.lt_ge_cases j (length (nth i m []))) as [Hj | Hj].
    + rewrite Forall_forall in Hr. apply Hr, nth_In, Hj.
    + rewrite nth_overflow by exact Hj. lra.
  - rewrite (nth_overflow m) by exact Hi. destruct j; simpl; lra.
Qed.

Lemma all_nonneg_mk_mat (r c : nat) (f : nat -> nat -> R) :
  (forall i j, 0 <= f i j) -> all_nonneg (mk_mat r c f).
Proof.
  intros H. unfold all_nonneg, mk_mat, mk_vec. apply Forall_forall.
  intros row Hrow. apply in_map_iff in Hrow. destruct Hrow as [i [<- _]].
  apply Forall_forall. intros x Hx. apply in_map_iff in Hx.
  destruct Hx as [j [<- _]]. apply H.
Qed.

Lemma all_nonneg_add_at (m : mat R) (r c : nat) (x : R) :
  all_nonneg m -> 0 <= x -> all_nonneg (add_at m r c x).
Proof.
  intros Hm Hx. unfold add_at. apply all_nonneg_mk_mat. intros i j.
  pose proof (all_nonneg_rnth2 m i j Hm).
  destruct ((i =? r) && (j =? c))%nat; lra.
Qed.

Lemma has_shape_add_at (N : nat) (m : mat R) (r c : nat) (x : R) :
  has_shape N N m -> has_shape N N (add_at m r c x).
Proof.
  intros H. unfold add_at, nrows. rewrite (proj1 H).
  destruct N as [|N]; [split; [reflexivity | constructor]|].
  rewrite (has_shape_ncols (S N) (S N) m H) by lia. apply has_shape_mk_mat.
Qed.

Lemma rebin_returns_nonneg (N : nat) (img : mat R)
    (centerrow centercol vpx tpx : npfloat) (out : mat R) :
  all_nonneg img ->
  rebin N img centerrow centercol vpx tpx = Ret out ->
  has_shape N N out /\ all_nonneg out.
Proof.
  intros Himg. unfold rebin. cbv zeta.
  set (inner := fun (ii : nat) (rowinfinal : nat) =>
     fun (st' : res (mat R * mat R)) (jj : nat) =>
       ' (cnt, acc) <- st' ;;
       c <- target_bin N centercol tpx jj ;;
       match c with
       | Some colinfinal =>
           Ret (add_at cnt rowinfinal colinfinal 1,
                add_at acc rowinfinal colinfinal (rnth2 img ii jj))
       | None => Ret (cnt, acc)
       end).
  assert (Hin : forall ii r l st, rebin_inv N st ->
                  rebin_inv N (fold_left (inner ii r) l st)).
  { intros ii r l. induction l as [|jj l IH]; intros st Hst; [exact Hst|].
    simpl. apply IH. unfold inner at 1.
    destruct st as [[cnt acc] | e]; [|exact I]. cbn [bind].
    destruct (target_bin N centercol tpx jj) as [[c|] | e]; cbn [bind];
      [| exact Hst | exact I].
    destruct Hst as [H1 [H2 [H3 H4]]]. split; [|split; [|split]].
    - apply has_shape_add_at, H1.
    - apply has_shape_add_at, H2.
    - apply all_nonneg_add_at; [exact H3 | lra].
    - apply all_nonneg_add_at; [exact H4 | apply all_nonneg_rnth2, Himg]. }
  set (outer := fun (st : res (mat R * mat R)) (ii : nat) =>
     s <- st ;;
     r <- target_bin N centerrow vpx ii ;;
     match r with
     | Some rowinfinal =>
         fold_left (inner ii rowinfinal) (seq 0 (ncols img)) (Ret s)
     | None => Ret s
     end).
  assert (Hout : forall l st, rebin_inv N st -> rebin_inv N (fold_left outer l st)).
  { induction l as [|ii l IH]; intros st Hst; [exact Hst|].
    simpl. apply IH. unfold outer at 1.
    destruct st as [s | e]; [|exact I]. cbn [bind].
    destruct (target_bin N centerrow vpx ii) as [[r|] | e]; cbn [bind];
      [| exact Hst | exact I].
    apply Hin, Hst. }
  set (zeros := mk_mat N N (fun _ _ => 0)).
  assert (H0 : rebin_inv N (Ret (zeros, zeros))).
  { split; [|split; [|split]]; try apply has_shape_mk_mat;
      apply all_nonneg_mk_mat; intros; lra. }
  specialize (Hout (seq 0 (nrows img)) _ H0).
  match goal with
  | |- context [fold_left ?f (seq 0 (nrows img)) _] => change f with outer
  end.
  destruct (fold_left outer (seq 0 (nrows img)) (Ret (zeros, zeros)))
    as [[cnt acc] | e]; cbn [bind]; [|discriminate].
  intros H. injection H as <-. destruct Hout as [H1 [H2 [H3 H4]]]. split.
  - apply has_shape_mat_map2; assumption.
  - unfold all_nonneg, mat_map2.
    clear H1 H2. revert cnt H3. induction acc as [|ra acc IH];
      intros [|rc cnt] H3; simpl; try constructor.
    + inversion H4 as [|? ? Ha _]; subst. inversion H3 as [|? ? Hc _]; subst.
      clear -Ha Hc. revert rc Hc. induction ra as [|x ra IH];
        intros [|n rc] Hc; simpl; try constructor.
      * inversion Ha; subst. inversion Hc; subst.
        destruct (Req_EM_T n 0); unfold Rdiv.
        -- rewrite Rinv_1. lra.
        -- apply Rmult_le_pos; [assumption|].
           apply Rlt_le, Rinv_0_lt_compat. lra.
      * inversion Ha; subst. inversion Hc; subst. apply IH; assumption.
    + inversion H4; subst. inversion H3; subst. apply IH; assumption.
Qed.

Lemma lowpass_rectangular (img g : mat R) :
  lowpass img = Ret g -> exists r c, has_shape r c g.
Proof.
  unfold lowpass. cbv zeta. intros H.
  apply bind_ret_inv in H. destruct H as [f [_ H]].
  apply bind_ret_inv in H. destruct H as [h [Hh H]].
  injection H as <-.
  unfold ifft2 in Hh. apply bind_ret_inv in Hh. destruct Hh as [a [_ Hh]].
  unfold ifft_axis0 in Hh. destruct (nrows a =? 0)%nat; [discriminate|].
  injection Hh as <-. eexists. eexists.
  apply has_shape_map, has_shape_mk_mat.
Qed.

Lemma subtract_background_nonneg (img out : mat R) :
  subtract_background img = Ret out ->
  all_nonneg out /\ forall r c, has_shape r c img -> has_shape r c out.
Proof.
  unfold subtract_background. intros H.
  apply bind_ret_inv in H. destruct H as [m [_ H]]. injection H as <-.
  split.
  - unfold all_nonneg, mat_map. apply Forall_forall. intros row Hrow.
    apply in_map_iff in Hrow. destruct Hrow as [row0 [<- _]].
    apply Forall_forall. intros x Hx. apply in_map_iff in Hx.
    destruct Hx as [x0 [<- _]]. destruct (Rlt_dec _ 0); lra.
  - intros r c HS. apply has_shape_map, HS.
Qed.

(** Whatever image it is given, when [prepFROG] returns the trace it stores
    in [Fm] has the shape [prep_size x prep_size] and no negative entry
    (what [normalize_max_one] asks for). *)
Theorem prepFROG_output (N : nat) (ccddt ccddv : R) (img : mat R) (flip : Z)
    (p : prepared) :
  prepFROG N ccddt ccddv img flip = Ret p ->
  has_shape N N (Fm p) /\ Forall (Forall (fun x => 0 <= x)) (Fm p).
Proof.
  unfold prepFROG. cbv zeta. intros H.
  apply bind_ret_inv in H. destruct H as [u1 [_ H]].
  apply bind_ret_inv in H. destruct H as [u2 [Hz H]].
  assert (HN : (0 < N)%nat).
  { destruct (Req_EM_T (INR N * (ccddt * ccddv)) 0) as [E | E];
      [discriminate Hz|].
    destruct N; [|lia]. exfalso. apply E. simpl. ring. }
  apply bind_ret_inv in H. destruct H as [filtered [Hf H]].
  apply bind_ret_inv in H. destruct H as [img' [Hb H]].
  destruct (lowpass_rectangular _ _ Hf) as [r [c HS]].
  destruct (subtract_background_nonneg _ _ Hb) as [Hnn Hshape].
  specialize (Hshape r c HS).
  destruct ((nrows img' =? N)%nat && (ncols img' =? N)%nat
            && (if Req_EM_T (ccddt * ccddv) (1 / INR N) then true else false))
    eqn:Et.
  - injection H as <-. cbn [Fm]. split; [|exact Hnn].
    apply andb_prop in Et. destruct Et as [Et _].
    apply andb_prop in Et. destruct Et as [E1 E2].
    apply Nat.eqb_eq in E1, E2. unfold nrows in E1.
    assert (Er : r = N) by (rewrite <- (proj1 Hshape); exact E1). subst r.
    rewrite (has_shape_ncols N c img' Hshape HN) in E2. subst c.
    exact Hshape.
  - apply bind_ret_inv in H. destruct H as [out [Hr H]]. injection H as <-.
    cbn [Fm]. exact (rebin_returns_nonneg _ _ _ _ _ _ _ Hnn Hr).
Qed.

Lemma prepFROG_output_witness :
  let p := {| dtperpx := Fin (1 / 2); Fm := [[0; 0]; [0; 0]] |} in
  prepFROG 2 (1 / 2) 1 [[1; 0]; [0; 0]] 2 = Ret p /\
  has_shape 2 2 (Fm p) /\ Forall (Forall (fun x => 0 <= x)) (Fm p).
Proof.
  intros p.
  assert (E : prepFROG 2 (1 / 2) 1 [[1; 0]; [0; 0]] 2 = Ret p).
  { apply (prepFROG_sampled 2 (1 / 2) 1 [[1; 0]; [0; 0]]
             [[1 / 4; 1 / 4]; [1 / 4; 1 / 4]] [[0; 0]; [0; 0]] 2).
    - lia.
    - simpl. field.
    - discriminate.
    - change (orient 2 [[1; 0]; [0; 0]]) with [[0; 0]; [1; 0]].
      apply lowpass_2x2_example.
    - apply subtract_background_2x2_example.
    - apply has_shape_2x2. }
  split; [exact E|].
  exact (prepFROG_output 2 (1 / 2) 1 [[1; 0]; [0; 0]] 2 p E).
Defined.

(** A product [prep_size * ccddt * ccddv] equal to zero (a zero calibration
    step, or [prep_size = 0]) makes [prepFROG] raise [ZeroDivisionError] on
    every image with at least one row, before any filtering. *)
Theorem prepFROG_zero_step (N : nat) (ccddt ccddv : R) (img : mat R)
    (flip : Z) :
  orient flip img <> [] -> INR N * (ccddt * ccddv) = 0 ->
  prepFROG N ccddt ccddv img flip = Raise ZeroDivisionError.
Proof.
  intros Hne Hz. unfold prepFROG. cbv zeta.
  destruct (orient flip img) as [|row rest]; [contradiction|].
  cbn [bind]. destruct (Req_EM_T (INR N * (ccddt * ccddv)) 0);
    [reflexivity | contradiction].
Qed.

Lemma prepFROG_zero_step_witness :
  prepFROG 2 0 1 [[1; 0]; [0; 0]] 2 = Raise ZeroDivisionError.
Proof.
  apply prepFROG_zero_step.
  - discriminate.
  - simpl. ring.
Defined.

(** ** Rounding to the nearest integer, halves to even *)

Lemma round_half_even_cases (x : R) :
  round_half_even x = Zfloor x \/ round_half_even x = (Zfloor x + 1)%Z.
Proof.
  unfold round_half_even. cbv zeta.
  destruct (Rlt_dec _ _); [left; reflexivity|].
  destruct (Rlt_dec _ _); [right; reflexivity|].
  destruct (Z.even _); [left | right]; reflexivity.
Qed.

Lemma round_half_even_near (x : R) :
  x - 1 / 2 <= IZR (round_half_even x) <= x + 1 / 2.
Proof.
  pose proof (Zfloor_bounds x) as B. unfold round_half_even. cbv zeta.
  destruct (Rlt_dec (x - IZR (Zfloor x)) (1 / 2)) as [H1 | H1]; [lra|].
  destruct (Rlt_dec (1 / 2) (x - IZR (Zfloor x))) as [H2 | H2];
    [rewrite plus_IZR; simpl; lra|].
  destruct (Z.even (Zfloor x)); [lra | rewrite plus_IZR; simpl; lra].
Qed.

Lemma round_half_even_IZR (n : Z) : round_half_even (IZR n) = n.
Proof.
  assert (E : Zfloor (IZR n) = n) by (apply Zfloor_eq; lra).
  unfold round_half_even. cbv zeta. rewrite E.
  destruct (Rlt_dec (IZR n - IZR n) (1 / 2)) as [_ | H]; [reflexivity|].
  exfalso. apply H. lra.
Qed.

Lemma round_half_even_between (x : R) (a b : Z) :
  IZR a <= x <= IZR b -> (a <= round_half_even x <= b)%Z.
Proof.
  intros [Ha Hb]. pose proof (Zfloor_bounds x) as B.
  assert (Hfa : (a <= Zfloor x)%Z).
  { apply Z.lt_succ_r. apply lt_IZR. rewrite succ_IZR. lra. }
  destruct (Req_EM_T x (IZR b)) as [-> | Hne].
  - rewrite round_half_even_IZR. split; [|lia]. apply le_IZR. lra.
  - assert (Hfb : (Zfloor x < b)%Z) by (apply lt_IZR; lra).
    destruct (round_half_even_cases x) as [-> | ->]; lia.
Qed.

(** ** [FrogParams.update_crop_param] *)

Lemma crop_axis_bounds (pos size : R) (max_size : Z) :
  let '(p, s) := crop_axis pos size max_size in
  Z.even p = true /\ Z.even s = true /\ (0 <= p)%Z /\
  (p + s <= max_size + 2)%Z.
Proof.
  unfold crop_axis.
  set (pos1 := if Rlt_dec pos 0 then 0 else pos).
  assert (H1 : 0 <= pos1) by (unfold pos1; destruct (Rlt_dec pos 0); lra).
  destruct (Rlt_dec (IZR max_size) size) as [Hs | Hs].
  - (* size and position reset *)
    set (size2 := if Rlt_dec (IZR max_size) (IZR max_size + 0)
                  then IZR max_size - 0 else IZR max_size).
    assert (H2 : size2 + 0 <= IZR max_size)
      by (unfold size2; destruct (Rlt_dec (IZR max_size) _); lra).
    pose proof (round_half_even_near (0 / 2)) as Bp.
    pose proof (round_half_even_near (size2 / 2)) as Bs.
    assert (Bp0 : (0 <= round_half_even (0 / 2) <= 0)%Z).
    { apply round_half_even_between. split; unfold Rdiv; rewrite Rmult_0_l;
        apply Rle_refl. }
    repeat split.
    + rewrite Z.even_mul. apply orb_true_r.
    + rewrite Z.even_mul. apply orb_true_r.
    + lia.
    + apply le_IZR. rewrite !plus_IZR, !mult_IZR. simpl IZR. lra.
  - set (size2 := if Rlt_dec (IZR max_size) (size + pos1)
                  then IZR max_size - pos1 else size).
    assert (H2 : size2 + pos1 <= IZR max_size)
      by (unfold size2; destruct (Rlt_dec (IZR max_size) _); lra).
    pose proof (round_half_even_near (pos1 / 2)) as Bp.
    pose proof (round_half_even_near (size2 / 2)) as Bs.
    assert (Bp0 : (0 <= round_half_even (pos1 / 2))%Z).
    { destruct (round_half_even_cases (pos1 / 2)) as [-> | ->];
        pose proof (Zfloor_bounds (pos1 / 2)) as B;
        assert ((-1 < Zfloor (pos1 / 2))%Z) by (apply lt_IZR; simpl; lra); lia. }
    repeat split.
    + rewrite Z.even_mul. apply orb_true_r.
    + rewrite Z.even_mul. apply orb_true_r.
    + lia.
    + apply le_IZR. rewrite !plus_IZR, !mult_IZR. simpl IZR. lra.
Qed.

Lemma crop_axis_valid (p s max_size : Z) :
  Z.even p = true -> Z.even s = true -> (0 <= p)%Z -> (p + s <= max_size)%Z ->
  crop_axis (IZR p) (IZR s) max_size = (p, s).
Proof.
  intros Hp Hs H0 Hm. unfold crop_axis.
  destruct (Rlt_dec (IZR p) 0) as [H | _].
  { exfalso. apply (Rlt_not_le _ _ H). apply IZR_le in H0. exact H0. }
  destruct (Rlt_dec (IZR max_size) (IZR s)) as [H | _].
  { apply lt_IZR in H. lia. }
  destruct (Rlt_dec (IZR max_size) (IZR s + IZR p)) as [H | _].
  { rewrite <- plus_IZR in H. apply lt_IZR in H. lia. }
  assert (E : forall z, Z.even z = true ->
                (round_half_even (IZR z / 2) * 2)%Z = z).
  { intros z Hz. apply Z.even_spec in Hz. destruct Hz as [q ->].
    replace (IZR (2 * q) / 2) with (IZR q) by (rewrite mult_IZR; simpl; field).
    rewrite round_half_even_IZR. ring. }
  rewrite (E p Hp), (E s Hs). reflexivity.
Qed.

(** On each axis the offset and the size that [update_crop_param] sets are
    even, the offset is not negative, and offset plus size exceeds the
    sensor size by at most 2 (the rounding to even comes after the
    clamping); a region that is already even and inside the sensor is left
    as it is. *)
Theorem update_crop_param_spec (pos size : R * R) (max_size : Z * Z) :
  (let '(x, y, w, h) := update_crop_param pos size max_size in
   (Z.even x = true /\ Z.even w = true /\ (0 <= x)%Z /\
    (x + w <= fst max_size + 2)%Z) /\
   (Z.even y = true /\ Z.even h = true /\ (0 <= y)%Z /\
    (y + h <= snd max_size + 2)%Z)) /\
  forall x y w h : Z,
    Z.even x = true -> Z.even y = true -> Z.even w = true -> Z.even h = true ->
    (0 <= x)%Z -> (0 <= y)%Z ->
    (x + w <= fst max_size)%Z -> (y + h <= snd max_size)%Z ->
    update_crop_param (IZR x, IZR y) (IZR w, IZR h) max_size = (x, y, w, h).
Proof.
  split.
  - unfold update_crop_param.
    pose proof (crop_axis_bounds (fst pos) (fst size) (fst max_size)) as B1.
    pose proof (crop_axis_bounds (snd pos) (snd size) (snd max_size)) as B2.
    destruct (crop_axis (fst pos) (fst size) (fst max_size)) as [x w].
    destruct (crop_axis (snd pos) (snd size) (snd max_size)) as [y h].
    split; assumption.
  - intros x y w h Hx Hy Hw Hh H0x H0y Hmx Hmy. unfold update_crop_param.
    cbn [fst snd].
    rewrite (crop_axis_valid x w _ Hx Hw H0x Hmx).
    rewrite (crop_axis_valid y h _ Hy Hh H0y Hmy). reflexivity.
Qed.

(** The bound is reached: on a sensor of width 10, the region at offset 3
    of size 7 becomes the region at offset 4 of size 8. *)
Lemma crop_axis_overshoot : crop_axis 3 7 10 = (4, 8)%Z.
Proof.
  unfold crop_axis.
  destruct (Rlt_dec 3 0); [lra|]. destruct (Rlt_dec 10 7); [lra|].
  destruct (Rlt_dec 10 (7 + 3)); [lra|].
  assert (E1 : round_half_even (3 / 2) = 2%Z).
  { assert (F : Zfloor (3 / 2) = 1%Z) by (apply Zfloor_eq; simpl; lra).
    unfold round_half_even. cbv zeta. rewrite F. simpl IZR.
    destruct (Rlt_dec (3 / 2 - 1) (1 / 2)); [lra|].
    destruct (Rlt_dec (1 / 2) (3 / 2 - 1)); [lra|]. reflexivity. }
  assert (E2 : round_half_even (7 / 2) = 4%Z).
  { assert (F : Zfloor (7 / 2) = 3%Z) by (apply Zfloor_eq; simpl; lra).
    unfold round_half_even. cbv zeta. rewrite F. simpl IZR.
    destruct (Rlt_dec (7 / 2 - 3) (1 / 2)); [lra|].
    destruct (Rlt_dec (1 / 2) (7 / 2 - 3)); [lra|]. reflexivity. }
  rewrite E1, E2. reflexivity.
Qed.

(** ** [FrogParams.show_steps] *)

(** The number of steps shown covers the scan range [2*|start|] to within
    half a step: [|n*step - 2*|start|| <= |step|/2], with [n >= 0] for a
    positive step; a zero step size raises [ZeroDivisionError]. *)
Theorem show_steps_spec (start_pos step_size : R) :
  (step_size = 0 -> show_steps start_pos step_size = Raise ZeroDivisionError) /\
  (step_size <> 0 ->
   exists n,
     show_steps start_pos step_size = Ret n /\
     Rabs (IZR n * step_size - 2 * Rabs start_pos) <= Rabs step_size / 2 /\
     (0 < step_size -> (0 <= n)%Z)).
Proof.
  unfold show_steps. split.
  - intros ->. destruct (Req_EM_T 0 0); [reflexivity | contradiction].
  - intros Hs. destruct (Req_EM_T step_size 0); [contradiction|].
    set (x := 2 * Rabs start_pos / step_size).
    exists (round_half_even x). split; [reflexivity|]. split.
    + pose proof (round_half_even_near x) as B.
      replace (IZR (round_half_even x) * step_size - 2 * Rabs start_pos)
        with ((IZR (round_half_even x) - x) * step_size)
        by (unfold x; field; exact Hs).
      rewrite Rabs_mult.
      assert (Ha : Rabs (IZR (round_half_even x) - x) <= 1 / 2)
        by (apply Rabs_le; lra).
      pose proof (Rabs_pos step_size).
      replace (Rabs step_size / 2) with (1 / 2 * Rabs step_size) by field.
      apply Rmult_le_compat_r; assumption.
    + intros Hp.
      assert (Hx : 0 <= x).
      { unfold x, Rdiv. apply Rmult_le_pos.
        - pose proof (Rabs_pos start_pos). lra.
        - apply Rlt_le, Rinv_0_lt_compat, Hp. }
      pose proof (Zfloor_bounds x) as B.
      assert ((-1 < Zfloor x)%Z) by (apply lt_IZR; simpl; lra).
      destruct (round_half_even_cases x) as [-> | ->]; lia.
Qed.

(** ** [FROG.scale_pxl_values] and the cast of [save_new_measurement] *)

Lemma pxl_scale_cases (pix_format : String.string) (scale : R) :
  pxl_scale pix_format = Some scale ->
  (pix_format = "Mono8"%string /\ scale = 255) \/
  (pix_format = "Mono12"%string /\ scale = 65535).
Proof.
  unfold pxl_scale.
  destruct (String.eqb_spec pix_format "Mono8") as [-> | _].
  - intros H. injection H as <-. left. split; reflexivity.
  - destruct (String.eqb_spec pix_format "Mono12") as [-> | _];
      [|discriminate].
    intros H. injection H as <-. right. split; reflexivity.
Qed.

(** For an image without negative entries and with a positive one, taken
    with a camera in the format ['Mono8'] or ['Mono12'], the scaled pixel
    values are integers between 0 and the scale (255, respectively 65535),
    the brightest pixel gets the scale, and the cast that
    [save_new_measurement] applies for the same format changes no value. *)
Theorem scale_pxl_values_spec (pix_format : String.string) (scale : R)
    (frog_array : mat R) :
  pxl_scale pix_format = Some scale ->
  (forall x, In x (concat frog_array) -> 0 <= x) ->
  (exists x, In x (concat frog_array) /\ 0 < x) ->
  exists img,
    scale_pxl_values 0 pix_format frog_array = Return _ (Some img) /\
    (forall z, In z (concat img) -> 0 <= IZR z <= scale) /\
    (exists z, In z (concat img) /\ IZR z = scale) /\
    saved_image pix_format img = Return _ img.
Proof.
  intros Hsc Hnn [x0 [Hin0 Hpos0]].
  unfold scale_pxl_values. change ((0 =? 0)%Z) with true. cbv iota.
  rewrite Hsc. unfold np_amax.
  destruct (concat frog_array) as [|a l] eqn:Ec; [destruct Hin0|].
  set (M := fold_left Rmax l a).
  assert (Hge : forall y, In y (a :: l) -> y <= M).
  { intros y [-> | Hy]; [apply fold_Rmax_ge_init | apply fold_Rmax_ge, Hy]. }
  assert (HinM : In M (a :: l)).
  { destruct (fold_Rmax_in l a) as [E | Hi]; [left; symmetry; exact E|].
    right. exact Hi. }
  assert (HM : 0 < M) by (eapply Rlt_le_trans; [exact Hpos0 | apply Hge, Hin0]).
  destruct (Req_EM_T M 0) as [E | _]; [lra|].
  assert (HS : exists S : Z, scale = IZR S /\ (0 < S)%Z /\
            ((pix_format = "Mono8"%string /\ S = 255%Z) \/
             (pix_format = "Mono12"%string /\ S = 65535%Z))).
  { destruct (pxl_scale_cases _ _ Hsc) as [[-> ->] | [-> ->]].
    - exists 255%Z. split; [reflexivity|]. split; [lia|]. left. split; reflexivity.
    - exists 65535%Z. split; [reflexivity|]. split; [lia|]. right. split; reflexivity. }
  destruct HS as [S [HS [HSpos Hfmt]]].
  set (f := fun x => round_half_even (scale * x / M)).
  assert (Hrange : forall z, In z (concat (mat_map f frog_array)) ->
                     (0 <= z <= S)%Z).
  { intros z Hz. rewrite concat_mat_map, Ec in Hz. apply in_map_iff in Hz.
    destruct Hz as [x [<- Hx]]. unfold f. apply round_half_even_between.
    assert (H0 : 0 <= x) by (apply Hnn; exact Hx).
    assert (H1 : x <= M) by (apply Hge; exact Hx).
    assert (HSR : 0 < IZR S) by (apply IZR_lt; exact HSpos).
    rewrite HS. simpl IZR. split.
    - unfold Rdiv. apply Rmult_le_pos; [apply Rmult_le_pos; lra|].
      apply Rlt_le, Rinv_0_lt_compat, HM.
    - apply (Rmult_le_reg_r M); [exact HM|].
      unfold Rdiv. rewrite Rmult_assoc, Rinv_l, Rmult_1_r by lra.
      apply Rmult_le_compat_l; lra. }
  exists (mat_map f frog_array). split; [reflexivity|]. split; [|split].
  - intros z Hz. apply Hrange in Hz. rewrite HS. split; apply IZR_le; lia.
  - exists S. split; [|symmetry; exact HS].
    rewrite concat_mat_map, Ec. apply in_map_iff. exists M. split; [|exact HinM].
    unfold f. replace (scale * M / M) with (IZR S) by (rewrite HS; field; lra).
    apply round_half_even_IZR.
  - unfold saved_image.
    destruct Hfmt as [[-> ->] | [-> ->]]; cbn [String.eqb Ascii.eqb Bool.eqb];
      f_equal; apply mat_map_id_on; intros z Hz; apply Hrange in Hz;
      apply Z.mod_small; lia.
Qed.

Lemma scale_pxl_values_spec_witness :
  exists img,
    scale_pxl_values 0 "Mono8"%string [[1; 4]; [2; 0]] = Return _ (Some img) /\
    (forall z, In z (concat img) -> 0 <= IZR z <= 255) /\
    (exists z, In z (concat img) /\ IZR z = 255) /\
    saved_image "Mono8"%string img = Return _ img.
Proof.
  apply (scale_pxl_values_spec "Mono8"%string 255 [[1; 4]; [2; 0]]).
  - reflexivity.
  - simpl. intros x [<- | [<- | [<- | [<- | []]]]]; lra.
  - exists 4. split; [simpl; auto | lra].
Defined.

(** ** [FileHandler.get_unique_path] *)

Lemma parse_py_str_nat (n : nat) : parse_nat (py_str_nat n) = Some n.
Proof.
  unfold parse_nat, py_str_nat. rewrite DecimalString.NilEmpty.usu.
  cbn [option_map]. f_equal. apply DecimalNat.Unsigned.of_to.
Qed.

Lemma parse_zeros (k n : nat) (s : String.string) :
  parse_nat s = Some n -> parse_nat (String.append (zeros k) s) = Some n.
Proof.
  intros H. induction k as [|k IH]; [exact H|].
  cbn [zeros String.append]. unfold parse_nat in *.
  cbn [DecimalString.NilEmpty.uint_of_string].
  destruct (DecimalString.NilEmpty.uint_of_string (String.append (zeros k) s))
    as [d|]; [|discriminate IH].
  cbn [option_map] in IH |- *. injection IH as IH.
  cbv [DecimalString.uint_of_char]. cbn. f_equal. exact IH.
Qed.

Lemma format_03d_inj (a b : nat) : format_03d a = format_03d b -> a = b.
Proof.
  intros H. apply (f_equal parse_nat) in H. unfold format_03d in H.
  cbv zeta in H.
  rewrite (parse_zeros _ a), (parse_zeros _ b) in H
    by apply parse_py_str_nat.
  injection H as H. exact H.
Qed.

Lemma append_inj_l (p a b : String.string) :
  String.append p a = String.append p b -> a = b.
Proof.
  induction p as [|c p IH]; simpl; intros H; [exact H|].
  injection H as H. apply IH, H.
Qed.

Lemma pattern_format_inj (prefix : String.string) (a b : nat) :
  pattern_format prefix a = pattern_format prefix b -> a = b.
Proof. intros H. apply format_03d_inj, (append_inj_l prefix), H. Qed.

Lemma existsb_eqb_In (path : String.string) (existing : list String.string) :
  existsb (String.eqb path) existing = true <-> In path existing.
Proof.
  rewrite existsb_exists. split.
  - intros [x [Hx E]]. apply String.eqb_eq in E. subst x. exact Hx.
  - intros H. exists path. split; [exact H | apply String.eqb_refl].
Qed.

Lemma unique_path_loop_finds (existing : list String.string)
    (prefix : String.string) (fuel c : nat) :
  (exists k, (c < k <= c + fuel)%nat /\ ~ In (pattern_format prefix k) existing) ->
  exists k, (c < k <= c + fuel)%nat /\
    unique_path_loop fuel existing prefix c = Some (pattern_format prefix k) /\
    ~ In (pattern_format prefix k) existing /\
    forall j, (c < j < k)%nat -> In (pattern_format prefix j) existing.
Proof.
  revert c. induction fuel as [|fuel IH]; intros c [k [Hk Hfree]]; [lia|].
  cbn [unique_path_loop].
  destruct (existsb (String.eqb (pattern_format prefix (S c))) existing) eqn:E.
  - apply existsb_eqb_In in E.
    assert (Hne : k <> S c) by (intros ->; contradiction).
    destruct (IH (S c)) as [k' [Hk' [Hl [Hf Hb]]]].
    { exists k. split; [lia | exact Hfree]. }
    exists k'. split; [lia|]. split; [exact Hl|]. split; [exact Hf|].
    intros j Hj. destruct (Nat.eq_dec j (S c)) as [-> | Hj'];
      [exact E | apply Hb; lia].
  - exists (S c). split; [lia|]. split; [reflexivity|]. split.
    + intros Hin. apply existsb_eqb_In in Hin. congruence.
    + intros j Hj. lia.
Qed.

(** Among the first [n + 1] names, one is not in a directory of [n]
    entries. *)
Lemma free_name_exists (existing : list String.string)
    (prefix : String.string) :
  exists k, (0 < k <= length existing + 1)%nat /\
            ~ In (pattern_format prefix k) existing.
Proof.
  set (n := length existing).
  set (names := map (pattern_format prefix) (seq 1 (n + 1))).
  assert (Hnd : NoDup names).
  { unfold names. apply NoDup_map_inj_in; [|apply seq_NoDup].
    intros x y _ _. apply pattern_format_inj. }
  destruct (existsb (fun nm => negb (existsb (String.eqb nm) existing)) names)
    eqn:E.
  - apply existsb_exists in E. destruct E as [nm [Hnm Hfree]].
    unfold names in Hnm. apply in_map_iff in Hnm.
    destruct Hnm as [k [<- Hk]]. apply in_seq in Hk.
    exists k. split; [lia|]. intros Hin. apply existsb_eqb_In in Hin.
    rewrite Hin in Hfree. discriminate.
  - exfalso.
    assert (Hincl : incl names existing).
    { intros nm Hnm. apply existsb_eqb_In.
      destruct (existsb (String.eqb nm) existing) eqn:En; [reflexivity|].
      assert (Ht : existsb (fun nm => negb (existsb (String.eqb nm) existing))
                     names = true).
      { apply existsb_exists. exists nm. split; [exact Hnm|].
        rewrite En. reflexivity. }
      congruence. }
    pose proof (NoDup_incl_length Hnd Hincl) as Hlen.
    unfold names in Hlen. rewrite length_map, length_seq in Hlen.
    fold n in Hlen. lia.
Qed.

(** With a bound above the number of entries of the directory, the loop
    of [get_unique_path] ends: it returns the name with the smallest counter
    [k >= 1] that no entry has, [k] is at most the number of entries plus
    one, and every name with a smaller counter is taken. *)
Theorem get_unique_path_spec (fuel : nat) (existing : list String.string)
    (prefix : String.string) :
  (length existing < fuel)%nat ->
  exists k, (1 <= k <= length existing + 1)%nat /\
    get_unique_path fuel existing prefix = Some (pattern_format prefix k) /\
    ~ In (pattern_format prefix k) existing /\
    forall j, (1 <= j < k)%nat -> In (pattern_format prefix j) existing.
Proof.
  intros Hfuel. unfold get_unique_path.
  destruct (free_name_exists existing prefix) as [k0 [Hk0 Hfree0]].
  destruct (unique_path_loop_finds existing prefix fuel 0) as [k [Hk [Hl [Hf Hb]]]].
  { exists k0. split; [lia | exact Hfree0]. }
  exists k. split.
  - split; [lia|].
    destruct (Nat.le_gt_cases k k0) as [Hle | Hgt]; [lia|].
    exfalso. apply Hfree0, Hb. lia.
  - split; [exact Hl|]. split; [exact Hf|]. intros j Hj. apply Hb. lia.
Qed.

Lemma get_unique_path_spec_witness :
  exists k, (1 <= k <= length ["measurement_001"%string; "notes.txt"%string] + 1)%nat /\
    get_unique_path 3 ["measurement_001"%string; "notes.txt"%string]
      "measurement_"%string
    = Some (pattern_format "measurement_"%string k) /\
    ~ In (pattern_format "measurement_"%string k)
         ["measurement_001"%string; "notes.txt"%string] /\
    forall j, (1 <= j < k)%nat ->
      In (pattern_format "measurement_"%string j)
         ["measurement_001"%string; "notes.txt"%string].
Proof.
  apply (get_unique_path_spec 3 ["measurement_001"%string; "notes.txt"%string]
           "measurement_"%string).
  simpl. lia.
Defined.

Lemma get_unique_path_example :
  get_unique_path 3 ["measurement_001"%string; "notes.txt"%string]
    "measurement_"%string
  = Some "measurement_002"%string.
Proof. reflexivity. Qed.

(** ** The trace is symmetric under a reversal of the delay *)

Lemma time_product_sym (P : vec) (antialias : Z) (i j : nat) :
  (i < length P)%nat -> (j < length P)%nat ->
  mget (time_product P antialias) i j = mget (time_product P antialias) j i.
Proof.
  intros Hi Hj.
  assert (Ho : mget (outer P P) i j = mget (outer P P) j i).
  { rewrite !mget_outer by assumption. apply Cmult_comm. }
  unfold time_product. destruct (antialias =? 0)%Z; [exact Ho|].
  rewrite !(mget_antialias_time _ (length P) (length P))
    by (try assumption; apply has_shape_outer).
  cbv zeta. rewrite Ho.
  set (k := py_val (np_ceil (half (length P)))).
  set (x := mget (outer P P) j i).
  destruct (Rle_dec (INR j - INR i) (- k)), (Rle_dec k (INR j - INR i)),
    (Rle_dec (INR i - INR j) (- k)), (Rle_dec k (INR i - INR j));
    try (exfalso; lra); destruct x; Ceq.
Qed.

Lemma time_entry_mirror (N : nat) (M : mat C) (r c : nat) :
  (0 < N)%nat -> (c < N)%nat ->
  (forall i j, (i < N)%nat -> (j < N)%nat -> mget M i j = mget M j i) ->
  Cmod (time_entry N M r (mirror_delay N c)) = Cmod (time_entry N M r c).
Proof.
  intros HN Hc Hsym. unfold time_entry, dft.
  set (J := Z.of_nat (wrap N (Z.of_nat (N - 1 - c) - Z.of_nat (N / 2)))).
  set (J' := Z.of_nat (wrap N (Z.of_nat (N - 1 - mirror_delay N c)
                               - Z.of_nat (N / 2)))).
  set (rho := Z.of_nat (wrap N (Z.of_nat r - (ceil_half N - 1)))).
  assert (Hm : (mirror_delay N c < N)%nat) by apply wrap_lt, HN.
  assert (EJ : ((J + J') mod Z.of_nat N = 0)%Z).
  { unfold J, J'.
    destruct (wrap_decomp N (Z.of_nat (N - 1 - c) - Z.of_nat (N / 2)) HN)
      as [q1 E1].
    destruct (wrap_decomp N (Z.of_nat (N - 1 - mirror_delay N c)
                             - Z.of_nat (N / 2)) HN) as [q2 E2].
    destruct (wrap_decomp N (2 * (ceil_half N - 1) - Z.of_nat c) HN)
      as [q3 E3]. fold (mirror_delay N c) in E3.
    pose proof (ceil_floor_half N) as Ecf. unfold floor_half in Ecf.
    rewrite E1, E2. rewrite !Nat2Z.inj_sub by lia. rewrite E3.
    replace (Z.of_nat N - Z.of_nat 1 - Z.of_nat c - Z.of_nat (N / 2)
             + q1 * Z.of_nat N
             + (Z.of_nat N - Z.of_nat 1
                - (2 * (ceil_half N - 1) - Z.of_nat c + q3 * Z.of_nat N)
                - Z.of_nat (N / 2) + q2 * Z.of_nat N))%Z
      with ((q1 + q2 - q3) * Z.of_nat N)%Z
      by (simpl (Z.of_nat 1); rewrite <- Ecf; ring).
    apply Z_mod_mult. }
  rewrite (bigsum_ext N _
             (fun n => ((fun k => mget M k (wrap N (J - -1 * Z.of_nat k)))
                          (wrap N (Z.of_nat n - J))
                        * omega N (-1 * rho * Z.of_nat n))%C)).
  2:{ intros n Hn. f_equal. cbv beta.
      assert (E1 : wrap N (J - -1 * Z.of_nat (wrap N (Z.of_nat n - J))) = n).
      { rewrite <- (wrap_small N n Hn) at 2. apply wrap_eqm.
        destruct (wrap_decomp N (Z.of_nat n - J) HN) as [q E].
        apply (mod_eq_wit _ _ _ q). rewrite E. ring. }
      rewrite E1.
      rewrite (Hsym (wrap N (Z.of_nat n - J)) n) by (try exact Hn; apply wrap_lt, HN).
      f_equal. apply wrap_eqm.
      apply Z.mod_divide in EJ; [|lia]. destruct EJ as [q Hq].
      apply (mod_eq_wit _ _ _ q). lia. }
  rewrite (bigsum_shift N J (-1 * rho)
             (fun k => mget M k (wrap N (J - -1 * Z.of_nat k))) HN).
  apply Cmod_omega_mult.
Qed.

Lemma makeFROG_freq_as_time (P : vec) :
  (0 < length P)%nat ->
  let N := length P in
  let EF := mk_mat N N (time_entry N (time_product P 0)) in
  makeFROG P 1 0 = Ret (Some (abs2 EF, EF)).
Proof.
  intros HN N EF.
  destruct (makeFROG_freq_closed P 0 HN) as [EF1 [E1 [HS Hent]]].
  cbv zeta in Hent. rewrite E1.
  assert (E : EF = EF1).
  { apply (mat_ext 0%C N N); [apply has_shape_mk_mat | exact HS|].
    intros i j Hi Hj. unfold EF. rewrite nth2_mk_mat by assumption.
    fold (mget EF1 i j). rewrite Hent by assumption.
    change (makeFROG_mask (length P) 0) with (fun _ _ : nat => false).
    symmetry. exact (freq_entry_time_entry P i j Hi Hj). }
  rewrite E. reflexivity.
Qed.

(** The trace that [makeFROG] computes is symmetric under a reversal of the
    delay, as an SHG FROG trace is: the columns [c] and
    [(2*(ceil(N/2) - 1) - c) mod N], which hold opposite delays, are equal.
    This holds in the time domain with and without anti-aliasing (the mask
    [keeps everything symmetric when sign of delay is flipped]) and in the
    frequency domain without anti-aliasing. *)
Theorem makeFROG_delay_symmetry (P : vec) (domain antialias : Z) :
  P <> [] -> domain = 0%Z \/ (domain = 1%Z /\ antialias = 0%Z) ->
  exists F EF,
    makeFROG P domain antialias = Ret (Some (F, EF)) /\
    forall r c, (r < length P)%nat -> (c < length P)%nat ->
      nth2 0 F r (mirror_delay (length P) c) = nth2 0 F r c.
Proof.
  intros HP Hd.
  assert (HN : (0 < length P)%nat) by (destruct P; [congruence | simpl; lia]).
  set (N := length P) in *.
  assert (Hsym : forall a r c, (r < N)%nat -> (c < N)%nat ->
            nth2 0 (abs2 (mk_mat N N (time_entry N (time_product P a))))
              r (mirror_delay N c)
            = nth2 0 (abs2 (mk_mat N N (time_entry N (time_product P a)))) r c).
  { intros a r c Hr Hc.
    assert (Hm : (mirror_delay N c < N)%nat) by apply wrap_lt, HN.
    rewrite !(nth2_abs2 N N) by (try assumption; apply has_shape_mk_mat).
    unfold mget. rewrite !nth2_mk_mat by assumption.
    rewrite (time_entry_mirror N _ r c HN Hc); [reflexivity|].
    intros i j Hi Hj. apply time_product_sym; assumption. }
  destruct Hd as [-> | [-> ->]].
  - pose proof (makeFROG_time_closed P antialias HN) as E. cbv zeta in E.
    eexists. eexists. split; [exact E|]. fold N. apply Hsym.
  - pose proof (makeFROG_freq_as_time P HN) as E. cbv zeta in E.
    eexists. eexists. split; [exact E|]. fold N. apply Hsym.
Qed.

Lemma makeFROG_delay_symmetry_witness :
  exists F EF,
    makeFROG [RtoC 1; RtoC 2; Ci] 0 1 = Ret (Some (F, EF)) /\
    forall r c, (r < length [RtoC 1; RtoC 2; Ci])%nat ->
      (c < length [RtoC 1; RtoC 2; Ci])%nat ->
      nth2 0 F r (mirror_delay (length [RtoC 1; RtoC 2; Ci]) c) = nth2 0 F r c.
Proof.
  apply (makeFROG_delay_symmetry [RtoC 1; RtoC 2; Ci] 0 1).
  - discriminate.
  - left. reflexivity.
Defined.

(** ** The delay marginal of the trace *)

Lemma rsum_ext (n : nat) (f g : nat -> R) :
  (forall i, (i < n)%nat -> f i = g i) -> rsum n f = rsum n g.
Proof.
  intros H. unfold rsum. f_equal. apply map_ext_in. intros i Hi.
  apply in_seq in Hi. apply H. lia.
Qed.

Lemma rsum_S (n : nat) (f : nat -> R) : rsum (S n) f = rsum n f + f n.
Proof.
  unfold rsum. rewrite seq_S, map_app, Rsum_app. simpl. ring.
Qed.

Lemma rsum_0 (f : nat -> R) : rsum 0 f = 0.
Proof. reflexivity. Qed.

Lemma rsum_plus (n : nat) (f g : nat -> R) :
  rsum n (fun i => f i + g i) = rsum n f + rsum n g.
Proof.
  induction n as [|n IH]; [rewrite !rsum_0; ring|].
  rewrite !rsum_S, IH. ring.
Qed.

Lemma rsum_mult_l (n : nat) (c : R) (f : nat -> R) :
  rsum n (fun i => c * f i) = c * rsum n f.
Proof.
  induction n as [|n IH]; [rewrite !rsum_0; ring|].
  rewrite !rsum_S, IH. ring.
Qed.

Lemma rsum_swap (n m : nat) (f : nat -> nat -> R) :
  rsum n (fun i => rsum m (fun j => f i j))
  = rsum m (fun j => rsum n (fun i => f i j)).
Proof.
  induction n as [|n IH].
  - rewrite rsum_0. induction m as [|m IHm]; [reflexivity|].
    rewrite rsum_S, <- IHm, rsum_0. ring.
  - rewrite rsum_S, IH, <- rsum_plus. apply rsum_ext. intros j _.
    rewrite rsum_S. reflexivity.
Qed.

Lemma rsum_shift (N : nat) (m : Z) (g : nat -> R) :
  (0 < N)%nat -> rsum N (fun n => g (wrap N (Z.of_nat n - m))) = rsum N g.
Proof.
  intros HN. unfold rsum.
  rewrite <- (map_map (fun n => wrap N (Z.of_nat n - m)) g).
  apply Rsum_perm, Permutation_map, shift_permutation, HN.
Qed.

Lemma wrap_reflect_inj (N : nat) (a : Z) (x y : nat) :
  (x < N)%nat -> (y < N)%nat ->
  wrap N (a - Z.of_nat x) = wrap N (a - Z.of_nat y) -> x = y.
Proof.
  intros Hx Hy H. assert (HN : (0 < N)%nat) by lia.
  destruct (wrap_decomp N (a - Z.of_nat x) HN) as [q1 E1].
  destruct (wrap_decomp N (a - Z.of_nat y) HN) as [q2 E2].
  rewrite H in E1. rewrite E1 in E2.
  assert (E : (Z.of_nat x - Z.of_nat y = (q1 - q2) * Z.of_nat N)%Z) by lia.
  destruct (Z.eq_dec (q1 - q2) 0) as [E0 | E0]; [rewrite E0 in E; lia|].
  assert (Hq : (q1 - q2 <= -1 \/ 1 <= q1 - q2)%Z) by lia.
  destruct Hq; nia.
Qed.

Lemma rsum_reflect (N : nat) (a : Z) (g : nat -> R) :
  (0 < N)%nat -> rsum N (fun c => g (wrap N (a - Z.of_nat c))) = rsum N g.
Proof.
  intros HN. unfold rsum.
  rewrite <- (map_map (fun c => wrap N (a - Z.of_nat c)) g).
  apply Rsum_perm, Permutation_map, NoDup_Permutation_bis.
  - apply NoDup_map_inj_in; [|apply seq_NoDup].
    intros x y Hx Hy. apply in_seq in Hx, Hy. apply wrap_reflect_inj; lia.
  - rewrite length_map. lia.
  - intros k Hk. apply in_map_iff in Hk. destruct Hk as [c [<- _]].
    apply in_seq. pose proof (wrap_lt N (a - Z.of_nat c) HN). lia.
Qed.

Lemma norm2_mk_vec (N : nat) (g : nat -> C) :
  norm2 (mk_vec N g) = rsum N (fun n => Cnorm2 (g n)).
Proof. unfold norm2, rsum, mk_vec. rewrite map_map. reflexivity. Qed.

Lemma norm2_rsum (P : vec) :
  norm2 P = rsum (length P) (fun n => Cnorm2 (vget P n)).
Proof.
  rewrite <- (mk_vec_nth 0%C P) at 1. apply norm2_mk_vec.
Qed.

Lemma total_mk_mat (r c : nat) (f : nat -> nat -> R) :
  total (mk_mat r c f) = rsum r (fun i => rsum c (f i)).
Proof.
  unfold total, mk_mat, mk_vec, rsum.
  induction (seq 0 r) as [|i l IH]; simpl; [reflexivity|].
  rewrite Rsum_app, IH. reflexivity.
Qed.

(** Parseval's identity for the sum of the squared moduli of a transform. *)
Lemma rsum_dft (N : nat) (y : nat -> C) :
  (0 < N)%nat ->
  rsum N (fun k => Cnorm2 (dft (-1) N y k)) = INR N * rsum N (fun n => Cnorm2 (y n)).
Proof.
  intros HN.
  assert (Hl : length (mk_vec N y) = N) by apply length_mk_vec.
  pose proof (np_fft_shape (mk_vec N y)) as E. rewrite Hl in E.
  specialize (E HN). apply norm2_fft in E. rewrite Hl, !norm2_mk_vec in E.
  rewrite <- E. apply rsum_ext. intros k Hk. f_equal. apply dft_ext.
  intros n Hn. symmetry. apply vget_mk_vec, Hn.
Qed.

Lemma colsums_abs2_mk_mat (N : nat) (e : nat -> nat -> C) (c : nat) :
  (c < N)%nat ->
  nth c (colsums (abs2 (mk_mat N N e))) 0 = rsum N (fun r => Cnorm2 (e r c)).
Proof.
  intros Hc. assert (HN : (0 < N)%nat) by lia.
  unfold colsums.
  rewrite (has_shape_ncols N N) by
    (try exact HN; apply has_shape_abs2, has_shape_mk_mat).
  rewrite nth_mk_vec by exact Hc.
  unfold abs2, mat_map, mk_mat, mk_vec, rsum. rewrite !map_map.
  f_equal. apply map_ext_in. intros r _.
  rewrite map_map. fold (mk_vec N (fun j => Cmod (e r j) * Cmod (e r j))).
  rewrite nth_mk_vec by exact Hc. apply Cmod_sqr.
Qed.

Lemma total_abs2_mk_mat (N : nat) (e : nat -> nat -> C) :
  total (abs2 (mk_mat N N e))
  = rsum N (fun c => rsum N (fun r => Cnorm2 (e r c))).
Proof.
  rewrite rsum_swap.
  replace (abs2 (mk_mat N N e))
    with (mk_mat N N (fun r c => Cnorm2 (e r c))).
  - apply total_mk_mat.
  - unfold abs2, mat_map, mk_mat, mk_vec. rewrite map_map.
    apply map_ext. intros r. rewrite map_map. apply map_ext. intros c.
    symmetry. apply Cmod_sqr.
Qed.

(** The sum over the frequencies of column [c] of the time-domain [EF]. *)
Lemma time_entry_colsum (P : vec) (c : nat) :
  let N := length P in
  (c < N)%nat ->
  rsum N (fun r => Cnorm2 (time_entry N (time_product P 0) r c))
  = INR N * autocorrelation P (delay_index N c).
Proof.
  intros N Hc. assert (HN : (0 < N)%nat) by lia.
  unfold time_entry.
  rewrite (rsum_shift N (ceil_half N - 1)
             (fun k => Cnorm2 (dft (-1) N
                (fun n => mget (time_product P 0) n
                   (wrap N (Z.of_nat (wrap N (Z.of_nat (N - 1 - c)
                                              - Z.of_nat (N / 2)))
                            - -1 * Z.of_nat n))) k)) HN).
  rewrite rsum_dft by exact HN. f_equal.
  unfold autocorrelation. fold N. apply rsum_ext. intros n Hn.
  unfold time_product. change ((0 =? 0)%Z) with true. cbv iota.
  rewrite mget_outer by (try apply wrap_lt; assumption).
  rewrite Cnorm2_mult. unfold delay_index. do 4 f_equal. lia.
Qed.

Lemma autocorrelation_sum (P : vec) :
  let N := length P in
  rsum N (fun c => autocorrelation P (delay_index N c)) = norm2 P * norm2 P.
Proof.
  intros N. destruct (Nat.eq_dec N 0) as [E0 | E0].
  { rewrite norm2_rsum. fold N. rewrite E0, !rsum_0. ring. }
  assert (HN : (0 < N)%nat) by lia.
  unfold autocorrelation. fold N. rewrite rsum_swap.
  rewrite (norm2_rsum P) at 1. fold N. rewrite Rmult_comm, <- rsum_mult_l.
  apply rsum_ext. intros n Hn. rewrite rsum_mult_l, Rmult_comm. f_equal.
  rewrite norm2_rsum. fold N.
  rewrite <- (rsum_reflect N (Z.of_nat (N - 1) - Z.of_nat (N / 2) + Z.of_nat n)
                (fun k => Cnorm2 (vget P k)) HN).
  apply rsum_ext. intros c Hc. do 2 f_equal.
  unfold delay_index. rewrite wrap_wrap_add by exact HN.
  f_equal. lia.
Qed.

(** Without anti-aliasing, and in either domain, the trace that
    [makeFROG] returns for a non-empty field of [N] samples has the
    intensity autocorrelation as its delay marginal: the sum of column [c]
    over all frequencies is [N] times
    [sum_n |P[n]|^2 |P[(n + J) mod N]|^2], with [J] the delay that the
    column holds. *)
Theorem makeFROG_delay_marginal (P : vec) (domain : Z) :
  P <> [] -> domain = 0%Z \/ domain = 1%Z ->
  exists F EF,
    makeFROG P domain 0 = Ret (Some (F, EF)) /\
    forall c, (c < length P)%nat ->
      nth c (colsums F) 0
      = INR (length P) * autocorrelation P (delay_index (length P) c).
Proof.
  intros HP Hd.
  assert (HN : (0 < length P)%nat) by (destruct P; [congruence | simpl; lia]).
  exists (abs2 (mk_mat (length P) (length P)
                  (time_entry (length P) (time_product P 0)))),
         (mk_mat (length P) (length P)
                  (time_entry (length P) (time_product P 0))).
  split.
  - destruct Hd as [-> | ->].
    + apply (makeFROG_time_closed P 0 HN).
    + apply (makeFROG_freq_as_time P HN).
  - intros c Hc. rewrite colsums_abs2_mk_mat by exact Hc.
    apply (time_entry_colsum P c Hc).
Qed.

(** Without anti-aliasing, and in either domain, the trace that
    [makeFROG] returns for a non-empty field of [N] samples holds the
    energy [N * (sum_n |P[n]|^2)^2] in total. *)
Theorem makeFROG_energy (P : vec) (domain : Z) :
  P <> [] -> domain = 0%Z \/ domain = 1%Z ->
  exists F EF,
    makeFROG P domain 0 = Ret (Some (F, EF)) /\
    total F = INR (length P) * (norm2 P * norm2 P).
Proof.
  intros HP Hd.
  assert (HN : (0 < length P)%nat) by (destruct P; [congruence | simpl; lia]).
  exists (abs2 (mk_mat (length P) (length P)
                  (time_entry (length P) (time_product P 0)))),
         (mk_mat (length P) (length P)
                  (time_entry (length P) (time_product P 0))).
  split.
  - destruct Hd as [-> | ->].
    + apply (makeFROG_time_closed P 0 HN).
    + apply (makeFROG_freq_as_time P HN).
  - rewrite total_abs2_mk_mat.
    rewrite (rsum_ext _ _ (fun c => INR (length P)
               * autocorrelation P (delay_index (length P) c)))
      by (intros c Hc; apply (time_entry_colsum P c Hc)).
    rewrite rsum_mult_l. f_equal. apply (autocorrelation_sum P).
Qed.

Lemma makeFROG_delay_marginal_witness :
  exists F EF,
    makeFROG [RtoC 1; RtoC 2; Ci] 1 0 = Ret (Some (F, EF)) /\
    forall c, (c < length [RtoC 1; RtoC 2; Ci])%nat ->
      nth c (colsums F) 0
      = INR (length [RtoC 1; RtoC 2; Ci])
        * autocorrelation [RtoC 1; RtoC 2; Ci]
            (delay_index (length [RtoC 1; RtoC 2; Ci]) c).
Proof.
  apply (makeFROG_delay_marginal [RtoC 1; RtoC 2; Ci] 1).
  - discriminate.
  - right. reflexivity.
Defined.

Lemma makeFROG_energy_witness :
  exists F EF,
    makeFROG [RtoC 1; RtoC 2; Ci] 0 0 = Ret (Some (F, EF)) /\
    total F = INR (length [RtoC 1; RtoC 2; Ci])
              * (norm2 [RtoC 1; RtoC 2; Ci] * norm2 [RtoC 1; RtoC 2; Ci]).
Proof.
  apply (makeFROG_energy [RtoC 1; RtoC 2; Ci] 0).
  - discriminate.
  - left. reflexivity.
Defined.

(** ** A dark image *)

Lemma Rsum_all_zero (l : list R) : (forall x, In x l -> x = 0) -> Rsum l = 0.
Proof.
  induction l as [|a l IH]; intros H; [reflexivity|].
  simpl. rewrite (H a (or_introl eq_refl)), IH; [ring|].
  intros x Hx. apply H. right. exact Hx.
Qed.

Lemma orient_zeros (flip : Z) (r c : nat) :
  (0 < r)%nat -> (0 < c)%nat ->
  exists r' c', orient flip (np_full r c 0) = np_full r' c' 0
                /\ (0 < r')%nat /\ (0 < c')%nat
                /\ ((r' = r /\ c' = c) \/ (r' = c /\ c' = r)).
Proof.
  intros Hr Hc. unfold orient.
  assert (H1 : exists r' c',
             (if ((flip =? 1) || (flip =? 3))%Z
              then transpose 0 (np_full r c 0) else np_full r c 0)
             = np_full r' c' 0
             /\ (0 < r')%nat /\ (0 < c')%nat /\ ((r' = r /\ c' = c) \/ (r' = c /\ c' = r))).
  { destruct ((flip =? 1) || (flip =? 3))%Z.
    - exists c, r. split; [|lia].
      apply (mat_const_ext 0).
      + apply has_shape_transpose; [apply has_shape_np_full | exact Hr].
      + intros i j Hi Hj.
        rewrite (nth2_transpose 0 r c) by
          (try assumption; apply has_shape_np_full).
        apply nth2_np_full; assumption.
    - exists r, c. split; [reflexivity | lia]. }
  destruct H1 as [r' [c' [-> [Hr' [Hc' Hsq]]]]].
  exists r', c'. split; [|lia].
  destruct ((flip =? 2) || (flip =? 3))%Z; [|reflexivity].
  apply (mat_const_ext 0).
  - apply has_shape_flipud, has_shape_np_full.
  - intros i j Hi Hj.
    rewrite (nth2_flipud 0 r' c') by (try assumption; apply has_shape_np_full).
    apply nth2_np_full; lia.
Qed.

Lemma centroid_zeros (s : list R) :
  (forall x, In x s -> x = 0) -> centroid s = NaN.
Proof.
  intros H. unfold centroid.
  rewrite (Rsum_all_zero s H).
  rewrite Rsum_all_zero.
  - unfold np_div, inf_of_sign. destruct (Req_EM_T 0 0); [|contradiction].
    destruct (Req_EM_T 0 0); [reflexivity | contradiction].
  - intros x Hx. apply in_map_iff in Hx. destruct Hx as [k [<- Hk]].
    apply in_seq in Hk.
    rewrite (H (nth k s 0)) by (apply nth_In; lia). ring.
Qed.

Lemma rowsums_zeros (r c : nat) (x : R) :
  In x (rowsums (np_full r c 0)) -> x = 0.
Proof.
  unfold rowsums, np_full, mk_mat, mk_vec. rewrite map_map. intros H.
  apply in_map_iff in H. destruct H as [i [<- _]].
  apply Rsum_all_zero. intros y Hy. apply in_map_iff in Hy.
  destruct Hy as [j [<- _]]. reflexivity.
Qed.

Lemma target_bin_nan (N : nat) (pitch : npfloat) (k : nat) :
  target_bin N NaN pitch k = Raise ValueError.
Proof.
  unfold target_bin. cbn [np_sub np_neg np_add]. 
  destruct pitch; reflexivity.
Qed.

Lemma rebin_loop_raise {S : Type} (f : S -> nat -> res S) (l : list nat)
    (e : exn) :
  fold_left (fun st ii => s <- st ;; f s ii) l (Raise e) = Raise e.
Proof. induction l as [|a l IH]; [reflexivity | simpl; exact IH]. Qed.

Lemma rebin_nan_center (N : nat) (img : mat R) (centercol vpx tpx : npfloat) :
  (0 < nrows img)%nat ->
  rebin N img NaN centercol vpx tpx = Raise ValueError.
Proof.
  intros Hr. unfold rebin.
  destruct (nrows img) as [|n]; [lia|].
  cbn [seq fold_left]. cbn [bind]. rewrite target_bin_nan. cbn [bind].
  match goal with
  | |- context [fold_left ?g ?l (Raise ValueError)] =>
      replace (fold_left g l (Raise ValueError)) with (@Raise (mat R * mat R) ValueError)
  end; [reflexivity|].
  symmetry.
  apply (rebin_loop_raise
           (fun s ii =>
              r <- target_bin N NaN vpx ii ;;
              match r with
              | None => Ret s
              | Some rowinfinal =>
                  fold_left
                    (fun st' jj =>
                       '(cnt, acc) <- st' ;;
                       c <- target_bin N centercol tpx jj ;;
                       match c with
                       | None => Ret (cnt, acc)
                       | Some colinfinal =>
                           Ret (add_at cnt rowinfinal colinfinal 1,
                                add_at acc rowinfinal colinfinal (rnth2 img ii jj))
                       end)
                    (seq 0 (ncols img)) (Ret s)
              end)).
Qed.

(** A dark image, all of whose pixels are zero, has no spot: the centre of
    the spot is [0/0].  Unless the image already has the sampling of the
    prepared trace (and the downsampling is skipped), [prepFROG] then raises
    [ValueError] where the downsampling rounds the row of the first pixel
    ([int(round(nan))]), for every size of the image and of the prepared
    trace, every calibration with a nonzero product and every orientation. *)
Theorem prepFROG_dark_image (N r c : nat) (ccddt ccddv : R) (flip : Z) :
  (0 < r)%nat -> (0 < c)%nat ->
  INR N * (ccddt * ccddv) <> 0 ->
  ~ (r = N /\ c = N /\ ccddt * ccddv = 1 / INR N) ->
  prepFROG N ccddt ccddv (np_full r c 0) flip = Raise ValueError.
Proof.
  intros Hr Hc Hnz Hns.
  destruct (orient_zeros flip r c Hr Hc) as [r' [c' [Eo [Hr' [Hc' Hrc]]]]].
  unfold prepFROG. cbv zeta. rewrite Eo.
  assert (Hne : np_full r' c' 0 <> []).
  { intros E. pose proof (proj1 (has_shape_np_full r' c' 0)) as Hl.
    rewrite E in Hl. simpl in Hl. lia. }
  destruct (np_full r' c' 0) as [|row rest] eqn:Ez; [contradiction|].
  rewrite <- Ez. cbn [bind].
  destruct (Req_EM_T (INR N * (ccddt * ccddv)) 0) as [E | _];
    [contradiction|]. cbn [bind].
  rewrite (centroid_zeros (rowsums (np_full r' c' 0)))
    by apply rowsums_zeros.
  destruct (lowpass_returns r' c' (np_full r' c' 0)
              (has_shape_np_full r' c' 0) Hr' Hc') as [g [-> Hg]].
  cbn [bind].
  destruct (subtract_background_returns r' c' g Hg Hr' Hc') as [h [-> Hh]].
  cbn [bind].
  assert (En : nrows h = r') by apply Hh.
  assert (Em : ncols h = c') by (apply (has_shape_ncols r' c'); assumption).
  destruct ((nrows h =? N)%nat && (ncols h =? N)%nat
            && (if Req_EM_T (ccddt * ccddv) (1 / INR N) then true else false))
    eqn:Et.
  - exfalso. apply andb_prop in Et. destruct Et as [Et E3].
    apply andb_prop in Et. destruct Et as [E1 E2].
    apply Nat.eqb_eq in E1, E2.
    destruct (Req_EM_T (ccddt * ccddv) (1 / INR N)) as [E | E];
      [|discriminate E3].
    apply Hns. split; [lia | split; [lia | exact E]].
  - rewrite rebin_nan_center by lia. reflexivity.
Qed.

Lemma prepFROG_dark_image_witness :
  prepFROG 2 1 1 (np_full 3 4 0) 2 = Raise ValueError.
Proof.
  apply (prepFROG_dark_image 2 3 4 1 1 2).
  - lia.
  - lia.
  - simpl. lra.
  - intros [H _]. discriminate H.
Defined.

(** ** [PhaseRetrieval.ePIE_fun_FROG]: the body of the loop over the delays *)

Lemma sqrt_1_plus_sqr_pos (t : R) : 0 < sqrt (1 + t²).
Proof. apply sqrt_lt_R0. pose proof (Rle_0_sqr t). lra. Qed.

Lemma Cmod_polar_pos (x y : R) :
  0 < x -> sqrt (x * x + y * y) = x * sqrt (1 + (y / x)²).
Proof.
  intros Hx. pose proof (sqrt_1_plus_sqr_pos (y / x)) as Hs.
  pose proof (Rle_0_sqr (y / x)) as Hq.
  apply sqrt_lem_1.
  - nra.
  - nra.
  - replace (x * sqrt (1 + (y / x)²) * (x * sqrt (1 + (y / x)²)))
      with (x * x * (sqrt (1 + (y / x)²) * sqrt (1 + (y / x)²))) by ring.
    rewrite sqrt_sqrt by lra. unfold Rsqr. field. lra.
Qed.

Lemma Cmod_polar_neg (x y : R) :
  x < 0 -> sqrt (x * x + y * y) = - x * sqrt (1 + (y / x)²).
Proof.
  intros Hx. pose proof (sqrt_1_plus_sqr_pos (y / x)) as Hs.
  pose proof (Rle_0_sqr (y / x)) as Hq.
  apply sqrt_lem_1.
  - nra.
  - nra.
  - replace (- x * sqrt (1 + (y / x)²) * (- x * sqrt (1 + (y / x)²)))
      with (x * x * (sqrt (1 + (y / x)²) * sqrt (1 + (y / x)²))) by ring.
    rewrite sqrt_sqrt by lra. unfold Rsqr. field. lra.
Qed.

(** The polar form: [abs(z) * exp(1j * angle(z)) = z]. *)
Lemma Cmod_cis_angle (z : C) : Cscal (Cmod z) (cis (np_angle z)) = z.
Proof.
  destruct z as [x y]. unfold np_angle, Cmod, Cnorm2, Cscal, cis.
  cbn [fst snd].
  pose proof (sqrt_1_plus_sqr_pos (y / x)) as Hs.
  destruct (Rlt_dec 0 x) as [Hx | Hx].
  - rewrite cos_atan, sin_atan, (Cmod_polar_pos x y Hx).
    f_equal; field; lra.
  - destruct (Rlt_dec x 0) as [Hx' | Hx'].
    + rewrite (Cmod_polar_neg x y Hx').
      destruct (Rle_dec 0 y).
      * rewrite neg_cos, neg_sin, cos_atan, sin_atan. f_equal; field; lra.
      * unfold Rminus. rewrite cos_plus, sin_plus, cos_neg, sin_neg,
          cos_PI, sin_PI, cos_atan, sin_atan.
        f_equal; field; lra.
    + assert (x = 0) by lra. subst x.
      replace (0 * 0 + y * y) with (y²) by (unfold Rsqr; ring).
      destruct (Rlt_dec 0 y) as [Hy | Hy].
      * rewrite cos_PI2, sin_PI2, sqrt_Rsqr by lra. f_equal; ring.
      * destruct (Rlt_dec y 0) as [Hy' | Hy'].
        -- rewrite cos_neg, sin_neg, cos_PI2, sin_PI2.
           rewrite (Rsqr_neg y), sqrt_Rsqr by lra. f_equal; ring.
        -- assert (y = 0) by lra. subst y.
           rewrite Rsqr_0, sqrt_0. f_equal; ring.
Qed.

Lemma map2_map_map {A B D E : Type} (f : B -> D -> E) (g : A -> B)
    (h : A -> D) (l : list A) :
  map2 f (map g l) (map h l) = map (fun x => f (g x) (h x)) l.
Proof. induction l as [|a l IH]; simpl; [reflexivity | rewrite IH; reflexivity]. Qed.

Lemma map2_diag {A D : Type} (f : A -> A -> D) (l : list A) :
  map2 f l l = map (fun x => f x x) l.
Proof. induction l as [|a l IH]; simpl; [reflexivity | rewrite IH; reflexivity]. Qed.

Lemma map2_minus_self (l : vec) : map2 Cminus l l = repeat 0%C (length l).
Proof.
  induction l as [|a l IH]; simpl; [reflexivity|].
  rewrite IH. f_equal. destruct a. Ceq.
Qed.

Lemma map2_mult_zero_r (a : vec) (n : nat) :
  length a = n -> map2 Cmult a (repeat 0%C n) = repeat 0%C n.
Proof.
  revert n. induction a as [|x a IH]; intros n Hn; simpl in Hn; subst n;
    simpl; [reflexivity|].
  rewrite IH by reflexivity. f_equal. destruct x. Ceq.
Qed.

Lemma map2_plus_zero_r (a : vec) (n : nat) :
  length a = n -> map2 Cplus a (repeat 0%C n) = a.
Proof.
  revert n. induction a as [|x a IH]; intros n Hn; simpl in Hn; subst n;
    simpl; [reflexivity|].
  rewrite IH by reflexivity. f_equal. destruct x. Ceq.
Qed.

Lemma Forall_zero_repeat (v : vec) :
  Forall (fun z => z = 0%C) v -> v = repeat 0%C (length v).
Proof.
  induction 1 as [|z v Hz _ IH]; simpl; [reflexivity|].
  rewrite Hz, <- IH. reflexivity.
Qed.

Lemma norm2_repeat_zero (n : nat) : norm2 (repeat 0%C n) = 0.
Proof.
  apply norm2_zero. apply Forall_forall. intros z Hz.
  apply repeat_spec in Hz. exact Hz.
Qed.

(** A shift keeps the squared norm. *)
Lemma shift_signal_norm2 (sig : vec) (s : R) (F : list R) (out : vec) :
  (0 < length sig)%nat -> length F = length sig ->
  shift_signal sig s F = Ret out ->
  length out = length sig /\ norm2 out = norm2 sig.
Proof.
  intros HN HF Ho.
  destruct (shift_signal_returns sig s F HN HF)
    as [X [out' [HX [HlX [Ho' [Hlo Hfo]]]]]].
  rewrite Ho in Ho'. injection Ho' as <-. split; [exact Hlo|].
  pose proof (norm2_fft sig X HX) as E1.
  pose proof (norm2_fft out _ Hfo) as E2.
  rewrite norm2_phase_ramp in E2 by congruence. rewrite Hlo in E2.
  assert (HNR : 0 < INR (length sig)) by (apply lt_0_INR; exact HN).
  apply (Rmult_eq_reg_l (INR (length sig))); lra.
Qed.

Lemma shift_signal_zero (n : nat) (s : R) (F : list R) :
  (0 < n)%nat -> length F = n ->
  shift_signal (repeat 0%C n) s F = Ret (repeat 0%C n).
Proof.
  intros Hn HF.
  assert (Hl : length (repeat 0%C n) = n) by apply repeat_length.
  destruct (shift_signal_returns (repeat 0%C n) s F) as
    [X [out [_ [_ [Ho _]]]]]; [lia | lia |].
  destruct (shift_signal_norm2 (repeat 0%C n) s F out) as [Hlo Hno];
    [lia | lia | exact Ho |].
  rewrite norm2_repeat_zero in Hno. apply norm2_eq_0 in Hno.
  apply Forall_zero_repeat in Hno. rewrite Hlo, Hl in Hno.
  rewrite Ho, Hno. reflexivity.
Qed.

Lemma max_abs2_ge (v : vec) :
  v <> [] ->
  exists m, max_abs2 v = Ret m /\ forall z, In z v -> Rsqr (Cmod z) <= m.
Proof.
  intros Hv. destruct v as [|z0 v]; [contradiction|].
  unfold max_abs2, np_amax. cbn [map concat app]. rewrite app_nil_r.
  eexists. split; [reflexivity|].
  intros z [<- | Hz].
  - apply fold_Rmax_ge_init.
  - apply fold_Rmax_ge. apply in_map_iff. exists z. split; [reflexivity | exact Hz].
Qed.

Lemma max_abs2_pos (v : vec) :
  ~ Forall (fun z => z = 0%C) v ->
  exists m, max_abs2 v = Ret m /\ 0 < m.
Proof.
  intros Hv.
  assert (Hne : v <> []) by (intros ->; apply Hv; constructor).
  destruct (max_abs2_ge v Hne) as [m [Em Hm]].
  exists m. split; [exact Em|].
  apply Exists_Forall_neg in Hv;
    [|intros z; destruct (Req_EM_T (fst z) 0); destruct (Req_EM_T (snd z) 0);
      [left; destruct z; simpl in *; subst; reflexivity
      | right; intros E; rewrite E in *; simpl in *; contradiction ..]].
  apply Exists_exists in Hv. destruct Hv as [z [Hz Hnz]].
  specialize (Hm z Hz).
  assert (0 < Rsqr (Cmod z)); [|lra].
  unfold Rsqr. rewrite Cmod_sqr. apply Cnorm2_pos. exact Hnz.
Qed.

Lemma Cdivr_as_mult (z : C) (x : R) : Cdivr z x = (z * RtoC (/ x))%C.
Proof. destruct z. Cunf. f_equal; unfold Rdiv; ring. Qed.

Lemma np_ifft_divr (w v : vec) (c : R) :
  np_ifft w = Ret v ->
  np_ifft (map (fun z => Cdivr z c) w) = Ret (map (fun z => Cdivr z c) v).
Proof.
  intros H.
  rewrite (map_ext _ (fun z => (z * RtoC (/ c))%C)) by (intros; apply Cdivr_as_mult).
  rewrite (map_ext (fun z => Cdivr z c) (fun z => (z * RtoC (/ c))%C))
    by (intros; apply Cdivr_as_mult).
  apply np_ifft_scal, H.
Qed.

Lemma map_scal_divr (N : nat) (v : vec) :
  (0 < N)%nat ->
  map (Cscal (INR N)) (map (fun z => Cdivr z (INR N)) v) = v.
Proof.
  intros HN. rewrite map_map. rewrite <- (map_id v) at 2.
  apply map_ext. intros [x y]. Cunf.
  assert (INR N <> 0) by (apply not_0_INR; lia).
  f_equal; field; assumption.
Qed.

(** The spectrum [fft(Obj * temp)/N] of the product with the shifted
    pulse, when the pulse and the frequency axis have [N > 0] entries. *)
Lemma ePIE_spectrum (Obj : vec) (d : R) (F : list R) :
  (0 < length Obj)%nat -> length F = length Obj ->
  exists temp f,
    shift_signal Obj d F = Ret temp /\ length temp = length Obj /\
    norm2 temp = norm2 Obj /\
    np_fft (map2 Cmult Obj temp) = Ret f /\ length f = length Obj /\
    np_ifft f = Ret (map2 Cmult Obj temp) /\
    fft_over_N (length Obj) (map2 Cmult Obj temp)
    = Ret (map (fun z => Cdivr z (INR (length Obj))) f).
Proof.
  intros HN HF.
  destruct (shift_signal_returns Obj d F HN HF)
    as [X [temp [_ [_ [Ht [Hlt _]]]]]].
  destruct (shift_signal_norm2 Obj d F temp HN HF Ht) as [_ Hnt].
  assert (Hlp : length (map2 Cmult Obj temp) = length Obj)
    by (rewrite length_map2; lia).
  destruct (ifft_fft_vec (map2 Cmult Obj temp)) as [f [Hf [Hlf Hif]]]; [lia|].
  exists temp, f. repeat split; try assumption; try congruence.
  unfold fft_over_N. rewrite Hf. reflexivity.
Qed.

Lemma ePIE_update_consistent (Obj temp f : vec) (d : R) (F : list R)
    (Icol : list R) (alpha : R) :
  let N := length Obj in
  (0 < N)%nat -> length F = N ->
  ~ Forall (fun z => z = 0%C) Obj ->
  shift_signal Obj d F = Ret temp -> length temp = N ->
  norm2 temp = norm2 Obj ->
  np_fft (map2 Cmult Obj temp) = Ret f -> length f = N ->
  np_ifft f = Ret (map2 Cmult Obj temp) ->
  np_roll 0 Icol (Z.of_nat (N / 2))
  = map Cmod (map (fun z => Cdivr z (INR N)) f) ->
  ePIE_update N N Obj d F Icol alpha
  = Ret (Field Obj,
         map Fin (np_roll 0 Icol (Z.of_nat (N / 2) + Z.of_nat (N / 2)))).
Proof.
  intros N HN HF Hnz Ht Hlt Hnt Hf Hlf Hif HI.
  set (S := map (fun z => Cdivr z (INR N)) f) in *.
  set (psi := map2 Cmult Obj temp) in *.
  assert (Hlp : length psi = N) by (unfold psi; rewrite length_map2; lia).
  assert (HlS : length S = N) by (unfold S; rewrite length_map; exact Hlf).
  assert (HlI : length Icol = N).
  { rewrite <- (length_np_roll 0 Icol (Z.of_nat (N / 2))), HI, length_map.
    exact HlS. }
  assert (HS : fft_over_N N psi = Ret S) by (unfold fft_over_N; rewrite Hf; reflexivity).
  destruct (max_abs2_pos Obj Hnz) as [mo [Emo Hmo]].
  assert (Hnzt : ~ Forall (fun z => z = 0%C) temp).
  { intros Hz. apply Hnz. apply norm2_eq_0. rewrite <- Hnt.
    apply norm2_zero, Hz. }
  destruct (max_abs2_pos temp Hnzt) as [mt [Emt Hmt]].
  unfold ePIE_update. rewrite Ht. cbn [bind].
  rewrite (broadcast2_same Cmult Obj temp) by lia. cbn [bind]. fold psi.
  rewrite HS. cbn [bind].
  rewrite HlI, Nat.eqb_refl. cbn [bind].
  rewrite HlS, Nat.eqb_refl. cbn [andb bind].
  rewrite HI.
  rewrite (map2_map_map Cscal Cmod (fun z => cis (np_angle z)) S).
  rewrite (map_ext _ (fun z => z)) by (intros; apply Cmod_cis_angle).
  rewrite map_id.
  unfold S at 1. rewrite (np_ifft_divr f psi (INR N) Hif). cbn [bind].
  rewrite (map_scal_divr N psi HN).
  rewrite Emt, Emo. cbn [bind].
  rewrite (broadcast2_same Cminus psi psi) by reflexivity. cbn [bind].
  rewrite map2_minus_self, Hlp.
  rewrite broadcast2_same
    by (rewrite !length_map, repeat_length; exact Hlt).
  cbn [bind].
  rewrite map2_mult_zero_r by (rewrite !length_map; exact Hlt).
  rewrite broadcast2_same
    by (rewrite !length_map, repeat_length; reflexivity).
  cbn [bind].
  rewrite map2_mult_zero_r by (rewrite !length_map; reflexivity).
  rewrite (shift_signal_zero N (- d) F HN HF). cbn [bind].
  rewrite broadcast2_same by (rewrite repeat_length; reflexivity).
  cbn [bind]. rewrite map2_plus_zero_r by reflexivity.
  rewrite broadcast2_same by (rewrite repeat_length; reflexivity).
  cbn [bind]. rewrite map2_plus_zero_r by reflexivity.
  rewrite (broadcast2_same Cmult Obj temp) by lia. cbn [bind]. fold psi.
  rewrite HS. cbn [bind]. cbv zeta.
  destruct (Req_EM_T mt 0) as [E | _]; [lra|].
  destruct (Req_EM_T mo 0) as [E | _]; [lra|].
  rewrite HlS.
  rewrite <- (np_roll_map Cmod 0%C 0 S _ Cmod_0).
  rewrite <- HI, np_roll_roll. reflexivity.
Qed.

Lemma np_roll_full {A : Type} (d : A) (v : list A) :
  np_roll d v (Z.of_nat (length v)) = v.
Proof.
  unfold np_roll. transitivity (mk_vec (length v) (fun i => nth i v d));
    [|apply mk_vec_nth].
  apply mk_vec_ext. intros i Hi. f_equal.
  rewrite <- (wrap_small (length v) i Hi) at 2.
  apply wrap_eqm.
  replace (Z.of_nat i - Z.of_nat (length v))%Z
    with (Z.of_nat i + (-1) * Z.of_nat (length v))%Z by ring.
  apply Z_mod_plus_full.
Qed.

(** A pulse whose second-harmonic spectrum at the delay [d] has the
    measured moduli is a fixed point of the update, for every strength
    [alpha]: when [fftshift(I[:, s])] equals [abs(fft(Obj * temp)/N)], the
    body of the loop leaves [Obj] as it is.  The column it writes into [Ir]
    is the measured column rolled by [2*(N // 2)], which is the measured
    column itself when [N] is even. *)
Theorem ePIE_update_fixed_point (Obj : vec) (d : R) (F : list R) :
  let N := length Obj in
  length F = N -> ~ Forall (fun z => z = 0%C) Obj ->
  exists temp S,
    shift_signal Obj d F = Ret temp /\
    fft_over_N N (map2 Cmult Obj temp) = Ret S /\
    forall (Icol : list R) (alpha : R),
      np_roll 0 Icol (Z.of_nat (N / 2)) = map Cmod S ->
      ePIE_update N N Obj d F Icol alpha
      = Ret (Field Obj,
             map Fin (np_roll 0 Icol (Z.of_nat (N / 2) + Z.of_nat (N / 2))))
      /\ (Nat.even N = true ->
          ePIE_update N N Obj d F Icol alpha = Ret (Field Obj, map Fin Icol)).
Proof.
  intros N HF Hnz.
  assert (HN : (0 < N)%nat).
  { unfold N. destruct Obj; [exfalso; apply Hnz; constructor | simpl; lia]. }
  destruct (ePIE_spectrum Obj d F HN HF)
    as [temp [f [Ht [Hlt [Hnt [Hf [Hlf [Hif HS]]]]]]]].
  exists temp, (map (fun z => Cdivr z (INR N)) f).
  split; [exact Ht|]. split; [exact HS|].
  intros Icol alpha HI.
  pose proof (ePIE_update_consistent Obj temp f d F Icol alpha HN HF Hnz Ht
                Hlt Hnt Hf Hlf Hif HI) as E.
  split; [exact E|].
  intros Hev. etransitivity; [exact E|]. do 3 f_equal.
  assert (HlI : length Icol = N).
  { rewrite <- (length_np_roll 0 Icol (Z.of_nat (N / 2))), HI, !length_map.
    exact Hlf. }
  rewrite <- (np_roll_full 0 Icol) at 2. f_equal. rewrite HlI.
  apply Nat.even_spec in Hev. destruct Hev as [k Hk].
  assert (Ek : (N / 2 = k)%nat)
    by (rewrite Hk, Nat.mul_comm; apply Nat.div_mul; lia).
  fold N. rewrite Ek. lia.
Qed.

Lemma broadcast2_length {A B D : Type} (f : A -> B -> D) (a : list A)
    (b : list B) (c : list D) :
  broadcast2 f a b = Ret c ->
  (length a = length b /\ length c = length a)
  \/ (length a = 1%nat /\ length c = length b)
  \/ (length b = 1%nat /\ length c = length a).
Proof.
  unfold broadcast2. destruct (length a =? length b)%nat eqn:E.
  - intros H. injection H as <-. apply Nat.eqb_eq in E. left.
    rewrite length_map2. lia.
  - destruct a as [|x [|x' a]].
    + destruct b as [|y [|y' b]]; intros H; try discriminate H.
      injection H as <-. right. right. split; reflexivity.
    + intros H. injection H as <-. right. left. rewrite length_map.
      split; reflexivity.
    + destruct b as [|y [|y' b]]; intros H; try discriminate H.
      injection H as <-. right. right. simpl. rewrite ?length_map.
      split; reflexivity.
Qed.

Lemma broadcast2_error {A B D : Type} (f : A -> B -> D) (a : list A)
    (b : list B) (e : exn) :
  broadcast2 f a b = Raise e -> e = ValueError.
Proof.
  unfold broadcast2. destruct (length a =? length b)%nat; [discriminate|].
  destruct a as [|x [|x' a]]; [|discriminate|];
    destruct b as [|y [|y' b]]; intros H; try discriminate H;
    injection H as <-; reflexivity.
Qed.

Lemma np_fft_length (v w : vec) :
  np_fft v = Ret w -> length w = length v /\ (0 < length v)%nat.
Proof.
  unfold np_fft. destruct (length v =? 0)%nat eqn:E; [discriminate|].
  intros H. injection H as <-. apply Nat.eqb_neq in E.
  rewrite length_mk_vec. lia.
Qed.

Lemma np_ifft_length (v w : vec) :
  np_ifft v = Ret w -> length w = length v /\ (0 < length v)%nat.
Proof.
  unfold np_ifft. destruct (length v =? 0)%nat eqn:E; [discriminate|].
  intros H. injection H as <-. apply Nat.eqb_neq in E.
  rewrite length_mk_vec. lia.
Qed.

Lemma np_fft_error (v : vec) (e : exn) : np_fft v = Raise e -> e = ValueError.
Proof.
  unfold np_fft. destruct (length v =? 0)%nat; [|discriminate].
  intros H. injection H as <-. reflexivity.
Qed.

Lemma np_ifft_error (v : vec) (e : exn) : np_ifft v = Raise e -> e = ValueError.
Proof.
  unfold np_ifft. destruct (length v =? 0)%nat; [|discriminate].
  intros H. injection H as <-. reflexivity.
Qed.

Lemma shift_signal_error (sig : vec) (s : R) (F : list R) (e : exn) :
  shift_signal sig s F = Raise e -> e = ValueError.
Proof.
  unfold shift_signal.
  destruct (np_fft sig) as [X | e1] eqn:E1; cbn [bind].
  - destruct (broadcast2 _ X F) as [p | e2] eqn:E2; cbn [bind].
    + apply np_ifft_error.
    + intros H. injection H as <-. apply (broadcast2_error _ _ _ _ E2).
  - intros H. injection H as <-. apply (np_fft_error _ _ E1).
Qed.

Lemma shift_signal_length (sig : vec) (s : R) (F : list R) (out : vec) :
  shift_signal sig s F = Ret out ->
  (0 < length sig)%nat /\ (0 < length out)%nat /\
  ((length sig = length F /\ length out = length sig)
   \/ (length sig = 1%nat /\ length out = length F)
   \/ (length F = 1%nat /\ length out = length sig)).
Proof.
  unfold shift_signal. intros H.
  apply bind_ret_inv in H. destruct H as [X [HX H]].
  apply bind_ret_inv in H. destruct H as [p [Hp H]].
  apply np_fft_length in HX. apply np_ifft_length in H.
  apply broadcast2_length in Hp. lia.
Qed.

Lemma fft_over_N_length (N : nat) (psi w : vec) :
  fft_over_N N psi = Ret w -> length w = length psi /\ (0 < length psi)%nat.
Proof.
  unfold fft_over_N. intros H. apply bind_ret_inv in H.
  destruct H as [f [Hf H]]. injection H as <-.
  apply np_fft_length in Hf. rewrite length_map. exact Hf.
Qed.

Lemma fft_over_N_error (N : nat) (psi : vec) (e : exn) :
  fft_over_N N psi = Raise e -> e = ValueError.
Proof.
  unfold fft_over_N. destruct (np_fft psi) as [f | e1] eqn:E1; cbn [bind];
    [discriminate|].
  intros H. injection H as <-. apply (np_fft_error _ _ E1).
Qed.

Lemma ePIE_update_reshape_error (N K : nat) (Obj : vec) (d : R) (F : list R)
    (Icol : list R) (alpha : R) :
  length Icol <> K ->
  ePIE_update N K Obj d F Icol alpha = Raise ValueError.
Proof.
  intros HK. unfold ePIE_update.
  destruct (shift_signal Obj d F) as [temp | e] eqn:Et; cbn [bind];
    [|rewrite (shift_signal_error _ _ _ _ Et); reflexivity].
  destruct (broadcast2 Cmult Obj temp) as [psi | e] eqn:Ep; cbn [bind];
    [|rewrite (broadcast2_error _ _ _ _ Ep); reflexivity].
  destruct (fft_over_N N psi) as [psi_n | e] eqn:Ef; cbn [bind];
    [|rewrite (fft_over_N_error _ _ _ Ef); reflexivity].
  apply Nat.eqb_neq in HK. rewrite HK. reflexivity.
Qed.

Lemma ePIE_update_lengths (N K : nat) (Obj : vec) (d : R) (F : list R)
    (Icol : list R) (alpha : R) (o : npfield) (col : list npfloat) :
  ePIE_update N K Obj d F Icol alpha = Ret (o, col) ->
  K = N /\ length Icol = N /\ (0 < N)%nat /\ length col = N /\
  match o with
  | Field v => length v = N
  | NanField n => n = N
  end.
Proof.
  unfold ePIE_update. intros H.
  apply bind_ret_inv in H. destruct H as [temp [Ht H]].
  apply bind_ret_inv in H. destruct H as [psi [Hpsi H]].
  apply bind_ret_inv in H. destruct H as [psi_n [Hpn H]].
  apply bind_ret_inv in H. destruct H as [amp [Hamp H]].
  apply bind_ret_inv in H. destruct H as [psi_n1 [Hp1 H]].
  apply bind_ret_inv in H. destruct H as [g [Hg H]].
  apply bind_ret_inv in H. destruct H as [mt [_ H]].
  apply bind_ret_inv in H. destruct H as [mo [_ H]].
  apply bind_ret_inv in H. destruct H as [diff [Hdiff H]].
  apply bind_ret_inv in H. destruct H as [Corr1 [HC1 H]].
  apply bind_ret_inv in H. destruct H as [c2 [Hc2 H]].
  apply bind_ret_inv in H. destruct H as [Corr2 [HC2 H]].
  apply bind_ret_inv in H. destruct H as [o1 [Ho1 H]].
  apply bind_ret_inv in H. destruct H as [Obj' [HO' H]].
  apply bind_ret_inv in H. destruct H as [ot [Hot H]].
  apply bind_ret_inv in H. destruct H as [s [Hs H]].
  cbv zeta in H.
  destruct (length Icol =? K)%nat eqn:EK; [|discriminate Hamp].
  injection Hamp as <-. apply Nat.eqb_eq in EK.
  destruct ((length psi_n =? N)%nat && (K =? N)%nat) eqn:EN;
    [|discriminate Hp1].
  injection Hp1 as <-. apply andb_prop in EN. destruct EN as [EN1 EN2].
  apply Nat.eqb_eq in EN1, EN2.
  apply shift_signal_length in Ht. apply broadcast2_length in Hpsi.
  apply fft_over_N_length in Hpn.
  assert (L1 : length psi = length temp) by lia.
  assert (L2 : length temp = N) by lia.
  assert (L3 : length Obj = N \/ length Obj = 1%nat) by lia.
  assert (L4 : length F = N \/ length F = 1%nat) by lia.
  assert (L5 : (0 < N)%nat) by lia.
  clear Ht Hpsi Hpn.
  apply np_ifft_length in Hg.
  rewrite length_map2, length_np_roll, length_map in Hg.
  assert (L6 : length g = N) by lia.
  clear Hg.
  apply broadcast2_length in Hdiff. rewrite !length_map in Hdiff.
  assert (L7 : length diff = N) by lia.
  clear Hdiff.
  apply broadcast2_length in HC1. rewrite !length_map in HC1.
  assert (L8 : length Corr1 = N) by lia.
  clear HC1.
  apply broadcast2_length in Hc2. rewrite !length_map in Hc2.
  assert (L9 : length c2 = N) by lia.
  clear Hc2.
  apply shift_signal_length in HC2.
  assert (L10 : length Corr2 = N) by lia.
  clear HC2.
  apply broadcast2_length in Ho1.
  assert (L11 : length o1 = N) by lia.
  clear Ho1.
  apply broadcast2_length in HO'.
  assert (L12 : length Obj' = N) by lia.
  clear HO'.
  apply broadcast2_length in Hot.
  assert (L13 : length ot = N) by lia.
  clear Hot.
  apply fft_over_N_length in Hs.
  assert (L14 : length s = N) by lia.
  destruct (Req_EM_T mt 0); [|destruct (Req_EM_T mo 0)];
    injection H as <- <-;
    rewrite !length_map, length_np_roll; lia.
Qed.

(** The body of the loop asks for a square trace.  A column of [I] whose
    length [N] differs from the number [K] of delays cannot be reshaped to
    [(K, 1)], and the update raises [ValueError] whatever the other
    arguments are; and whenever the update returns, the trace has as many
    delays as frequencies, and the new [Obj] and the column written into
    [Ir] have [N] entries each. *)
Theorem ePIE_update_square (N K : nat) (Obj : vec) (d : R) (F : list R)
    (Icol : list R) (alpha : R) :
  (length Icol <> K ->
   ePIE_update N K Obj d F Icol alpha = Raise ValueError)
  /\ (forall o col,
        ePIE_update N K Obj d F Icol alpha = Ret (o, col) ->
        K = N /\ length Icol = N /\ (0 < N)%nat /\ length col = N /\
        match o with
        | Field v => length v = N
        | NanField n => n = N
        end).
Proof.
  split.
  - apply ePIE_update_reshape_error.
  - intros o col. apply ePIE_update_lengths.
Qed.

Lemma ePIE_update_fixed_point_witness :
  exists temp S,
    shift_signal [RtoC 1; Ci] (1 / 3) [-1; 0] = Ret temp /\
    fft_over_N (length [RtoC 1; Ci]) (map2 Cmult [RtoC 1; Ci] temp) = Ret S /\
    forall (Icol : list R) (alpha : R),
      np_roll 0 Icol (Z.of_nat (length [RtoC 1; Ci] / 2)) = map Cmod S ->
      ePIE_update (length [RtoC 1; Ci]) (length [RtoC 1; Ci]) [RtoC 1; Ci]
        (1 / 3) [-1; 0] Icol alpha
      = Ret (Field [RtoC 1; Ci],
             map Fin (np_roll 0 Icol
                        (Z.of_nat (length [RtoC 1; Ci] / 2)
                         + Z.of_nat (length [RtoC 1; Ci] / 2))))
      /\ (Nat.even (length [RtoC 1; Ci]) = true ->
          ePIE_update (length [RtoC 1; Ci]) (length [RtoC 1; Ci])
            [RtoC 1; Ci] (1 / 3) [-1; 0] Icol alpha
          = Ret (Field [RtoC 1; Ci], map Fin Icol)).
Proof.
  apply (ePIE_update_fixed_point [RtoC 1; Ci] (1 / 3) [-1; 0]).
  - reflexivity.
  - intros H. inversion H as [|z l Hz _]. injection Hz as Hz. lra.
Defined.

(** ** The range of the FROG error *)

Lemma Rsum_squares_le (X : list R) :
  (forall x, In x X -> Rabs x <= 1) ->
  Rsum (map2 Rmult X X) <= INR (length X).
Proof.
  induction X as [|a X IH]; intros H.
  - simpl. lra.
  - cbn [map2 Rsum fold_right]. fold (Rsum (map2 Rmult X X)).
    replace (INR (length (a :: X))) with (1 + INR (length X))
      by (cbn [length]; rewrite S_INR; ring).
    assert (Ha : a * a <= 1).
    { pose proof (H a (or_introl eq_refl)) as Ha.
      unfold Rabs in Ha. destruct (Rcase_abs a); nra. }
    assert (HX : Rsum (map2 Rmult X X) <= INR (length X)).
    { apply IH. intros x Hx. apply H. right. exact Hx. }
    lra.
Qed.

Lemma error_range (r c : nat) (fm F : mat R) :
  has_shape r c fm -> has_shape r c F -> (0 < r)%nat -> (0 < c)%nat ->
  total (mat_map2 Rmult F F) <> 0 ->
  exists g,
    rms_diff (lift fm) (scale_trace (lift fm) F) = Fin g /\
    0 <= g <= sqrt (total (mat_map2 Rmult fm fm) / INR (r * c)) /\
    ((forall x, In x (concat fm) -> Rabs x <= 1) -> g <= 1).
Proof.
  intros Hfm HF Hr Hc HS.
  rewrite (error_finite r c fm F Hfm HF Hr Hc HS).
  eexists. split; [reflexivity|].
  assert (Hrc : 0 < INR (r * c)) by (apply lt_0_INR; nia).
  assert (HFF : 0 < total (mat_map2 Rmult F F)).
  { assert (0 <= total (mat_map2 Rmult F F)); [|lra].
    unfold total. rewrite (concat_mat_map2 _ r c) by assumption.
    apply Rsum_squares_nonneg. }
  assert (Hres :
    sq_residual (total (mat_map2 Rmult fm F) / total (mat_map2 Rmult F F)) fm F
    <= total (mat_map2 Rmult fm fm)).
  { rewrite (sq_residual_optimum r c fm F Hfm HF HS).
    assert (0 <= total (mat_map2 Rmult fm F) * total (mat_map2 Rmult fm F)
                 / total (mat_map2 Rmult F F)); [|lra].
    apply Rmult_le_pos; [nra | left; apply Rinv_0_lt_compat; exact HFF]. }
  assert (Hle :
    sqrt (sq_residual (total (mat_map2 Rmult fm F) / total (mat_map2 Rmult F F))
            fm F / INR (r * c))
    <= sqrt (total (mat_map2 Rmult fm fm) / INR (r * c))).
  { apply sqrt_le_1_alt. apply Rmult_le_compat_r; [|exact Hres].
    left. apply Rinv_0_lt_compat. exact Hrc. }
  split; [split; [apply sqrt_pos | exact Hle]|].
  intros Hb. eapply Rle_trans; [exact Hle|].
  rewrite <- sqrt_1. apply sqrt_le_1_alt.
  assert (Ht : total (mat_map2 Rmult fm fm) <= INR (r * c)).
  { unfold total. rewrite (concat_mat_map2 _ r c) by assumption.
    rewrite <- (length_concat_shape r c fm Hfm).
    apply Rsum_squares_le. exact Hb. }
  apply (Rmult_le_reg_r (INR (r * c))); [exact Hrc|].
  unfold Rdiv. rewrite Rmult_assoc, Rinv_l by lra. lra.
Qed.

(** The error [G] of a reconstruction that is not identically zero is a
    finite number between zero and the root mean square of the measured
    trace, the error that a reconstruction scaled by zero would have; it is
    at most one when no entry of the measured trace exceeds one in
    modulus. *)
Theorem error_at_most_trace_rms (r c : nat) (fm F : mat R) :
  has_shape r c fm -> has_shape r c F -> (0 < r)%nat -> (0 < c)%nat ->
  total (mat_map2 Rmult F F) <> 0 ->
  exists g,
    rms_diff (lift fm) (scale_trace (lift fm) F) = Fin g /\
    0 <= g <= sqrt (total (mat_map2 Rmult fm fm) / INR (r * c)) /\
    ((forall x, In x (concat fm) -> Rabs x <= 1) -> g <= 1).
Proof. exact (error_range r c fm F). Qed.

Lemma error_at_most_trace_rms_witness :
  exists g,
    rms_diff (lift [[1; 0]; [1 / 2; 0]])
      (scale_trace (lift [[1; 0]; [1 / 2; 0]]) [[1; 1]; [1; 1]]) = Fin g /\
    0 <= g <= sqrt (total (mat_map2 Rmult [[1; 0]; [1 / 2; 0]]
                             [[1; 0]; [1 / 2; 0]]) / INR (2 * 2)) /\
    ((forall x, In x (concat [[1; 0]; [1 / 2; 0]]) -> Rabs x <= 1) -> g <= 1).
Proof.
  apply (error_at_most_trace_rms 2 2 [[1; 0]; [1 / 2; 0]] [[1; 1]; [1; 1]]).
  - apply has_shape_2x2.
  - apply has_shape_2x2.
  - lia.
  - lia.
  - unfold total. simpl. lra.
Defined.

Lemma Rsum_pos_exists (l : list R) : 0 < Rsum l -> exists x, In x l /\ 0 < x.
Proof.
  induction l as [|a l IH]; simpl; intros H; [lra|].
  destruct (Rlt_dec 0 a) as [Ha | Ha].
  - exists a. split; [left; reflexivity | exact Ha].
  - destruct IH as [x [Hx Hp]]; [lra|].
    exists x. split; [right; exact Hx | exact Hp].
Qed.

Lemma norm2_pos (P : vec) : ~ Forall (fun z => z = 0%C) P -> 0 < norm2 P.
Proof.
  intros H. pose proof (norm2_nonneg P) as Hn.
  destruct (Req_EM_T (norm2 P) 0) as [E | E]; [|lra].
  exfalso. apply H, norm2_eq_0, E.
Qed.

(** The trace of a field without anti-aliasing, with its total. *)
Lemma makeFROG_total (P : vec) (domain : Z) :
  (0 < length P)%nat -> domain = 0%Z \/ domain = 1%Z ->
  let N := length P in
  let EF := mk_mat N N (time_entry N (time_product P 0)) in
  makeFROG P domain 0 = Ret (Some (abs2 EF, EF)) /\
  total (abs2 EF) = INR N * (norm2 P * norm2 P).
Proof.
  intros HN Hd N EF. split.
  - destruct Hd as [-> | ->].
    + apply (makeFROG_time_closed P 0 HN).
    + apply (makeFROG_freq_as_time P HN).
  - unfold EF. rewrite total_abs2_mk_mat.
    rewrite (rsum_ext _ _ (fun c => INR N * autocorrelation P (delay_index N c)))
      by (intros c Hc; apply (time_entry_colsum P c Hc)).
    rewrite rsum_mult_l. f_equal. apply (autocorrelation_sum P).
Qed.

(** A trace without negative entries and with a positive one is divided by
    its positive maximum: the normalised entries lie between 0 and 1. *)
Lemma normalize_max_one_unit (arr : mat R) :
  (exists x, In x (concat arr) /\ 0 < x) ->
  (forall x, In x (concat arr) -> 0 <= x) ->
  exists fm,
    normalize_max_one arr = Ret (lift fm) /\
    (forall r c, has_shape r c arr -> has_shape r c fm) /\
    forall y, In y (concat fm) -> Rabs y <= 1.
Proof.
  intros [x0 [Hin0 Hpos0]] Hnn. unfold normalize_max_one, np_amax.
  destruct (concat arr) as [|a l] eqn:Ec; [destruct Hin0|].
  set (M := fold_left Rmax l a).
  assert (Hge : forall y, In y (a :: l) -> y <= M).
  { intros y [-> | Hy]; [apply fold_Rmax_ge_init | apply fold_Rmax_ge, Hy]. }
  assert (HM : 0 < M) by (eapply Rlt_le_trans; [exact Hpos0 | apply Hge, Hin0]).
  exists (mat_map (fun x => x / M) arr). cbn [bind]. split; [|split].
  - f_equal. unfold lift, mat_map. rewrite map_map. apply map_ext.
    intros row. rewrite map_map. apply map_ext. intros x.
    apply np_div_fin. lra.
  - intros r c HS. apply has_shape_map, HS.
  - rewrite concat_mat_map, Ec. intros y Hy. apply in_map_iff in Hy.
    destruct Hy as [x [<- Hx]].
    pose proof (Hge x Hx) as H1. pose proof (Hnn x Hx) as H2.
    assert (0 <= x / M <= 1).
    { split.
      - unfold Rdiv. apply Rmult_le_pos; [exact H2|].
        apply Rlt_le, Rinv_0_lt_compat, HM.
      - apply (Rmult_le_reg_r M); [exact HM|].
        unfold Rdiv. rewrite Rmult_assoc, Rinv_l by lra. lra. }
    rewrite Rabs_right by lra. lra.
Qed.

Lemma initial_guess_nonzero (N : nat) (rand : nat -> R) :
  (0 < N)%nat ->
  length (initial_guess N rand) = N /\
  ~ Forall (fun z => z = 0%C) (initial_guess N rand).
Proof.
  intros HN. unfold initial_guess. split; [apply length_mk_vec|].
  intros H. rewrite Forall_forall in H.
  assert (Hin : In (nth 0 (mk_vec N
            (fun n => Cscal (exp (- 2 * ln 2 * Rsqr ((INR n - half N) / (INR N / 10))))
                        (cis (0.1 * 2 * PI * rand n)))) 0%C)
            (mk_vec N
            (fun n => Cscal (exp (- 2 * ln 2 * Rsqr ((INR n - half N) / (INR N / 10))))
                        (cis (0.1 * 2 * PI * rand n))))).
  { apply nth_In. rewrite length_mk_vec. exact HN. }
  apply H in Hin. rewrite nth_mk_vec in Hin by exact HN.
  apply (f_equal Cnorm2) in Hin. rewrite Cnorm2_scal, Cnorm2_cis, Cnorm2_0 in Hin.
  pose proof (exp_pos (- 2 * ln 2 * Rsqr ((INR 0 - half N) / (INR N / 10)))).
  nra.
Qed.

Lemma start_field_nonzero (cfg : config) (N : nat) :
  (0 < N)%nat ->
  seed cfg = None
  \/ (exists s, seed cfg = Some s /\ length s = N
                /\ ~ Forall (fun z => z = 0%C) s) ->
  length (start_field cfg N) = N /\
  ~ Forall (fun z => z = 0%C) (start_field cfg N).
Proof.
  intros HN [E | [s [E [Hl Hs]]]]; unfold start_field; rewrite E.
  - apply initial_guess_nonzero, HN.
  - split; assumption.
Qed.

Lemma gp_init_error (cfg : config) (N : nat) (Fm0 : mat R) :
  has_shape N N Fm0 ->
  (exists x, In x (concat Fm0) /\ 0 < x) ->
  (forall x, In x (concat Fm0) -> 0 <= x) ->
  method0 cfg = 0%Z \/ method0 cfg = 1%Z -> method1 cfg = 0%Z ->
  length (start_field cfg N) = N ->
  ~ Forall (fun z => z = 0%C) (start_field cfg N) ->
  exists fm EF g,
    gp_init cfg Fm0
    = Ret (lift fm,
           {| iteration := 0; Pt := start_field cfg N; EFr := EF;
              Fr := scale_trace (lift fm) (abs2 EF); G := Fin g |}) /\
    has_shape N N fm /\ (forall y, In y (concat fm) -> Rabs y <= 1) /\
    has_shape N N EF /\ 0 <= g <= 1.
Proof.
  intros HS Hpos Hnn Hd Ha Hl Hnz.
  assert (HN : (0 < N)%nat).
  { destruct N; [|lia]. rewrite (has_shape_0 _ _ HS) in Hpos.
    destruct Hpos as [x [[] _]]. }
  destruct (normalize_max_one_unit Fm0 Hpos Hnn) as [fm [Efm [Hsh Hb]]].
  specialize (Hsh N N HS).
  assert (HlP : (0 < length (start_field cfg N))%nat) by lia.
  destruct (makeFROG_total (start_field cfg N) (method0 cfg) HlP Hd)
    as [EM ET].
  rewrite Hl in EM, ET.
  set (EF := mk_mat N N (time_entry N (time_product (start_field cfg N) 0))) in *.
  assert (HEF : has_shape N N EF) by apply has_shape_mk_mat.
  assert (HF : has_shape N N (abs2 EF)) by apply has_shape_abs2, HEF.
  assert (HT : total (mat_map2 Rmult (abs2 EF) (abs2 EF)) <> 0).
  { apply (total_squares_pos _ N N HF). apply Rsum_pos_exists.
    fold (total (abs2 EF)). rewrite ET.
    pose proof (norm2_pos _ Hnz). assert (0 < INR N) by (apply lt_0_INR; lia).
    apply Rmult_lt_0_compat; [assumption | nra]. }
  destruct (error_range N N fm (abs2 EF) Hsh HF HN HN HT) as [g [Eg [Hg1 Hg2]]].
  exists fm, EF, g.
  split; [|split; [exact Hsh | split; [exact Hb | split; [exact HEF|]]]].
  - unfold gp_init. destruct Fm0 as [|row rest].
    + destruct HS as [HS _]. simpl in HS. lia.
    + assert (Hrow : length row = N).
      { destruct HS as [_ HS]. inversion HS; assumption. }
      cbn [bind]. rewrite Hrow. fold (start_field cfg N).
      rewrite Efm. cbn [bind]. rewrite Ha, EM. cbn [unpack bind].
      rewrite Eg. reflexivity.
  - split; [apply Hg1 | apply Hg2, Hb].
Qed.

(** With anti-aliasing off, for a square trace without negative entries and
    with a positive one, and for the random initial guess (or a loaded seed
    of [N] entries that is not identically zero), the code before the loop
    of [retrievePhase] goes through and the first error [G] is a finite
    number between 0 and 1. *)
Theorem retrievePhase_initial_error (cfg : config) (N : nat) (Fm0 : mat R) :
  has_shape N N Fm0 ->
  (exists x, In x (concat Fm0) /\ 0 < x) ->
  (forall x, In x (concat Fm0) -> 0 <= x) ->
  method0 cfg = 0%Z \/ method0 cfg = 1%Z -> method1 cfg = 0%Z ->
  seed cfg = None
  \/ (exists s, seed cfg = Some s /\ length s = N
                /\ ~ Forall (fun z => z = 0%C) s) ->
  exists Fm st g,
    gp_init cfg Fm0 = Ret (Fm, st) /\
    iteration st = 0%nat /\ Pt st = start_field cfg N /\
    G st = Fin g /\ 0 <= g <= 1.
Proof.
  intros HS Hpos Hnn Hd Ha Hseed.
  assert (HN : (0 < N)%nat).
  { destruct N; [|lia]. rewrite (has_shape_0 _ _ HS) in Hpos.
    destruct Hpos as [x [[] _]]. }
  destruct (start_field_nonzero cfg N HN Hseed) as [Hl Hnz].
  destruct (gp_init_error cfg N Fm0 HS Hpos Hnn Hd Ha Hl Hnz)
    as [fm [EF [g [E [_ [_ [_ Hg]]]]]]].
  eexists. eexists. exists g. split; [exact E|].
  cbn [iteration Pt G]. repeat split; try reflexivity; apply Hg.
Qed.

Lemma all_fin_list_length (l : list npfloat) (x : list R) :
  all_fin_list l = Some x -> length x = length l.
Proof.
  revert x. induction l as [|a l IH]; intros x H; simpl in H.
  - injection H as <-. reflexivity.
  - destruct (is_fin a); [|discriminate].
    destruct (all_fin_list l) as [xs|]; [|discriminate].
    injection H as <-. simpl. rewrite (IH xs eq_refl). reflexivity.
Qed.

Lemma all_fin_shape (r c : nat) (m : mat npfloat) (w : mat R) :
  all_fin m = Some w -> has_shape r c m -> has_shape r c w.
Proof.
  revert r w. induction m as [|row m IH]; intros r w H HS; simpl in H.
  - injection H as <-. destruct HS as [HS _]. split; [exact HS | constructor].
  - destruct (all_fin_list row) as [x|] eqn:Ex; [|discriminate].
    destruct (all_fin m) as [xs|]; [|discriminate].
    injection H as <-.
    destruct r as [|r]; [destruct HS as [HS _]; discriminate HS|].
    apply has_shape_cons in HS. destruct HS as [Hrow HS].
    pose proof (IH r xs eq_refl HS) as [Hl Hf].
    split; [simpl; rewrite Hl; reflexivity|].
    constructor; [|exact Hf].
    rewrite (all_fin_list_length _ _ Ex). exact Hrow.
Qed.

Lemma matvec_length (m : mat C) (v w : vec) :
  matvec m v = Ret w -> length w = nrows m.
Proof.
  unfold matvec. destruct (ncols m =? length v)%nat; [|discriminate].
  intros H. injection H as <-. apply length_map.
Qed.

(** The field that [guessPulse] extracts, by the power method, from an
    [N x N] array has [N] entries. *)
Lemma guessPulse_length (svd_U0 : mat C -> res vec) (N : nat) (EF : mat C)
    (lastPt : vec) (domain antialias : Z) (P : vec) :
  has_shape N N EF -> (0 < N)%nat ->
  guessPulse svd_U0 EF lastPt domain antialias 0 = Ret (Some (Field P)) ->
  length P = N.
Proof.
  intros HS HN. unfold guessPulse.
  rewrite (first_row_length N N EF HS HN). cbn [bind].
  change ((0 =? 0)%Z) with true. cbv iota.
  destruct (domain =? 0)%Z.
  - rewrite (ifft_axis0_shape N N) by (try exact HN; apply has_shape_roll_axis0, HS).
    cbn [bind].
    rewrite (rotate_rows_shape N 1 N)
      by (apply has_shape_ifftshift_axis1, has_shape_fliplr, has_shape_mk_mat).
    cbn [bind].
    match goal with
    | |- context [if (antialias =? 0)%Z then ?a else ?b] =>
        set (EF2 := if (antialias =? 0)%Z then a else b)
    end.
    assert (H2 : has_shape N N EF2).
    { unfold EF2. destruct (antialias =? 0)%Z;
        [|apply has_shape_antialias_time]; apply has_shape_mk_mat. }
    intros H. apply bind_ret_inv in H. destruct H as [Pt [HPt H]].
    apply bind_ret_inv in HPt. destruct HPt as [w [_ HPt]].
    apply matvec_length in HPt.
    injection H as H. apply normalize_Field in H. destruct H as [_ [-> _]].
    rewrite length_map, HPt. apply H2.
  - destruct (domain =? 1)%Z; [|discriminate].
    set (EF1 := flipud (fliplr (roll_axis0
                  (roll_axis1 0%C (transpose 0%C EF)
                     (- py_int (py_plus (np_ceil (half N)) (-1))))
                  (- py_int (np_ceil (half N)))))).
    assert (H1 : has_shape N N EF1).
    { unfold EF1. apply has_shape_flipud, has_shape_fliplr,
        has_shape_roll_axis0, has_shape_roll_axis1, has_shape_transpose;
        assumption. }
    rewrite (fft_axis0_shape N N EF1 H1 HN). cbn [bind].
    rewrite (rotate_rows_shape N 1 N) by apply has_shape_mk_mat.
    cbn [bind].
    destruct (antialias =? 0)%Z.
    + cbn [bind].
      match goal with
      | |- context [matvec (ctranspose ?a)] => set (EF2 := a)
      end.
      assert (H2 : has_shape N N EF2)
        by (unfold EF2; apply has_shape_fliplr, has_shape_mk_mat).
      intros H. apply bind_ret_inv in H. destruct H as [Pt [HPt H]].
      apply bind_ret_inv in HPt. destruct HPt as [f [_ HPt]].
      apply bind_ret_inv in HPt. destruct HPt as [w [_ HPt]].
      apply bind_ret_inv in HPt. destruct HPt as [u [Hu HPt]].
      apply matvec_length in Hu. apply np_ifft_length in HPt.
      injection H as H. apply normalize_Field in H. destruct H as [_ [-> _]].
      rewrite length_map. destruct HPt as [-> _]. rewrite Hu. apply H2.
    + unfold np_floor. rewrite antialias_freq_float. cbn [bind]. discriminate.
Qed.

Lemma has_shape_scale_trace (r c : nat) (Fm : mat npfloat) (F : mat R) :
  has_shape r c F -> has_shape r c (scale_trace Fm F).
Proof.
  intros H. unfold scale_trace. apply has_shape_map, has_shape_lift, H.
Qed.

(** One pass through the loop keeps the shapes and leaves a finite error
    between 0 and 1, with anti-aliasing off in [makeFROG]. *)
Lemma gp_step_error (svd_U0 : mat C -> res vec) (cfg : config) (N : nat)
    (fm : mat R) (st st' : gp_state) :
  has_shape N N fm -> (forall y, In y (concat fm) -> Rabs y <= 1) ->
  (0 < N)%nat ->
  method0 cfg = 0%Z \/ method0 cfg = 1%Z -> method1 cfg = 0%Z ->
  has_shape N N (EFr st) -> has_shape N N (Fr st) ->
  gp_step svd_U0 cfg N (lift fm) st = Ret st' ->
  has_shape N N (EFr st') /\ has_shape N N (Fr st') /\
  exists g, G st' = Fin g /\ 0 <= g <= 1.
Proof.
  intros Hfm Hb HN Hd Ha HEF HFr. unfold gp_step. intros H.
  apply bind_ret_inv in H. destruct H as [p [Hp H]].
  unfold unpack in Hp. apply bind_ret_inv in Hp. destruct Hp as [o [Hg Ho]].
  destruct o as [p'|]; [|discriminate]. injection Ho as ->.
  unfold amplitude_update in *.
  destruct (all_fin (mat_map np_sqrt (safe_ratio (lift fm) (Fr st))))
    as [w|] eqn:Ew; [|discriminate].
  destruct p as [P | n]; [|discriminate].
  assert (Hw : has_shape N N w).
  { apply (all_fin_shape N N _ _ Ew). apply has_shape_map.
    unfold safe_ratio. apply has_shape_mat_map2;
      [apply has_shape_lift, Hfm | exact HFr]. }
  assert (HE' : has_shape N N (rescale (EFr st) w))
    by (unfold rescale; apply has_shape_mat_map2; assumption).
  pose proof (guessPulse_length svd_U0 N _ _ _ _ P HE' HN Hg) as HlP.
  assert (HnP : np_norm P = 1).
  { apply guessPulse_normalized in Hg. destruct Hg as [Q HQ].
    symmetry in HQ. apply normalize_Field in HQ. apply HQ. }
  apply bind_ret_inv in H. destruct H as [P' [HP' H]].
  unfold recentre in HP'. apply bind_ret_inv in HP'.
  destruct HP' as [s [_ HP']]. injection HP' as <-.
  set (P' := np_roll 0%C P (- s)) in *.
  assert (HlP' : length P' = N) by (unfold P'; rewrite length_np_roll; exact HlP).
  assert (HnP' : 0 < norm2 P').
  { rewrite <- np_norm_sqr. unfold P'. rewrite np_norm_roll, HnP. lra. }
  assert (HlP0 : (0 < length P')%nat) by lia.
  destruct (makeFROG_total P' (method0 cfg) HlP0 Hd) as [EM ET].
  rewrite HlP' in EM, ET. rewrite Ha, EM in H. cbn [unpack bind] in H.
  set (EF := mk_mat N N (time_entry N (time_product P' 0))) in *.
  assert (HEF2 : has_shape N N EF) by apply has_shape_mk_mat.
  assert (HF : has_shape N N (abs2 EF)) by apply has_shape_abs2, HEF2.
  assert (HT : total (mat_map2 Rmult (abs2 EF) (abs2 EF)) <> 0).
  { apply (total_squares_pos _ N N HF). apply Rsum_pos_exists.
    fold (total (abs2 EF)). rewrite ET.
    assert (0 < INR N) by (apply lt_0_INR; lia).
    apply Rmult_lt_0_compat; [assumption | nra]. }
  destruct (error_range N N fm (abs2 EF) Hfm HF HN HN HT) as [g [Eg [Hg1 Hg2]]].
  injection H as <-. cbn [EFr Fr G].
  split; [exact HEF2|]. split; [apply has_shape_scale_trace, HF|].
  exists g. split; [exact Eg|]. split; [apply Hg1 | apply Hg2, Hb].
Qed.

Lemma gp_loop_error (svd_U0 : mat C -> res vec) (cfg : config) (N : nat)
    (fm : mat R) (left : nat) (st st' : gp_state) :
  has_shape N N fm -> (forall y, In y (concat fm) -> Rabs y <= 1) ->
  (0 < N)%nat ->
  method0 cfg = 0%Z \/ method0 cfg = 1%Z -> method1 cfg = 0%Z ->
  has_shape N N (EFr st) -> has_shape N N (Fr st) ->
  (exists g, G st = Fin g /\ 0 <= g <= 1) ->
  gp_loop svd_U0 cfg left N (lift fm) st = Ret st' ->
  exists g, G st' = Fin g /\ 0 <= g <= 1.
Proof.
  intros Hfm Hb HN Hd Ha. revert st.
  induction left as [|k IH]; intros st HEF HFr HG H; cbn [gp_loop] in H.
  - injection H as <-. exact HG.
  - destruct (np_gtb (G st) (Fin (GTol cfg))).
    + apply bind_ret_inv in H. destruct H as [st1 [H1 H]].
      destruct (gp_step_error svd_U0 cfg N fm st st1 Hfm Hb HN Hd Ha HEF HFr H1)
        as [HEF1 [HFr1 HG1]].
      exact (IH st1 HEF1 HFr1 HG1 H).
    + injection H as <-. exact HG.
Qed.

(** With anti-aliasing off in [makeFROG], for a square trace without
    negative entries and with a positive one, and for the random initial
    guess (or a loaded seed of [N] entries that is not identically zero):
    whenever [retrievePhase] returns, whatever the number of iterations,
    the error [G] it ends with is a finite number between 0 and 1. *)
Theorem retrievePhase_error_range (svd_U0 : mat C -> res vec) (cfg : config)
    (N : nat) (Fm0 : mat R) (st : gp_state) :
  has_shape N N Fm0 ->
  (exists x, In x (concat Fm0) /\ 0 < x) ->
  (forall x, In x (concat Fm0) -> 0 <= x) ->
  method0 cfg = 0%Z \/ method0 cfg = 1%Z -> method1 cfg = 0%Z ->
  seed cfg = None
  \/ (exists s, seed cfg = Some s /\ length s = N
                /\ ~ Forall (fun z => z = 0%C) s) ->
  retrievePhase svd_U0 cfg Fm0 = Ret st ->
  exists g, G st = Fin g /\ 0 <= g <= 1.
Proof.
  intros HS Hpos Hnn Hd Ha Hseed H.
  assert (HN : (0 < N)%nat).
  { destruct N; [|lia]. rewrite (has_shape_0 _ _ HS) in Hpos.
    destruct Hpos as [x [[] _]]. }
  destruct (start_field_nonzero cfg N HN Hseed) as [Hl Hnz].
  destruct (gp_init_error cfg N Fm0 HS Hpos Hnn Hd Ha Hl Hnz)
    as [fm [EF [g [E [Hfm [Hb [HEF Hg]]]]]]].
  unfold retrievePhase in H. rewrite E in H. cbn [bind] in H.
  rewrite (has_shape_ncols N N Fm0 HS HN) in H.
  apply (gp_loop_error svd_U0 cfg N fm _ _ st Hfm Hb HN Hd Ha) in H;
    cbn [EFr Fr G].
  - exact H.
  - exact HEF.
  - apply has_shape_scale_trace, has_shape_abs2, HEF.
  - exists g. split; [reflexivity | exact Hg].
Qed.

Lemma retrievePhase_initial_error_witness :
  exists Fm st g,
    gp_init (default_config None) [[1; 0]; [1 / 2; 0]] = Ret (Fm, st) /\
    iteration st = 0%nat /\ Pt st = start_field (default_config None) 2 /\
    G st = Fin g /\ 0 <= g <= 1.
Proof.
  apply (retrievePhase_initial_error (default_config None) 2
           [[1; 0]; [1 / 2; 0]]).
  - apply has_shape_2x2.
  - exists 1. split; [simpl; tauto | lra].
  - simpl. intros x [<- | [<- | [<- | [<- | []]]]]; lra.
  - left. reflexivity.
  - reflexivity.
  - left. reflexivity.
Defined.

Lemma retrievePhase_error_range_witness :
  exists g,
    G {| iteration := 200; Pt := [RtoC 1; RtoC 0];
         EFr := [[RtoC 1; RtoC 0]; [RtoC 1; RtoC 0]];
         Fr := lift [[3 / 4; 0]; [3 / 4; 0]];
         G := Fin (sqrt (1 / 32)) |} = Fin g /\ 0 <= g <= 1.
Proof.
  apply (retrievePhase_error_range (fun _ => Raise LinAlgError)
           (default_config (Some [RtoC 1; RtoC 0])) 2 [[1; 0]; [1 / 2; 0]]).
  - apply has_shape_2x2.
  - exists 1. split; [simpl; tauto | lra].
  - simpl. intros x [<- | [<- | [<- | [<- | []]]]]; lra.
  - left. reflexivity.
  - reflexivity.
  - right. exists [RtoC 1; RtoC 0]. split; [reflexivity|].
    split; [reflexivity|].
    intros H. inversion H as [|z l Hz _]. injection Hz as Hz. lra.
  - apply retrievePhase_example.
Defined.

(** ** [FROG.freq_step_per_pixel] *)

Lemma py_div_nonzero (x y : R) : y <> 0 -> py_div x y = Return _ (x / y).
Proof.
  intros H. unfold py_div. destruct (Req_EM_T y 0); [contradiction | reflexivity].
Qed.

Lemma py_div_zero (x : R) : py_div x 0 = Throw _ (Builtin ZeroDivisionError).
Proof.
  unfold py_div. destruct (Req_EM_T 0 0); [reflexivity | contradiction].
Qed.

(** In mode 0 and for a configuration that holds the four optical
    constants, the frequency step per pixel is
    [c/1000 * d / (w * (w + d))] for the centre wavelength [w] and the
    wavelength step per pixel [d = grating * pixel size / focal length]; it
    is positive, and below the linear estimate [c/1000 * d / w^2], when the
    four constants are positive.  A constant equal to zero, or a total
    [w + d] equal to zero, gives [ZeroDivisionError].  In the product with
    the time step [ccddt] that [_get_settings] computes from the step size
    [s] of the stage, the speed of light drops out:
    [ccddt * ccddv = 2000 * s * d / (w * (w + d))]. *)
Theorem freq_step_per_pixel_spec (config : config_dict) (w f p g : R) :
  config_get config "center wavelength"%string = Return _ w ->
  config_get config "focal length"%string = Return _ f ->
  config_get config "pixel size"%string = Return _ p ->
  config_get config "grating"%string = Return _ g ->
  let d := g * p / f in
  (w <> 0 -> f <> 0 -> p <> 0 -> w + d <> 0 ->
   freq_step_per_pixel 0 config
   = Return _ (SPEEDOFLIGHT / 1000 * d / (w * (w + d))))
  /\ (0 < w -> 0 < f -> 0 < p -> 0 < g ->
      0 < SPEEDOFLIGHT / 1000 * d / (w * (w + d))
        < SPEEDOFLIGHT / 1000 * d / (w * w))
  /\ (w = 0 \/ f = 0 \/ p = 0 \/ (f <> 0 /\ w + d = 0) ->
      freq_step_per_pixel 0 config = Throw _ (Builtin ZeroDivisionError))
  /\ (forall s, w <> 0 -> w + d <> 0 ->
      ccddt_of_step s * (SPEEDOFLIGHT / 1000 * d / (w * (w + d)))
      = 2000 * s * d / (w * (w + d))).
Proof.
  intros Hw Hf Hp Hg d.
  assert (Hc : 0 < SPEEDOFLIGHT) by (unfold SPEEDOFLIGHT; lra).
  split; [|split; [|split]]; cycle 3.
  { intros s Nw Nd. unfold ccddt_of_step. field.
    repeat split; try assumption. lra. }
  - intros Nw Nf Np Nd. unfold freq_step_per_pixel.
    change ((0 =? 0)%Z) with true. cbv iota.
    rewrite Hw, Hf, Hp. cbn [pybind].
    rewrite py_div_nonzero by (intros E; apply Np; lra). cbn [pybind].
    rewrite Hg. cbn [pybind].
    assert (Nq : 1 * f / 1000 / (p / 1000) <> 0).
    { replace (1 * f / 1000 / (p / 1000)) with (f / p) by (field; exact Np).
      intros E. apply Nf.
      apply (Rmult_eq_reg_r (/ p)); [|apply Rinv_neq_0_compat, Np].
      unfold Rdiv in E. rewrite E. ring. }
    rewrite py_div_nonzero by exact Nq. cbn [pybind].
    rewrite py_div_nonzero by exact Nw. cbn [pybind].
    assert (Ed : g / (1 * f / 1000 / (p / 1000)) = d)
      by (unfold d; field; split; assumption).
    rewrite Ed.
    rewrite py_div_nonzero by exact Nd. cbn [pybind]. cbv zeta.
    f_equal. field. split; assumption.
  - intros Pw Pf Pp Pg.
    assert (Pd : 0 < d).
    { unfold d, Rdiv. apply Rmult_lt_0_compat; [nra|].
      apply Rinv_0_lt_compat, Pf. }
    assert (P1 : 0 < w * (w + d)) by nra.
    assert (P2 : 0 < w * w) by nra.
    assert (Pn : 0 < SPEEDOFLIGHT / 1000 * d) by nra.
    split.
    + unfold Rdiv at 1. apply Rmult_lt_0_compat; [exact Pn|].
      apply Rinv_0_lt_compat, P1.
    + unfold Rdiv at 1 3. apply Rmult_lt_compat_l; [exact Pn|].
      apply Rinv_lt_contravar; nra.
  - intros Hz. unfold freq_step_per_pixel.
    change ((0 =? 0)%Z) with true. cbv iota.
    rewrite Hw, Hf, Hp. cbn [pybind].
    destruct (Req_EM_T p 0) as [Ep | Np].
    { replace (p / 1000) with 0 by (rewrite Ep; field).
      rewrite py_div_zero. reflexivity. }
    rewrite py_div_nonzero by (intros E; apply Np; lra). cbn [pybind].
    rewrite Hg. cbn [pybind].
    destruct (Req_EM_T f 0) as [Ef | Nf].
    { replace (1 * f / 1000 / (p / 1000)) with 0 by (rewrite Ef; field; exact Np).
      rewrite py_div_zero. reflexivity. }
    assert (Nq : 1 * f / 1000 / (p / 1000) <> 0).
    { replace (1 * f / 1000 / (p / 1000)) with (f / p) by (field; exact Np).
      intros E. apply Nf.
      apply (Rmult_eq_reg_r (/ p)); [|apply Rinv_neq_0_compat, Np].
      unfold Rdiv in E. rewrite E. ring. }
    rewrite py_div_nonzero by exact Nq. cbn [pybind].
    destruct (Req_EM_T w 0) as [Ew | Nw].
    { rewrite Ew, py_div_zero. reflexivity. }
    rewrite py_div_nonzero by exact Nw. cbn [pybind].
    assert (Ed : g / (1 * f / 1000 / (p / 1000)) = d)
      by (unfold d; field; split; assumption).
    rewrite Ed.
    destruct Hz as [E | [E | [E | [_ E]]]]; try contradiction.
    rewrite E, py_div_zero. reflexivity.
Qed.

Lemma freq_step_per_pixel_spec_witness :
  let config := [("center wavelength"%string, 390); ("focal length"%string, 200);
                 ("pixel size"%string, 586 / 100); ("grating"%string, 81 / 100);
                 ("pxls width"%string, 1936)] in
  let d := 81 / 100 * (586 / 100) / 200 in
  (390 <> 0 -> 200 <> 0 -> 586 / 100 <> 0 -> 390 + d <> 0 ->
   freq_step_per_pixel 0 config
   = Return _ (SPEEDOFLIGHT / 1000 * d / (390 * (390 + d))))
  /\ (0 < 390 -> 0 < 200 -> 0 < 586 / 100 -> 0 < 81 / 100 ->
      0 < SPEEDOFLIGHT / 1000 * d / (390 * (390 + d))
        < SPEEDOFLIGHT / 1000 * d / (390 * 390))
  /\ (390 = 0 \/ 200 = 0 \/ 586 / 100 = 0 \/ (200 <> 0 /\ 390 + d = 0) ->
      freq_step_per_pixel 0 config = Throw _ (Builtin ZeroDivisionError))
  /\ (forall s, 390 <> 0 -> 390 + d <> 0 ->
      ccddt_of_step s * (SPEEDOFLIGHT / 1000 * d / (390 * (390 + d)))
      = 2000 * s * d / (390 * (390 + d))).
Proof.
  intros config d.
  apply (freq_step_per_pixel_spec config 390 200 (586 / 100) (81 / 100));
    reflexivity.
Defined.
